(** * i3 workspace manager: a shallow embedding of [src/workspace.c]

    The container tree of i3 is a pointer structure: every [Con] is linked
    into its parent's [nodes_head] / [floating_head] / [focus_head] queues
    and carries a [parent] back pointer; [croot], [focused] and
    [previous_workspace_name] are globals.  The embedding keeps that shape:
    a store maps addresses to [Con] records, queues are lists of addresses,
    and every function of the source is a function on the store.  A
    function that can abort (a failed [assert]), dereference an address
    that is not allocated, or loop returns in the error monad [res]. *)

From stdpp Require Import gmap strings list fin_maps pretty.
From Stdlib Require Import ZArith Ascii.

(** ** The error monad *)

Inductive error :=
  | AssertFailed   (* assert(false) was reached: the process aborts *)
  | BadPointer     (* an address that is not allocated was dereferenced *)
  | OutOfFuel.     (* the recursion budget of the model was exhausted *)

Inductive res (A : Type) :=
  | Ok (a : A)
  | Err (e : error).
Arguments Ok {A} a.
Arguments Err {A} e.

Definition bind {A B : Type} (m : res A) (f : A → res B) : res B :=
  match m with
  | Ok a => f a
  | Err e => Err e
  end.

Notation "'let*' x ':=' m 'in' k" := (bind m (fun x => k))
  (at level 10, x binder, m at level 100, k at level 200,
   format "'[v' 'let*'  x  ':='  m  'in' '/' k ']'").

(** ** C strings and libc *)

Module Libc.

(** [tolower] in the C locale. *)
Definition tolower (c : ascii) : ascii :=
  let n := nat_of_ascii c in
  if (65 <=? n)%nat && (n <=? 90)%nat then ascii_of_nat (n + 32) else c.

(** [strcmp(a, b) == 0]. *)
Definition streq (a b : string) : bool := String.eqb a b.

(** [strcasecmp(a, b) == 0]. *)
Fixpoint strcaseeq (a b : string) : bool :=
  match a, b with
  | EmptyString, EmptyString => true
  | String x a', String y b' =>
      Ascii.eqb (tolower x) (tolower y) && strcaseeq a' b'
  | _, _ => false
  end.

(** [strncasecmp(a, b, n) == 0]: at most [n] characters are compared. *)
Fixpoint strncaseeq (n : nat) (a b : string) : bool :=
  match n with
  | O => true
  | S n' =>
      match a, b with
      | EmptyString, EmptyString => true
      | String x a', String y b' =>
          Ascii.eqb (tolower x) (tolower y) && strncaseeq n' a' b'
      | _, _ => false
      end
  end.

(** [s + n] for a C string with [n <= strlen(s)]. *)
Fixpoint advance (n : nat) (s : string) : string :=
  match n, s with
  | S n', String _ s' => advance n' s'
  | _, _ => s
  end.

Definition isspace (c : ascii) : bool :=
  let n := nat_of_ascii c in
  (n =? 32)%nat || ((9 <=? n)%nat && (n <=? 13)%nat).

Definition isdigit (c : ascii) : bool :=
  let n := nat_of_ascii c in (48 <=? n)%nat && (n <=? 57)%nat.

Definition digit_value (c : ascii) : Z := Z.of_nat (nat_of_ascii c) - 48.

(** [long] is 64 bits wide and [int] 32 bits (LP64). *)
Definition LONG_MAX : Z := 2 ^ 63 - 1.
Definition LONG_MIN : Z := - 2 ^ 63.
Definition INT_MAX : Z := 2 ^ 31 - 1.

(** Conversion of a [long] to [int]: the value is reduced modulo 2^32
    into the range of [int]. *)
Definition int_of_long (v : Z) : Z := (v + 2 ^ 31) mod 2 ^ 32 - 2 ^ 31.

Fixpoint skip_space (s : string) : string :=
  match s with
  | String c s' => if isspace c then skip_space s' else s
  | EmptyString => s
  end.

(** The digit sequence of [strtol]: the accumulated value and the
    number of digits read. *)
Fixpoint digits (acc : Z) (count : nat) (s : string) : Z * nat :=
  match s with
  | String c s' =>
      if isdigit c then digits (10 * acc + digit_value c) (S count) s'
      else (acc, count)
  | EmptyString => (acc, count)
  end.

(** [strtol(nptr, &endptr, 10)]: white space, an optional sign, decimal
    digits.  The result is the value, clamped to the range of [long], and
    whether [endptr == nptr], which is the case exactly when no digit
    was read. *)
Definition strtol (nptr : string) : Z * bool :=
  let s := skip_space nptr in
  let '(negative, s) :=
    match s with
    | String c s' =>
        if Ascii.eqb c "-" then (true, s')
        else if Ascii.eqb c "+" then (false, s')
        else (false, s)
    | EmptyString => (false, s)
    end in
  let '(v, count) := digits 0 0 s in
  match count with
  | O => (0, true)
  | S _ =>
      let v := if negative then - v else v in
      (Z.max LONG_MIN (Z.min LONG_MAX v), false)
  end%Z.

End Libc.

(** ** include/data.h *)

Abbreviation ptr := positive.

Inductive orientation_t := NO_ORIENTATION | HORIZ | VERT.

Inductive con_type :=
  | CT_ROOT | CT_OUTPUT | CT_CON | CT_FLOATING_CON | CT_WORKSPACE | CT_DOCKAREA.

Inductive fullscreen_mode_t := CF_NONE | CF_OUTPUT | CF_GLOBAL.

(** [workspace.c] uses [L_SPLITV] and [L_SPLITH] next to the layouts that
    [data.h] lists. *)
Inductive layout_t :=
  | L_DEFAULT | L_STACKED | L_TABBED | L_DOCKAREA | L_OUTPUT | L_SPLITV | L_SPLITH.

#[global] Instance con_type_eq_dec : EqDecision con_type.
Proof. solve_decision. Defined.
#[global] Instance fullscreen_mode_eq_dec : EqDecision fullscreen_mode_t.
Proof. solve_decision. Defined.
#[global] Instance layout_eq_dec : EqDecision layout_t.
Proof. solve_decision. Defined.
#[global] Instance orientation_eq_dec : EqDecision orientation_t.
Proof. solve_decision. Defined.

Record Rect := mkRect { rect_x : Z; rect_y : Z; width : Z; height : Z }.

Record i3Window := mkWindow {
  window_id : Z;
  needs_take_focus : bool;
}.

Record Workspace_Assignment := mkAssignment {
  assignment_name : string;
  assignment_output : string;
}.

Record Binding := mkBinding { command : string }.

Record Con := mkCon {
  mapped : bool;
  type : con_type;
  parent : option ptr;
  rect : Rect;
  name : string;
  num : Z;
  sticky_group : option string;
  window : option i3Window;
  urgent : bool;
  floating_head : list ptr;
  nodes_head : list ptr;
  focus_head : list ptr;
  fullscreen_mode : fullscreen_mode_t;
  layout : layout_t;
  workspace_layout : layout_t;
}.

(** The payload of a workspace event, [{change: init}] and so on. *)
Inductive change_t := change_init | change_empty | change_focus | change_urgent.

(** What the functions below send to the X server and to the IPC clients,
    in the order of the calls.  [tree_render] is the redraw request. *)
Inductive Effect :=
  | x_set_name (con : ptr) (title : string)
  | x_move_win (src dest : ptr)
  | x_reparent_child (con old : ptr)
  | x_unmap_window (window_ : Z)
  | x_set_warp_to (r : Rect)
  | ewmh_update_current_desktop
  | ipc_send_event_workspace (change : change_t)
  | tree_render.

(** The tree and the globals of [tree.c]. *)
Record Tree := mkTree {
  heap : gmap ptr Con;
  croot : ptr;
  focused : ptr;
  effects : list Effect;
}.

(** The part of [config] and the configuration lists that [workspace.c]
    reads. *)
Record Config := mkConfig {
  default_orientation : orientation_t;
  default_layout : layout_t;
  ws_assignments : list Workspace_Assignment;
  bindings : list Binding;
}.

Definition deref (h : gmap ptr Con) (p : ptr) : res Con :=
  match h !! p with
  | Some c => Ok c
  | None => Err BadPointer
  end.

(** ** output.c *)

(** The loop of [output_get_content]: the first element of the queue whose
    type is [CT_CON]; past the end of the queue the assertion fails. *)
Fixpoint first_CT_CON (h : gmap ptr Con) (l : list ptr) : res ptr :=
  match l with
  | [] => Err AssertFailed
  | child :: l' =>
      let* c := deref h child in
      if decide (type c = CT_CON) then Ok child else first_CT_CON h l'
  end.

Definition output_get_content (h : gmap ptr Con) (output : ptr) : res ptr :=
  let* o := deref h output in
  first_CT_CON h (nodes_head o).

(** ** Field updates *)

Definition set_fullscreen_mode (m : fullscreen_mode_t) (c : Con) : Con :=
  mkCon (mapped c) (type c) (parent c) (rect c) (name c) (num c)
    (sticky_group c) (window c) (urgent c) (floating_head c) (nodes_head c)
    (focus_head c) m (layout c) (workspace_layout c).

Definition set_urgent (u : bool) (c : Con) : Con :=
  mkCon (mapped c) (type c) (parent c) (rect c) (name c) (num c)
    (sticky_group c) (window c) u (floating_head c) (nodes_head c)
    (focus_head c) (fullscreen_mode c) (layout c) (workspace_layout c).

Definition set_window (w : option i3Window) (m : bool) (c : Con) : Con :=
  mkCon m (type c) (parent c) (rect c) (name c) (num c)
    (sticky_group c) w (urgent c) (floating_head c) (nodes_head c)
    (focus_head c) (fullscreen_mode c) (layout c) (workspace_layout c).

Definition set_layout (l : layout_t) (c : Con) : Con :=
  mkCon (mapped c) (type c) (parent c) (rect c) (name c) (num c)
    (sticky_group c) (window c) (urgent c) (floating_head c) (nodes_head c)
    (focus_head c) (fullscreen_mode c) l (workspace_layout c).

Definition set_parent (p : option ptr) (c : Con) : Con :=
  mkCon (mapped c) (type c) p (rect c) (name c) (num c)
    (sticky_group c) (window c) (urgent c) (floating_head c) (nodes_head c)
    (focus_head c) (fullscreen_mode c) (layout c) (workspace_layout c).

Definition set_focus_head (l : list ptr) (c : Con) : Con :=
  mkCon (mapped c) (type c) (parent c) (rect c) (name c) (num c)
    (sticky_group c) (window c) (urgent c) (floating_head c) (nodes_head c)
    l (fullscreen_mode c) (layout c) (workspace_layout c).

(** The three queues of a container at once. *)
Definition set_queues (nodes floating focus : list ptr) (c : Con) : Con :=
  mkCon (mapped c) (type c) (parent c) (rect c) (name c) (num c)
    (sticky_group c) (window c) (urgent c) floating nodes
    focus (fullscreen_mode c) (layout c) (workspace_layout c).

Definition set_heap (h : gmap ptr Con) (t : Tree) : Tree :=
  mkTree h (croot t) (focused t) (effects t).

Definition set_focused (p : ptr) (t : Tree) : Tree :=
  mkTree (heap t) (croot t) p (effects t).

(** Effects are recorded in the order of the calls. *)
Definition emit (e : Effect) (t : Tree) : Tree :=
  mkTree (heap t) (croot t) (focused t) (effects t ++ [e]).

(** [p->field = v] for an allocated [p]. *)
Definition update (p : ptr) (f : Con → Con) (t : Tree) : res Tree :=
  let* c := deref (heap t) p in
  Ok (set_heap (<[p := f c]> (heap t)) t).

(** ** Loops *)

(** A loop over a queue that threads the state. *)
Fixpoint foldM {A S : Type} (f : A → S → res S) (l : list A) (s : S) : res S :=
  match l with
  | [] => Ok s
  | a :: l' => let* s' := f a s in foldM f l' s'
  end.

(** A loop over a queue that returns from the function at the first
    element for which the body has a result. *)
Fixpoint first_result {A B : Type} (f : A → res (option B)) (l : list A)
  : res (option B) :=
  match l with
  | [] => Ok None
  | a :: l' =>
      let* r := f a in
      match r with
      | Some b => Ok (Some b)
      | None => first_result f l'
      end
  end.

(** [name[0] == '_' && name[1] == '_'] *)
Definition is_internal_name (s : string) : bool :=
  match s with
  | String "_" (String "_" _) => true
  | _ => false
  end.

(** ** util.h *)

(** [GREP_FIRST(dest, head, condition)]: the first node of [head] that
    satisfies the condition is stored in [dest]; [dest] keeps its value
    when there is none. *)
Definition GREP_FIRST (h : gmap ptr Con) (dest : option ptr) (head : ptr)
    (condition : Con → bool) : res (option ptr) :=
  let* hd := deref h head in
  let* r := first_result
              (fun child =>
                 let* c := deref h child in
                 Ok (if condition c then Some child else None))
              (nodes_head hd) in
  Ok (match r with
      | Some child => Some child
      | None => dest
      end).

(** ** con.c and tree.c

    These files are not part of the sources at hand; the functions that
    [workspace.c] calls are modelled from the specification. *)

(** Modelled from the spec: [con_get_workspace] and [con_get_output] of
    con.c, which is missing.  The spec has [ancestor_of_kind(node, kind) →
    node?], which walks parents; the walk starts at the node itself, and
    the result is NULL when the root is passed. *)
Fixpoint ancestor_of_kind (fuel : nat) (h : gmap ptr Con) (kind : con_type)
    (node : option ptr) : res (option ptr) :=
  match node with
  | None => Ok None
  | Some p =>
      match fuel with
      | O => Err OutOfFuel
      | S fuel' =>
          let* c := deref h p in
          if decide (type c = kind) then Ok (Some p)
          else ancestor_of_kind fuel' h kind (parent c)
      end
  end.

Definition con_get_workspace (fuel : nat) (h : gmap ptr Con) (con : ptr)
  : res (option ptr) :=
  ancestor_of_kind fuel h CT_WORKSPACE (Some con).

Definition con_get_output (fuel : nat) (h : gmap ptr Con) (con : ptr)
  : res (option ptr) :=
  ancestor_of_kind fuel h CT_OUTPUT (Some con).

(** Dereferencing a pointer that may be NULL. *)
Definition nonnull (p : option ptr) : res ptr :=
  match p with
  | Some p => Ok p
  | None => Err BadPointer
  end.

(** Modelled from the spec: [con_new] of con.c, which is missing.  The
    spec has [new_container(kind) → Container], which allocates with
    default state (no children, [fullscreen_mode = none]); the address is
    one that is not allocated. *)
Definition default_con : Con :=
  mkCon false CT_CON None (mkRect 0 0 0 0) "" 0%Z None None false [] [] []
    CF_NONE L_DEFAULT L_DEFAULT.

Definition con_new (t : Tree) : ptr * Tree :=
  let p := fresh (dom (heap t)) in
  (p, set_heap (<[p := default_con]> (heap t)) t).

(** Modelled from the spec: [con_attach] of con.c, which is missing.  The
    spec has [attach(child, parent, at_head?)], which inserts child into
    [parent.children], sets [child.parent = parent] and pushes child to the
    back of [parent.focus_stack]; [workspace.c] attaches workspaces at the
    tail.  Percentages are not part of this model. *)
Definition con_attach (con parent_ : ptr) (t : Tree) : res Tree :=
  let* t := update con (set_parent (Some parent_)) t in
  update parent_
    (fun p => set_queues (nodes_head p ++ [con]) (floating_head p)
                (focus_head p ++ [con]) p) t.

(** Modelled from the spec: [con_descend_focused] of con.c, which is
    missing.  The spec has [descend_focused(root) → leaf], which follows
    the focus-stack head from root until reaching a LEAF or an empty
    container. *)
Fixpoint con_descend_focused (fuel : nat) (h : gmap ptr Con) (con : ptr)
  : res ptr :=
  match fuel with
  | O => Err OutOfFuel
  | S fuel' =>
      let* c := deref h con in
      match focus_head c with
      | [] => Ok con
      | first :: _ => con_descend_focused fuel' h first
      end
  end.

(** The ancestors' focus stacks of [con_focus]: in every ancestor the
    child on the path moves to the head of the focus stack. *)
Fixpoint con_focus_loop (fuel : nat) (con : ptr) (t : Tree) : res Tree :=
  match fuel with
  | O => Err OutOfFuel
  | S fuel' =>
      let* c := deref (heap t) con in
      match parent c with
      | None => Ok t
      | Some p =>
          let* t := update p
                      (fun pc => set_focus_head
                                   (con :: filter (fun q => q ≠ con) (focus_head pc))
                                   pc) t in
          con_focus_loop fuel' p t
      end
  end.

(** Modelled from the spec: [con_focus] of con.c, which is missing.  The
    spec has [focus(leaf)]: for each ancestor from leaf to root, moves the
    relevant child to the head of that ancestor's focus stack; the leaf
    becomes the global focused leaf.  The X11 input focus follows when the
    reactor pushes the tree state (see [x_push_focus]); the record of the
    previously focused leaf, which [workspace.c] does not read, is left
    out. *)
Definition con_focus (fuel : nat) (con : ptr) (t : Tree) : res Tree :=
  let* t := con_focus_loop fuel con t in
  Ok (set_focused con t).

(** The breadth-first search of [con_get_fullscreen_con], one level of
    the tree at a time. *)
Fixpoint fullscreen_bfs (fuel : nat) (h : gmap ptr Con)
    (mode : fullscreen_mode_t) (level : list ptr) : res (option ptr) :=
  match level with
  | [] => Ok None
  | _ :: _ =>
      match fuel with
      | O => Err OutOfFuel
      | S fuel' =>
          let* found := first_result
                          (fun p =>
                             let* c := deref h p in
                             Ok (if decide (fullscreen_mode c = mode)
                                 then Some p else None))
                          level in
          match found with
          | Some p => Ok (Some p)
          | None =>
              let* below := foldM
                              (fun p acc =>
                                 let* c := deref h p in
                                 Ok (acc ++ nodes_head c ++ floating_head c))
                              level [] in
              fullscreen_bfs fuel' h mode below
          end
      end
  end.

(** Modelled from the spec: [con_get_fullscreen_con] of con.c, which is
    missing.  The spec has the invariant that exactly one WORKSPACE per
    OUTPUT has [fullscreen_mode = output] (the visible one); the function
    returns the container below [con] that has the given fullscreen mode,
    the one nearest to [con] when there are several, or NULL. *)
Definition con_get_fullscreen_con (fuel : nat) (h : gmap ptr Con) (con : ptr)
    (mode : fullscreen_mode_t) : res (option ptr) :=
  let* c := deref h con in
  fullscreen_bfs fuel h mode (nodes_head c ++ floating_head c).

(** [kill_window_t] of data.h. *)
Inductive kill_window_t := DONT_KILL_WINDOW | KILL_WINDOW | KILL_CLIENT.

(** The container is unlinked from the queues of its parent and freed;
    the reactor is asked to unmap its window. *)
Definition detach_and_free (con : ptr) (t : Tree) : res Tree :=
  let* c := deref (heap t) con in
  let* t :=
    match parent c with
    | None => Ok t
    | Some p =>
        update p
          (fun pc => set_queues (filter (fun q => q ≠ con) (nodes_head pc))
                       (filter (fun q => q ≠ con) (floating_head pc))
                       (filter (fun q => q ≠ con) (focus_head pc)) pc) t
    end in
  let t := match window c with
           | Some win => emit (x_unmap_window (window_id win)) t
           | None => t
           end in
  Ok (set_heap (delete con (heap t)) t).

(** Modelled from the spec: [tree_close] of tree.c, which is missing.  The
    spec has [close(node, kill_policy, dont_kill_parent?)], a recursive
    teardown: the children are closed first, then the node is eliminated.
    When the global focused leaf is freed, the focused leaf is again the
    tail of the chain obtained by following each container's focus-stack
    head from the root (invariant 6 of the data model).  Windows are not
    killed under [DONT_KILL_WINDOW], the only policy [workspace.c] uses;
    the two flags of the call are not read. *)
Fixpoint tree_close_rec (fuel : nat) (con : ptr) (t : Tree) : res Tree :=
  match fuel with
  | O => Err OutOfFuel
  | S fuel' =>
      let* c := deref (heap t) con in
      let* t := foldM (tree_close_rec fuel') (nodes_head c) t in
      let* t := foldM (tree_close_rec fuel') (floating_head c) t in
      detach_and_free con t
  end.

Definition tree_close (fuel : nat) (con : ptr) (kill_window : kill_window_t)
    (dont_kill_parent force_set_focus : bool) (t : Tree) : res Tree :=
  let* t := tree_close_rec fuel con t in
  match heap t !! focused t with
  | Some _ => Ok t
  | None =>
      let* next := con_descend_focused fuel (heap t) (croot t) in
      Ok (set_focused next t)
  end.

(** ** workspace.c *)

(** The state of [workspace.c]: the tree and the file's static variable. *)
Record World := mkWorld {
  tree : Tree;
  previous_workspace_name : option string;
}.

Definition _workspace_apply_default_orientation (fuel : nat) (cfg : Config)
    (ws : ptr) (t : Tree) : res Tree :=
  match default_orientation cfg with
  | NO_ORIENTATION =>
      let* output := con_get_output fuel (heap t) ws in
      let* output := nonnull output in
      let* o := deref (heap t) output in
      update ws
        (set_layout (if (width (rect o) <? height (rect o))%Z
                     then L_SPLITV else L_SPLITH)) t
  | HORIZ => update ws (set_layout L_SPLITH) t
  | VERT => update ws (set_layout L_SPLITV) t
  end.

(** The loop that [workspace_get] and [create_workspace_on_output] run to
    look a workspace up:
    [TAILQ_FOREACH(output, &(croot->nodes_head), nodes)
       GREP_FIRST(workspace, output_get_content(output),
                  !strcasecmp(child->name, num));] *)
Fixpoint workspace_by_name_loop (h : gmap ptr Con) (num_ : string)
    (outputs : list ptr) (workspace : option ptr) : res (option ptr) :=
  match outputs with
  | [] => Ok workspace
  | output :: outputs' =>
      let* content := output_get_content h output in
      let* workspace :=
        GREP_FIRST h workspace content
          (fun child => Libc.strcaseeq (name child) num_) in
      workspace_by_name_loop h num_ outputs' workspace
  end.

Definition workspace_by_name (t : Tree) (num_ : string) : res (option ptr) :=
  let* r := deref (heap t) (croot t) in
  workspace_by_name_loop (heap t) num_ (nodes_head r) None.

(** The value that both functions store in [->num] for a name: the
    number that [strtol] reads, or -1. *)
Definition parse_workspace_num (name_ : string) : Z :=
  let '(parsed_num, endptr_is_num) := Libc.strtol name_ in
  if (parsed_num =? Libc.LONG_MIN)%Z
     || (parsed_num =? Libc.LONG_MAX)%Z
     || (parsed_num <? 0)%Z
     || endptr_is_num
  then (-1)%Z
  else Libc.int_of_long parsed_num.

(** The assignment loop of [workspace_get]: the first assignment with the
    name decides, also when its output does not exist. *)
Fixpoint assigned_output (t : Tree) (num_ : string)
    (assignments : list Workspace_Assignment) (output : option ptr)
  : res (option ptr) :=
  match assignments with
  | [] => Ok output
  | assignment :: assignments' =>
      if negb (Libc.streq (assignment_name assignment) num_)
      then assigned_output t num_ assignments' output
      else GREP_FIRST (heap t) output (croot t)
             (fun child => Libc.streq (name child) (assignment_output assignment))
  end.

Definition init_workspace (name_ : string) (layout_ : layout_t)
    (content : ptr) (c : Con) : Con :=
  mkCon (mapped c) CT_WORKSPACE (Some content) (rect c) name_
    (parse_workspace_num name_)
    (sticky_group c) (window c) (urgent c) (floating_head c) (nodes_head c)
    (focus_head c) (fullscreen_mode c) (layout c) layout_.

(** [workspace_get(num, &created)]; the result is the workspace and the
    value stored in [created]. *)
Definition workspace_get (fuel : nat) (cfg : Config) (num_ : string)
    (t : Tree) : res (ptr * bool * Tree) :=
  let* workspace := workspace_by_name t num_ in
  match workspace with
  | None =>
      let* output := con_get_output fuel (heap t) (focused t) in
      let* output := assigned_output t num_ (ws_assignments cfg) output in
      let* output := nonnull output in
      let* content := output_get_content (heap t) output in
      let '(workspace, t) := con_new t in
      let t := emit (x_set_name workspace ("[i3 con] workspace " +:+ num_)) t in
      let* t := update workspace
                  (init_workspace num_ (default_layout cfg) content) t in
      let* t := _workspace_apply_default_orientation fuel cfg workspace t in
      let* t := con_attach workspace content t in
      let t := emit (ipc_send_event_workspace change_init) t in
      Ok (workspace, true, t)
  | Some workspace => Ok (workspace, false, t)
  end.

(** The double quote character. *)
Definition dquote : ascii := ascii_of_nat 34.

(** [s[strlen(s)-1]] and the string without its last character. *)
Fixpoint last_char (s : string) : option ascii :=
  match s with
  | EmptyString => None
  | String c EmptyString => Some c
  | String _ s' => last_char s'
  end.

Fixpoint drop_last (s : string) : string :=
  match s with
  | EmptyString => EmptyString
  | String c EmptyString => EmptyString
  | String c s' => String c (drop_last s')
  end.

(** The words after [workspace] that are commands and not names. *)
Definition is_workspace_command_word (target : string) : bool :=
  Libc.strncaseeq 4 target "next"
  || Libc.strncaseeq 4 target "prev"
  || Libc.strncaseeq 14 target "next_on_output"
  || Libc.strncaseeq 14 target "prev_on_output"
  || Libc.strncaseeq 6 target "number"
  || Libc.strncaseeq 14 target "back_and_forth"
  || Libc.strncaseeq 7 target "current".

(** The inner assignment loop of [create_workspace_on_output]: the name is
    assigned to a different output. *)
Definition assigned_elsewhere (cfg : Config) (ws_name output_name : string)
  : bool :=
  existsb
    (fun assignment =>
       Libc.streq (assignment_name assignment) ws_name
       && negb (Libc.streq (assignment_output assignment) output_name))
    (ws_assignments cfg).

(** What the binding loop of [create_workspace_on_output] leaves behind:
    [ws->name], [ws->num] and [exists]. *)
Record binding_state := mkBindingState {
  bs_name : string;
  bs_num : Z;
  bs_exists : bool;
}.

(** The loop over the bindings.  A binding of the exact command
    [workspace ] has an empty target, and [ws->name[strlen(ws->name)-1]] is
    then a read before the string. *)
Fixpoint binding_loop (cfg : Config) (t : Tree) (output_name : string)
    (binds : list Binding) (st : binding_state) : res binding_state :=
  match binds with
  | [] => Ok st
  | bind_ :: binds' =>
      if (String.length (command bind_) <? 10)%nat
         || negb (Libc.strncaseeq 9 (command bind_) "workspace")
      then binding_loop cfg t output_name binds' st
      else
        let target := Libc.advance 10 (command bind_) in
        if is_workspace_command_word target
        then binding_loop cfg t output_name binds' st
        else
          let target :=
            match target with
            | String c target' =>
                if Ascii.eqb c dquote then target' else target
            | EmptyString => target
            end in
          match last_char target with
          | None => Err BadPointer
          | Some c =>
              let ws_name := if Ascii.eqb c dquote then drop_last target
                             else target in
              let st := mkBindingState ws_name (bs_num st) (bs_exists st) in
              if assigned_elsewhere cfg ws_name output_name
              then binding_loop cfg t output_name binds' st
              else
                let* current := workspace_by_name t ws_name in
                match current with
                | Some _ =>
                    binding_loop cfg t output_name binds'
                      (mkBindingState ws_name (bs_num st) true)
                | None =>
                    Ok (mkBindingState ws_name
                          (parse_workspace_num ws_name) false)
                end
          end
  end.

(** [while (exists) { c++; ... }]: called with the value of [c] before the
    increment, it returns the [c] and the name at which the loop ends. *)
Fixpoint next_unused_number (fuel : nat) (t : Tree) (c : Z)
  : res (Z * string) :=
  match fuel with
  | O => Err OutOfFuel
  | S fuel' =>
      let c := (c + 1)%Z in
      let ws_name := pretty c in
      let* current := workspace_by_name t ws_name in
      match current with
      | Some _ => next_unused_number fuel' t c
      | None => Ok (c, ws_name)
      end
  end.

(** [create_workspace_on_output(output, content)]; of [output] only the
    name is read. *)
Definition create_workspace_on_output (fuel : nat) (cfg : Config)
    (output_name : string) (content : ptr) (t : Tree) : res (ptr * Tree) :=
  let '(ws, t) := con_new t in
  let* t := update ws
              (fun c => mkCon (mapped c) CT_WORKSPACE (parent c) (rect c)
                          (name c) (num c) (sticky_group c) (window c)
                          (urgent c) (floating_head c) (nodes_head c)
                          (focus_head c) (fullscreen_mode c) (layout c)
                          (workspace_layout c)) t in
  let* st := binding_loop cfg t output_name (bindings cfg)
               (mkBindingState "" 0%Z true) in
  let* st :=
    if bs_exists st
    then
      let* '(c, ws_name) := next_unused_number fuel t 0%Z in
      Ok (mkBindingState ws_name c false)
    else Ok st in
  let* t := update ws
              (fun c => mkCon (mapped c) (type c) (parent c) (rect c)
                          (bs_name st) (bs_num st) (sticky_group c) (window c)
                          (urgent c) (floating_head c) (nodes_head c)
                          (focus_head c) (fullscreen_mode c) (layout c)
                          (workspace_layout c)) t in
  let* t := con_attach ws content t in
  let t := emit (x_set_name ws ("[i3 con] workspace " +:+ bs_name st)) t in
  let* t := update ws (set_fullscreen_mode CF_OUTPUT) t in
  let* t := update ws
              (fun c => mkCon (mapped c) (type c) (parent c) (rect c)
                          (name c) (num c) (sticky_group c) (window c)
                          (urgent c) (floating_head c) (nodes_head c)
                          (focus_head c) (fullscreen_mode c) (layout c)
                          (default_layout cfg)) t in
  let* t := _workspace_apply_default_orientation fuel cfg ws t in
  Ok (ws, t).

Definition workspace_is_visible (fuel : nat) (h : gmap ptr Con) (ws : ptr)
  : res bool :=
  let* output := con_get_output fuel h ws in
  match output with
  | None => Ok false
  | Some output =>
      let* fs := con_get_fullscreen_con fuel h output CF_OUTPUT in
      Ok (bool_decide (fs = Some ws))
  end.

(** The test of both loops of [_get_sticky]. *)
Definition is_sticky_source (h : gmap ptr Con) (sticky_group_ : string)
    (exclude current : ptr) : res bool :=
  let* c := deref h current in
  Ok (bool_decide (current ≠ exclude)
      && match sticky_group c with
         | Some g => bool_decide (is_Some (window c)) && Libc.streq g sticky_group_
         | None => false
         end).

Fixpoint _get_sticky (fuel : nat) (h : gmap ptr Con) (con : ptr)
    (sticky_group_ : string) (exclude : ptr) : res (option ptr) :=
  match fuel with
  | O => Err OutOfFuel
  | S fuel' =>
      let* c := deref h con in
      let body := fun current =>
        let* hit := is_sticky_source h sticky_group_ exclude current in
        if hit then Ok (Some current)
        else _get_sticky fuel' h current sticky_group_ exclude in
      let* r := first_result body (nodes_head c) in
      match r with
      | Some current => Ok (Some current)
      | None => first_result body (floating_head c)
      end
  end.

(** [workspace_reassign_sticky(con)]; [budget] bounds the walks of the
    functions called in the loop, [fuel] the depth of this recursion. *)
Fixpoint workspace_reassign_sticky (budget fuel : nat) (con : ptr) (t : Tree)
  : res Tree :=
  match fuel with
  | O => Err OutOfFuel
  | S fuel' =>
      let* c := deref (heap t) con in
      let* t :=
        foldM
          (fun current t =>
             let* cur := deref (heap t) current in
             match sticky_group cur with
             | None => workspace_reassign_sticky budget fuel' current t
             | Some group =>
                 let* output := con_get_output budget (heap t) current in
                 let* output := nonnull output in
                 let* src := _get_sticky budget (heap t) output group current in
                 match src with
                 | None => workspace_reassign_sticky budget fuel' current t
                 | Some src =>
                     let t := emit (x_move_win src current) t in
                     let* s := deref (heap t) src in
                     let* t := update current (set_window (window s) true) t in
                     let* t := update src (set_window None false) t in
                     Ok (emit (x_reparent_child current src) t)
                 end
             end)
          (nodes_head c) t in
      foldM (workspace_reassign_sticky budget fuel') (floating_head c) t
  end.

(** The first loop of [_workspace_show]: fullscreen is disabled for all
    workspaces of the output; [old] is the last one that had it. *)
Definition disable_fullscreen (current : ptr) (st : option ptr * Tree)
  : res (option ptr * Tree) :=
  let '(old, t) := st in
  let* c := deref (heap t) current in
  let old := if decide (fullscreen_mode c = CF_OUTPUT) then Some current else old in
  let* t := update current (set_fullscreen_mode CF_NONE) t in
  Ok (old, t).

(** The part of [_workspace_show] that closes the workspace [old] when it
    is empty and not visible (lines 354-361). *)
Definition close_if_empty (fuel : nat) (old : option ptr) (t : Tree)
  : res Tree :=
  match old with
  | None => Ok t
  | Some old =>
      let* o := deref (heap t) old in
      match nodes_head o, floating_head o with
      | [], [] =>
          let* visible := workspace_is_visible fuel (heap t) old in
          if visible then Ok t
          else
            let* t := tree_close fuel old DONT_KILL_WINDOW false false t in
            Ok (emit (ipc_send_event_workspace change_empty) t)
      | _, _ => Ok t
      end
  end.

(** The end of [_workspace_show]: the focus moves to [next] (lines
    363-379). *)
Definition focus_next (fuel : nat) (workspace next : ptr) (t : Tree)
  : res Tree :=
  let* old_output := con_get_output fuel (heap t) (focused t) in
  let* t := con_focus fuel next t in
  let* t := update workspace (set_fullscreen_mode CF_OUTPUT) t in
  let* new_output := con_get_output fuel (heap t) (focused t) in
  let* t :=
    if decide (old_output = new_output) then Ok t
    else
      let* n := deref (heap t) next in
      Ok (emit (x_set_warp_to (rect n)) t) in
  let t := emit ewmh_update_current_desktop t in
  Ok (emit (ipc_send_event_workspace change_focus) t).

(** The part of [_workspace_show] after the name of the current workspace
    is remembered (lines 349-379). *)
Definition workspace_show_switch (fuel : nat) (workspace : ptr)
    (old : option ptr) (t : Tree) : res Tree :=
  let* t := workspace_reassign_sticky fuel fuel workspace t in
  let* next := con_descend_focused fuel (heap t) workspace in
  let* t := close_if_empty fuel old t in
  focus_next fuel workspace next t.

Definition _workspace_show (fuel : nat) (workspace : ptr) (w : World)
  : res World :=
  let t := tree w in
  let* ws := deref (heap t) workspace in
  if is_internal_name (name ws) then Ok w
  else
    let* content := nonnull (parent ws) in
    let* c := deref (heap t) content in
    let* '(old, t) := foldM disable_fullscreen (nodes_head c) (None, t) in
    let* t := update workspace (set_fullscreen_mode CF_OUTPUT) t in
    let* current := con_get_workspace fuel (heap t) (focused t) in
    if decide (Some workspace = current)
    then Ok (mkWorld t (previous_workspace_name w))
    else
      let* previous :=
        match current with
        | None => Ok None
        | Some current =>
            let* cur := deref (heap t) current in
            Ok (Some (name cur))
        end in
      let* t := workspace_show_switch fuel workspace old t in
      Ok (mkWorld t previous).

Definition workspace_show (fuel : nat) (workspace : ptr) (w : World)
  : res World :=
  _workspace_show fuel workspace w.

Definition workspace_show_by_name (fuel : nat) (cfg : Config) (num_ : string)
    (w : World) : res World :=
  let* '(workspace, changed_num_workspaces, t) :=
    workspace_get fuel cfg num_ (tree w) in
  _workspace_show fuel workspace (mkWorld t (previous_workspace_name w)).

Definition workspace_back_and_forth (fuel : nat) (cfg : Config) (w : World)
  : res World :=
  match previous_workspace_name w with
  | None => Ok w
  | Some previous => workspace_show_by_name fuel cfg previous w
  end.

(** [TAILQ_NEXT(elm, nodes)]: the link is stored in the element; the
    queue it belongs to is the [nodes_head] of its parent.  An element
    that is in no such queue has a NULL link. *)
Fixpoint list_next (elm : ptr) (l : list ptr) : option ptr :=
  match l with
  | [] => None
  | x :: l' => if decide (x = elm) then head l' else list_next elm l'
  end.

Definition TAILQ_NEXT (h : gmap ptr Con) (elm : ptr) : res (option ptr) :=
  let* e := deref h elm in
  match parent e with
  | None => Ok None
  | Some p =>
      let* pc := deref h p in
      Ok (list_next elm (nodes_head pc))
  end.

(** The first loop of [workspace_next] over the workspaces of one output:
    the numbered workspace with the least number above the current one.
    The loop ends at the first named workspace. *)
Fixpoint next_numbered_scan (h : gmap ptr Con) (current_num : Z)
    (children : list ptr) (next : option ptr) : res (option ptr) :=
  match children with
  | [] => Ok next
  | child :: children' =>
      let* c := deref h child in
      if decide (type c ≠ CT_WORKSPACE)
      then next_numbered_scan h current_num children' next
      else if decide (num c = (-1)%Z) then Ok next
      else if (current_num <? num c)%Z
      then
        let* closer :=
          match next with
          | None => Ok true
          | Some n => let* nc := deref h n in Ok (num c <? num nc)%Z
          end in
        next_numbered_scan h current_num children'
          (if closer then Some child else next)
      else next_numbered_scan h current_num children' next
  end.

Definition next_numbered_output (h : gmap ptr Con) (current_num : Z)
    (output : ptr) (next : option ptr) : res (option ptr) :=
  let* o := deref h output in
  if is_internal_name (name o) then Ok next
  else
    let* content := output_get_content h output in
    let* c := deref h content in
    next_numbered_scan h current_num (nodes_head c) next.

(** The second loop over the workspaces of one output: the result is the
    workspace at which the loops are left, if any, and [found_current]. *)
Fixpoint next_named_scan (h : gmap ptr Con) (current : ptr) (current_num : Z)
    (children : list ptr) (found_current : bool) : res (option ptr * bool) :=
  match children with
  | [] => Ok (None, found_current)
  | child :: children' =>
      let* c := deref h child in
      if decide (type c ≠ CT_WORKSPACE)
      then next_named_scan h current current_num children' found_current
      else if decide (child = current)
      then next_named_scan h current current_num children' true
      else if bool_decide (num c = (-1)%Z)
              && (bool_decide (current_num ≠ (-1)%Z) || found_current)
      then Ok (Some child, found_current)
      else next_named_scan h current current_num children' found_current
  end.

Fixpoint next_named_outputs (h : gmap ptr Con) (current : ptr)
    (current_num : Z) (outputs : list ptr) (found_current : bool)
  : res (option ptr) :=
  match outputs with
  | [] => Ok None
  | output :: outputs' =>
      let* o := deref h output in
      if is_internal_name (name o)
      then next_named_outputs h current current_num outputs' found_current
      else
        let* content := output_get_content h output in
        let* c := deref h content in
        let* '(next, found_current) :=
          next_named_scan h current current_num (nodes_head c) found_current in
        match next with
        | Some next => Ok (Some next)
        | None => next_named_outputs h current current_num outputs' found_current
        end
  end.

(** The third loop: the first workspace. *)
Definition first_workspace_child (h : gmap ptr Con) (child : ptr)
    (next : option ptr) : res (option ptr) :=
  let* c := deref h child in
  if decide (type c ≠ CT_WORKSPACE) then Ok next
  else
    let* take :=
      match next with
      | None => Ok true
      | Some n =>
          let* nc := deref h n in
          Ok (bool_decide (num c ≠ (-1)%Z) && (num c <? num nc)%Z)
      end in
    Ok (if take then Some child else next).

Definition first_workspace_output (h : gmap ptr Con) (output : ptr)
    (next : option ptr) : res (option ptr) :=
  let* o := deref h output in
  if is_internal_name (name o) then Ok next
  else
    let* content := output_get_content h output in
    let* c := deref h content in
    foldM (first_workspace_child h) (nodes_head c) next.

Definition workspace_next (fuel : nat) (t : Tree) : res (option ptr) :=
  let h := heap t in
  let* current := con_get_workspace fuel h (focused t) in
  let* current := nonnull current in
  let* cur := deref h current in
  let* next :=
    if decide (num cur = (-1)%Z) then TAILQ_NEXT h current
    else
      let* r := deref h (croot t) in
      foldM (next_numbered_output h (num cur)) (nodes_head r) None in
  match next with
  | Some next => Ok (Some next)
  | None =>
      let* r := deref h (croot t) in
      let* next :=
        next_named_outputs h current (num cur) (nodes_head r) false in
      match next with
      | Some next => Ok (Some next)
      | None => foldM (first_workspace_output h) (nodes_head r) None
      end
  end.

(** A loop that returns true at the first element for which the body
    does. *)
Fixpoint existsM {A : Type} (f : A → res bool) (l : list A) : res bool :=
  match l with
  | [] => Ok false
  | a :: l' =>
      let* b := f a in
      if b then Ok true else existsM f l'
  end.

Fixpoint get_urgency_flag (fuel : nat) (h : gmap ptr Con) (con : ptr)
  : res bool :=
  match fuel with
  | O => Err OutOfFuel
  | S fuel' =>
      let* c := deref h con in
      let body := fun child =>
        let* ch := deref h child in
        if urgent ch then Ok true else get_urgency_flag fuel' h child in
      let* in_nodes := existsM body (nodes_head c) in
      if in_nodes then Ok true else existsM body (floating_head c)
  end.

Definition workspace_update_urgent_flag (fuel : nat) (ws : ptr) (t : Tree)
  : res Tree :=
  let* w := deref (heap t) ws in
  let old_flag := urgent w in
  let* flag := get_urgency_flag fuel (heap t) ws in
  let* t := update ws (set_urgent flag) t in
  if bool_decide (old_flag ≠ flag)
  then Ok (emit (ipc_send_event_workspace change_urgent) t)
  else Ok t.

(** ** x.c *)

Inductive atom := WM_PROTOCOLS | WM_TAKE_FOCUS.

Inductive XRequest :=
  | SetInputFocus (window_ : Z)
  | ClientMessage (window_ : Z) (format : Z) (type_ : atom)
      (data0 : atom) (data1 : Z).

(** Modelled from the spec: the input focus part of x.c, which is missing.
    The spec has: when focusing a LEAF whose descriptor has
    [needs_take_focus] set and the window does not include
    [globally_active] input-model semantics, a ClientMessage of type
    WM_PROTOCOLS with format 32 and data [WM_TAKE_FOCUS, server_time] is
    emitted and SetInputFocus is not called; otherwise the reactor issues
    SetInputFocus.  A container without a window gets no request. *)
Definition x_push_focus (h : gmap ptr Con) (leaf : ptr) (globally_active : bool)
    (server_time : Z) : res (list XRequest) :=
  let* c := deref h leaf in
  match window c with
  | None => Ok []
  | Some win =>
      if needs_take_focus win && negb globally_active
      then Ok [ClientMessage (window_id win) 32 WM_PROTOCOLS WM_TAKE_FOCUS
                 server_time]
      else Ok [SetInputFocus (window_id win)]
  end.

(** * Reference definitions

    The notions in which the properties are stated. *)

(** ** Decimal names *)

Fixpoint all_digits (s : string) : bool :=
  match s with
  | EmptyString => true
  | String c s' => Libc.isdigit c && all_digits s'
  end.

(** The value of a string of decimal digits, most significant digit
    first, continuing from [acc]. *)
Fixpoint decimal_value_from (acc : Z) (s : string) : Z :=
  match s with
  | EmptyString => acc
  | String c s' => decimal_value_from (10 * acc + Libc.digit_value c) s'
  end.

Definition decimal_value (s : string) : Z := decimal_value_from 0 s.

(** A name parses as a non-negative decimal: it is a non-empty string of
    decimal digits. *)
Definition is_decimal (s : string) : bool :=
  match s with
  | EmptyString => false
  | String _ _ => all_digits s
  end.


Definition starts_with_digit (s : string) : bool :=
  match s with
  | EmptyString => false
  | String c _ => Libc.isdigit c
  end.


(** ** Well-formed trees *)

(** The tiling and the floating children of a container. *)
Definition children (c : Con) : list ptr := nodes_head c ++ floating_head c.

(** The queues and back pointers of one container are consistent: its
    children are allocated, point back to it and have a smaller level; its
    parent is allocated and has it as a child; its focus stack holds
    children only.  The level function [lv] witnesses that the links form
    a tree of a height below [bound]. *)
Definition wf_con (lv : ptr → nat) (bound : nat) (h : gmap ptr Con)
    (p : ptr) (c : Con) : bool :=
  (lv p <? bound)%nat
  && forallb
       (fun q =>
          match h !! q with
          | Some cq => bool_decide (parent cq = Some p) && (lv q <? lv p)%nat
          | None => false
          end)
       (children c)
  && match parent c with
     | None => true
     | Some q =>
         match h !! q with
         | Some cq => bool_decide (p ∈ children cq)
         | None => false
         end
     end
  && forallb (fun q => bool_decide (q ∈ children c)) (focus_head c).

Definition wf_tree (lv : ptr → nat) (bound : nat) (h : gmap ptr Con) : Prop :=
  map_Forall (fun p c => wf_con lv bound h p c = true) h.

#[global] Instance wf_tree_dec (lv : ptr → nat) (bound : nat)
  (h : gmap ptr Con) : Decision (wf_tree lv bound h).
Proof. unfold wf_tree. apply _. Defined.

(** [d] is a strict descendant of [p], reached through tiling children or
    floating children. *)
Inductive descendant (h : gmap ptr Con) (p : ptr) : ptr → Prop :=
  | descendant_child (c : Con) (q : ptr) :
      h !! p = Some c → q ∈ children c → descendant h p q
  | descendant_step (c : Con) (q d : ptr) :
      h !! p = Some c → q ∈ children c → descendant h q d → descendant h p d.

(** Some strict descendant of [p] is urgent. *)
Definition urgent_below (h : gmap ptr Con) (p : ptr) : Prop :=
  ∃ d cd, descendant h p d ∧ h !! d = Some cd ∧ urgent cd = true.

(** Everything of a container but its fullscreen mode and its window. *)
Definition skeleton (c : Con) : Con :=
  set_fullscreen_mode CF_NONE (set_window None false c).

(** Everything of a container but its window. *)
Definition frame (c : Con) : Con := set_window None false c.

(** [ws] is a workspace of the output [output]: a node of its content
    container. *)
Definition on_output (h : gmap ptr Con) (ws output : ptr) : Prop :=
  ∃ content cc,
    output_get_content h output = Ok content ∧
    h !! content = Some cc ∧ ws ∈ nodes_head cc.

(** [ws] is a workspace of some output of the tree. *)
Definition is_workspace_of (t : Tree) (ws : ptr) : Prop :=
  ∃ r output,
    heap t !! croot t = Some r ∧ output ∈ nodes_head r ∧
    on_output (heap t) ws output.

(** An output with a content container whose workspaces are allocated. *)
Definition output_ok (h : gmap ptr Con) (output : ptr) : Prop :=
  ∃ content cc,
    output_get_content h output = Ok content ∧ h !! content = Some cc ∧
    ∀ ws, ws ∈ nodes_head cc → is_Some (h !! ws).

(** Every output of the tree has a content container, and the workspaces
    in it are allocated. *)
Definition outputs_ok (t : Tree) : Prop :=
  ∃ r, heap t !! croot t = Some r ∧
    ∀ output, output ∈ nodes_head r → output_ok (heap t) output.

(** The output on which [workspace_get] creates a workspace of the name
    [num_]: the output that the first assignment for the name names, when
    there is an assignment and the output exists; else the output of the
    focused container. *)
Inductive selected_output (cfg : Config) (t : Tree) (num_ : string)
    (focused_output : ptr) : ptr → Prop :=
  | selected_focused :
      (∀ a, a ∈ ws_assignments cfg → assignment_name a ≠ num_) →
      selected_output cfg t num_ focused_output focused_output
  | selected_assigned pre a post r opre target opost tc :
      ws_assignments cfg = pre ++ a :: post →
      (∀ a', a' ∈ pre → assignment_name a' ≠ num_) →
      assignment_name a = num_ →
      heap t !! croot t = Some r →
      nodes_head r = opre ++ target :: opost →
      heap t !! target = Some tc →
      name tc = assignment_output a →
      (∀ o oc, o ∈ opre → heap t !! o = Some oc →
               name oc ≠ assignment_output a) →
      selected_output cfg t num_ focused_output target
  | selected_missing pre a post r :
      ws_assignments cfg = pre ++ a :: post →
      (∀ a', a' ∈ pre → assignment_name a' ≠ num_) →
      assignment_name a = num_ →
      heap t !! croot t = Some r →
      (∀ o oc, o ∈ nodes_head r → heap t !! o = Some oc →
               name oc ≠ assignment_output a) →
      selected_output cfg t num_ focused_output focused_output.

(** A workspace of the name exists on some output. *)
Definition name_in_use (t : Tree) (name_ : string) : Prop :=
  ∃ ws wc, is_workspace_of t ws ∧ heap t !! ws = Some wc ∧ name wc = name_.

(** ** Steps that leave fields alone *)

(** The projection [proj] of every container is the same in both stores;
    in particular the same addresses are allocated. *)
Definition preserves {A : Type} (proj : Con → A) (h h' : gmap ptr Con) : Prop :=
  ∀ p, proj <$> h' !! p = proj <$> h !! p.

(** The links of a container: what the walks through the tree read. *)
Definition links (c : Con)
  : con_type * option ptr * list ptr * list ptr * list ptr :=
  (type c, parent c, nodes_head c, floating_head c, focus_head c).

(** Everything of a container but its fullscreen mode. *)
Definition unfullscreen (c : Con) : Con := set_fullscreen_mode CF_NONE c.

(** Everything of a container but its focus stack. *)
Definition unfocus (c : Con) : Con := set_focus_head [] c.

(** A step from [t] to [t'] that keeps the projection [proj] of every
    container, [croot] and [focused], and emits only effects that satisfy
    [P]. *)
Definition tree_step {A : Type} (proj : Con → A) (P : Effect → Prop)
    (t t' : Tree) : Prop :=
  preserves proj (heap t) (heap t') ∧
  croot t' = croot t ∧ focused t' = focused t ∧
  ∃ es, effects t' = effects t ++ es ∧ Forall P es.

(** The effects of [workspace_reassign_sticky]. *)
Definition sticky_effect (e : Effect) : Prop :=
  match e with
  | x_move_win _ _ | x_reparent_child _ _ => True
  | _ => False
  end.

Definition no_effect (e : Effect) : Prop := False.

(** The back pointer and the children of a container. *)
Definition family (c : Con) : option ptr * list ptr * list ptr :=
  (parent c, nodes_head c, floating_head c).

(** ** The order of workspace_next *)

(** [q] is a numbered workspace with a number above [current_num]. *)
Definition numbered_above (h : gmap ptr Con) (current_num : Z) (q : ptr)
  : Prop :=
  ∃ cq, h !! q = Some cq ∧ type cq = CT_WORKSPACE ∧
        num cq ≠ (-1)%Z ∧ (current_num < num cq)%Z.

(** In the queue of a content container the named workspaces come after
    the numbered ones. *)
Definition named_last (h : gmap ptr Con) (l : list ptr) : Prop :=
  ∀ pre q post cq,
    l = pre ++ q :: post → h !! q = Some cq →
    type cq = CT_WORKSPACE → num cq = (-1)%Z →
    ∀ q' cq', q' ∈ post → h !! q' = Some cq' →
              type cq' = CT_WORKSPACE → num cq' = (-1)%Z.

(** The workspaces that [workspace_next] looks at: those of the outputs
    whose name does not start with two underscores. *)
Definition on_user_output (h : gmap ptr Con) (r : Con) (q : ptr) : Prop :=
  ∃ output oc content cc,
    output ∈ nodes_head r ∧ h !! output = Some oc ∧
    is_internal_name (name oc) = false ∧
    output_get_content h output = Ok content ∧
    h !! content = Some cc ∧ q ∈ nodes_head cc.

(** The outputs are allocated; those that are not internal have a content
    container whose workspaces are allocated and in order. *)
Definition outputs_in_order (h : gmap ptr Con) (r : Con) : Prop :=
  ∀ output, output ∈ nodes_head r →
    ∃ oc, h !! output = Some oc ∧
      (is_internal_name (name oc) = false →
       ∃ content cc,
         output_get_content h output = Ok content ∧
         h !! content = Some cc ∧
         (∀ q, q ∈ nodes_head cc → is_Some (h !! q)) ∧
         named_last h (nodes_head cc)).

(** What the first loop has found after some of the workspaces: nothing
    when none of them has a number above the current one, else one of them
    with the least such number. *)
Definition least_above (h : gmap ptr Con) (current_num : Z)
    (seen : ptr → Prop) (next : option ptr) : Prop :=
  match next with
  | None => ∀ q, seen q → ¬ numbered_above h current_num q
  | Some n =>
      ∃ nc, h !! n = Some nc ∧ seen n ∧ numbered_above h current_num n ∧
            ∀ q cq, seen q → numbered_above h current_num q →
                    h !! q = Some cq → (num nc ≤ num cq)%Z
  end.

(** * Example trees *)

Module Example.

Local Open Scope positive_scope.

Definition rect0 : Rect := mkRect 0 0 1024 768.

Definition con (ty : con_type) (par : option ptr) (nm : string)
    (nodes floating focus : list ptr) : Con :=
  mkCon false ty par rect0 nm 0%Z None None false floating nodes focus
    CF_NONE L_DEFAULT L_DEFAULT.

Definition workspace (par : ptr) (nm : string) (n : Z)
    (fs : fullscreen_mode_t) (nodes floating focus : list ptr) : Con :=
  mkCon false CT_WORKSPACE (Some par) rect0 nm n None None false floating
    nodes focus fs L_SPLITH L_DEFAULT.

Definition leaf (par : ptr) (nm : string) (win : i3Window) (urg : bool)
  : Con :=
  mkCon true CT_CON (Some par) rect0 nm 0%Z None (Some win) urg [] [] []
    CF_NONE L_DEFAULT L_DEFAULT.

(** One monitor [fake-0] with the workspaces 1 (visible, one window), 2
    (one floating window, which is urgent) and foo (one window that
    takes the focus itself), next to the internal output. *)
Definition heap1 : gmap ptr Con :=
  list_to_map
    [ (1, con CT_ROOT None "root" [2; 5] [] [5; 2]);
      (2, con CT_OUTPUT (Some 1) "__i3" [3] [] [3]);
      (3, con CT_CON (Some 2) "content" [4] [] [4]);
      (4, workspace 3 "__i3_scratch" (-1) CF_NONE [] [] []);
      (5, con CT_OUTPUT (Some 1) "fake-0" [6; 7; 8] [] [7; 6; 8]);
      (6, con CT_DOCKAREA (Some 5) "topdock" [] [] []);
      (7, con CT_CON (Some 5) "content" [9; 10; 11] [] [9; 10; 11]);
      (8, con CT_DOCKAREA (Some 5) "bottomdock" [] [] []);
      (9, workspace 7 "1" 1 CF_OUTPUT [12] [] [12]);
      (10, workspace 7 "2" 2 CF_NONE [] [13] [13]);
      (11, workspace 7 "foo" (-1) CF_NONE [15] [] [15]);
      (12, leaf 9 "xterm" (mkWindow 100 false) false);
      (13, con CT_FLOATING_CON (Some 10) "floating" [14] [] [14]);
      (14, leaf 13 "dialog" (mkWindow 101 false) true);
      (15, leaf 11 "editor" (mkWindow 102 true) false) ].

Definition tree1 : Tree := mkTree heap1 1 12 [].

Definition level1 (p : ptr) : nat :=
  match p with
  | 1 => 5%nat
  | 2 | 5 => 4%nat
  | 3 | 6 | 7 | 8 => 3%nat
  | 4 | 9 | 10 | 11 => 2%nat
  | 12 | 13 | 15 => 1%nat
  | _ => 0%nat
  end.

Definition config1 : Config :=
  mkConfig NO_ORIENTATION L_DEFAULT
    [mkAssignment "mail" "fake-0"; mkAssignment "web" "fake-9"]
    [mkBinding "exec xterm"; mkBinding "workspace next";
     mkBinding "workspace 1"; mkBinding "workspace 2"].

(** The same monitor when the visible workspace 1 is empty and focused. *)
Definition heap2 : gmap ptr Con :=
  <[9 := workspace 7 "1" 1 CF_OUTPUT [] [] []]> (delete 12 heap1).

Definition tree2 : Tree := mkTree heap2 1 9 [].

(** The same monitor when workspace 2, with its floating window only, is
    the visible and focused one. *)
Definition heap3 : gmap ptr Con :=
  <[9 := workspace 7 "1" 1 CF_NONE [12] [] [12]]>
    (<[10 := workspace 7 "2" 2 CF_OUTPUT [] [13] [13]]>
       (<[7 := con CT_CON (Some 5) "content" [9; 10; 11] [] [10; 9; 11]]>
          heap1)).

Definition tree3 : Tree := mkTree heap3 1 14 [].

(** A second monitor [fake-1] is attached; its content container has
    no workspace yet. *)
Definition heap4 : gmap ptr Con :=
  <[1 := con CT_ROOT None "root" [2; 5; 16] [] [5; 2; 16]]>
    (<[16 := con CT_OUTPUT (Some 1) "fake-1" [17] [] [17]]>
       (<[17 := con CT_CON (Some 16) "content" [] [] []]> heap1)).

Definition tree4 : Tree := mkTree heap4 1 12 [].

(** A configuration whose first workspace binding names a workspace that
    starts with two underscores. *)
Definition config4 : Config :=
  mkConfig NO_ORIENTATION L_DEFAULT []
    [mkBinding "workspace __x"; mkBinding "workspace 1"].

(** Two monitors: [fake-0] shows the named workspace foo, its only one;
    [fake-1] has workspace 1, with a window, and shows the named
    workspace bar, which has the focus. *)
Definition heap5 : gmap ptr Con :=
  list_to_map
    [ (1, con CT_ROOT None "root" [2; 20; 30] [] [30; 20; 2]);
      (2, con CT_OUTPUT (Some 1) "__i3" [3] [] [3]);
      (3, con CT_CON (Some 2) "content" [4] [] [4]);
      (4, workspace 3 "__i3_scratch" (-1) CF_NONE [] [] []);
      (20, con CT_OUTPUT (Some 1) "fake-0" [21] [] [21]);
      (21, con CT_CON (Some 20) "content" [22] [] [22]);
      (22, workspace 21 "foo" (-1) CF_OUTPUT [] [] []);
      (30, con CT_OUTPUT (Some 1) "fake-1" [31] [] [31]);
      (31, con CT_CON (Some 30) "content" [32; 33] [] [33; 32]);
      (32, workspace 31 "1" 1 CF_NONE [34] [] [34]);
      (33, workspace 31 "bar" (-1) CF_OUTPUT [] [] []);
      (34, leaf 32 "xterm" (mkWindow 100 false) false) ].

Definition tree5 : Tree := mkTree heap5 1 33 [].

(** The same monitors when [fake-0] shows the workspace 5 instead of
    foo. *)
Definition tree6 : Tree :=
  mkTree (<[22 := workspace 21 "5" 5 CF_OUTPUT [] [] []]> heap5) 1 33 [].

End Example.

(** * workspace.c: the other traversals *)

(** [TAILQ_PREV(elm, nodes_head, nodes)]: the element before [elm] in the
    [nodes_head] of its parent, NULL for the first one. *)
Fixpoint list_prev (before : option ptr) (elm : ptr) (l : list ptr)
  : option ptr :=
  match l with
  | [] => None
  | x :: l' => if decide (x = elm) then before else list_prev (Some x) elm l'
  end.

Definition TAILQ_PREV (h : gmap ptr Con) (elm : ptr) : res (option ptr) :=
  let* e := deref h elm in
  match parent e with
  | None => Ok None
  | Some p =>
      let* pc := deref h p in
      Ok (list_prev None elm (nodes_head pc))
  end.

(** The body of the first loop of [workspace_prev]: the numbered
    workspace with the greatest number below the current one.  Named
    workspaces are skipped, the loop does not end at them. *)
Definition prev_numbered_child (h : gmap ptr Con) (current_num : Z)
    (child : ptr) (prev : option ptr) : res (option ptr) :=
  let* c := deref h child in
  if bool_decide (type c ≠ CT_WORKSPACE) || bool_decide (num c = (-1)%Z)
  then Ok prev
  else if (num c <? current_num)%Z
  then
    let* closer :=
      match prev with
      | None => Ok true
      | Some p => let* pc := deref h p in Ok (num pc <? num c)%Z
      end in
    Ok (if closer then Some child else prev)
  else Ok prev.

(** [NODES_FOREACH_REVERSE]: the queue is walked from its last element. *)
Definition prev_numbered_output (h : gmap ptr Con) (current_num : Z)
    (output : ptr) (prev : option ptr) : res (option ptr) :=
  let* o := deref h output in
  if is_internal_name (name o) then Ok prev
  else
    let* content := output_get_content h output in
    let* c := deref h content in
    foldM (prev_numbered_child h current_num) (reverse (nodes_head c)) prev.

(** The second loop of [workspace_prev]; [outputs] is the queue of the
    root from its last element.  The body is that of [workspace_next]. *)
Fixpoint prev_named_outputs (h : gmap ptr Con) (current : ptr)
    (current_num : Z) (outputs : list ptr) (found_current : bool)
  : res (option ptr) :=
  match outputs with
  | [] => Ok None
  | output :: outputs' =>
      let* o := deref h output in
      if is_internal_name (name o)
      then prev_named_outputs h current current_num outputs' found_current
      else
        let* content := output_get_content h output in
        let* c := deref h content in
        let* '(prev, found_current) :=
          next_named_scan h current current_num (reverse (nodes_head c))
            found_current in
        match prev with
        | Some prev => Ok (Some prev)
        | None => prev_named_outputs h current current_num outputs' found_current
        end
  end.

(** The third loop of [workspace_prev]: the last workspace. *)
Definition last_workspace_child (h : gmap ptr Con) (child : ptr)
    (prev : option ptr) : res (option ptr) :=
  let* c := deref h child in
  if decide (type c ≠ CT_WORKSPACE) then Ok prev
  else
    let* take :=
      match prev with
      | None => Ok true
      | Some p => let* pc := deref h p in Ok (num pc <? num c)%Z
      end in
    Ok (if take then Some child else prev).

Definition last_workspace_output (h : gmap ptr Con) (output : ptr)
    (prev : option ptr) : res (option ptr) :=
  let* o := deref h output in
  if is_internal_name (name o) then Ok prev
  else
    let* content := output_get_content h output in
    let* c := deref h content in
    foldM (last_workspace_child h) (reverse (nodes_head c)) prev.

Definition workspace_prev (fuel : nat) (t : Tree) : res (option ptr) :=
  let h := heap t in
  let* current := con_get_workspace fuel h (focused t) in
  let* current := nonnull current in
  let* cur := deref h current in
  let* prev :=
    if decide (num cur = (-1)%Z)
    then
      let* prev := TAILQ_PREV h current in
      match prev with
      | Some p =>
          let* pc := deref h p in
          Ok (if decide (num pc ≠ (-1)%Z) then None else Some p)
      | None => Ok None
      end
    else
      let* r := deref h (croot t) in
      foldM (prev_numbered_output h (num cur)) (reverse (nodes_head r)) None in
  match prev with
  | Some prev => Ok (Some prev)
  | None =>
      let* r := deref h (croot t) in
      let* prev :=
        prev_named_outputs h current (num cur) (reverse (nodes_head r))
          false in
      match prev with
      | Some prev => Ok (Some prev)
      | None =>
          foldM (last_workspace_output h) (reverse (nodes_head r)) None
      end
  end.

(** The content container of the output of the focused container, for
    the traversals that stay on one output. *)
Definition focused_content (h : gmap ptr Con) (output : option ptr)
  : res Con :=
  let* output := nonnull output in
  let* content := output_get_content h output in
  deref h content.

Definition workspace_next_on_output (fuel : nat) (t : Tree)
  : res (option ptr) :=
  let h := heap t in
  let* current := con_get_workspace fuel h (focused t) in
  let* output := con_get_output fuel h (focused t) in
  let* current := nonnull current in
  let* cur := deref h current in
  let* next :=
    if decide (num cur = (-1)%Z) then TAILQ_NEXT h current
    else
      let* c := focused_content h output in
      next_numbered_scan h (num cur) (nodes_head c) None in
  match next with
  | Some next => Ok (Some next)
  | None =>
      let* c := focused_content h output in
      let* '(next, _) :=
        next_named_scan h current (num cur) (nodes_head c) false in
      match next with
      | Some next => Ok (Some next)
      | None =>
          let* c := focused_content h output in
          foldM (first_workspace_child h) (nodes_head c) None
      end
  end.

(** [workspace_prev_on_output] logs the name of the output before it
    looks at the current workspace. *)
Definition workspace_prev_on_output (fuel : nat) (t : Tree)
  : res (option ptr) :=
  let h := heap t in
  let* current := con_get_workspace fuel h (focused t) in
  let* output := con_get_output fuel h (focused t) in
  let* _ := let* output := nonnull output in deref h output in
  let* current := nonnull current in
  let* cur := deref h current in
  let* prev :=
    if decide (num cur = (-1)%Z)
    then
      let* prev := TAILQ_PREV h current in
      match prev with
      | Some p =>
          let* pc := deref h p in
          Ok (if decide (num pc ≠ (-1)%Z) then None else Some p)
      | None => Ok None
      end
    else
      let* c := focused_content h output in
      foldM (prev_numbered_child h (num cur)) (reverse (nodes_head c)) None in
  match prev with
  | Some prev => Ok (Some prev)
  | None =>
      let* c := focused_content h output in
      let* '(prev, _) :=
        next_named_scan h current (num cur) (reverse (nodes_head c)) false in
      match prev with
      | Some prev => Ok (Some prev)
      | None =>
          let* c := focused_content h output in
          foldM (last_workspace_child h) (reverse (nodes_head c)) None
      end
  end.
(** * The workspaces in the order of the traversals *)

(** The queue of the content container of an output; the traversals
    skip the outputs whose name starts with two underscores. *)
Definition output_children (h : gmap ptr Con) (output : ptr) : list ptr :=
  match h !! output with
  | Some oc =>
      if is_internal_name (name oc) then []
      else
        match output_get_content h output with
        | Ok content =>
            match h !! content with
            | Some cc => nodes_head cc
            | None => []
            end
        | Err _ => []
        end
  | None => []
  end.

(** The containers that [workspace_next] visits, in the order of its
    loops; [workspace_prev] visits them from the last one. *)
Definition user_children (h : gmap ptr Con) (r : Con) : list ptr :=
  nodes_head r ≫= output_children h.

(** The output is allocated; when it is not internal it has a content
    container, whose nodes are allocated and point back to it. *)
Definition output_linked (h : gmap ptr Con) (output : ptr) : Prop :=
  ∃ oc, h !! output = Some oc ∧
    (is_internal_name (name oc) = false →
     ∃ content cc,
       output_get_content h output = Ok content ∧
       h !! content = Some cc ∧
       ∀ q, q ∈ nodes_head cc →
            ∃ cq, h !! q = Some cq ∧ parent cq = Some content).

Definition outputs_linked (h : gmap ptr Con) (r : Con) : Prop :=
  ∀ output, output ∈ nodes_head r → output_linked h output.

(** The common shape of the loops that keep the best workspace so far:
    a child that is [good] replaces the one kept when it is [better]. *)
Definition pick_child (good : Con → bool) (better : Con → Con → bool)
    (h : gmap ptr Con) (child : ptr) (kept : option ptr)
  : res (option ptr) :=
  let* c := deref h child in
  if good c
  then
    let* take :=
      match kept with
      | None => Ok true
      | Some p => let* pc := deref h p in Ok (better c pc)
      end in
    Ok (if take then Some child else kept)
  else Ok kept.

(** [kept] is a best one of the good containers in [seen]: no other good
    one is preferred to it. *)
Definition best (h : gmap ptr Con) (good : Con → bool)
    (le : Con → Con → Prop) (seen : list ptr) (kept : option ptr) : Prop :=
  match kept with
  | None => ∀ q cq, q ∈ seen → h !! q = Some cq → good cq = false
  | Some p =>
      ∃ pc, h !! p = Some pc ∧ p ∈ seen ∧ good pc = true ∧
            ∀ q cq, q ∈ seen → h !! q = Some cq → good cq = true → le pc cq
  end.

Definition is_workspace (c : Con) : bool := bool_decide (type c = CT_WORKSPACE).

Definition is_numbered (c : Con) : bool :=
  is_workspace c && bool_decide (num c ≠ (-1)%Z).

(** Every workspace of the outputs that are not internal has a number,
    and no two of them have the same one. *)
Definition all_numbered (h : gmap ptr Con) (r : Con) : Prop :=
  ∀ q cq, q ∈ user_children h r → h !! q = Some cq →
          type cq = CT_WORKSPACE → num cq ≠ (-1)%Z.

Definition distinct_numbers (h : gmap ptr Con) (r : Con) : Prop :=
  ∀ q q' cq cq', q ∈ user_children h r → q' ∈ user_children h r →
                 h !! q = Some cq → h !! q' = Some cq' →
                 type cq = CT_WORKSPACE → type cq' = CT_WORKSPACE →
                 num cq = num cq' → q = q'.
(** The tests of the loops: a numbered workspace above or below the
    number of the current one, and which of two workspaces to keep. *)
Definition above (n : Z) (c : Con) : bool := is_numbered c && (n <? num c)%Z.

Definition below (n : Z) (c : Con) : bool := is_numbered c && (num c <? n)%Z.

Definition lower (c kept : Con) : bool := (num c <? num kept)%Z.

Definition higher (c kept : Con) : bool := (num kept <? num c)%Z.

Definition lower_numbered (c kept : Con) : bool :=
  bool_decide (num c ≠ (-1)%Z) && (num c <? num kept)%Z.

(** The container that a loop has kept is one of those it has seen. *)
Definition kept_in (h : gmap ptr Con) (seen : list ptr) (kept : option ptr)
  : Prop :=
  match kept with
  | None => True
  | Some p => p ∈ seen ∧ is_Some (h !! p)
  end.
(** The orders in which the loops prefer one workspace to another. *)
Definition at_most (kept c : Con) : Prop := (num kept ≤ num c)%Z.

Definition at_least (kept c : Con) : Prop := (num c ≤ num kept)%Z.

Definition at_most_numbered (kept c : Con) : Prop :=
  num c ≠ (-1)%Z → (num kept ≤ num c)%Z.
(** The conditions above as tests, for concrete trees. *)
Definition node_linkedb (h : gmap ptr Con) (content q : ptr) : bool :=
  match h !! q with
  | Some cq => bool_decide (parent cq = Some content)
  | None => false
  end.

Definition output_linkedb (h : gmap ptr Con) (output : ptr) : bool :=
  match h !! output with
  | Some oc =>
      if is_internal_name (name oc) then true
      else
        match output_get_content h output with
        | Ok content =>
            match h !! content with
            | Some cc => forallb (node_linkedb h content) (nodes_head cc)
            | None => false
            end
        | Err _ => false
        end
  | None => false
  end.

Definition outputs_linkedb (h : gmap ptr Con) (r : Con) : bool :=
  forallb (output_linkedb h) (nodes_head r).

Definition number_of (h : gmap ptr Con) (q : ptr) : option Z :=
  match h !! q with
  | Some cq => if is_workspace cq then Some (num cq) else None
  | None => None
  end.

Definition all_numberedb (h : gmap ptr Con) (r : Con) : bool :=
  forallb (fun q => negb (bool_decide (number_of h q = Some (-1)%Z)))
    (user_children h r).

Definition distinct_numbersb (h : gmap ptr Con) (r : Con) : bool :=
  forallb
    (fun q =>
       forallb
         (fun q' =>
            bool_decide (number_of h q = None)
            || bool_decide (number_of h q ≠ number_of h q')
            || bool_decide (q = q'))
         (user_children h r))
    (user_children h r).

(** * Example: two monitors with numbered workspaces

    [fake-0] has the workspaces 1 and 3, [fake-1] the workspaces 2 and 4;
    the focus is on a window of workspace 3. *)
Module Monitors.

Local Open Scope positive_scope.

Definition root : Con :=
  Example.con CT_ROOT None "root" [2; 20; 30] [] [20; 30; 2].

Definition content0 : Con :=
  Example.con CT_CON (Some 20) "content" [22; 23] [] [23; 22].

Definition content1 : Con :=
  Example.con CT_CON (Some 30) "content" [32; 33] [] [32; 33].

Definition ws1 : Con := Example.workspace 21 "1" 1 CF_NONE [] [] [].
Definition ws2 : Con := Example.workspace 31 "2" 2 CF_OUTPUT [] [] [].
Definition ws3 : Con := Example.workspace 21 "3" 3 CF_OUTPUT [24] [] [24].
Definition ws4 : Con := Example.workspace 31 "4" 4 CF_NONE [] [] [].

Definition heap_ : gmap ptr Con :=
  list_to_map
    [ (1, root);
      (2, Example.con CT_OUTPUT (Some 1) "__i3" [3] [] [3]);
      (3, Example.con CT_CON (Some 2) "content" [4] [] [4]);
      (4, Example.workspace 3 "__i3_scratch" (-1) CF_NONE [] [] []);
      (20, Example.con CT_OUTPUT (Some 1) "fake-0" [21] [] [21]);
      (21, content0);
      (22, ws1);
      (23, ws3);
      (24, Example.leaf 23 "xterm" (mkWindow 100 false) false);
      (30, Example.con CT_OUTPUT (Some 1) "fake-1" [31] [] [31]);
      (31, content1);
      (32, ws2);
      (33, ws4) ].

Definition tree_ : Tree := mkTree heap_ 1 24 [].

End Monitors.

(** * Sticky groups *)

(** A container from which [workspace_reassign_sticky] takes the window
    for the group: another container of the group that has a window. *)
Definition sticky_source (h : gmap ptr Con) (sticky_group_ : string)
    (exclude q : ptr) : Prop :=
  ∃ cq, h !! q = Some cq ∧ q ≠ exclude ∧
        sticky_group cq = Some sticky_group_ ∧ is_Some (window cq).
(** Example: the first example tree with a sticky group.  The window of
    workspace 1 is in the group [vid]; workspace foo has a container of
    the group that has no window. *)
Module Sticky.

Local Open Scope positive_scope.

Definition video : Con :=
  mkCon true CT_CON (Some 9) Example.rect0 "video" 0%Z (Some "vid")
    (Some (mkWindow 100 false)) false [] [] [] CF_NONE L_DEFAULT L_DEFAULT.

Definition placeholder : Con :=
  mkCon false CT_CON (Some 11) Example.rect0 "placeholder" 0%Z (Some "vid")
    None false [] [] [] CF_NONE L_DEFAULT L_DEFAULT.

Definition heap_ : gmap ptr Con :=
  <[12 := video]> (<[15 := placeholder]> Example.heap1).

Definition tree_ : Tree := mkTree heap_ 1 12 [].

End Sticky.
(** * Fullscreen modes across a switch *)

(** Every container of [h'] is one of [h] and has its fullscreen mode:
    the step from [h] to [h'] may free containers, but sets no mode. *)
Definition fs_kept (h h' : gmap ptr Con) : Prop :=
  ∀ p c', h' !! p = Some c' →
          ∃ c, h !! p = Some c ∧ fullscreen_mode c' = fullscreen_mode c.
(** A configuration whose bindings name the workspaces 1 and, in double
    quotes, mail, after a binding for [workspace next]. *)
Definition config_bindings : Config :=
  mkConfig HORIZ L_STACKED []
    [mkBinding "workspace next"; mkBinding "workspace 1";
     mkBinding ("workspace " +:+ String dquote ("mail" +:+ String dquote ""))].

(** * i3bar: the workspace buttons and the text of the bar

    [i3bar/src/xcb.c] draws one button per workspace and turns a click on
    the bar into a [workspace] command; [i3bar/src/child.c] reads the
    status line.  The structs [i3_ws] and [status_block] are declared in
    headers that are not among the sources; their fields are those that
    the code reads. *)
Module I3bar.

(** ** Integer types: the value of [v] after the conversion to the type. *)

Definition uint8 (v : Z) : Z := v mod 2 ^ 8.
Definition uint16 (v : Z) : Z := v mod 2 ^ 16.
Definition uint32 (v : Z) : Z := v mod 2 ^ 32.
Definition int16 (v : Z) : Z := (v + 2 ^ 15) mod 2 ^ 16 - 2 ^ 15.
Definition int32 (v : Z) : Z := (v + 2 ^ 31) mod 2 ^ 32 - 2 ^ 31.

(** ** The workspaces of an output *)

Record i3_ws := mk_ws {
  name : string;
  name_width : Z;           (* int: the width of the rendered name *)
  visible : bool;
  focused : bool;
  urgent : bool;
}.

Record i3_output := mk_output {
  bar : Z;                  (* xcb_window_t: the id of the bar window *)
  active : bool;
  workspaces : list i3_ws;  (* a TAILQ; a workspace is its position *)
}.

(** ** handle_button *)

(** [SLIST_FOREACH(walk, outputs, slist) if (walk->bar == bar) break;] *)
Fixpoint clicked_bar (outputs : list i3_output) (bar_ : Z)
  : option i3_output :=
  match outputs with
  | [] => None
  | walk :: outputs' =>
      if (bar walk =? bar_)%Z then Some walk else clicked_bar outputs' bar_
  end.

(** [TAILQ_FOREACH(cur_ws, walk->workspaces, tailq) if (cur_ws->visible)
    break;] *)
Fixpoint visible_ws (wss : list i3_ws) : option nat :=
  match wss with
  | [] => None
  | cur_ws :: wss' =>
      if visible cur_ws then Some 0%nat else S <$> visible_ws wss'
  end.

(** The loop of [case 1]: the button under the pointer; [x] is an
    [int32_t], [name_width + 10] an [int]. *)
Fixpoint clicked_ws (wss : list i3_ws) (x : Z) : option nat :=
  match wss with
  | [] => None
  | cur_ws :: wss' =>
      if (x <? int32 (name_width cur_ws + 10))%Z then Some 0%nat
      else S <$> clicked_ws wss' (int32 (x - int32 (name_width cur_ws + 10)))
  end.

(** The [switch (event->detail)]: the workspace to change to, from the
    visible workspace [cur_ws]; no result is the [return] of [case 1]. *)
Definition select_ws (wss : list i3_ws) (cur_ws : nat) (detail x : Z)
  : option nat :=
  if (detail =? 1)%Z then clicked_ws wss x
  else if (detail =? 4)%Z
  then Some (if (cur_ws =? 0)%nat then (length wss - 1)%nat
             else (cur_ws - 1)%nat)
  else if (detail =? 5)%Z
  then Some (if (cur_ws =? length wss - 1)%nat then 0%nat
             else (cur_ws + 1)%nat)
  else Some cur_ws.

(** [snprintf(buffer, len, "workspace \"%s\"", cur_ws->name)] *)
Definition workspace_command (name_ : string) : string :=
  "workspace " +:+ String dquote (name_ +:+ String dquote "").

(** [handle_button(event)] with [event->event], [event->detail] and
    [event->event_x]: the command that is sent to i3, if any. *)
Definition handle_button (outputs : list i3_output) (event detail event_x : Z)
  : option string :=
  walk ← clicked_bar outputs event;
  cur_ws ← visible_ws (workspaces walk);
  cur_ws ← select_ws (workspaces walk) cur_ws detail (int32 event_x);
  ws ← workspaces walk !! cur_ws;
  Some (workspace_command (name ws)).

(** ** draw_bars: the buttons *)

Record xcb_rectangle_t := mk_rectangle {
  x : Z;        (* int16_t *)
  y : Z;        (* int16_t *)
  width : Z;    (* uint16_t *)
  height : Z;   (* uint16_t *)
}.

(** The rectangles that the loop over the workspaces of one output
    fills, from the value [i] at which it starts:
    [xcb_rectangle_t rect = { i + 1, 1, ws_walk->name_width + 8,
    font_height + 4 }; ... i += 10 + ws_walk->name_width;] *)
Fixpoint button_rectangles (font_height i : Z) (wss : list i3_ws)
  : list xcb_rectangle_t :=
  match wss with
  | [] => []
  | ws_walk :: wss' =>
      mk_rectangle (int16 (int32 (i + 1))) 1
        (uint16 (int32 (name_width ws_walk + 8)))
        (uint16 (int32 (font_height + 4)))
      :: button_rectangles font_height
           (int32 (i + int32 (10 + name_width ws_walk))) wss'
  end.

(** ** Text *)

Record xcb_charinfo_t := mk_charinfo {
  left_side_bearing : Z;    (* int16_t *)
  right_side_bearing : Z;   (* int16_t *)
  character_width : Z;      (* int16_t *)
  ascent : Z;               (* int16_t *)
  descent : Z;              (* int16_t *)
}.

(** The part of the font reply that the code reads. *)
Record xcb_query_font_reply_t := mk_font {
  min_byte1 : Z;            (* uint8_t *)
  max_byte1 : Z;            (* uint8_t *)
  min_char_or_byte2 : Z;    (* uint16_t *)
  max_char_or_byte2 : Z;    (* uint16_t *)
  max_bounds : xcb_charinfo_t;
  font_ascent : Z;          (* int16_t *)
}.

Record xcb_char2b_t := mk_char2b { byte1 : Z; byte2 : Z }.

(** The body of the loop of [predict_text_extents] for one glyph: the new
    [width]; a glyph whose entry is beyond the table has no result. *)
Definition add_glyph_width (font_info : xcb_query_font_reply_t)
    (font_table : list xcb_charinfo_t) (glyph : xcb_char2b_t) (width_ : Z)
  : option Z :=
  let row := byte1 glyph in
  let col := byte2 glyph in
  if (row <? min_byte1 font_info)%Z || (max_byte1 font_info <? row)%Z
     || (col <? min_char_or_byte2 font_info)%Z
     || (max_char_or_byte2 font_info <? col)%Z
  then Some width_
  else
    info ← font_table !!
      Z.to_nat ((row - min_byte1 font_info)
                * (max_char_or_byte2 font_info
                   - min_char_or_byte2 font_info + 1)
                + (col - min_char_or_byte2 font_info));
    if negb (character_width info =? 0)%Z
       || negb (Z.lor (Z.lor (Z.lor (right_side_bearing info)
                                (left_side_bearing info))
                         (ascent info))
                  (descent info) =? 0)%Z
    then Some (uint32 (width_ + character_width info))
    else Some width_.

Fixpoint sum_glyph_widths (font_info : xcb_query_font_reply_t)
    (font_table : list xcb_charinfo_t) (text : list xcb_char2b_t)
    (width_ : Z) : option Z :=
  match text with
  | [] => Some width_
  | glyph :: text' =>
      width_ ← add_glyph_width font_info font_table glyph width_;
      sum_glyph_widths font_info font_table text' width_
  end.

(** [predict_text_extents(text, length)]; [font_table] is NULL when the
    font has no data per character. *)
Definition predict_text_extents (font_info : xcb_query_font_reply_t)
    (font_table : option (list xcb_charinfo_t)) (text : list xcb_char2b_t)
  : option Z :=
  match font_table with
  | None =>
      Some (uint32 (character_width (max_bounds font_info)
                    * Z.of_nat (length text)))
  | Some font_table => sum_glyph_widths font_info font_table text 0
  end.

(** One request [xcb_image_text_16]: the glyphs and where they start. *)
Record image_text_16 := mk_image_text {
  string_len : Z;                 (* uint8_t *)
  text_x : Z;                     (* int16_t *)
  text_y : Z;                     (* int16_t *)
  glyphs : list xcb_char2b_t;
}.

(** [draw_text(drawable, ctx, x, y, text, glyph_count)]: the requests of
    the loop, which takes at most 255 glyphs at a time.  [fuel] bounds
    the number of rounds. *)
Fixpoint draw_text (fuel : nat) (font_info : xcb_query_font_reply_t)
    (font_table : option (list xcb_charinfo_t)) (pos_x y_ : Z)
    (text : list xcb_char2b_t) : option (list image_text_16) :=
  match text with
  | [] => Some []
  | _ :: _ =>
      match fuel with
      | O => None
      | S fuel' =>
          let chunk_size := uint8 (Z.min 255 (Z.of_nat (length text))) in
          let chunk := take (Z.to_nat chunk_size) text in
          chunk_width ← predict_text_extents font_info font_table chunk;
          rest ← draw_text fuel' font_info font_table
                   (int16 (pos_x + chunk_width)) y_
                   (drop (Z.to_nat chunk_size) text);
          Some (mk_image_text chunk_size pos_x
                  (int16 (y_ + font_ascent font_info)) chunk :: rest)
      end
  end.

(** ** child.c: the blocks of the status line *)

Record status_block := mk_block {
  full_text : option string;
  color : option string;
}.

Record parser_ctx := mk_ctx {
  last_map_key : option string;
  block : status_block;
}.

(** [parser_context] and [statusline_head]. *)
Record parser_state := mk_state {
  parser_context : parser_ctx;
  statusline_head : list status_block;
}.

(** The callbacks that [start_child] registers with the JSON parser;
    for other values (numbers, booleans, null) there is none. *)
Inductive yajl_event :=
  | yajl_start_array
  | yajl_end_array
  | yajl_start_map
  | yajl_end_map
  | yajl_map_key (key : string)
  | yajl_string (val : string).

Definition stdin_start_array (s : parser_state) : parser_state :=
  mk_state (parser_context s) [].

Definition stdin_start_map (s : parser_state) : parser_state :=
  mk_state (mk_ctx (last_map_key (parser_context s)) (mk_block None None))
    (statusline_head s).

Definition stdin_map_key (key : string) (s : parser_state) : parser_state :=
  mk_state (mk_ctx (Some key) (block (parser_context s))) (statusline_head s).

(** [stdin_string] compares the last key with [strcasecmp]; without a
    key this reads through a NULL pointer. *)
Definition stdin_string (val : string) (s : parser_state)
  : option parser_state :=
  key ← last_map_key (parser_context s);
  let b := block (parser_context s) in
  let b := if Libc.strcaseeq key "full_text"
           then mk_block (Some val) (color b) else b in
  let b := if Libc.strcaseeq key "color"
           then mk_block (full_text b) (Some val) else b in
  Some (mk_state (mk_ctx (Some key) b) (statusline_head s)).

Definition stdin_end_map (s : parser_state) : parser_state :=
  let new_block := block (parser_context s) in
  let new_block :=
    match full_text new_block with
    | None => mk_block (Some "SPEC VIOLATION (null)") (color new_block)
    | Some _ => new_block
    end in
  mk_state (parser_context s) (statusline_head s ++ [new_block]).

Definition stdin_end_array (s : parser_state) : parser_state := s.

Definition callback (e : yajl_event) (s : parser_state)
  : option parser_state :=
  match e with
  | yajl_start_array => Some (stdin_start_array s)
  | yajl_end_array => Some (stdin_end_array s)
  | yajl_start_map => Some (stdin_start_map s)
  | yajl_end_map => Some (stdin_end_map s)
  | yajl_map_key key => Some (stdin_map_key key s)
  | yajl_string val => stdin_string val s
  end.

(** The parser calls the callbacks in the order of the input. *)
Fixpoint yajl_parse (events : list yajl_event) (s : parser_state)
  : option parser_state :=
  match events with
  | [] => Some s
  | e :: events' => s ← callback e s; yajl_parse events' s
  end.

End I3bar.
(** * i3bar: the notions of the properties *)

(** The distance from the left edge of the bar to the button of the
    workspace at position [k]: ten pixels more than the width of the name
    for each button before it. *)
Fixpoint button_offset (wss : list I3bar.i3_ws) (k : nat) : Z :=
  match k, wss with
  | S k', ws :: wss' => I3bar.name_width ws + 10 + button_offset wss' k'
  | _, _ => 0
  end.

(** The names have a width that is not negative, and the buttons fit
    into the 16 bits of a coordinate. *)
Definition buttons_fit (wss : list I3bar.i3_ws) : Prop :=
  (∀ ws, ws ∈ wss → (0 ≤ I3bar.name_width ws)%Z) ∧
  (button_offset wss (length wss) < 2 ^ 15)%Z.

(** The width of one glyph as the font table has it: nothing for a glyph
    outside the ranges of the font, no value for an entry beyond the
    table. *)
Definition glyph_width (font_info : I3bar.xcb_query_font_reply_t)
    (font_table : list I3bar.xcb_charinfo_t) (glyph : I3bar.xcb_char2b_t)
  : option Z :=
  let row := I3bar.byte1 glyph in
  let col := I3bar.byte2 glyph in
  if (row <? I3bar.min_byte1 font_info)%Z
     || (I3bar.max_byte1 font_info <? row)%Z
     || (col <? I3bar.min_char_or_byte2 font_info)%Z
     || (I3bar.max_char_or_byte2 font_info <? col)%Z
  then Some 0%Z
  else
    I3bar.character_width <$>
      font_table !!
        Z.to_nat ((row - I3bar.min_byte1 font_info)
                  * (I3bar.max_char_or_byte2 font_info
                     - I3bar.min_char_or_byte2 font_info + 1)
                  + (col - I3bar.min_char_or_byte2 font_info)).

(** Every glyph of the text has its entry in the font table, if there
    is a table. *)
Definition glyphs_in_table (font_info : I3bar.xcb_query_font_reply_t)
    (font_table : option (list I3bar.xcb_charinfo_t))
    (text : list I3bar.xcb_char2b_t) : Prop :=
  match font_table with
  | None => True
  | Some font_table =>
      ∀ glyph, glyph ∈ text → is_Some (glyph_width font_info font_table glyph)
  end.

(** A status line as the child process writes it: an array of maps
    from keys to strings. *)
Definition json_map := list (string * string).

Definition events_of_map (kvs : json_map) : list I3bar.yajl_event :=
  I3bar.yajl_start_map
  :: (kvs ≫= fun '(key, val) => [I3bar.yajl_map_key key; I3bar.yajl_string val])
  ++ [I3bar.yajl_end_map].

Definition events_of_array (maps : list json_map) : list I3bar.yajl_event :=
  I3bar.yajl_start_array :: (maps ≫= events_of_map) ++ [I3bar.yajl_end_array].

(** The value of the last pair whose key is [key], compared as
    [strcasecmp] does. *)
Fixpoint last_value (key : string) (kvs : json_map) : option string :=
  match kvs with
  | [] => None
  | (k, v) :: kvs' =>
      match last_value key kvs' with
      | Some v' => Some v'
      | None => if Libc.strcaseeq k key then Some v else None
      end
  end.

Definition block_of (kvs : json_map) : I3bar.status_block :=
  I3bar.mk_block
    (Some (default "SPEC VIOLATION (null)" (last_value "full_text" kvs)))
    (last_value "color" kvs).
(** Example: a bar with the workspaces 1, 2 and mail; workspace 2 is
    the visible one. *)
Definition bar_workspaces : list I3bar.i3_ws :=
  [I3bar.mk_ws "1" 6 false false false;
   I3bar.mk_ws "2" 6 true true false;
   I3bar.mk_ws "mail" 24 false false true].

Definition bar_outputs : list I3bar.i3_output :=
  [I3bar.mk_output 0 false []; I3bar.mk_output 77 true bar_workspaces].
(** The width of a text as the font table has it: the sum of the widths
    of its glyphs, not reduced to 32 bits. *)
Fixpoint text_width (font_info : I3bar.xcb_query_font_reply_t)
    (font_table : list I3bar.xcb_charinfo_t)
    (text : list I3bar.xcb_char2b_t) : option Z :=
  match text with
  | [] => Some 0%Z
  | glyph :: text' =>
      c ← glyph_width font_info font_table glyph;
      s ← text_width font_info font_table text';
      Some (c + s)%Z
  end.


(** The fields of a block after the pairs [kvs] were read into it. *)
Definition read_into (b : I3bar.status_block) (kvs : json_map)
  : I3bar.status_block :=
  I3bar.mk_block
    (match last_value "full_text" kvs with
     | Some v => Some v
     | None => I3bar.full_text b
     end)
    (match last_value "color" kvs with
     | Some v => Some v
     | None => I3bar.color b
     end).
(** Example: a font of the capital letters, each six pixels wide, and a
    text of 300 letters. *)
Definition letters_font : I3bar.xcb_query_font_reply_t :=
  I3bar.mk_font 0 0 65 90 (I3bar.mk_charinfo 0 6 6 9 2) 9.

Definition letters_table : list I3bar.xcb_charinfo_t :=
  replicate 26 (I3bar.mk_charinfo 0 6 6 9 2).

Definition long_text : list I3bar.xcb_char2b_t :=
  replicate 300 (I3bar.mk_char2b 0 65).

(** The parser before the first line of the child: no key, no block. *)
Definition parser_start : I3bar.parser_state :=
  I3bar.mk_state (I3bar.mk_ctx None (I3bar.mk_block None None)) [].

(** * Properties *)

(** ** The error monad *)

Lemma bind_Ok {A B : Type} (m : res A) (f : A → res B) (b : B) :
  bind m f = Ok b ↔ ∃ a, m = Ok a ∧ f a = Ok b.
Proof.
  destruct m as [a|e]; simpl; split.
  - intros H. exists a. by split.
  - intros (a' & Ha & Hf). by inversion Ha; subst.
  - intros H. discriminate H.
  - intros (a' & Ha & _). discriminate Ha.
Qed.

Lemma deref_Ok (h : gmap ptr Con) (p : ptr) (c : Con) :
  deref h p = Ok c ↔ h !! p = Some c.
Proof.
  unfold deref. destruct (h !! p); split; intros H; congruence.
Qed.

Lemma deref_Some (h : gmap ptr Con) (p : ptr) (c : Con) :
  h !! p = Some c → deref h p = Ok c.
Proof. apply deref_Ok. Qed.

Lemma Ok_inj {A : Type} (a b : A) : Ok a = Ok b → a = b.
Proof. intros H. by injection H. Qed.

(** Inversion of a successful run, one monadic step at a time. *)
Ltac res_inv :=
  repeat match goal with
  | H : bind _ _ = Ok _ |- _ =>
      let a := fresh "a" in
      let Ha := fresh "Ha" in
      apply bind_Ok in H; destruct H as (a & Ha & H)
  | H : Ok _ = Ok _ |- _ => apply Ok_inj in H; simplify_eq
  | H : Err _ = Ok _ |- _ => discriminate H
  | H : deref _ _ = Ok _ |- _ => apply deref_Ok in H
  end.

(** ** output_get_content *)

Lemma first_CT_CON_found (h : gmap ptr Con) (pre post : list ptr)
    (child : ptr) (c : Con) :
  (∀ q, q ∈ pre → ∃ cq, h !! q = Some cq ∧ type cq ≠ CT_CON) →
  h !! child = Some c → type c = CT_CON →
  first_CT_CON h (pre ++ child :: post) = Ok child.
Proof.
  intros Hpre Hc Hty. induction pre as [|q pre IH]; simpl.
  - rewrite (deref_Some _ _ _ Hc). simpl. by rewrite decide_True.
  - destruct (Hpre q) as (cq & Hq & Hne); [by left|].
    rewrite (deref_Some _ _ _ Hq). simpl. rewrite decide_False by done.
    apply IH. intros q' Hq'. apply Hpre. by right.
Qed.

Lemma first_CT_CON_none (h : gmap ptr Con) (l : list ptr) :
  (∀ q, q ∈ l → ∃ cq, h !! q = Some cq ∧ type cq ≠ CT_CON) →
  first_CT_CON h l = Err AssertFailed.
Proof.
  induction l as [|q l IH]; intros Hl; simpl; [done|].
  destruct (Hl q) as (cq & Hq & Hne); [by left|].
  rewrite (deref_Some _ _ _ Hq). simpl. rewrite decide_False by done.
  apply IH. intros q' Hq'. apply Hl. by right.
Qed.

(** A list of allocated containers splits at its first [CT_CON], if it
    has one. *)
Lemma split_at_first_CT_CON (h : gmap ptr Con) (l : list ptr) :
  (∀ q, q ∈ l → is_Some (h !! q)) →
  (∃ pre child post c,
      l = pre ++ child :: post ∧ h !! child = Some c ∧ type c = CT_CON ∧
      ∀ q, q ∈ pre → ∃ cq, h !! q = Some cq ∧ type cq ≠ CT_CON)
  ∨ (∀ q, q ∈ l → ∃ cq, h !! q = Some cq ∧ type cq ≠ CT_CON).
Proof.
  induction l as [|q l IH]; intros Hl.
  - right. intros q Hq. by apply elem_of_nil in Hq.
  - destruct (Hl q) as [cq Hq]; [by left|].
    destruct (decide (type cq = CT_CON)) as [Hty|Hty].
    + left. exists [], q, l, cq. repeat split; try done.
      intros q' Hq'. by apply elem_of_nil in Hq'.
    + destruct IH as [(pre & child & post & c & -> & Hc & Hcty & Hpre)|Hnone].
      * intros q' Hq'. apply Hl. by right.
      * left. exists (q :: pre), child, post, c. repeat split; try done.
        intros q' Hq'. apply elem_of_cons in Hq' as [->|Hq']; eauto.
      * right. intros q' Hq'. apply elem_of_cons in Hq' as [->|Hq']; eauto.
Qed.

(** C9.  On an output whose children are allocated, [output_get_content]
    returns the first child, in the order of [nodes_head], whose type is
    [CT_CON]: when the output has such a child the call returns it and the
    assertion is not reached; when it has none the call ends in the failed
    assertion. *)
Theorem output_get_content_first_CT_CON (h : gmap ptr Con) (output : ptr)
    (o : Con) :
  h !! output = Some o →
  (∀ q, q ∈ nodes_head o → is_Some (h !! q)) →
  ((∃ q cq, q ∈ nodes_head o ∧ h !! q = Some cq ∧ type cq = CT_CON) →
   ∃ pre child post c,
     nodes_head o = pre ++ child :: post ∧
     h !! child = Some c ∧ type c = CT_CON ∧
     (∀ q, q ∈ pre → ∃ cq, h !! q = Some cq ∧ type cq ≠ CT_CON) ∧
     output_get_content h output = Ok child)
  ∧ ((∀ q cq, q ∈ nodes_head o → h !! q = Some cq → type cq ≠ CT_CON) →
     output_get_content h output = Err AssertFailed).
Proof.
  intros Ho Hall. unfold output_get_content.
  rewrite (deref_Some _ _ _ Ho). simpl.
  destruct (split_at_first_CT_CON h (nodes_head o) Hall)
    as [(pre & child & post & c & Heq & Hc & Hty & Hpre)|Hnone]; split.
  - intros _. exists pre, child, post, c. repeat split; try done.
    rewrite Heq. by apply first_CT_CON_found with c.
  - intros Hno. exfalso. apply (Hno child c); try done.
    rewrite Heq. apply elem_of_app. right. by left.
  - intros (q & cq & Hq & Hcq & Hty). exfalso.
    destruct (Hnone q Hq) as (cq' & Hcq' & Hne). congruence.
  - intros _. by apply first_CT_CON_none.
Qed.

(** The witness: the output fake-0 of the example, whose content
    container comes after the top dock area. *)
Lemma output_get_content_first_CT_CON_witness :
  ((∃ q cq, q ∈ [6%positive; 7%positive; 8%positive] ∧
            Example.heap1 !! q = Some cq ∧ type cq = CT_CON) →
   ∃ pre child post c,
     [6%positive; 7%positive; 8%positive] = pre ++ child :: post ∧
     Example.heap1 !! child = Some c ∧ type c = CT_CON ∧
     (∀ q, q ∈ pre → ∃ cq, Example.heap1 !! q = Some cq ∧ type cq ≠ CT_CON) ∧
     output_get_content Example.heap1 5 = Ok child)
  ∧ ((∀ q cq, q ∈ [6%positive; 7%positive; 8%positive] →
              Example.heap1 !! q = Some cq → type cq ≠ CT_CON) →
     output_get_content Example.heap1 5 = Err AssertFailed).
Proof.
  apply (output_get_content_first_CT_CON Example.heap1 5
           (Example.con CT_OUTPUT (Some 1%positive) "fake-0"
              [6%positive; 7%positive; 8%positive] []
              [7%positive; 6%positive; 8%positive])).
  - vm_compute. reflexivity.
  - intros q Hq. simpl in Hq.
    repeat (apply elem_of_cons in Hq as [->|Hq]; [vm_compute; eauto|]).
    by apply elem_of_nil in Hq.
Defined.

(** ** Updates of the store *)

Lemma update_Ok (p : ptr) (f : Con → Con) (t t' : Tree) :
  update p f t = Ok t' ↔
  ∃ c, heap t !! p = Some c ∧ t' = set_heap (<[p := f c]> (heap t)) t.
Proof.
  unfold update. split.
  - intros H. res_inv. eauto.
  - intros (c & Hc & ->). by rewrite (deref_Some _ _ _ Hc).
Qed.

Lemma update_Some (p : ptr) (f : Con → Con) (t : Tree) (c : Con) :
  heap t !! p = Some c →
  update p f t = Ok (set_heap (<[p := f c]> (heap t)) t).
Proof. intros Hc. apply update_Ok. eauto. Qed.

(** ** strtol and the number of a workspace *)

Lemma isdigit_range (c : ascii) :
  Libc.isdigit c = true ↔ (48 ≤ nat_of_ascii c ≤ 57)%nat.
Proof.
  unfold Libc.isdigit. rewrite andb_true_iff, !Nat.leb_le. done.
Qed.

Lemma isdigit_not_space (c : ascii) :
  Libc.isdigit c = true → Libc.isspace c = false.
Proof.
  intros H%isdigit_range. unfold Libc.isspace.
  apply orb_false_iff. split.
  - apply Nat.eqb_neq. lia.
  - apply andb_false_iff. right. apply Nat.leb_gt. lia.
Qed.

Lemma isdigit_not_char (c d : ascii) :
  Libc.isdigit c = true → ¬ (48 ≤ nat_of_ascii d ≤ 57)%nat →
  Ascii.eqb c d = false.
Proof.
  intros H%isdigit_range Hd. apply Ascii.eqb_neq. intros ->. done.
Qed.

Lemma digit_value_range (c : ascii) :
  Libc.isdigit c = true → (0 ≤ Libc.digit_value c ≤ 9)%Z.
Proof. intros H%isdigit_range. unfold Libc.digit_value. lia. Qed.

Lemma decimal_value_from_nonneg (s : string) (acc : Z) :
  all_digits s = true → (0 ≤ acc)%Z → (acc ≤ decimal_value_from acc s)%Z.
Proof.
  revert acc. induction s as [|c s IH]; intros acc Hs Hacc; simpl in *.
  - lia.
  - apply andb_true_iff in Hs as [Hc Hs].
    pose proof (digit_value_range c Hc).
    specialize (IH (10 * acc + Libc.digit_value c)%Z Hs). lia.
Qed.

Lemma digits_app (ds rest : string) (acc : Z) (count : nat) :
  all_digits ds = true → starts_with_digit rest = false →
  Libc.digits acc count (ds +:+ rest)
  = (decimal_value_from acc ds, (count + String.length ds)%nat).
Proof.
  revert acc count.
  induction ds as [|c ds IH]; intros acc count Hds Hrest; simpl in *.
  - rewrite Nat.add_0_r. destruct rest as [|c rest]; simpl in *; [done|].
    by rewrite Hrest.
  - apply andb_true_iff in Hds as [Hc Hds]. rewrite Hc.
    rewrite IH by done. f_equal. lia.
Qed.

Lemma int_of_long_small (v : Z) :
  (0 ≤ v ≤ Libc.INT_MAX)%Z → Libc.int_of_long v = v.
Proof.
  unfold Libc.int_of_long, Libc.INT_MAX. intros Hv.
  rewrite Z.mod_small by lia. lia.
Qed.

(** A name that starts with decimal digits gets the value of the digits;
    what follows the digits is not read. *)
Lemma parse_workspace_num_leading_digits (ds rest : string) :
  is_decimal ds = true → starts_with_digit rest = false →
  (decimal_value ds ≤ Libc.INT_MAX)%Z →
  parse_workspace_num (ds +:+ rest) = decimal_value ds.
Proof.
  intros Hds Hrest Hmax. destruct ds as [|c ds]; [done|].
  simpl in Hds. pose proof Hds as Hall.
  apply andb_true_iff in Hds as [Hc Hds].
  unfold parse_workspace_num, Libc.strtol.
  change (String c ds +:+ rest) with (String c (ds +:+ rest)).
  cbn [Libc.skip_space]. rewrite (isdigit_not_space c Hc).
  rewrite (isdigit_not_char c "-" Hc) by (vm_compute; lia).
  rewrite (isdigit_not_char c "+" Hc) by (vm_compute; lia).
  change (String c (ds +:+ rest)) with (String c ds +:+ rest).
  rewrite digits_app by done.
  cbn [String.length Nat.add].
  fold (decimal_value (String c ds)).
  assert (0 ≤ decimal_value (String c ds))%Z as Hnn
    by (by apply (decimal_value_from_nonneg (String c ds) 0)).
  set (v := decimal_value (String c ds)) in *.
  assert (Z.max Libc.LONG_MIN (Z.min Libc.LONG_MAX v) = v) as ->.
  { unfold Libc.LONG_MIN, Libc.LONG_MAX, Libc.INT_MAX in *. lia. }
  assert ((v =? Libc.LONG_MIN)%Z = false) as ->.
  { apply Z.eqb_neq. unfold Libc.LONG_MIN. lia. }
  assert ((v =? Libc.LONG_MAX)%Z = false) as ->.
  { apply Z.eqb_neq. unfold Libc.LONG_MAX, Libc.INT_MAX in *. lia. }
  assert ((v <? 0)%Z = false) as -> by (apply Z.ltb_ge; lia).
  simpl. by apply int_of_long_small.
Qed.


(** ** Well-formed trees *)

Section WellFormed.

Context (lv : ptr → nat) (bound : nat) (h : gmap ptr Con).
Hypothesis Hwf : wf_tree lv bound h.

Lemma wf_level (p : ptr) (c : Con) : h !! p = Some c → lv p < bound.
Proof.
  intros Hp. specialize (Hwf p c Hp). unfold wf_con in Hwf.
  rewrite !andb_true_iff in Hwf. destruct Hwf as [[[H _] _] _].
  by apply Nat.ltb_lt.
Qed.

Lemma wf_child (p : ptr) (c : Con) (q : ptr) :
  h !! p = Some c → q ∈ children c →
  ∃ cq, h !! q = Some cq ∧ parent cq = Some p ∧ lv q < lv p.
Proof.
  intros Hp Hq. specialize (Hwf p c Hp). unfold wf_con in Hwf.
  rewrite !andb_true_iff in Hwf. destruct Hwf as [[[_ H] _] _].
  rewrite forallb_forall in H. apply list_elem_of_In in Hq.
  specialize (H q Hq). destruct (h !! q) as [cq|]; [|done].
  apply andb_true_iff in H as [H1 H2]. exists cq.
  apply bool_decide_eq_true in H1. apply Nat.ltb_lt in H2. done.
Qed.

Lemma wf_parent (p : ptr) (c : Con) (q : ptr) :
  h !! p = Some c → parent c = Some q →
  ∃ cq, h !! q = Some cq ∧ p ∈ children cq.
Proof.
  intros Hp Hq. specialize (Hwf p c Hp). unfold wf_con in Hwf.
  rewrite !andb_true_iff in Hwf. destruct Hwf as [[[_ _] H] _].
  rewrite Hq in H. destruct (h !! q) as [cq|]; [|done].
  exists cq. by apply bool_decide_eq_true in H.
Qed.

Lemma wf_parent_level (p : ptr) (c : Con) (q : ptr) :
  h !! p = Some c → parent c = Some q → lv p < lv q.
Proof.
  intros Hp Hq. destruct (wf_parent p c q Hp Hq) as (cq & Hcq & Hin).
  destruct (wf_child q cq p Hcq Hin) as (c' & _ & _ & Hlt). done.
Qed.

Lemma wf_focus (p : ptr) (c : Con) (q : ptr) :
  h !! p = Some c → q ∈ focus_head c → q ∈ children c.
Proof.
  intros Hp Hq. specialize (Hwf p c Hp). unfold wf_con in Hwf.
  rewrite !andb_true_iff in Hwf. destruct Hwf as [_ H].
  rewrite forallb_forall in H. apply list_elem_of_In in Hq.
  specialize (H q Hq). by apply bool_decide_eq_true in H.
Qed.

(** A child has one parent only. *)
Lemma wf_child_unique (p p' : ptr) (c c' : Con) (q : ptr) :
  h !! p = Some c → h !! p' = Some c' →
  q ∈ children c → q ∈ children c' → p = p'.
Proof.
  intros Hp Hp' Hq Hq'.
  destruct (wf_child p c q Hp Hq) as (cq & Hcq & Hpar & _).
  destruct (wf_child p' c' q Hp' Hq') as (cq' & Hcq' & Hpar' & _).
  congruence.
Qed.

End WellFormed.

Lemma wf_tree_intro (lv : ptr → nat) (bound : nat) (h : gmap ptr Con) :
  (∀ p c, h !! p = Some c →
     lv p < bound
     ∧ (∀ q, q ∈ children c →
          ∃ cq, h !! q = Some cq ∧ parent cq = Some p ∧ lv q < lv p)
     ∧ (∀ q, parent c = Some q → ∃ cq, h !! q = Some cq ∧ p ∈ children cq)
     ∧ (∀ q, q ∈ focus_head c → q ∈ children c)) →
  wf_tree lv bound h.
Proof.
  intros H p c Hp. destruct (H p c Hp) as (H1 & H2 & H3 & H4).
  unfold wf_con. rewrite !andb_true_iff. repeat split.
  - by apply Nat.ltb_lt.
  - apply forallb_forall. intros q Hq%list_elem_of_In.
    destruct (H2 q Hq) as (cq & -> & Hpar & Hlt).
    apply andb_true_iff. split; [by apply bool_decide_eq_true|].
    by apply Nat.ltb_lt.
  - destruct (parent c) as [q|]; [|done].
    destruct (H3 q eq_refl) as (cq & -> & Hin).
    by apply bool_decide_eq_true.
  - apply forallb_forall. intros q Hq%list_elem_of_In.
    apply bool_decide_eq_true. by apply H4.
Qed.

(** ** Urgency *)

Lemma existsM_spec {A : Type} (f : A → res bool) (P : A → Prop) (l : list A) :
  (∀ a, a ∈ l → ∃ b, f a = Ok b ∧ (b = true ↔ P a)) →
  ∃ b, existsM f l = Ok b ∧ (b = true ↔ ∃ a, a ∈ l ∧ P a).
Proof.
  induction l as [|a l IH]; intros Hl; simpl.
  - exists false. split; [done|]. split; [done|].
    intros (a & Ha & _). by apply elem_of_nil in Ha.
  - destruct (Hl a) as (b & -> & Hb); [by left|]. simpl.
    destruct b.
    + exists true. split; [done|]. split; [|done].
      intros _. exists a. split; [by left|]. by apply Hb.
    + destruct IH as (b' & -> & Hb').
      { intros a' Ha'. apply Hl. by right. }
      exists b'. split; [done|]. rewrite Hb'. split.
      * intros (a' & Ha' & HP). exists a'. split; [by right|done].
      * intros (a' & Ha' & HP). apply elem_of_cons in Ha' as [->|Ha'].
        -- apply Hb in HP. discriminate HP.
        -- eauto.
Qed.

Lemma urgent_below_children (h : gmap ptr Con) (p : ptr) (c : Con) :
  h !! p = Some c →
  urgent_below h p ↔
  ∃ q, q ∈ children c ∧
    ((∃ cq, h !! q = Some cq ∧ urgent cq = true) ∨ urgent_below h q).
Proof.
  intros Hp. split.
  - intros (d & cd & Hd & Hcd & Hu). inversion Hd as [c' q Hp' Hq|c' q d' Hp' Hq Hqd]; subst.
    + assert (c' = c) as -> by congruence. exists d. split; [done|]. left. eauto.
    + assert (c' = c) as -> by congruence. exists q. split; [done|].
      right. exists d, cd. done.
  - intros (q & Hq & [(cq & Hcq & Hu)|(d & cd & Hd & Hcd & Hu)]).
    + exists q, cq. split; [|done]. by apply descendant_child with c.
    + exists d, cd. split; [|done]. by apply descendant_step with c q.
Qed.

Lemma get_urgency_flag_spec (lv : ptr → nat) (bound : nat) (h : gmap ptr Con)
    (fuel : nat) (p : ptr) (c : Con) :
  wf_tree lv bound h → h !! p = Some c → lv p < fuel →
  ∃ b, get_urgency_flag fuel h p = Ok b ∧ (b = true ↔ urgent_below h p).
Proof.
  intros Hwf. revert p c. induction fuel as [|fuel IH]; intros p c Hp Hlv; [lia|].
  simpl. rewrite (deref_Some _ _ _ Hp). simpl.
  set (body := fun child => bind (deref h child) _).
  assert (∀ q, q ∈ children c →
            ∃ b, body q = Ok b ∧
              (b = true ↔ ((∃ cq, h !! q = Some cq ∧ urgent cq = true)
                           ∨ urgent_below h q))) as Hbody.
  { intros q Hq. destruct (wf_child lv bound h Hwf p c q Hp Hq)
      as (cq & Hcq & _ & Hlt).
    unfold body. rewrite (deref_Some _ _ _ Hcq). simpl.
    destruct (urgent cq) eqn:Hu.
    - exists true. split; [done|]. split; [|done]. intros _. left. eauto.
    - destruct (IH q cq Hcq) as (b & -> & Hb); [lia|].
      exists b. split; [done|]. rewrite Hb. split; [by right|].
      intros [(cq' & Hcq' & Hu')|H]; [congruence|done]. }
  set (P := fun q => (∃ cq, h !! q = Some cq ∧ urgent cq = true)
                     ∨ urgent_below h q).
  destruct (existsM_spec body P (nodes_head c)) as (b1 & Hb1 & Hiff1).
  { intros q Hq. apply Hbody. unfold children. apply elem_of_app. by left. }
  destruct (existsM_spec body P (floating_head c)) as (b2 & Hb2 & Hiff2).
  { intros q Hq. apply Hbody. unfold children. apply elem_of_app. by right. }
  rewrite Hb1. simpl.
  pose proof (urgent_below_children h p c Hp) as Hch.
  destruct b1.
  - exists true. split; [done|]. split; [|done]. intros _.
    destruct Hiff1 as [Hiff1 _]. destruct (Hiff1 eq_refl) as (q & Hq & HP).
    apply Hch. exists q. split; [|done].
    unfold children. apply elem_of_app. by left.
  - exists b2. split; [done|]. rewrite Hiff2, Hch. split.
    + intros (q & Hq & HP). exists q. split; [|done].
      unfold children. apply elem_of_app. by right.
    + intros (q & Hq & HP). unfold children in Hq.
      apply elem_of_app in Hq as [Hq|Hq]; [|eauto].
      assert (false = true) as Hf; [|discriminate Hf].
      apply Hiff1. eauto.
Qed.

(** C7 (amended).  On a well-formed tree [workspace_update_urgent_flag]
    returns; it sets [ws->urgent] to true if and only if some strict
    descendant of [ws], reached through tiling or floating children, is
    urgent, and changes nothing else in the tree; it emits one workspace
    event with change urgent if and only if the new value differs from the
    old one, and it emits nothing else: there is no redraw request. *)
Theorem workspace_update_urgent_flag_spec (lv : ptr → nat) (fuel : nat)
    (t : Tree) (ws : ptr) (w : Con) :
  wf_tree lv fuel (heap t) → heap t !! ws = Some w →
  ∃ flag t',
    workspace_update_urgent_flag fuel ws t = Ok t' ∧
    (flag = true ↔
       ∃ d cd, descendant (heap t) ws d ∧ heap t !! d = Some cd ∧
               urgent cd = true) ∧
    heap t' = <[ws := set_urgent flag w]> (heap t) ∧
    croot t' = croot t ∧ focused t' = focused t ∧
    effects t' = effects t ++
      (if bool_decide (urgent w ≠ flag)
       then [ipc_send_event_workspace change_urgent] else []).
Proof.
  intros Hwf Hws.
  destruct (get_urgency_flag_spec lv fuel (heap t) fuel ws w Hwf Hws)
    as (flag & Hflag & Hiff).
  { by apply (wf_level lv fuel (heap t) Hwf ws w). }
  unfold workspace_update_urgent_flag.
  rewrite (deref_Some _ _ _ Hws). simpl. rewrite Hflag. simpl.
  rewrite (update_Some ws _ t w Hws). simpl.
  exists flag. destruct (bool_decide (urgent w ≠ flag)).
  - eexists. split; [done|]. split; [exact Hiff|]. done.
  - eexists. split; [done|]. split; [exact Hiff|]. simpl.
    by rewrite app_nil_r.
Qed.

(** The witness: workspace 2 of the example, whose floating window is
    urgent. *)
Lemma workspace_update_urgent_flag_spec_witness :
  ∃ flag t',
    workspace_update_urgent_flag 6 10 Example.tree1 = Ok t' ∧
    (flag = true ↔
       ∃ d cd, descendant Example.heap1 10 d ∧ Example.heap1 !! d = Some cd ∧
               urgent cd = true) ∧
    heap t' = <[10%positive := set_urgent flag
                  (Example.workspace 7 "2" 2 CF_NONE [] [13%positive]
                     [13%positive])]> Example.heap1 ∧
    croot t' = 1%positive ∧ focused t' = 12%positive ∧
    effects t' = [] ++
      (if bool_decide (false ≠ flag)
       then [ipc_send_event_workspace change_urgent] else []).
Proof.
  apply (workspace_update_urgent_flag_spec Example.level1 6 Example.tree1 10).
  - apply (bool_decide_unpack _). vm_compute. exact I.
  - vm_compute. reflexivity.
Defined.

(** C7, the claim as stated fails: the flag of workspace 2 changes, the
    event is emitted, and no redraw is requested. *)
Lemma workspace_update_urgent_flag_no_redraw :
  ∃ t' w',
    workspace_update_urgent_flag 6 10 Example.tree1 = Ok t' ∧
    (urgent <$> heap Example.tree1 !! 10%positive) = Some false ∧
    heap t' !! 10%positive = Some w' ∧ urgent w' = true ∧
    effects t' = [ipc_send_event_workspace change_urgent] ∧
    tree_render ∉ effects t'.
Proof.
  eexists _, _. split; [vm_compute; reflexivity|].
  split; [vm_compute; reflexivity|].
  split; [vm_compute; reflexivity|].
  split; [reflexivity|]. split; [reflexivity|].
  simpl. intros H. apply list_elem_of_singleton in H. discriminate H.
Qed.

(** ** Frame properties of updates *)

Lemma update_lookup (p : ptr) (f : Con → Con) (t t' : Tree) (q : ptr) :
  update p f t = Ok t' →
  heap t' !! q = if decide (p = q) then f <$> heap t !! p else heap t !! q.
Proof.
  intros (c & Hc & ->)%update_Ok. simpl.
  destruct (decide (p = q)) as [->|Hne].
  - by rewrite lookup_insert_eq, Hc.
  - by rewrite lookup_insert_ne.
Qed.

(** A field that the update does not write has its value in the whole
    store. *)
Lemma update_field {A : Type} (proj : Con → A) (p : ptr) (f : Con → Con)
    (t t' : Tree) (q : ptr) :
  update p f t = Ok t' → (∀ c, proj (f c) = proj c) →
  proj <$> heap t' !! q = proj <$> heap t !! q.
Proof.
  intros Hu Hf. rewrite (update_lookup p f t t' q Hu).
  destruct (decide (p = q)) as [->|Hne]; [|done].
  destruct (heap t !! q) as [c|]; simpl; [|done]. by rewrite Hf.
Qed.

Lemma update_globals (p : ptr) (f : Con → Con) (t t' : Tree) :
  update p f t = Ok t' →
  croot t' = croot t ∧ focused t' = focused t ∧ effects t' = effects t.
Proof. intros (c & Hc & ->)%update_Ok. done. Qed.

Lemma update_dom (p : ptr) (f : Con → Con) (t t' : Tree) :
  update p f t = Ok t' → dom (heap t') = dom (heap t).
Proof.
  intros (c & Hc & ->)%update_Ok. simpl. by apply dom_insert_lookup_L.
Qed.

Lemma orientation_Ok (fuel : nat) (cfg : Config) (ws : ptr) (t t' : Tree) :
  _workspace_apply_default_orientation fuel cfg ws t = Ok t' →
  ∃ l, update ws (set_layout l) t = Ok t'.
Proof.
  unfold _workspace_apply_default_orientation.
  destruct (default_orientation cfg); intros H; res_inv; eauto.
Qed.

Lemma con_attach_Ok (con parent_ : ptr) (t t' : Tree) :
  con_attach con parent_ t = Ok t' →
  ∃ t1, update con (set_parent (Some parent_)) t = Ok t1 ∧
        update parent_
          (fun p => set_queues (nodes_head p ++ [con]) (floating_head p)
                      (focus_head p ++ [con]) p) t1 = Ok t'.
Proof. unfold con_attach. intros H. res_inv. eauto. Qed.

(** ** Fuel *)

Lemma ancestor_of_kind_mono (fuel fuel' : nat) (h : gmap ptr Con)
    (kind : con_type) (node r : option ptr) :
  ancestor_of_kind fuel h kind node = Ok r → fuel ≤ fuel' →
  ancestor_of_kind fuel' h kind node = Ok r.
Proof.
  revert fuel' node. induction fuel as [|fuel IH]; intros fuel' node H Hle.
  - destruct node as [p|]; simpl in H; [discriminate H|].
    destruct fuel'; simpl; done.
  - destruct node as [p|]; [|by destruct fuel'].
    destruct fuel' as [|fuel']; [lia|]. simpl in *.
    destruct (deref h p) as [c|e]; simpl in *; [|done].
    destruct (decide (type c = kind)); [done|].
    apply IH; [done|lia].
Qed.

(** A walk that succeeds reads allocated containers only, so that it
    gives the same result in a store with more containers. *)
Lemma ancestor_of_kind_subseteq (fuel : nat) (h h' : gmap ptr Con)
    (kind : con_type) (node r : option ptr) :
  ancestor_of_kind fuel h kind node = Ok r → h ⊆ h' →
  ancestor_of_kind fuel h' kind node = Ok r.
Proof.
  intros H Hsub. revert node H.
  induction fuel as [|fuel IH]; intros node H.
  - by destruct node.
  - destruct node as [p|]; [|done]. simpl in *.
    destruct (deref h p) as [c|e] eqn:Hc; simpl in *; [|done].
    apply deref_Ok in Hc.
    rewrite (deref_Some h' p c) by (by eapply lookup_weaken).
    simpl. destruct (decide (type c = kind)); [done|]. by apply IH.
Qed.

(** ** Looking a workspace up by name *)

Lemma GREP_FIRST_spec (h : gmap ptr Con) (dest : option ptr) (head : ptr)
    (condition : Con → bool) (hd : Con) :
  h !! head = Some hd →
  (∀ q, q ∈ nodes_head hd → is_Some (h !! q)) →
  ∃ r, GREP_FIRST h dest head condition = Ok r ∧
    ((∃ pre q post c,
        nodes_head hd = pre ++ q :: post ∧ h !! q = Some c ∧
        condition c = true ∧
        (∀ q' c', q' ∈ pre → h !! q' = Some c' → condition c' = false) ∧
        r = Some q)
     ∨ ((∀ q c, q ∈ nodes_head hd → h !! q = Some c → condition c = false)
        ∧ r = dest)).
Proof.
  intros Hhd Hall. unfold GREP_FIRST. rewrite (deref_Some _ _ _ Hhd). simpl.
  induction (nodes_head hd) as [|q l IH]; simpl.
  - exists dest. split; [done|]. right. split; [|done].
    intros q c Hq. by apply elem_of_nil in Hq.
  - destruct (Hall q) as [c Hc]; [by left|].
    rewrite (deref_Some _ _ _ Hc). simpl.
    destruct (condition c) eqn:Hcond; simpl.
    + exists (Some q). split; [done|]. left. exists [], q, l, c.
      repeat split; try done. intros q' c' Hq'. by apply elem_of_nil in Hq'.
    + destruct IH as (r & Hr & Hcases).
      { intros q' Hq'. apply Hall. by right. }
      exists r. split; [done|].
      destruct Hcases as [(pre & q' & post & c' & -> & Hc' & Hcond' & Hpre & ->)
                         |[Hnone ->]].
      * left. exists (q :: pre), q', post, c'. repeat split; try done.
        intros q'' c'' Hq'' Hc''.
        apply elem_of_cons in Hq'' as [->|Hq'']; [congruence|eauto].
      * right. split; [|done]. intros q' c' Hq' Hc'.
        apply elem_of_cons in Hq' as [->|Hq']; [congruence|eauto].
Qed.

Lemma workspace_by_name_loop_spec (h : gmap ptr Con) (num_ : string)
    (outputs : list ptr) (acc : option ptr) :
  (∀ output, output ∈ outputs → output_ok h output) →
  ∃ r, workspace_by_name_loop h num_ outputs acc = Ok r ∧
    ((r = acc ∧
      ∀ output ws c, output ∈ outputs → on_output h ws output →
        h !! ws = Some c → Libc.strcaseeq (name c) num_ = false)
     ∨ (∃ output ws c,
          output ∈ outputs ∧ on_output h ws output ∧ h !! ws = Some c ∧
          Libc.strcaseeq (name c) num_ = true ∧ r = Some ws)).
Proof.
  revert acc. induction outputs as [|output outputs IH]; intros acc Hall; simpl.
  - exists acc. split; [done|]. left. split; [done|].
    intros output ws c Ho. by apply elem_of_nil in Ho.
  - destruct (Hall output) as (content & cc & Hcontent & Hcc & Hws); [by left|].
    rewrite Hcontent. simpl.
    destruct (GREP_FIRST_spec h acc content
                (fun child => Libc.strcaseeq (name child) num_) cc Hcc Hws)
      as (r1 & -> & Hr1). simpl.
    destruct (IH r1) as (r & -> & Hr).
    { intros o Ho. apply Hall. by right. }
    exists r. split; [done|].
    destruct Hr as [[-> Hnone]|(o & ws & c & Ho & Hon & Hc & Hcond & ->)].
    + destruct Hr1 as [(pre & q & post & c & Heq & Hc & Hcond & _ & ->)
                      |[Hnone1 ->]].
      * right. exists output, q, c. repeat split; try done; [by left|].
        exists content, cc. repeat split; try done.
        rewrite Heq. apply elem_of_app. right. by left.
      * left. split; [done|]. intros o ws c Ho Hon Hc.
        apply elem_of_cons in Ho as [->|Ho]; [|by eapply Hnone].
        destruct Hon as (content' & cc' & Hcontent' & Hcc' & Hin).
        assert (content' = content) as -> by congruence.
        assert (cc' = cc) as -> by congruence.
        by eapply Hnone1.
    + right. exists o, ws, c. repeat split; try done. by right.
Qed.

Lemma workspace_by_name_spec (t : Tree) (num_ : string) :
  outputs_ok t →
  ∃ r, workspace_by_name t num_ = Ok r ∧
    ((r = None ∧
      ∀ ws c, is_workspace_of t ws → heap t !! ws = Some c →
        Libc.strcaseeq (name c) num_ = false)
     ∨ (∃ ws c,
          r = Some ws ∧ is_workspace_of t ws ∧ heap t !! ws = Some c ∧
          Libc.strcaseeq (name c) num_ = true)).
Proof.
  intros (root & Hroot & Hall). unfold workspace_by_name.
  rewrite (deref_Some _ _ _ Hroot). simpl.
  destruct (workspace_by_name_loop_spec (heap t) num_ (nodes_head root) None)
    as (r & -> & Hr); [done|].
  exists r. split; [done|].
  destruct Hr as [[-> Hnone]|(o & ws & c & Ho & Hon & Hc & Hcond & ->)].
  - left. split; [done|]. intros ws c (root' & o & Hroot' & Ho & Hon) Hc.
    assert (root' = root) as -> by congruence. by eapply Hnone.
  - right. exists ws, c. repeat split; try done. by exists root, o.
Qed.

Lemma GREP_FIRST_found (h : gmap ptr Con) (dest : option ptr) (head : ptr)
    (condition : Con → bool) (hd : Con) (pre post : list ptr) (q : ptr)
    (c : Con) :
  h !! head = Some hd → nodes_head hd = pre ++ q :: post →
  (∀ q', q' ∈ pre → ∃ c', h !! q' = Some c' ∧ condition c' = false) →
  h !! q = Some c → condition c = true →
  GREP_FIRST h dest head condition = Ok (Some q).
Proof.
  intros Hhd Heq Hpre Hq Hcond. unfold GREP_FIRST.
  rewrite (deref_Some _ _ _ Hhd). simpl. rewrite Heq. clear Heq.
  induction pre as [|q' pre IH]; simpl.
  - rewrite (deref_Some _ _ _ Hq). simpl. by rewrite Hcond.
  - destruct (Hpre q') as (c' & Hc' & Hcond'); [by left|].
    rewrite (deref_Some _ _ _ Hc'). simpl. rewrite Hcond'. simpl.
    apply IH. intros q'' Hq''. apply Hpre. by right.
Qed.

Lemma GREP_FIRST_none (h : gmap ptr Con) (dest : option ptr) (head : ptr)
    (condition : Con → bool) (hd : Con) :
  h !! head = Some hd →
  (∀ q, q ∈ nodes_head hd → ∃ c, h !! q = Some c ∧ condition c = false) →
  GREP_FIRST h dest head condition = Ok dest.
Proof.
  intros Hhd Hall. unfold GREP_FIRST.
  rewrite (deref_Some _ _ _ Hhd). simpl.
  induction (nodes_head hd) as [|q l IH]; simpl; [done|].
  destruct (Hall q) as (c & Hc & Hcond); [by left|].
  rewrite (deref_Some _ _ _ Hc). simpl. rewrite Hcond. simpl.
  apply IH. intros q' Hq'. apply Hall. by right.
Qed.

Lemma first_CT_CON_Ok (h : gmap ptr Con) (l : list ptr) (child : ptr) :
  first_CT_CON h l = Ok child →
  child ∈ l ∧ ∃ c, h !! child = Some c ∧ type c = CT_CON.
Proof.
  induction l as [|q l IH]; simpl; intros H; [done|].
  res_inv. destruct (decide (type a = CT_CON)).
  - res_inv. split; [by left|]. eauto.
  - destruct (IH H) as [Hin Hc]. split; [by right|done].
Qed.

Lemma output_get_content_Ok (h : gmap ptr Con) (output content : ptr) :
  output_get_content h output = Ok content →
  ∃ o c, h !! output = Some o ∧ content ∈ nodes_head o ∧
         h !! content = Some c ∧ type c = CT_CON.
Proof.
  unfold output_get_content. intros H. res_inv.
  destruct (first_CT_CON_Ok _ _ _ H) as (Hin & c & Hc & Hty). eauto 10.
Qed.

Lemma streq_eq (a b : string) : Libc.streq a b = true ↔ a = b.
Proof. apply String.eqb_eq. Qed.

Lemma streq_neq (a b : string) : Libc.streq a b = false ↔ a ≠ b.
Proof. apply String.eqb_neq. Qed.

Lemma assigned_output_spec (cfg : Config) (t : Tree) (num_ : string)
    (focused_output target : ptr) :
  outputs_ok t →
  selected_output cfg t num_ focused_output target →
  assigned_output t num_ (ws_assignments cfg) (Some focused_output)
  = Ok (Some target).
Proof.
  intros (root & Hroot & Hout) Hsel.
  assert (∀ o, o ∈ nodes_head root → is_Some (heap t !! o)) as Halloc.
  { intros o Ho. destruct (Hout o Ho) as (content & cc & Hc & _).
    apply output_get_content_Ok in Hc as (oc & c & Hoc & _). eauto. }
  assert (∀ pre a post,
            (∀ a', a' ∈ pre → assignment_name a' ≠ num_) →
            assignment_name a = num_ →
            assigned_output t num_ (pre ++ a :: post) (Some focused_output)
            = GREP_FIRST (heap t) (Some focused_output) (croot t)
                (fun child => Libc.streq (name child) (assignment_output a)))
    as Hfirst.
  { intros pre a post Hpre Ha. induction pre as [|a' pre IH]; simpl.
    - apply streq_eq in Ha. by rewrite Ha.
    - assert (Libc.streq (assignment_name a') num_ = false) as ->.
      { apply streq_neq. apply Hpre. by left. }
      simpl. apply IH. intros a'' Ha''. apply Hpre. by right. }
  destruct Hsel as [Hnone|pre a post r opre target opost tc Heq Hpre Ha Hr Hnodes
                      Htc Hname Hopre|pre a post r Heq Hpre Ha Hr Hall].
  - induction (ws_assignments cfg) as [|a l IH]; simpl; [done|].
    assert (Libc.streq (assignment_name a) num_ = false) as ->.
    { apply streq_neq. apply Hnone. by left. }
    simpl. apply IH. intros a' Ha'. apply Hnone. by right.
  - rewrite Heq, Hfirst by done.
    assert (r = root) as -> by congruence.
    apply GREP_FIRST_found with root opre opost tc; try done.
    + intros o Ho. destruct (Halloc o) as [oc Hoc].
      { rewrite Hnodes. apply elem_of_app. by left. }
      exists oc. split; [done|]. apply streq_neq. by eapply Hopre.
    + by apply streq_eq.
  - rewrite Heq, Hfirst by done.
    assert (r = root) as -> by congruence.
    apply GREP_FIRST_none with root; [done|].
    intros o Ho. destruct (Halloc o Ho) as [oc Hoc].
    exists oc. split; [done|]. apply streq_neq. by eapply Hall.
Qed.

Lemma con_get_output_new_workspace (fuel : nat) (h : gmap ptr Con)
    (ws content target : ptr) (wc cc tc : Con) :
  3 ≤ fuel →
  h !! ws = Some wc → type wc = CT_WORKSPACE → parent wc = Some content →
  h !! content = Some cc → type cc = CT_CON → parent cc = Some target →
  h !! target = Some tc → type tc = CT_OUTPUT →
  con_get_output fuel h ws = Ok (Some target).
Proof.
  intros Hfuel Hws Hwty Hwpar Hcc Hcty Hcpar Htc Htty.
  destruct fuel as [|[|[|fuel]]]; try lia.
  unfold con_get_output. simpl.
  rewrite (deref_Some _ _ _ Hws). simpl. rewrite Hwty, Hwpar.
  rewrite decide_False by done. simpl.
  rewrite (deref_Some _ _ _ Hcc). simpl. rewrite Hcty, Hcpar.
  rewrite decide_False by done. simpl.
  rewrite (deref_Some _ _ _ Htc). simpl. rewrite Htty.
  by rewrite decide_True.
Qed.

Lemma orientation_total (fuel : nat) (cfg : Config) (ws output : ptr)
    (t : Tree) (wc : Con) :
  con_get_output fuel (heap t) ws = Ok (Some output) →
  is_Some (heap t !! output) → heap t !! ws = Some wc →
  ∃ l, _workspace_apply_default_orientation fuel cfg ws t
       = Ok (set_heap (<[ws := set_layout l wc]> (heap t)) t).
Proof.
  intros Hout [oc Hoc] Hws. unfold _workspace_apply_default_orientation.
  destruct (default_orientation cfg).
  - rewrite Hout. simpl. rewrite (deref_Some _ _ _ Hoc). simpl.
    eexists. by apply update_Some.
  - eexists. by apply update_Some.
  - eexists. by apply update_Some.
Qed.

(** ** workspace_get *)

(** C3 (amended).  The lookup of [workspace_get] compares names without
    regard to case.  If a workspace whose name equals [num_] up to case
    exists on some output, [workspace_get] returns such a workspace, sets
    created to false and leaves the tree unchanged.  Otherwise it creates
    a new [CT_WORKSPACE] container of that name, attaches it to the
    content container of the selected output (the output named by the
    first assignment for the name when it exists, else the output of the
    focused container), sets created to true and emits the workspace
    event with change init. *)
Theorem workspace_get_spec (fuel : nat) (cfg : Config) (num_ : string)
    (t : Tree) :
  outputs_ok t →
  ((∃ ws c, is_workspace_of t ws ∧ heap t !! ws = Some c ∧
            Libc.strcaseeq (name c) num_ = true) →
   ∃ ws c,
     workspace_get fuel cfg num_ t = Ok (ws, false, t) ∧
     is_workspace_of t ws ∧ heap t !! ws = Some c ∧
     Libc.strcaseeq (name c) num_ = true)
  ∧
  ((∀ ws c, is_workspace_of t ws → heap t !! ws = Some c →
            Libc.strcaseeq (name c) num_ = false) →
   ∀ focused_output target tc content cc,
     con_get_output fuel (heap t) (focused t) = Ok (Some focused_output) →
     selected_output cfg t num_ focused_output target →
     heap t !! target = Some tc → type tc = CT_OUTPUT →
     output_get_content (heap t) target = Ok content →
     heap t !! content = Some cc → parent cc = Some target →
     3 ≤ fuel →
     ∃ ws t' wc cc',
       workspace_get fuel cfg num_ t = Ok (ws, true, t') ∧
       heap t !! ws = None ∧
       heap t' !! ws = Some wc ∧ type wc = CT_WORKSPACE ∧ name wc = num_ ∧
       parent wc = Some content ∧
       heap t' !! content = Some cc' ∧
       nodes_head cc' = nodes_head cc ++ [ws] ∧
       (∀ p, p ≠ ws → p ≠ content → heap t' !! p = heap t !! p) ∧
       effects t' = effects t ++
         [x_set_name ws ("[i3 con] workspace " +:+ num_);
          ipc_send_event_workspace change_init]).
Proof.
  intros Hok.
  destruct (workspace_by_name_spec t num_ Hok) as (r & Hr & Hcases).
  split.
  - intros (ws0 & c0 & Hws0 & Hc0 & Hcond0).
    destruct Hcases as [[-> Hnone]|(ws & c & -> & Hws & Hc & Hcond)].
    + specialize (Hnone ws0 c0 Hws0 Hc0). congruence.
    + exists ws, c. unfold workspace_get. rewrite Hr. done.
  - intros Hnone fo target tc content cc Hfo Hsel Htc Htty Hcontent Hcc
      Hcpar Hfuel.
    destruct Hcases as [[-> _]|(ws & c & -> & Hws & Hc & Hcond)];
      [|specialize (Hnone ws c Hws Hc); congruence].
    destruct (output_get_content_Ok _ _ _ Hcontent)
      as (tc' & cc0 & _ & _ & Hcc0 & Hcty).
    assert (cc0 = cc) as -> by congruence.
    unfold workspace_get. rewrite Hr. simpl. rewrite Hfo. simpl.
    rewrite (assigned_output_spec cfg t num_ fo target Hok Hsel). simpl.
    rewrite Hcontent. simpl.
    set (ws := fresh (dom (heap t))).
    assert (heap t !! ws = None) as Hfresh.
    { apply not_elem_of_dom. apply is_fresh. }
    assert (ws ≠ content) as Hne_c by (intros ->; congruence).
    assert (ws ≠ target) as Hne_t by (intros ->; congruence).
    set (wc1 := init_workspace num_ (default_layout cfg) content default_con).
    erewrite update_Some; [|simpl; apply lookup_insert_eq]. simpl.
    rewrite insert_insert_eq. fold wc1.
    edestruct (orientation_total fuel cfg ws target
                 (set_heap (<[ws := wc1]> (heap t))
                    (emit (x_set_name ws ("[i3 con] workspace " +:+ num_))
                       (set_heap (<[ws := default_con]> (heap t)) t)))
                 wc1) as (l & ->).
    { simpl.
      apply con_get_output_new_workspace
        with (wc := wc1) (content := content) (cc := cc) (tc := tc);
        try done.
      - apply lookup_insert_eq.
      - by rewrite lookup_insert_ne.
      - by rewrite lookup_insert_ne. }
    { simpl. rewrite lookup_insert_ne by done. eauto. }
    { simpl. apply lookup_insert_eq. }
    simpl. rewrite insert_insert_eq.
    unfold con_attach.
    erewrite update_Some; [|simpl; apply lookup_insert_eq]. simpl.
    rewrite insert_insert_eq.
    erewrite update_Some;
      [|simpl; rewrite lookup_insert_ne by done; exact Hcc].
    simpl.
    eexists ws, _, _, _. split; [reflexivity|]. simpl.
    split; [done|].
    split; [rewrite lookup_insert_ne by done; apply lookup_insert_eq|].
    split; [done|]. split; [done|]. split; [done|].
    split; [apply lookup_insert_eq|].
    split; [done|].
    split.
    + intros p Hp1 Hp2. by rewrite !lookup_insert_ne.
    + by rewrite <- app_assoc.
Qed.

(** The example tree. *)

Lemma tree1_wf : wf_tree Example.level1 6 Example.heap1.
Proof. apply (bool_decide_unpack _). vm_compute. exact I. Qed.

Lemma tree1_outputs_ok : outputs_ok Example.tree1.
Proof.
  eexists. split; [vm_compute; reflexivity|].
  intros output Ho. simpl in Ho.
  apply elem_of_cons in Ho as [->|Ho];
    [|apply elem_of_cons in Ho as [->|Ho]; [|by apply elem_of_nil in Ho]].
  - exists 3%positive. eexists.
    split; [vm_compute; reflexivity|]. split; [vm_compute; reflexivity|].
    intros ws Hws. simpl in Hws.
    apply elem_of_cons in Hws as [->|Hws]; [|by apply elem_of_nil in Hws].
    vm_compute. eauto.
  - exists 7%positive. eexists.
    split; [vm_compute; reflexivity|]. split; [vm_compute; reflexivity|].
    intros ws Hws. simpl in Hws.
    repeat (apply elem_of_cons in Hws as [->|Hws]; [vm_compute; eauto|]).
    by apply elem_of_nil in Hws.
Qed.

(** The workspaces of the example tree. *)
Lemma tree1_workspaces (ws : ptr) :
  is_workspace_of Example.tree1 ws →
  ws ∈ [4%positive; 9%positive; 10%positive; 11%positive].
Proof.
  intros (r & output & Hr & Ho & content & cc & Hcontent & Hcc & Hws).
  vm_compute in Hr. injection Hr as <-. simpl in Ho.
  apply elem_of_cons in Ho as [->|Ho];
    [|apply elem_of_cons in Ho as [->|Ho]; [|by apply elem_of_nil in Ho]].
  - vm_compute in Hcontent. injection Hcontent as <-.
    vm_compute in Hcc. injection Hcc as <-. simpl in Hws.
    apply elem_of_cons in Hws as [->|Hws]; [|by apply elem_of_nil in Hws].
    by left.
  - vm_compute in Hcontent. injection Hcontent as <-.
    vm_compute in Hcc. injection Hcc as <-. simpl in Hws.
    by right.
Qed.

(** The witness: a workspace for mail, which is assigned to fake-0, is
    created on fake-0. *)
Lemma workspace_get_spec_witness :
  ∃ ws t' wc cc',
    workspace_get 6 Example.config1 "mail" Example.tree1 = Ok (ws, true, t') ∧
    heap Example.tree1 !! ws = None ∧
    heap t' !! ws = Some wc ∧ type wc = CT_WORKSPACE ∧ name wc = "mail" ∧
    parent wc = Some 7%positive ∧
    heap t' !! 7%positive = Some cc' ∧
    nodes_head cc' = [9%positive; 10%positive; 11%positive] ++ [ws] ∧
    (∀ p, p ≠ ws → p ≠ 7%positive → heap t' !! p = heap Example.tree1 !! p) ∧
    effects t' = [] ++
      [x_set_name ws ("[i3 con] workspace " +:+ "mail");
       ipc_send_event_workspace change_init].
Proof.
  destruct (workspace_get_spec 6 Example.config1 "mail" Example.tree1
              tree1_outputs_ok) as [_ Hcreate].
  apply (Hcreate
           ltac:(intros ws c Hws%tree1_workspaces Hc;
                 repeat (apply elem_of_cons in Hws as [->|Hws];
                         [vm_compute in Hc; injection Hc as <-;
                          vm_compute; reflexivity|]);
                 by apply elem_of_nil in Hws)
           5%positive 5%positive
           (Example.con CT_OUTPUT (Some 1%positive) "fake-0"
              [6%positive; 7%positive; 8%positive] []
              [7%positive; 6%positive; 8%positive])
           7%positive
           (Example.con CT_CON (Some 5%positive) "content"
              [9%positive; 10%positive; 11%positive] []
              [9%positive; 10%positive; 11%positive])).
  - vm_compute. reflexivity.
  - eapply (selected_assigned _ _ _ _ [] (mkAssignment "mail" "fake-0") _ _
              [2%positive] 5%positive []).
    + reflexivity.
    + intros a Ha. by apply elem_of_nil in Ha.
    + reflexivity.
    + vm_compute. reflexivity.
    + reflexivity.
    + vm_compute. reflexivity.
    + reflexivity.
    + intros o oc Ho Hoc.
      apply elem_of_cons in Ho as [->|Ho]; [|by apply elem_of_nil in Ho].
      vm_compute in Hoc. injection Hoc as <-. vm_compute. discriminate.
  - vm_compute. reflexivity.
  - reflexivity.
  - vm_compute. reflexivity.
  - vm_compute. reflexivity.
  - reflexivity.
  - lia.
Defined.

(** C3, the claim as stated fails: no workspace of the example tree has
    the name FOO, and [workspace_get] creates none: it returns the
    workspace foo. *)
Lemma workspace_get_ignores_case :
  map_Forall (fun _ c => name c ≠ "FOO") Example.heap1 ∧
  workspace_get 6 Example.config1 "FOO" Example.tree1
  = Ok (11%positive, false, Example.tree1) ∧
  (name <$> Example.heap1 !! 11%positive) = Some "foo".
Proof.
  split; [apply (bool_decide_unpack _); vm_compute; exact I|].
  split; vm_compute; reflexivity.
Qed.





(** ** Lookups in a store with more containers *)

Lemma deref_subseteq (h h' : gmap ptr Con) (p : ptr) (c : Con) :
  h ⊆ h' → deref h p = Ok c → deref h' p = Ok c.
Proof.
  intros Hsub Hc%deref_Ok. apply deref_Ok. by eapply lookup_weaken.
Qed.

Lemma first_result_subseteq {B : Type} (h h' : gmap ptr Con)
    (g : ptr → Con → option B) (l : list ptr) (r : option B) :
  h ⊆ h' →
  first_result (fun p => let* c := deref h p in Ok (g p c)) l = Ok r →
  first_result (fun p => let* c := deref h' p in Ok (g p c)) l = Ok r.
Proof.
  intros Hsub. induction l as [|p l IH]; simpl; [done|]. intros H.
  destruct (deref h p) as [c|e] eqn:Hc; simpl in H; [|done].
  rewrite (deref_subseteq h h' p c Hsub Hc). simpl.
  destruct (g p c); [done|]. by apply IH.
Qed.

Lemma first_CT_CON_subseteq (h h' : gmap ptr Con) (l : list ptr) (r : ptr) :
  h ⊆ h' → first_CT_CON h l = Ok r → first_CT_CON h' l = Ok r.
Proof.
  intros Hsub. induction l as [|p l IH]; simpl; [done|]. intros H.
  destruct (deref h p) as [c|e] eqn:Hc; simpl in H; [|done].
  rewrite (deref_subseteq h h' p c Hsub Hc). simpl.
  destruct (decide (type c = CT_CON)); [done|]. by apply IH.
Qed.

Lemma output_get_content_subseteq (h h' : gmap ptr Con) (output r : ptr) :
  h ⊆ h' → output_get_content h output = Ok r →
  output_get_content h' output = Ok r.
Proof.
  intros Hsub. unfold output_get_content. intros H.
  destruct (deref h output) as [c|e] eqn:Hc; simpl in H; [|done].
  rewrite (deref_subseteq h h' output c Hsub Hc). simpl.
  by apply first_CT_CON_subseteq with h.
Qed.

Lemma GREP_FIRST_subseteq (h h' : gmap ptr Con) (dest : option ptr)
    (head : ptr) (condition : Con → bool) (r : option ptr) :
  h ⊆ h' → GREP_FIRST h dest head condition = Ok r →
  GREP_FIRST h' dest head condition = Ok r.
Proof.
  intros Hsub. unfold GREP_FIRST. intros H.
  destruct (deref h head) as [c|e] eqn:Hc; simpl in H; [|done].
  rewrite (deref_subseteq h h' head c Hsub Hc). simpl.
  apply bind_Ok in H as (r1 & Hr1 & H).
  rewrite (first_result_subseteq h h'
             (fun p c => if condition c then Some p else None) _ r1 Hsub Hr1).
  done.
Qed.

Lemma workspace_by_name_subseteq (t t' : Tree) (num_ : string)
    (r : option ptr) :
  heap t ⊆ heap t' → croot t' = croot t →
  workspace_by_name t num_ = Ok r → workspace_by_name t' num_ = Ok r.
Proof.
  intros Hsub Hroot. unfold workspace_by_name. rewrite Hroot. intros H.
  destruct (deref (heap t) (croot t)) as [c|e] eqn:Hc; simpl in H; [|done].
  rewrite (deref_subseteq _ _ _ c Hsub Hc). simpl.
  revert H. generalize (@None ptr). induction (nodes_head c) as [|o l IH];
    intros acc H; simpl in *; [done|].
  apply bind_Ok in H as (content & Hcontent & H).
  rewrite (output_get_content_subseteq _ _ _ _ Hsub Hcontent). simpl.
  apply bind_Ok in H as (acc' & Hacc' & H).
  rewrite (GREP_FIRST_subseteq _ _ _ _ _ _ Hsub Hacc'). simpl.
  by apply IH.
Qed.

(** ** Names that are decimal numbers *)

Lemma pretty_N_char_digit (x : N) : Libc.isdigit (pretty_N_char x) = true.
Proof.
  unfold pretty_N_char. by repeat case_match.
Qed.

Lemma pretty_N_go_digits (x : N) (s : string) :
  all_digits s = true → all_digits (pretty_N_go x s) = true.
Proof.
  revert s. induction (N.lt_wf_0 x) as [x _ IH]; intros s Hs.
  destruct (decide (x = 0)%N) as [->|Hx]; [by rewrite pretty_N_go_0|].
  rewrite pretty_N_go_step by lia. apply IH.
  - apply N.div_lt; lia.
  - simpl. by rewrite pretty_N_char_digit, Hs.
Qed.

Lemma pretty_Z_digits (c : Z) : (0 < c)%Z → all_digits (pretty c) = true.
Proof.
  destruct c as [|x|x]; try lia. intros _.
  unfold pretty, pretty_Z, pretty, pretty_positive, pretty, pretty_N.
  rewrite decide_False by done. by apply pretty_N_go_digits.
Qed.

Lemma tolower_digit (c : ascii) :
  Libc.isdigit c = true → Libc.tolower c = c.
Proof.
  intros H%isdigit_range. unfold Libc.tolower.
  destruct (65 <=? nat_of_ascii c)%nat eqn:H1; [|done].
  apply Nat.leb_le in H1. lia.
Qed.

Lemma tolower_is_digit (x y : ascii) :
  Libc.isdigit y = true → Libc.tolower x = y → x = y.
Proof.
  intros Hy%isdigit_range. unfold Libc.tolower.
  destruct ((65 <=? nat_of_ascii x)%nat && (nat_of_ascii x <=? 90)%nat)
    eqn:Hx; [|done].
  apply andb_true_iff in Hx as [H1%Nat.leb_le H2%Nat.leb_le].
  intros <-. rewrite nat_ascii_embedding in Hy; lia.
Qed.

Lemma strcaseeq_refl (a : string) : Libc.strcaseeq a a = true.
Proof.
  induction a as [|x a IH]; simpl; [done|].
  by rewrite Ascii.eqb_refl, IH.
Qed.

(** For a string of digits, equality up to case is equality. *)
Lemma strcaseeq_digits (a b : string) :
  all_digits b = true → Libc.strcaseeq a b = true ↔ a = b.
Proof.
  intros Hb. split; [|intros ->; apply strcaseeq_refl].
  revert b Hb. induction a as [|x a IH]; intros [|y b] Hb H; simpl in *;
    try done.
  apply andb_true_iff in Hb as [Hy Hb].
  apply andb_true_iff in H as [Hxy H].
  apply Ascii.eqb_eq in Hxy. rewrite (tolower_digit y Hy) in Hxy.
  f_equal; [by apply tolower_is_digit|by apply IH].
Qed.

(** ** The next unused workspace number *)

Lemma length_le_size (h : gmap ptr Con) (l : list ptr) :
  NoDup l → (∀ p, p ∈ l → is_Some (h !! p)) → length l ≤ size h.
Proof.
  intros Hnd Hin.
  rewrite <- (size_list_to_set (C := gset ptr) l Hnd).
  rewrite <- (size_dom h). apply subseteq_size.
  intros p Hp. apply elem_of_list_to_set in Hp. apply elem_of_dom. auto.
Qed.

Lemma next_unused_number_spec (t : Tree) (fuel : nat) (c0 : Z)
    (seen : list ptr) :
  outputs_ok t → (0 ≤ c0)%Z → NoDup seen →
  (∀ p, p ∈ seen →
     ∃ wc c', heap t !! p = Some wc ∧ name wc = pretty c' ∧ (c' ≤ c0)%Z) →
  size (heap t) < length seen + fuel →
  ∃ c, next_unused_number fuel t c0 = Ok (c, pretty c) ∧ (c0 < c)%Z ∧
       ¬ name_in_use t (pretty c) ∧
       ∀ c', (c0 < c' < c)%Z → name_in_use t (pretty c').
Proof.
  intros Hok. revert c0 seen.
  induction fuel as [|fuel IH]; intros c0 seen Hc0 Hnd Hseen Hsize.
  - exfalso. assert (length seen ≤ size (heap t)); [|lia].
    apply length_le_size; [done|]. intros p Hp.
    destruct (Hseen p Hp) as (wc & c' & Hwc & _). eauto.
  - simpl.
    destruct (workspace_by_name_spec t (pretty (c0 + 1)%Z) Hok)
      as (r & -> & Hr). simpl.
    assert (all_digits (pretty (c0 + 1)%Z) = true) as Hdigits
      by (apply pretty_Z_digits; lia).
    destruct Hr as [[-> Hnone]|(ws & wc & -> & Hws & Hwc & Hname)].
    + exists (c0 + 1)%Z. split; [done|]. split; [lia|]. split.
      * intros (ws & wc & Hws & Hwc & Hname).
        specialize (Hnone ws wc Hws Hwc). rewrite Hname in Hnone.
        by rewrite strcaseeq_refl in Hnone.
      * intros c' Hc'. lia.
    + apply strcaseeq_digits in Hname; [|done].
      destruct (IH (c0 + 1)%Z (ws :: seen)) as (c & Hrun & Hlt & Hfree & Hbelow).
      * lia.
      * apply NoDup_cons. split; [|done]. intros Hin.
        destruct (Hseen ws Hin) as (wc' & c' & Hwc' & Hname' & Hle).
        assert (wc' = wc) as -> by congruence.
        rewrite Hname in Hname'. apply (inj pretty) in Hname'. lia.
      * intros p Hp. apply elem_of_cons in Hp as [->|Hp].
        -- exists wc, (c0 + 1)%Z. split; [done|]. split; [done|]. lia.
        -- destruct (Hseen p Hp) as (wc' & c' & Hwc' & Hname' & Hle).
           exists wc', c'. split; [done|]. split; [done|]. lia.
      * simpl. lia.
      * exists c. split; [done|]. split; [lia|]. split; [done|].
        intros c' Hc'. destruct (decide (c' = c0 + 1)%Z) as [->|Hne].
        -- by exists ws, wc.
        -- apply Hbelow. lia.
Qed.

Lemma binding_loop_ext (cfg : Config) (t t' : Tree) (output_name : string)
    (binds : list Binding) (st : binding_state) :
  (∀ name_, workspace_by_name t' name_ = workspace_by_name t name_) →
  binding_loop cfg t' output_name binds st
  = binding_loop cfg t output_name binds st.
Proof.
  intros Hext. revert st. induction binds as [|b binds IH]; intros st; simpl;
    [done|].
  destruct (_ || _); [apply IH|].
  destruct (is_workspace_command_word _); [apply IH|].
  destruct (last_char _) as [c|]; [|done].
  destruct (assigned_elsewhere _ _ _); [apply IH|].
  rewrite Hext.
  destruct (workspace_by_name t _) as [[ws|]|e]; simpl; [apply IH|done|done].
Qed.

Lemma next_unused_number_ext (fuel : nat) (t t' : Tree) (c : Z) :
  (∀ name_, workspace_by_name t' name_ = workspace_by_name t name_) →
  next_unused_number fuel t' c = next_unused_number fuel t c.
Proof.
  intros Hext. revert c. induction fuel as [|fuel IH]; intros c; simpl;
    [done|].
  rewrite Hext.
  destruct (workspace_by_name t _) as [[ws|]|e]; simpl; [apply IH|done|done].
Qed.

(** ** create_workspace_on_output *)

(** C5.  When the loop over the bindings of [create_workspace_on_output]
    ends without a free name, the function returns a new workspace whose
    name is the decimal string of the lowest positive integer [c] such
    that no workspace of that name exists on any output, and whose [num]
    is [c]. *)
Theorem create_workspace_on_output_numbered (fuel : nat) (cfg : Config)
    (output_name : string) (content target : ptr) (t : Tree)
    (st : binding_state) (cc tc : Con) :
  outputs_ok t →
  binding_loop cfg t output_name (bindings cfg) (mkBindingState "" 0%Z true)
  = Ok st →
  bs_exists st = true →
  heap t !! content = Some cc → type cc = CT_CON → parent cc = Some target →
  heap t !! target = Some tc → type tc = CT_OUTPUT →
  size (heap t) < fuel → 3 ≤ fuel →
  ∃ ws t' wc c,
    create_workspace_on_output fuel cfg output_name content t = Ok (ws, t') ∧
    heap t !! ws = None ∧
    heap t' !! ws = Some wc ∧ type wc = CT_WORKSPACE ∧
    name wc = pretty c ∧ num wc = c ∧ (0 < c)%Z ∧
    ¬ name_in_use t (pretty c) ∧
    (∀ c', (0 < c' < c)%Z → name_in_use t (pretty c')).
Proof.
  intros Hok Hloop Hexists Hcc Hcty Hcpar Htc Htty Hsize Hfuel.
  unfold create_workspace_on_output, con_new.
  set (ws := fresh (dom (heap t))).
  assert (heap t !! ws = None) as Hfresh.
  { apply not_elem_of_dom. apply is_fresh. }
  assert (ws ≠ content) as Hne_c by (intros ->; congruence).
  assert (ws ≠ target) as Hne_t by (intros ->; congruence).
  assert (content ≠ target) as Hne_ct by (intros ->; congruence).
  erewrite update_Some; [|simpl; apply lookup_insert_eq]. simpl.
  rewrite insert_insert_eq.
  set (c1 := mkCon _ CT_WORKSPACE _ _ _ _ _ _ _ _ _ _ _ _ _).
  set (t1 := set_heap (<[ws := c1]> (heap t))
               (set_heap (<[ws := default_con]> (heap t)) t)).
  assert (∀ name_, workspace_by_name t1 name_ = workspace_by_name t name_)
    as Hext.
  { intros name_.
    destruct (workspace_by_name_spec t name_ Hok) as (r & Hr & _).
    rewrite Hr. apply workspace_by_name_subseteq with t; [|done|done].
    simpl. by apply insert_subseteq. }
  rewrite (binding_loop_ext cfg t t1 _ _ _ Hext), Hloop. simpl.
  rewrite Hexists. rewrite (next_unused_number_ext fuel t t1 _ Hext).
  destruct (next_unused_number_spec t fuel 0 [] Hok)
    as (c & -> & Hpos & Hfree & Hbelow).
  { lia. }
  { apply NoDup_nil_2. }
  { intros p Hp. by apply elem_of_nil in Hp. }
  { simpl. lia. }
  simpl.
  erewrite update_Some; [|simpl; apply lookup_insert_eq]. simpl.
  rewrite insert_insert_eq.
  unfold con_attach.
  erewrite update_Some; [|simpl; apply lookup_insert_eq]. simpl.
  rewrite insert_insert_eq.
  erewrite update_Some;
    [|simpl; rewrite lookup_insert_ne by done; exact Hcc].
  simpl.
  erewrite update_Some;
    [|simpl; rewrite lookup_insert_ne by done; apply lookup_insert_eq].
  simpl.
  erewrite update_Some; [|simpl; apply lookup_insert_eq]. simpl.
  rewrite insert_insert_eq.
  match goal with
  | |- context [_workspace_apply_default_orientation fuel cfg ws ?t2] =>
      edestruct (orientation_total fuel cfg ws target t2) as (l & ->)
  end.
  { simpl.
    eapply con_get_output_new_workspace
      with (content := content) (cc := set_queues _ _ _ cc) (tc := tc);
      try done.
    - apply lookup_insert_eq.
    - done.
    - done.
    - rewrite lookup_insert_ne by exact Hne_c. apply lookup_insert_eq.
    - rewrite lookup_insert_ne by exact Hne_t.
      rewrite lookup_insert_ne by exact Hne_ct.
      rewrite lookup_insert_ne by exact Hne_t. done. }
  { simpl. rewrite lookup_insert_ne by exact Hne_t.
    rewrite lookup_insert_ne by exact Hne_ct.
    rewrite lookup_insert_ne by exact Hne_t. eauto. }
  { simpl. apply lookup_insert_eq. }
  simpl. eexists ws, _, _, c. split; [reflexivity|]. simpl.
  split; [done|]. split; [apply lookup_insert_eq|].
  repeat split; try done.
Qed.

(** The witness: the bindings of the example name the workspaces 1 and
    2, which exist, so that the new workspace gets the number 3. *)
Lemma create_workspace_on_output_numbered_witness :
  ∃ ws t' wc c,
    create_workspace_on_output 16 Example.config1 "fake-0" 7 Example.tree1
    = Ok (ws, t') ∧
    heap Example.tree1 !! ws = None ∧
    heap t' !! ws = Some wc ∧ type wc = CT_WORKSPACE ∧
    name wc = pretty c ∧ num wc = c ∧ (0 < c)%Z ∧
    ¬ name_in_use Example.tree1 (pretty c) ∧
    (∀ c', (0 < c' < c)%Z → name_in_use Example.tree1 (pretty c')).
Proof.
  apply (create_workspace_on_output_numbered 16 Example.config1 "fake-0"
           7 5 Example.tree1 (mkBindingState "2" 0 true)
           (Example.con CT_CON (Some 5%positive) "content"
              [9%positive; 10%positive; 11%positive] []
              [9%positive; 10%positive; 11%positive])
           (Example.con CT_OUTPUT (Some 1%positive) "fake-0"
              [6%positive; 7%positive; 8%positive] []
              [7%positive; 6%positive; 8%positive])).
  - exact tree1_outputs_ok.
  - vm_compute. reflexivity.
  - reflexivity.
  - vm_compute. reflexivity.
  - reflexivity.
  - reflexivity.
  - vm_compute. reflexivity.
  - reflexivity.
  - vm_compute. lia.
  - lia.
Defined.

(** ** Fields that a step leaves alone *)

Lemma preserves_refl {A : Type} (proj : Con → A) (h : gmap ptr Con) :
  preserves proj h h.
Proof. by intros p. Qed.

Lemma preserves_trans {A : Type} (proj : Con → A) (h1 h2 h3 : gmap ptr Con) :
  preserves proj h1 h2 → preserves proj h2 h3 → preserves proj h1 h3.
Proof. intros H12 H23 p. by rewrite H23, H12. Qed.

Lemma preserves_sym {A : Type} (proj : Con → A) (h1 h2 : gmap ptr Con) :
  preserves proj h1 h2 → preserves proj h2 h1.
Proof. intros H p. by rewrite H. Qed.

Lemma preserves_weaken {A B : Type} (proj : Con → A) (g : A → B)
    (proj' : Con → B) (h h' : gmap ptr Con) :
  (∀ c, proj' c = g (proj c)) → preserves proj h h' → preserves proj' h h'.
Proof.
  intros Hg H p. specialize (H p).
  destruct (h' !! p) as [c'|], (h !! p) as [c|]; simpl in *; try done.
  injection H as H. by rewrite !Hg, H.
Qed.

Lemma preserves_lookup {A : Type} (proj : Con → A) (h h' : gmap ptr Con)
    (p : ptr) (c : Con) :
  preserves proj h h' → h !! p = Some c →
  ∃ c', h' !! p = Some c' ∧ proj c' = proj c.
Proof.
  intros H Hc. specialize (H p). rewrite Hc in H.
  destruct (h' !! p) as [c'|]; simpl in *; [|done].
  injection H as H. eauto.
Qed.

Lemma preserves_None {A : Type} (proj : Con → A) (h h' : gmap ptr Con)
    (p : ptr) :
  preserves proj h h' → h !! p = None → h' !! p = None.
Proof.
  intros H Hc. specialize (H p). rewrite Hc in H.
  by destruct (h' !! p).
Qed.

Lemma preserves_update {A : Type} (proj : Con → A) (p : ptr) (f : Con → Con)
    (t t' : Tree) :
  update p f t = Ok t' → (∀ c, proj (f c) = proj c) →
  preserves proj (heap t) (heap t').
Proof. intros Hu Hf q. by apply update_field with p f. Qed.

Lemma links_skeleton (c : Con) : links c = links (skeleton c).
Proof. done. Qed.

Lemma skeleton_frame (c : Con) :
  skeleton c = set_fullscreen_mode CF_NONE (frame c).
Proof. done. Qed.

Lemma ancestor_of_kind_preserves (fuel : nat) (h h' : gmap ptr Con)
    (kind : con_type) (node : option ptr) :
  preserves links h h' →
  ancestor_of_kind fuel h' kind node = ancestor_of_kind fuel h kind node.
Proof.
  intros Hp. revert node. induction fuel as [|fuel IH]; intros node; [done|].
  destruct node as [p|]; [|done]. simpl. unfold deref.
  specialize (Hp p).
  destruct (h' !! p) as [c'|], (h !! p) as [c|]; simpl in *; try done.
  injection Hp as Hty Hpar _ _ _. rewrite Hty, Hpar.
  destruct (decide (type c = kind)); [done|]. apply IH.
Qed.

Lemma con_descend_focused_preserves (fuel : nat) (h h' : gmap ptr Con)
    (con : ptr) :
  preserves links h h' →
  con_descend_focused fuel h' con = con_descend_focused fuel h con.
Proof.
  intros Hp. revert con. induction fuel as [|fuel IH]; intros con; [done|].
  simpl. unfold deref. specialize (Hp con).
  destruct (h' !! con) as [c'|], (h !! con) as [c|]; simpl in *; try done.
  injection Hp as _ _ _ _ Hf. rewrite Hf.
  destruct (focus_head c); [done|]. apply IH.
Qed.

Lemma wf_tree_preserves (lv : ptr → nat) (bound : nat) (h h' : gmap ptr Con) :
  preserves links h h' → wf_tree lv bound h → wf_tree lv bound h'.
Proof.
  intros Hp Hwf. apply wf_tree_intro. intros p c' Hc'.
  destruct (preserves_lookup links h' h p c' (preserves_sym _ _ _ Hp) Hc')
    as (c & Hc & Hl).
  injection Hl as Hty Hpar Hn Hfl Hfo.
  assert (children c' = children c) as Hch by (unfold children; congruence).
  split; [by eapply wf_level|]. split; [|split].
  - intros q Hq. rewrite Hch in Hq.
    destruct (wf_child lv bound h Hwf p c q Hc Hq) as (cq & Hcq & Hcpar & Hlt).
    destruct (preserves_lookup links h h' q cq Hp Hcq) as (cq' & Hcq' & Hl').
    injection Hl' as _ Hpar' _ _ _. exists cq'. split; [done|].
    split; [congruence|done].
  - intros q Hq. rewrite <- Hpar in Hq.
    destruct (wf_parent lv bound h Hwf p c q Hc Hq) as (cq & Hcq & Hin).
    destruct (preserves_lookup links h h' q cq Hp Hcq) as (cq' & Hcq' & Hl').
    injection Hl' as _ _ Hn' Hfl' _. exists cq'. split; [done|].
    unfold children in *. congruence.
  - intros q Hq. rewrite Hch. rewrite <- Hfo in Hq.
    by eapply wf_focus.
Qed.

Section TreeStep.

Context {A : Type} (proj : Con → A) (P : Effect → Prop).

Lemma tree_step_refl (t : Tree) : tree_step proj P t t.
Proof.
  split; [apply preserves_refl|]. split; [done|]. split; [done|].
  exists []. split; [by rewrite app_nil_r|done].
Qed.

Lemma tree_step_trans (t1 t2 t3 : Tree) :
  tree_step proj P t1 t2 → tree_step proj P t2 t3 → tree_step proj P t1 t3.
Proof.
  intros (Hp1 & Hr1 & Hf1 & es1 & He1 & HP1) (Hp2 & Hr2 & Hf2 & es2 & He2 & HP2).
  split; [by eapply preserves_trans|].
  split; [congruence|]. split; [congruence|].
  exists (es1 ++ es2). split.
  - by rewrite He2, He1, app_assoc.
  - by apply Forall_app.
Qed.

Lemma tree_step_update (p : ptr) (f : Con → Con) (t t' : Tree) :
  update p f t = Ok t' → (∀ c, proj (f c) = proj c) → tree_step proj P t t'.
Proof.
  intros Hu Hf. split; [by eapply preserves_update|].
  destruct (update_globals _ _ _ _ Hu) as (Hr & Hfo & He).
  split; [done|]. split; [done|].
  exists []. split; [by rewrite app_nil_r|done].
Qed.

Lemma tree_step_emit (e : Effect) (t : Tree) :
  P e → tree_step proj P t (emit e t).
Proof.
  intros He. split; [apply preserves_refl|]. split; [done|]. split; [done|].
  exists [e]. split; [done|]. by apply Forall_singleton.
Qed.

Lemma foldM_tree_step {B : Type} (f : B → Tree → res Tree) (l : list B)
    (t t' : Tree) :
  (∀ b s s', b ∈ l → f b s = Ok s' → tree_step proj P s s') →
  foldM f l t = Ok t' → tree_step proj P t t'.
Proof.
  revert t. induction l as [|b l IH]; intros t Hf H; simpl in H.
  - res_inv. apply tree_step_refl.
  - res_inv. apply tree_step_trans with a.
    + apply (Hf b); [by left|done].
    + apply IH; [|done]. intros b' s s' Hb'. apply Hf. by right.
Qed.

End TreeStep.

Lemma tree_step_weaken {A B : Type} (proj : Con → A) (g : A → B)
    (proj' : Con → B) (P P' : Effect → Prop) (t t' : Tree) :
  (∀ c, proj' c = g (proj c)) → (∀ e, P e → P' e) →
  tree_step proj P t t' → tree_step proj' P' t t'.
Proof.
  intros Hg HP (Hp & Hr & Hf & es & He & Hes).
  split; [by eapply preserves_weaken|]. split; [done|]. split; [done|].
  exists es. split; [done|]. by eapply Forall_impl.
Qed.

Lemma foldM_total {B S : Type} (f : B → S → res S) (Inv : S → Prop)
    (l : list B) (s : S) :
  (∀ b s, b ∈ l → Inv s → ∃ s', f b s = Ok s' ∧ Inv s') →
  Inv s → ∃ s', foldM f l s = Ok s' ∧ Inv s'.
Proof.
  revert s. induction l as [|b l IH]; intros s Hf Hs; simpl.
  - eauto.
  - destruct (Hf b s) as (s1 & -> & Hs1); [by left|done|]. simpl.
    apply IH; [|done]. intros b' s' Hb'. apply Hf. by right.
Qed.

(** ** The first loop of _workspace_show *)

Lemma disable_fullscreen_Ok (current : ptr) (old old' : option ptr)
    (t t' : Tree) :
  disable_fullscreen current (old, t) = Ok (old', t') →
  ∃ c, heap t !! current = Some c ∧
       old' = (if decide (fullscreen_mode c = CF_OUTPUT)
               then Some current else old) ∧
       update current (set_fullscreen_mode CF_NONE) t = Ok t'.
Proof.
  unfold disable_fullscreen. intros H. res_inv. eauto.
Qed.

Lemma disable_fullscreen_loop_Ok (l : list ptr) (old old' : option ptr)
    (t t' : Tree) :
  foldM disable_fullscreen l (old, t) = Ok (old', t') →
  tree_step unfullscreen no_effect t t' ∧
  (∀ q c', q ∈ l → heap t' !! q = Some c' → fullscreen_mode c' = CF_NONE) ∧
  (∀ q, q ∉ l → heap t' !! q = heap t !! q) ∧
  (old' = old ∨
   ∃ q c, old' = Some q ∧ q ∈ l ∧ heap t !! q = Some c ∧
          fullscreen_mode c = CF_OUTPUT) ∧
  ((∃ q c, q ∈ l ∧ heap t !! q = Some c ∧ fullscreen_mode c = CF_OUTPUT) →
   ∃ q c, old' = Some q ∧ q ∈ l ∧ heap t !! q = Some c ∧
          fullscreen_mode c = CF_OUTPUT).
Proof.
  revert old t. induction l as [|a l IH]; intros old t H; simpl in H.
  - res_inv. split; [apply tree_step_refl|]. split.
    { intros q c' Hq. by apply elem_of_nil in Hq. }
    split; [done|]. split; [by left|].
    intros (q & c & Hq & _). by apply elem_of_nil in Hq.
  - apply bind_Ok in H as ([old1 t1] & H1 & H).
    apply disable_fullscreen_Ok in H1 as (c & Hc & Hold1 & Hu).
    destruct (IH old1 t1 H) as (Hstep & Hnone & Hother & Hold & Hsome).
    assert (∀ q cq, heap t1 !! q = Some cq → fullscreen_mode cq = CF_OUTPUT →
              q ≠ a ∧ heap t !! q = Some cq) as Hback.
    { intros q cq Hq Hfs. rewrite (update_lookup _ _ _ _ q Hu) in Hq.
      destruct (decide (a = q)) as [->|Hne]; [|done].
      rewrite Hc in Hq. simpl in Hq. injection Hq as <-. done. }
    split; [|split; [|split; [|split]]].
    + apply tree_step_trans with t1; [|done].
      by apply tree_step_update with a (set_fullscreen_mode CF_NONE).
    + intros q c' Hq Hc'. destruct (decide (q ∈ l)) as [Hin|Hnin]; [eauto|].
      apply elem_of_cons in Hq as [->|Hq]; [|done].
      rewrite (Hother a Hnin) in Hc'.
      rewrite (update_lookup _ _ _ _ a Hu), decide_True, Hc in Hc' by done.
      simpl in Hc'. by injection Hc' as <-.
    + intros q Hq. apply not_elem_of_cons in Hq as [Hqa Hql].
      rewrite (Hother q Hql), (update_lookup _ _ _ _ q Hu).
      by rewrite decide_False.
    + destruct Hold as [->|(q & cq & -> & Hq & Hcq & Hfs)].
      * rewrite Hold1. destruct (decide (fullscreen_mode c = CF_OUTPUT)).
        -- right. exists a, c. repeat split; try done. by left.
        -- by left.
      * right. destruct (Hback q cq Hcq Hfs) as [_ Hcq'].
        exists q, cq. repeat split; try done. by right.
    + intros (q & cq & Hq & Hcq & Hfs).
      destruct Hold as [->|(q' & cq' & -> & Hq' & Hcq' & Hfs')].
      * destruct (decide (q = a)) as [->|Hne].
        -- assert (cq = c) as -> by congruence.
           rewrite Hold1, decide_True by done.
           exists a, c. repeat split; try done.
        -- apply elem_of_cons in Hq as [->|Hq]; [done|].
           destruct Hsome as (q' & cq' & Hold' & Hq' & Hcq' & Hfs').
           { exists q, cq. split; [done|]. split; [|done].
             rewrite (update_lookup _ _ _ _ q Hu). by rewrite decide_False. }
           destruct (Hback q' cq' Hcq' Hfs') as [_ Hcq''].
           exists q', cq'. repeat split; try done. by right.
      * destruct (Hback q' cq' Hcq' Hfs') as [_ Hcq''].
        exists q', cq'. repeat split; try done. by right.
Qed.

Lemma disable_fullscreen_loop_total (l : list ptr) (old : option ptr)
    (t : Tree) :
  (∀ q, q ∈ l → is_Some (heap t !! q)) →
  ∃ old' t', foldM disable_fullscreen l (old, t) = Ok (old', t').
Proof.
  revert old t. induction l as [|a l IH]; intros old t Hl; simpl; [eauto|].
  destruct (Hl a) as [c Hc]; [by left|].
  unfold disable_fullscreen at 1. rewrite (deref_Some _ _ _ Hc). simpl.
  rewrite (update_Some a _ t c Hc). simpl. apply IH.
  intros q Hq. simpl. destruct (decide (q = a)) as [->|Hne].
  - rewrite lookup_insert_eq. eauto.
  - rewrite lookup_insert_ne by done. apply Hl. by right.
Qed.

(** ** workspace_reassign_sticky *)

Lemma workspace_reassign_sticky_Ok (budget fuel : nat) (con : ptr)
    (t t' : Tree) :
  workspace_reassign_sticky budget fuel con t = Ok t' →
  tree_step frame sticky_effect t t'.
Proof.
  revert con t t'. induction fuel as [|fuel IH]; intros con t t' H;
    simpl in H; [done|].
  apply bind_Ok in H as (c & Hc & H).
  apply bind_Ok in H as (t1 & Hnodes & Hfloating).
  apply tree_step_trans with t1.
  - eapply foldM_tree_step; [|exact Hnodes].
    intros current s s' _ Hbody.
    apply bind_Ok in Hbody as (cur & Hcur & Hbody).
    destruct (sticky_group cur) as [group|]; [|by eapply IH].
    apply bind_Ok in Hbody as (output & Houtput & Hbody).
    apply bind_Ok in Hbody as (output' & Houtput' & Hbody).
    apply bind_Ok in Hbody as (src & Hsrc & Hbody).
    destruct src as [src|]; [|by eapply IH].
    apply bind_Ok in Hbody as (sc & Hsc & Hbody).
    apply bind_Ok in Hbody as (s1 & Hs1 & Hbody).
    apply bind_Ok in Hbody as (s2 & Hs2 & Hbody).
    apply Ok_inj in Hbody. subst s'.
    eapply tree_step_trans; [by apply (tree_step_emit _ _ (x_move_win src current))|].
    eapply tree_step_trans; [by eapply tree_step_update; [exact Hs1|]|].
    eapply tree_step_trans; [by eapply tree_step_update; [exact Hs2|]|].
    by apply tree_step_emit.
  - eapply foldM_tree_step; [|exact Hfloating].
    intros current s s' _ Hbody. by eapply IH.
Qed.

(** ** _workspace_show, step by step *)

(** What a run of [_workspace_show] that returns has done. *)
Lemma _workspace_show_Ok (fuel : nat) (workspace : ptr) (w w' : World) :
  _workspace_show fuel workspace w = Ok w' →
  ∃ ws, heap (tree w) !! workspace = Some ws ∧
    ((is_internal_name (name ws) = true ∧ w' = w)
     ∨ (is_internal_name (name ws) = false ∧
        ∃ content cc old t1 t2 current,
          parent ws = Some content ∧
          heap (tree w) !! content = Some cc ∧
          foldM disable_fullscreen (nodes_head cc) (None, tree w)
          = Ok (old, t1) ∧
          update workspace (set_fullscreen_mode CF_OUTPUT) t1 = Ok t2 ∧
          con_get_workspace fuel (heap t2) (focused t2) = Ok current ∧
          ((current = Some workspace ∧
            w' = mkWorld t2 (previous_workspace_name w))
           ∨ (current ≠ Some workspace ∧
              ∃ t3,
                workspace_show_switch fuel workspace old t2 = Ok t3 ∧
                w' = mkWorld t3
                       (current ≫= fun cur => name <$> heap t2 !! cur))))).
Proof.
  unfold _workspace_show. intros H.
  apply bind_Ok in H as (ws & Hws%deref_Ok & H).
  exists ws. split; [done|].
  destruct (is_internal_name (name ws)) eqn:Hint.
  { left. apply Ok_inj in H. done. }
  right. split; [done|].
  apply bind_Ok in H as (content & Hcontent & H).
  apply bind_Ok in H as (cc & Hcc%deref_Ok & H).
  apply bind_Ok in H as ([old t1] & Hloop & H).
  apply bind_Ok in H as (t2 & Ht2 & H).
  apply bind_Ok in H as (current & Hcurrent & H).
  exists content, cc, old, t1, t2, current.
  destruct (parent ws) as [content'|]; [|done]. apply Ok_inj in Hcontent.
  subst content'. repeat split; try done.
  destruct (decide (Some workspace = current)) as [<-|Hne].
  { left. apply Ok_inj in H. done. }
  right. split; [congruence|].
  apply bind_Ok in H as (previous & Hprevious & H).
  apply bind_Ok in H as (t3 & Ht3 & H).
  apply Ok_inj in H. exists t3. split; [done|]. subst w'. f_equal.
  destruct current as [cur|]; simpl.
  - apply bind_Ok in Hprevious as (cur' & Hcur'%deref_Ok & Hprevious).
    apply Ok_inj in Hprevious. by rewrite Hcur'.
  - by apply Ok_inj in Hprevious.
Qed.

(** The first two steps change fullscreen modes only. *)
Lemma show_prefix_step (workspace : ptr) (l : list ptr) (old : option ptr)
    (t t1 t2 : Tree) :
  foldM disable_fullscreen l (None, t) = Ok (old, t1) →
  update workspace (set_fullscreen_mode CF_OUTPUT) t1 = Ok t2 →
  tree_step unfullscreen no_effect t t2.
Proof.
  intros Hloop Hu.
  destruct (disable_fullscreen_loop_Ok _ _ _ _ _ Hloop) as (Hstep & _).
  apply tree_step_trans with t1; [done|].
  by apply tree_step_update with workspace (set_fullscreen_mode CF_OUTPUT).
Qed.

(** ** workspace_back_and_forth *)

(** C10.  Without a recorded name [workspace_back_and_forth] returns and
    changes nothing; with a recorded name it is [workspace_show_by_name]
    of that name.  [_workspace_show] changes the record only when its
    target is not internal and is not the workspace of the focused
    container, and the new record is then the name of that workspace. *)
Theorem workspace_back_and_forth_spec (fuel : nat) (cfg : Config) (w : World) :
  (previous_workspace_name w = None →
   workspace_back_and_forth fuel cfg w = Ok w)
  ∧ (∀ previous, previous_workspace_name w = Some previous →
       workspace_back_and_forth fuel cfg w
       = workspace_show_by_name fuel cfg previous w)
  ∧ (∀ workspace w',
       _workspace_show fuel workspace w = Ok w' →
       previous_workspace_name w' = previous_workspace_name w
       ∨ ∃ ws current,
           heap (tree w) !! workspace = Some ws ∧
           is_internal_name (name ws) = false ∧
           con_get_workspace fuel (heap (tree w)) (focused (tree w))
           = Ok current ∧
           current ≠ Some workspace ∧
           previous_workspace_name w'
           = (current ≫= fun cur => name <$> heap (tree w) !! cur)).
Proof.
  split; [|split].
  - intros H. unfold workspace_back_and_forth. by rewrite H.
  - intros previous H. unfold workspace_back_and_forth. by rewrite H.
  - intros workspace w' H.
    apply _workspace_show_Ok in H as (ws & Hws & [[_ ->]|[Hint H]]);
      [by left|].
    destruct H as (content & cc & old & t1 & t2 & current & Hpar & Hcc
                   & Hloop & Hu & Hcurrent & [[_ ->]|[Hne (t3 & _ & ->)]]);
      [by left|].
    right. exists ws, current.
    destruct (show_prefix_step _ _ _ _ _ _ Hloop Hu) as (Hp & _ & Hf & _).
    repeat split; try done.
    + rewrite <- Hcurrent, Hf. symmetry.
      apply ancestor_of_kind_preserves.
      by apply preserves_weaken with unfullscreen links.
    + simpl. destruct current as [cur|]; simpl; [|done].
      apply (preserves_weaken unfullscreen name name) in Hp; [|done].
      apply Hp.
Qed.

(** The witness: in the example no name is recorded, and showing
    workspace 2 records the name of workspace 1. *)
Lemma workspace_back_and_forth_spec_witness :
  workspace_back_and_forth 6 Example.config1 (mkWorld Example.tree1 None)
  = Ok (mkWorld Example.tree1 None)
  ∧ ∃ w',
      _workspace_show 6 10 (mkWorld Example.tree1 None) = Ok w' ∧
      (previous_workspace_name w' = None
       ∨ ∃ ws current,
           Example.heap1 !! 10%positive = Some ws ∧
           is_internal_name (name ws) = false ∧
           con_get_workspace 6 Example.heap1 12 = Ok current ∧
           current ≠ Some 10%positive ∧
           previous_workspace_name w'
           = (current ≫= fun cur => name <$> Example.heap1 !! cur)).
Proof.
  destruct (workspace_back_and_forth_spec 6 Example.config1
              (mkWorld Example.tree1 None)) as (Hnone & _ & Hshow).
  split; [by apply Hnone|].
  assert (∃ w', _workspace_show 6 10 (mkWorld Example.tree1 None) = Ok w')
    as [w' Hw'].
  { eexists. vm_compute. reflexivity. }
  exists w'. split; [done|]. by apply Hshow.
Defined.

(** ** con_focus and tree_close *)

Lemma con_focus_loop_Ok (fuel : nat) (con : ptr) (t t' : Tree) :
  con_focus_loop fuel con t = Ok t' → tree_step unfocus no_effect t t'.
Proof.
  revert con t. induction fuel as [|fuel IH]; intros con t H; simpl in H;
    [done|].
  apply bind_Ok in H as (c & Hc & H).
  destruct (parent c) as [p|].
  - apply bind_Ok in H as (t1 & Ht1 & H).
    apply tree_step_trans with t1; [|by eapply IH].
    by eapply tree_step_update; [exact Ht1|].
  - apply Ok_inj in H. subst. apply tree_step_refl.
Qed.

Lemma con_focus_Ok (fuel : nat) (con : ptr) (t t' : Tree) :
  con_focus fuel con t = Ok t' →
  preserves unfocus (heap t) (heap t') ∧ croot t' = croot t ∧
  focused t' = con ∧ effects t' = effects t.
Proof.
  unfold con_focus. intros H. apply bind_Ok in H as (t1 & Ht1 & H).
  apply Ok_inj in H. subst t'.
  destruct (con_focus_loop_Ok _ _ _ _ Ht1) as (Hp & Hr & _ & es & He & Hes).
  simpl. repeat split; try done.
  destruct es as [|e es]; [by rewrite app_nil_r in He|].
  by apply Forall_cons in Hes as [[] _].
Qed.

Lemma detach_and_free_Ok (con : ptr) (t t' : Tree) :
  detach_and_free con t = Ok t' →
  heap t' !! con = None ∧
  (∀ p, p ≠ con → is_Some (heap t !! p) → is_Some (heap t' !! p)) ∧
  croot t' = croot t ∧ focused t' = focused t ∧
  ∃ es, effects t' = effects t ++ es ∧
        ipc_send_event_workspace change_empty ∉ es.
Proof.
  unfold detach_and_free. intros H.
  apply bind_Ok in H as (c & Hc%deref_Ok & H).
  apply bind_Ok in H as (t1 & Ht1 & H). apply Ok_inj in H. subst t'.
  assert (dom (heap t1) = dom (heap t) ∧ croot t1 = croot t ∧
          focused t1 = focused t ∧ effects t1 = effects t)
    as (Hdom & Hr & Hf & He).
  { destruct (parent c) as [p|].
    - split; [by eapply update_dom|]. by eapply update_globals.
    - apply Ok_inj in Ht1. by subst. }
  split; [|split; [|split; [|split]]].
  - simpl. destruct (window c); simpl; apply lookup_delete_eq.
  - intros p Hp Hin.
    assert (is_Some (heap t1 !! p)) as Hin1.
    { apply elem_of_dom. rewrite Hdom. by apply elem_of_dom. }
    destruct (window c); simpl; by rewrite lookup_delete_ne.
  - by destruct (window c).
  - by destruct (window c).
  - destruct (window c) as [win|]; simpl.
    + exists [x_unmap_window (window_id win)]. rewrite He. split; [done|].
      intros Hin. apply list_elem_of_singleton in Hin. discriminate Hin.
    + exists []. rewrite He, app_nil_r. split; [done|].
      intros Hin. by apply elem_of_nil in Hin.
Qed.

(** Closing a container without children frees that container only. *)
Lemma tree_close_childless (fuel : nat) (con : ptr) (kill : kill_window_t)
    (dont_kill_parent force_set_focus : bool) (t t' : Tree) (c : Con) :
  heap t !! con = Some c → nodes_head c = [] → floating_head c = [] →
  tree_close fuel con kill dont_kill_parent force_set_focus t = Ok t' →
  heap t' !! con = None ∧
  (∀ p, p ≠ con → is_Some (heap t !! p) → is_Some (heap t' !! p)) ∧
  croot t' = croot t ∧
  ∃ es, effects t' = effects t ++ es ∧
        ipc_send_event_workspace change_empty ∉ es.
Proof.
  intros Hc Hn Hf. unfold tree_close. intros H.
  apply bind_Ok in H as (t1 & Ht1 & H).
  destruct fuel as [|fuel]; [done|].
  cbn [tree_close_rec] in Ht1.
  rewrite (deref_Some _ _ _ Hc) in Ht1. cbn [bind] in Ht1.
  rewrite Hn, Hf in Ht1. simpl in Ht1.
  apply detach_and_free_Ok in Ht1 as (Hgone & Halloc & Hr & Hfo & Hes).
  destruct (heap t1 !! focused t1).
  - apply Ok_inj in H. by subst t'.
  - apply bind_Ok in H as (next & _ & H). apply Ok_inj in H. by subst t'.
Qed.

Lemma close_if_empty_Ok (fuel : nat) (old : option ptr) (t t' : Tree) :
  close_if_empty fuel old t = Ok t' →
  t' = t
  ∨ ∃ q o tc,
      old = Some q ∧ heap t !! q = Some o ∧
      nodes_head o = [] ∧ floating_head o = [] ∧
      workspace_is_visible fuel (heap t) q = Ok false ∧
      tree_close fuel q DONT_KILL_WINDOW false false t = Ok tc ∧
      t' = emit (ipc_send_event_workspace change_empty) tc.
Proof.
  unfold close_if_empty. intros H.
  destruct old as [q|]; [|left; by apply Ok_inj in H].
  apply bind_Ok in H as (o & Ho%deref_Ok & H).
  destruct (nodes_head o) eqn:Hn; [|left; by apply Ok_inj in H].
  destruct (floating_head o) eqn:Hf; [|left; by apply Ok_inj in H].
  apply bind_Ok in H as (visible & Hvisible & H).
  destruct visible; [left; by apply Ok_inj in H|].
  apply bind_Ok in H as (tc & Htc & H). apply Ok_inj in H.
  right. exists q, o, tc. done.
Qed.

Lemma focus_next_Ok (fuel : nat) (workspace next : ptr) (t t' : Tree) :
  focus_next fuel workspace next t = Ok t' →
  ∃ t1 t2,
    con_focus fuel next t = Ok t1 ∧
    update workspace (set_fullscreen_mode CF_OUTPUT) t1 = Ok t2 ∧
    heap t' = heap t2 ∧ croot t' = croot t2 ∧ focused t' = focused t2 ∧
    ∃ es, effects t' = effects t2 ++ es ∧
          (ipc_send_event_workspace change_empty ∉ es) ∧
          (ipc_send_event_workspace change_focus ∈ es).
Proof.
  unfold focus_next. intros H.
  apply bind_Ok in H as (old_output & _ & H).
  apply bind_Ok in H as (t1 & Ht1 & H).
  apply bind_Ok in H as (t2 & Ht2 & H).
  apply bind_Ok in H as (new_output & _ & H).
  apply bind_Ok in H as (t3 & Ht3 & H).
  apply Ok_inj in H. subst t'. exists t1, t2. split; [done|]. split; [done|].
  destruct (decide (old_output = new_output)).
  - apply Ok_inj in Ht3. subst t3. simpl. repeat split; try done.
    exists [ewmh_update_current_desktop; ipc_send_event_workspace change_focus].
    rewrite <- app_assoc. split; [done|]. split.
    + intros Hin. apply elem_of_cons in Hin as [Hin|Hin]; [done|].
      apply list_elem_of_singleton in Hin. done.
    + apply elem_of_cons. right. by left.
  - apply bind_Ok in Ht3 as (n' & _ & Ht3). apply Ok_inj in Ht3. subst t3.
    simpl. repeat split; try done.
    exists [x_set_warp_to (rect n'); ewmh_update_current_desktop;
            ipc_send_event_workspace change_focus].
    rewrite <- !app_assoc. split; [done|]. split.
    + intros Hin. apply elem_of_cons in Hin as [Hin|Hin]; [done|].
      apply elem_of_cons in Hin as [Hin|Hin]; [done|].
      apply list_elem_of_singleton in Hin. done.
    + apply elem_of_cons. right. apply elem_of_cons. right. by left.
Qed.

(** Containers that the switch does not free stay allocated: it frees at
    most [old]. *)
Lemma workspace_show_switch_alloc (fuel : nat) (workspace : ptr)
    (old : option ptr) (t t' : Tree) (p : ptr) :
  workspace_show_switch fuel workspace old t = Ok t' →
  Some p ≠ old → is_Some (heap t !! p) → is_Some (heap t' !! p).
Proof.
  unfold workspace_show_switch. intros H Hne Hp.
  apply bind_Ok in H as (t1 & Ht1 & H).
  apply bind_Ok in H as (next & _ & H).
  apply bind_Ok in H as (t2 & Ht2 & H).
  apply focus_next_Ok in H as (t3 & t4 & Ht3 & Ht4 & Hheap & _).
  rewrite Hheap.
  assert (is_Some (heap t1 !! p)) as Hp1.
  { apply workspace_reassign_sticky_Ok in Ht1 as (Hpres & _).
    destruct Hp as [c Hc].
    destruct (preserves_lookup _ _ _ _ _ Hpres Hc) as (c' & Hc' & _). eauto. }
  assert (is_Some (heap t2 !! p)) as Hp2.
  { apply close_if_empty_Ok in Ht2
      as [->|(q & o & tc & -> & Ho & Hn & Hf & _ & Htc & ->)]; [done|].
    simpl.
    destruct (tree_close_childless _ _ _ _ _ _ _ _ Ho Hn Hf Htc) as (_ & Ha & _).
    apply Ha; [congruence|done]. }
  assert (is_Some (heap t3 !! p)) as Hp3.
  { apply con_focus_Ok in Ht3 as (Hpres & _).
    destruct Hp2 as [c Hc].
    destruct (preserves_lookup _ _ _ _ _ Hpres Hc) as (c' & Hc' & _). eauto. }
  apply elem_of_dom. rewrite (update_dom _ _ _ _ Ht4). by apply elem_of_dom.
Qed.

(** ** Internal workspaces *)

Lemma workspace_show_switch_freed (fuel : nat) (workspace : ptr)
    (old : option ptr) (t t' : Tree) (p : ptr) (c : Con) :
  workspace_show_switch fuel workspace old t = Ok t' →
  heap t !! p = Some c → heap t' !! p = None →
  old = Some p ∧ nodes_head c = [] ∧ floating_head c = [].
Proof.
  unfold workspace_show_switch. intros H Hp Hfreed.
  apply bind_Ok in H as (t1 & Ht1 & H).
  apply bind_Ok in H as (next & _ & H).
  apply bind_Ok in H as (t2 & Ht2 & H).
  apply focus_next_Ok in H as (t3 & t4 & Ht3 & Ht4 & Hheap & _).
  apply workspace_reassign_sticky_Ok in Ht1 as (Hpres & _).
  destruct (preserves_lookup _ _ _ _ _ Hpres Hp) as (c1 & Hc1 & Hframe).
  assert (is_Some (heap t2 !! p) → False) as Hgone.
  { intros [c2 Hc2].
    apply con_focus_Ok in Ht3 as (Hpres3 & _).
    destruct (preserves_lookup _ _ _ _ _ Hpres3 Hc2) as (c3 & Hc3 & _).
    assert (is_Some (heap t4 !! p)) as [c4 Hc4].
    { apply elem_of_dom. rewrite (update_dom _ _ _ _ Ht4).
      apply elem_of_dom. eauto. }
    rewrite Hheap in Hfreed. congruence. }
  apply close_if_empty_Ok in Ht2
    as [->|(q & o & tc & -> & Ho & Hn & Hf & _ & Htc & ->)].
  { destruct Hgone. eauto. }
  destruct (tree_close_childless _ _ _ _ _ _ _ _ Ho Hn Hf Htc) as (_ & Ha & _).
  destruct (decide (p = q)) as [->|Hne].
  - assert (o = c1) as -> by congruence.
    split; [done|].
    assert (nodes_head (frame c1) = nodes_head (frame c)
            ∧ floating_head (frame c1) = floating_head (frame c))
      as [Hnodes Hfloating] by (by rewrite Hframe).
    cbn in Hnodes, Hfloating. split; congruence.
  - destruct Hgone. simpl. apply Ha; [done|eauto].
Qed.

Lemma workspace_show_switch_target (fuel : nat) (workspace : ptr)
    (old : option ptr) (t t' : Tree) :
  workspace_show_switch fuel workspace old t = Ok t' →
  is_Some (heap t' !! workspace).
Proof.
  unfold workspace_show_switch. intros H.
  apply bind_Ok in H as (t1 & _ & H).
  apply bind_Ok in H as (next & _ & H).
  apply bind_Ok in H as (t2 & _ & H).
  apply focus_next_Ok in H as (t3 & t4 & _ & Ht4 & Hheap & _).
  rewrite Hheap. apply update_Ok in Ht4 as (c & _ & ->). simpl.
  rewrite lookup_insert_eq. eauto.
Qed.

(** The part of C6 that the code keeps.  [workspace_show] on a workspace
    whose name starts with two underscores returns without changing
    anything: no fullscreen mode, no focus, no recorded name.  And the
    only container that [workspace_show] frees is a sibling of the target
    in the queue of the content container that had the mode [CF_OUTPUT]
    and has neither tiling nor floating children; its name is not
    looked at. *)
Theorem workspace_show_internal (fuel : nat) (w : World) :
  (∀ workspace ws,
     heap (tree w) !! workspace = Some ws →
     is_internal_name (name ws) = true →
     workspace_show fuel workspace w = Ok w)
  ∧ (∀ workspace w' p c,
       workspace_show fuel workspace w = Ok w' →
       heap (tree w) !! p = Some c → heap (tree w') !! p = None →
       ∃ ws content cc,
         heap (tree w) !! workspace = Some ws ∧
         is_internal_name (name ws) = false ∧
         parent ws = Some content ∧
         heap (tree w) !! content = Some cc ∧
         p ∈ nodes_head cc ∧ p ≠ workspace ∧
         fullscreen_mode c = CF_OUTPUT ∧
         nodes_head c = [] ∧ floating_head c = []).
Proof.
  split.
  - intros workspace ws Hws Hint. unfold workspace_show, _workspace_show.
    rewrite (deref_Some _ _ _ Hws). simpl. by rewrite Hint.
  - intros workspace w' p c H Hp Hfreed. unfold workspace_show in H.
    apply _workspace_show_Ok in H as (ws & Hws & [[_ ->]|[Hint H]]);
      [congruence|].
    destruct H as (content & cc & old & t1 & t2 & current & Hpar & Hcc
                   & Hloop & Hu & Hcurrent & Hcases).
    destruct (show_prefix_step _ _ _ _ _ _ Hloop Hu) as (Hpres & _).
    destruct (preserves_lookup _ _ _ _ _ Hpres Hp) as (c2 & Hc2 & Hc2c).
    destruct Hcases as [[_ ->]|[Hne (t3 & Hswitch & ->)]];
      [simpl in Hfreed; congruence|].
    simpl in Hfreed.
    destruct (workspace_show_switch_freed _ _ _ _ _ _ _ Hswitch Hc2 Hfreed)
      as (-> & Hnodes & Hfloating).
    destruct (disable_fullscreen_loop_Ok _ _ _ _ _ Hloop)
      as (_ & _ & _ & [Hold|(q & cq & Hq & Hin & Hcq & Hfs)] & _); [done|].
    injection Hq as <-. assert (cq = c) as -> by congruence.
    assert (nodes_head (unfullscreen c2) = nodes_head (unfullscreen c)
            ∧ floating_head (unfullscreen c2) = floating_head (unfullscreen c))
      as [Hn Hf] by (by rewrite Hc2c).
    cbn in Hn, Hf.
    destruct (workspace_show_switch_target _ _ _ _ _ Hswitch) as [c3 Hc3].
    exists ws, content, cc. repeat split; try done; congruence.
Qed.

(** The scratch workspace of the first example is not shown; in the
    second example showing workspace 2 frees workspace 1, which is
    empty and was the visible one. *)
Lemma workspace_show_internal_witness :
  workspace_show 6 4 (mkWorld Example.tree1 None)
  = Ok (mkWorld Example.tree1 None)
  ∧ ∃ w' ws content cc,
      workspace_show 6 10 (mkWorld Example.tree2 None) = Ok w' ∧
      heap (tree w') !! 9%positive = None ∧
      heap Example.tree2 !! 10%positive = Some ws ∧
      parent ws = Some content ∧
      heap Example.tree2 !! content = Some cc ∧
      9%positive ∈ nodes_head cc.
Proof.
  split.
  - apply (proj1 (workspace_show_internal 6 (mkWorld Example.tree1 None))
             4%positive
             (Example.workspace 3 "__i3_scratch" (-1) CF_NONE [] [] [])).
    + vm_compute. reflexivity.
    + reflexivity.
  - assert (∃ w', workspace_show 6 10 (mkWorld Example.tree2 None) = Ok w'
                  ∧ heap (tree w') !! 9%positive = None)
      as (w' & Hw' & Hfreed).
    { eexists. split; vm_compute; reflexivity. }
    destruct (proj2 (workspace_show_internal 6 (mkWorld Example.tree2 None))
                10%positive w' 9%positive
                (Example.workspace 7 "1" 1 CF_OUTPUT [] [] []) Hw')
      as (ws & content & cc & Hws & _ & Hparent & Hcc & Hin & _);
      [vm_compute; reflexivity|exact Hfreed|].
    exists w', ws, content, cc. done.
Defined.

(** C6, the code diverges.  The claim says that internal workspaces are
    never shown and never pruned.  A second monitor is attached and
    [create_workspace_on_output] names its first workspace after the
    binding [workspace __x]: the internal workspace is visible
    ([CF_OUTPUT]), which the guard of [_workspace_show] is there to
    prevent, and it gets the focus.  When the user then switches to
    workspace 3, the internal workspace is empty and no longer visible,
    and [workspace_show] prunes it. *)
Lemma internal_workspace_pruned :
  ∃ internal t1 t2 w' c,
    create_workspace_on_output 20 Example.config4 "fake-1" 17 Example.tree4
    = Ok (internal, t1) ∧
    heap t1 !! internal = Some c ∧
    is_internal_name (name c) = true ∧ fullscreen_mode c = CF_OUTPUT ∧
    con_focus 20 internal t1 = Ok t2 ∧
    workspace_show_by_name 20 Example.config4 "3" (mkWorld t2 None) = Ok w' ∧
    heap (tree w') !! internal = None.
Proof.
  eexists _, _, _, _, _.
  split; [vm_compute; reflexivity|].
  split; [vm_compute; reflexivity|].
  split; [reflexivity|]. split; [reflexivity|].
  split; [vm_compute; reflexivity|].
  split; [vm_compute; reflexivity|].
  vm_compute. reflexivity.
Qed.

(** ** Input focus *)

(** C8.  For a leaf whose window needs WM_TAKE_FOCUS and is not globally
    active, the only request is the ClientMessage of type WM_PROTOCOLS
    with format 32 and data [WM_TAKE_FOCUS, server_time] to that window,
    and no SetInputFocus; for a leaf whose window does not advertise
    WM_TAKE_FOCUS the only request is SetInputFocus, and no
    ClientMessage. *)
Theorem x_push_focus_take_focus (h : gmap ptr Con) (leaf : ptr) (c : Con)
    (win : i3Window) (globally_active : bool) (server_time : Z) :
  h !! leaf = Some c → window c = Some win →
  (needs_take_focus win = true → globally_active = false →
   ∃ requests,
     x_push_focus h leaf globally_active server_time = Ok requests ∧
     requests = [ClientMessage (window_id win) 32 WM_PROTOCOLS WM_TAKE_FOCUS
                   server_time] ∧
     ∀ window_, SetInputFocus window_ ∉ requests)
  ∧ (needs_take_focus win = false →
     ∃ requests,
       x_push_focus h leaf globally_active server_time = Ok requests ∧
       requests = [SetInputFocus (window_id win)] ∧
       ∀ window_ format type_ data0 data1,
         ClientMessage window_ format type_ data0 data1 ∉ requests).
Proof.
  intros Hc Hwin. unfold x_push_focus.
  rewrite (deref_Some _ _ _ Hc). simpl. rewrite Hwin. split.
  - intros -> ->. simpl. eexists. split; [done|]. split; [done|].
    intros window_ Hin. apply list_elem_of_singleton in Hin. discriminate Hin.
  - intros ->. simpl. eexists. split; [done|]. split; [done|].
    intros ????? Hin. apply list_elem_of_singleton in Hin. discriminate Hin.
Qed.

(** The witness: the editor of the example takes the focus itself. *)
Lemma x_push_focus_take_focus_witness :
  (true = true → false = false →
   ∃ requests,
     x_push_focus Example.heap1 15 false 4711 = Ok requests ∧
     requests = [ClientMessage 102 32 WM_PROTOCOLS WM_TAKE_FOCUS 4711] ∧
     ∀ window_, SetInputFocus window_ ∉ requests)
  ∧ (true = false →
     ∃ requests,
       x_push_focus Example.heap1 15 false 4711 = Ok requests ∧
       requests = [SetInputFocus 102] ∧
       ∀ window_ format type_ data0 data1,
         ClientMessage window_ format type_ data0 data1 ∉ requests).
Proof.
  apply (x_push_focus_take_focus Example.heap1 15
           (Example.leaf 11 "editor" (mkWindow 102 true) false)
           (mkWindow 102 true) false 4711).
  - vm_compute. reflexivity.
  - reflexivity.
Defined.

(** ** workspace_next *)

(** C4, the failing input.  With foo alone on the first monitor and 1 and
    bar on the second, the order of the traversal is 1, foo, bar.  From
    bar, the last workspace, [workspace_next] does not wrap around to
    workspace 1 but goes to foo; from foo it goes to bar again.  With
    workspace 5 in the place of foo, the same loop does return the lowest
    number. *)
Lemma workspace_next_wraps_to_named :
  workspace_next 6 Example.tree5 = Ok (Some 22%positive)
  ∧ (name <$> heap Example.tree5 !! 22%positive) = Some "foo"
  ∧ (num <$> heap Example.tree5 !! 32%positive) = Some 1%Z
  ∧ workspace_next 6 (set_focused 22 Example.tree5) = Ok (Some 33%positive)
  ∧ workspace_next 6 (set_focused 32 Example.tree5) = Ok (Some 22%positive)
  ∧ workspace_next 6 Example.tree6 = Ok (Some 32%positive).
Proof. repeat split; vm_compute; reflexivity. Qed.

(** ** Walks on well-formed trees return *)

Lemma wf_tree_transport (lv : ptr → nat) (bound : nat) (h h' : gmap ptr Con) :
  preserves family h h' →
  (∀ p c', h' !! p = Some c' → ∀ q, q ∈ focus_head c' → q ∈ children c') →
  wf_tree lv bound h → wf_tree lv bound h'.
Proof.
  intros Hp Hfocus Hwf. apply wf_tree_intro. intros p c' Hc'.
  destruct (preserves_lookup family h' h p c' (preserves_sym _ _ _ Hp) Hc')
    as (c & Hc & Hl).
  injection Hl as Hpar Hn Hfl.
  assert (children c' = children c) as Hch by (unfold children; congruence).
  split; [by eapply wf_level|]. split; [|split].
  - intros q Hq. rewrite Hch in Hq.
    destruct (wf_child lv bound h Hwf p c q Hc Hq) as (cq & Hcq & Hcpar & Hlt).
    destruct (preserves_lookup family h h' q cq Hp Hcq) as (cq' & Hcq' & Hl').
    injection Hl' as Hpar' _ _. exists cq'. split; [done|].
    split; [congruence|done].
  - intros q Hq. rewrite <- Hpar in Hq.
    destruct (wf_parent lv bound h Hwf p c q Hc Hq) as (cq & Hcq & Hin).
    destruct (preserves_lookup family h h' q cq Hp Hcq) as (cq' & Hcq' & Hl').
    injection Hl' as _ Hn' Hfl'. exists cq'. split; [done|].
    unfold children in *. congruence.
  - by apply (Hfocus p c').
Qed.

Section Walks.

Context (lv : ptr → nat) (bound : nat) (h : gmap ptr Con).
Hypothesis Hwf : wf_tree lv bound h.

Lemma ancestor_of_kind_total (fuel : nat) (kind : con_type) (p : ptr)
    (c : Con) :
  h !! p = Some c → bound ≤ fuel + lv p →
  ∃ r, ancestor_of_kind fuel h kind (Some p) = Ok r ∧
       ∀ q, r = Some q → is_Some (h !! q).
Proof.
  revert p c. induction fuel as [|fuel IH]; intros p c Hc Hfuel.
  - pose proof (wf_level lv bound h Hwf p c Hc). lia.
  - simpl. rewrite (deref_Some _ _ _ Hc). simpl.
    destruct (decide (type c = kind)).
    + exists (Some p). split; [done|]. intros q [= <-]. eauto.
    + destruct (parent c) as [q|] eqn:Hpar.
      * destruct (wf_parent lv bound h Hwf p c q Hc Hpar) as (cq & Hcq & _).
        pose proof (wf_parent_level lv bound h Hwf p c q Hc Hpar).
        apply (IH q cq Hcq). lia.
      * exists None. split; [by destruct fuel|]. done.
Qed.

(** The container that [con_descend_focused] reaches is the start or lies
    below it. *)
Lemma con_descend_focused_total (fuel : nat) (p : ptr) (c : Con) :
  h !! p = Some c → lv p < fuel →
  ∃ r rc, con_descend_focused fuel h p = Ok r ∧ h !! r = Some rc ∧
    (r = p ∨ ∃ q, parent rc = Some q ∧ lv q ≤ lv p).
Proof.
  revert p c. induction fuel as [|fuel IH]; intros p c Hc Hfuel; [lia|].
  simpl. rewrite (deref_Some _ _ _ Hc). simpl.
  destruct (focus_head c) as [|first rest] eqn:Hfocus.
  - exists p, c. split; [done|]. split; [done|]. by left.
  - assert (first ∈ children c) as Hin.
    { apply (wf_focus lv bound h Hwf p c first Hc). rewrite Hfocus. by left. }
    destruct (wf_child lv bound h Hwf p c first Hc Hin)
      as (fc & Hfc & Hfpar & Hlt).
    destruct (IH first fc Hfc) as (r & rc & Hr & Hrc & Hbelow); [lia|].
    exists r, rc. split; [done|]. split; [done|]. right.
    destruct Hbelow as [->|(q & Hq & Hle)].
    + exists p. split; [congruence|lia].
    + exists q. split; [done|lia].
Qed.

Lemma first_result_total {B : Type} (g : ptr → Con → option B) (l : list ptr) :
  (∀ p, p ∈ l → is_Some (h !! p)) →
  ∃ r, first_result (fun p => let* c := deref h p in Ok (g p c)) l = Ok r ∧
       ∀ b, r = Some b → ∃ p c, p ∈ l ∧ h !! p = Some c ∧ g p c = Some b.
Proof.
  induction l as [|p l IH]; intros Hl; simpl.
  - exists None. split; [done|]. done.
  - destruct (Hl p) as [c Hc]; [by left|].
    rewrite (deref_Some _ _ _ Hc). simpl.
    destruct (g p c) as [b|] eqn:Hg.
    + exists (Some b). split; [done|]. intros b' [= <-].
      exists p, c. split; [by left|done].
    + destruct IH as (r & -> & Hr).
      { intros q Hq. apply Hl. by right. }
      exists r. split; [done|]. intros b Hb.
      destruct (Hr b Hb) as (q & cq & Hq & Hcq & Hgq).
      exists q, cq. split; [by right|done].
Qed.

Lemma below_total (level acc : list ptr) :
  (∀ p, p ∈ level → is_Some (h !! p)) →
  ∃ below,
    foldM (fun p acc =>
             let* c := deref h p in
             Ok (acc ++ nodes_head c ++ floating_head c)) level acc
    = Ok below ∧
    ∀ q, q ∈ below →
      q ∈ acc ∨ ∃ p c, p ∈ level ∧ h !! p = Some c ∧ q ∈ children c.
Proof.
  revert acc. induction level as [|p level IH]; intros acc Hl; simpl.
  - exists acc. split; [done|]. intros q Hq. by left.
  - destruct (Hl p) as [c Hc]; [by left|].
    rewrite (deref_Some _ _ _ Hc). simpl.
    destruct (IH (acc ++ nodes_head c ++ floating_head c))
      as (below & -> & Hbelow).
    { intros q Hq. apply Hl. by right. }
    exists below. split; [done|]. intros q Hq.
    destruct (Hbelow q Hq) as [Hin|(p' & c' & Hp' & Hc' & Hin)].
    + apply elem_of_app in Hin as [Hin|Hin]; [by left|].
      right. exists p, c. split; [by left|done].
    + right. exists p', c'. split; [by right|done].
Qed.

Lemma fullscreen_bfs_total (fuel : nat) (mode : fullscreen_mode_t)
    (level : list ptr) :
  (∀ p, p ∈ level → is_Some (h !! p) ∧ lv p < fuel) →
  ∃ r, fullscreen_bfs fuel h mode level = Ok r ∧
       ∀ q, r = Some q → ∃ c, h !! q = Some c ∧ fullscreen_mode c = mode.
Proof.
  revert level. induction fuel as [|fuel IH]; intros level Hl.
  - destruct level as [|p level].
    + exists None. done.
    + destruct (Hl p) as [_ Hlt]; [by left|]. lia.
  - destruct level as [|p0 level0] eqn:Hlevel.
    { exists None. done. }
    rewrite <- Hlevel in *. clear Hlevel.
    assert (∀ p, p ∈ level → is_Some (h !! p)) as Halloc by (intros; by apply Hl).
    destruct (first_result_total
                (fun p c => if decide (fullscreen_mode c = mode)
                            then Some p else None) level Halloc)
      as (found & Hfound & Hfound_spec).
    destruct (below_total level [] Halloc) as (below & Hbelow & Hbelow_spec).
    assert (fullscreen_bfs (S fuel) h mode level
            = match found with
              | Some p => Ok (Some p)
              | None => fullscreen_bfs fuel h mode below
              end) as ->.
    { destruct level.
      { simpl in Hfound, Hbelow. apply Ok_inj in Hfound, Hbelow.
        subst. by destruct fuel. }
      cbn [fullscreen_bfs].
      rewrite Hfound. cbn [bind]. destruct found; [done|].
      rewrite Hbelow. done. }
    destruct found as [p|].
    + exists (Some p). split; [done|]. intros q [= <-].
      destruct (Hfound_spec p eq_refl) as (p' & c & _ & Hc & Hg).
      destruct (decide (fullscreen_mode c = mode)); [|done].
      injection Hg as ->. eauto.
    + apply IH. intros q Hq.
      destruct (Hbelow_spec q Hq) as [Hin|(p & c & Hp & Hc & Hin)].
      { by apply elem_of_nil in Hin. }
      destruct (wf_child lv bound h Hwf p c q Hc Hin) as (cq & Hcq & _ & Hlt).
      destruct (Hl p Hp) as [_ Hplt]. split; [eauto|lia].
Qed.

Lemma con_get_fullscreen_con_total (fuel : nat) (con : ptr) (c : Con)
    (mode : fullscreen_mode_t) :
  h !! con = Some c → lv con ≤ fuel →
  ∃ r, con_get_fullscreen_con fuel h con mode = Ok r ∧
       ∀ q, r = Some q → ∃ cq, h !! q = Some cq ∧ fullscreen_mode cq = mode.
Proof.
  intros Hc Hfuel. unfold con_get_fullscreen_con.
  rewrite (deref_Some _ _ _ Hc). simpl.
  apply fullscreen_bfs_total. intros q Hq.
  destruct (wf_child lv bound h Hwf con c q Hc Hq) as (cq & Hcq & _ & Hlt).
  split; [eauto|lia].
Qed.

(** A workspace whose fullscreen mode is not [CF_OUTPUT] is not
    visible. *)
Lemma workspace_is_visible_false (fuel : nat) (ws : ptr) (c : Con) :
  h !! ws = Some c → fullscreen_mode c ≠ CF_OUTPUT → bound ≤ fuel →
  workspace_is_visible fuel h ws = Ok false.
Proof.
  intros Hc Hfs Hfuel. unfold workspace_is_visible, con_get_output.
  destruct (ancestor_of_kind_total fuel CT_OUTPUT ws c Hc) as (r & -> & Hr);
    [lia|].
  simpl. destruct r as [output|]; [|done].
  destruct (Hr output eq_refl) as [oc Hoc].
  destruct (con_get_fullscreen_con_total fuel output oc CF_OUTPUT Hoc)
    as (fs & -> & Hfs').
  { pose proof (wf_level lv bound h Hwf output oc Hoc). lia. }
  simpl. f_equal. apply bool_decide_eq_false. intros ->.
  destruct (Hfs' ws eq_refl) as (c' & Hc' & Hmode). congruence.
Qed.

Lemma _get_sticky_total (fuel : nat) (con : ptr) (c : Con)
    (sticky_group_ : string) (exclude : ptr) :
  h !! con = Some c → lv con < fuel →
  ∃ r, _get_sticky fuel h con sticky_group_ exclude = Ok r.
Proof.
  revert con c. induction fuel as [|fuel IH]; intros con c Hc Hfuel; [lia|].
  cbn [_get_sticky]. rewrite (deref_Some _ _ _ Hc). cbn [bind].
  set (body := fun current => bind (is_sticky_source h sticky_group_ exclude current) _).
  assert (∀ l, (∀ q, q ∈ l → q ∈ children c) →
               ∃ r, first_result body l = Ok r) as Hscan.
  { induction l as [|q l IHl]; intros Hl; simpl; [eauto|].
    destruct (wf_child lv bound h Hwf con c q Hc) as (cq & Hcq & _ & Hlt).
    { apply Hl. by left. }
    unfold body at 1. unfold is_sticky_source.
    rewrite (deref_Some _ _ _ Hcq). cbn [bind].
    destruct (_ && _).
    - eauto.
    - destruct (IH q cq Hcq) as (r & ->); [lia|]. cbn [bind].
      destruct r; [eauto|]. apply IHl. intros q' Hq'. apply Hl. by right. }
  destruct (Hscan (nodes_head c)) as (r1 & ->).
  { intros q Hq. unfold children. apply elem_of_app. by left. }
  cbn [bind]. destruct r1; [eauto|].
  apply Hscan. intros q Hq. unfold children. apply elem_of_app. by right.
Qed.

End Walks.

(** ** workspace_reassign_sticky returns *)

Lemma first_result_Some {A B : Type} (f : A → res (option B)) (l : list A)
    (b : B) :
  first_result f l = Ok (Some b) → ∃ a, a ∈ l ∧ f a = Ok (Some b).
Proof.
  induction l as [|a l IH]; simpl; intros H; [done|].
  apply bind_Ok in H as (r & Hr & H). destruct r as [b'|].
  - apply Ok_inj in H. injection H as ->. exists a. split; [by left|done].
  - destruct (IH H) as (a' & Ha' & Hf). exists a'. split; [by right|done].
Qed.

Lemma _get_sticky_Some (fuel : nat) (h : gmap ptr Con) (con : ptr)
    (sticky_group_ : string) (exclude src : ptr) :
  _get_sticky fuel h con sticky_group_ exclude = Ok (Some src) →
  is_Some (h !! src).
Proof.
  revert con. induction fuel as [|fuel IH]; intros con H; [done|].
  cbn [_get_sticky] in H.
  apply bind_Ok in H as (c & _ & H).
  apply bind_Ok in H as (r1 & Hr1 & H).
  assert (∀ l, first_result
                 (fun current =>
                    let* hit := is_sticky_source h sticky_group_ exclude current in
                    if hit then Ok (Some current)
                    else _get_sticky fuel h current sticky_group_ exclude) l
               = Ok (Some src) → is_Some (h !! src)) as Hscan.
  { intros l Hl. apply first_result_Some in Hl as (a & _ & Ha).
    apply bind_Ok in Ha as (hit & Hhit & Ha). destruct hit.
    - apply Ok_inj in Ha. injection Ha as ->.
      unfold is_sticky_source in Hhit.
      apply bind_Ok in Hhit as (c' & Hc'%deref_Ok & _). eauto.
    - by eapply IH. }
  destruct r1 as [r|].
  - apply Ok_inj in H. injection H as ->. by eapply Hscan.
  - by eapply Hscan.
Qed.

Lemma has_output_child (lv : ptr → nat) (bound budget : nat)
    (h : gmap ptr Con) (p q o : ptr) (c : Con) :
  wf_tree lv bound h → bound ≤ budget →
  h !! p = Some c → q ∈ children c →
  con_get_output budget h p = Ok (Some o) →
  ∃ o', con_get_output budget h q = Ok (Some o').
Proof.
  intros Hwf Hbudget Hc Hq Ho.
  destruct (wf_child lv bound h Hwf p c q Hc Hq) as (cq & Hcq & Hpar & Hlt).
  pose proof (wf_level lv bound h Hwf p c Hc) as Hlevel.
  destruct budget as [|budget]; [lia|].
  unfold con_get_output in *. cbn [ancestor_of_kind].
  rewrite (deref_Some _ _ _ Hcq). cbn [bind].
  destruct (decide (type cq = CT_OUTPUT)); [eauto|].
  rewrite Hpar.
  destruct (ancestor_of_kind_total lv bound h Hwf budget CT_OUTPUT p c Hc)
    as (r & Hr & _); [lia|].
  pose proof (ancestor_of_kind_mono _ (S budget) _ _ _ _ Hr) as Hr'.
  rewrite Hr' in Ho by lia. apply Ok_inj in Ho. subst r. eauto.
Qed.

Lemma workspace_reassign_sticky_total (lv : ptr → nat) (bound budget : nat)
    (fuel : nat) (con : ptr) (t : Tree) (c : Con) :
  wf_tree lv bound (heap t) → bound ≤ budget →
  heap t !! con = Some c → lv con < fuel →
  (∃ o, con_get_output budget (heap t) con = Ok (Some o)) →
  ∃ t', workspace_reassign_sticky budget fuel con t = Ok t'.
Proof.
  intros Hwf Hbudget. revert con t c Hwf.
  induction fuel as [|fuel IH]; intros con t c Hwf Hc Hfuel Hout; [lia|].
  cbn [workspace_reassign_sticky]. rewrite (deref_Some _ _ _ Hc). cbn [bind].
  set (Inv := fun s : Tree => preserves links (heap t) (heap s)).
  assert (∀ s q, Inv s → q ∈ children c →
            ∃ cq, heap s !! q = Some cq ∧ lv q < fuel ∧
                  wf_tree lv bound (heap s) ∧
                  ∃ o, con_get_output budget (heap s) q = Ok (Some o))
    as Hchild.
  { intros s q Hs Hq.
    destruct (wf_child lv bound _ Hwf con c q Hc Hq) as (cq & Hcq & _ & Hlt).
    destruct (preserves_lookup _ _ _ _ _ Hs Hcq) as (cq' & Hcq' & _).
    exists cq'. split; [done|]. split; [lia|].
    split; [by apply wf_tree_preserves with (heap t)|].
    destruct Hout as [o Ho].
    destruct (has_output_child lv bound budget _ con q o c Hwf Hbudget Hc Hq Ho)
      as [o' Ho'].
    exists o'. unfold con_get_output.
    by rewrite (ancestor_of_kind_preserves _ _ _ _ _ Hs). }
  assert (∀ s q s', Inv s →
            workspace_reassign_sticky budget fuel q s = Ok s' → Inv s')
    as Hrec.
  { intros s q s' Hs Hrun. apply workspace_reassign_sticky_Ok in Hrun as [Hp _].
    apply preserves_trans with (heap s); [done|].
    by apply preserves_weaken with frame links. }
  match goal with
  | |- ∃ t', bind (foldM ?f _ _) _ = _ =>
      destruct (foldM_total f Inv (nodes_head c) t) as (t1 & -> & Ht1)
  end.
  - intros current s Hcurrent Hs.
    destruct (Hchild s current Hs) as (cur & Hcur & Hlt & Hwfs & o & Ho).
    { unfold children. apply elem_of_app. by left. }
    rewrite (deref_Some _ _ _ Hcur). cbn [bind].
    destruct (sticky_group cur) as [group|].
    + rewrite Ho. cbn [bind nonnull].
      assert (is_Some (heap s !! o)) as [oc Hoc].
      { destruct (ancestor_of_kind_total lv bound _ Hwfs budget CT_OUTPUT
                    current cur Hcur) as (r & Hr & Halloc).
        { pose proof (wf_level lv bound _ Hwfs current cur Hcur). lia. }
        unfold con_get_output in Ho. rewrite Hr in Ho.
        apply Ok_inj in Ho. by apply Halloc. }
      destruct (_get_sticky_total lv bound _ Hwfs budget o oc group current Hoc)
        as (src & Hsrc).
      { pose proof (wf_level lv bound _ Hwfs o oc Hoc). lia. }
      rewrite Hsrc. cbn [bind]. destruct src as [src|].
      * destruct (_get_sticky_Some _ _ _ _ _ _ Hsrc) as [sc Hsc].
        cbn [emit heap]. rewrite (deref_Some _ _ _ Hsc). cbn [bind].
        erewrite update_Some; [|exact Hcur]. cbn [bind].
        assert (is_Some (<[current := set_window (window sc) true cur]>
                           (heap s) !! src)) as [sc' Hsc'].
        { destruct (decide (current = src)) as [->|Hne].
          - rewrite lookup_insert_eq. eauto.
          - rewrite lookup_insert_ne by done. eauto. }
        erewrite update_Some; [|exact Hsc']. cbn [bind].
        eexists. split; [done|].
        unfold Inv. simpl. apply preserves_trans with (heap s); [done|].
        intros p. destruct (decide (src = p)) as [->|Hne1].
        { rewrite lookup_insert_eq. simpl.
          destruct (decide (current = p)) as [->|Hne2].
          - rewrite lookup_insert_eq in Hsc'. injection Hsc' as <-.
            by rewrite Hcur.
          - rewrite lookup_insert_ne in Hsc' by done. by rewrite Hsc'. }
        rewrite lookup_insert_ne by done.
        destruct (decide (current = p)) as [->|Hne2].
        { rewrite lookup_insert_eq. by rewrite Hcur. }
        by rewrite lookup_insert_ne.
      * destruct (IH current s cur Hwfs Hcur Hlt) as (s' & Hs'); [eauto|].
        exists s'. split; [done|]. by eapply Hrec.
    + destruct (IH current s cur Hwfs Hcur Hlt) as (s' & Hs'); [eauto|].
      exists s'. split; [done|]. by eapply Hrec.
  - apply preserves_refl.
  - cbn [bind].
    destruct (foldM_total (workspace_reassign_sticky budget fuel) Inv
                (floating_head c) t1) as (t2 & Ht2 & _); [|done|eauto].
    intros current s Hcurrent Hs.
    destruct (Hchild s current Hs) as (cur & Hcur & Hlt & Hwfs & o & Ho).
    { unfold children. apply elem_of_app. by right. }
    destruct (IH current s cur Hwfs Hcur Hlt) as (s' & Hs'); [eauto|].
    exists s'. split; [done|]. by eapply Hrec.
Qed.

(** ** con_focus and tree_close return *)

Lemma wf_update_focus (lv : ptr → nat) (bound : nat) (t : Tree) (p : ptr)
    (pc : Con) (l : list ptr) :
  wf_tree lv bound (heap t) → heap t !! p = Some pc →
  (∀ q, q ∈ l → q ∈ children pc) →
  wf_tree lv bound (<[p := set_focus_head l pc]> (heap t)).
Proof.
  intros Hwf Hpc Hl.
  apply wf_tree_transport with (heap t); [| |done].
  - intros q.
    pose proof (update_field family p (set_focus_head l) t _ q
                  (update_Some p _ t pc Hpc)) as H.
    simpl in H. apply H. done.
  - intros p' c' Hc' q Hq. destruct (decide (p = p')) as [->|Hne].
    + rewrite lookup_insert_eq in Hc'. injection Hc' as <-. by apply Hl.
    + rewrite lookup_insert_ne in Hc' by done.
      by apply (wf_focus lv bound (heap t) Hwf p' c').
Qed.

Lemma con_focus_loop_total (lv : ptr → nat) (bound fuel : nat) (con : ptr)
    (t : Tree) (c : Con) :
  wf_tree lv bound (heap t) → heap t !! con = Some c →
  bound ≤ fuel + lv con →
  ∃ t', con_focus_loop fuel con t = Ok t' ∧ wf_tree lv bound (heap t').
Proof.
  revert con t c. induction fuel as [|fuel IH]; intros con t c Hwf Hc Hfuel.
  - pose proof (wf_level lv bound _ Hwf con c Hc). lia.
  - cbn [con_focus_loop]. rewrite (deref_Some _ _ _ Hc). cbn [bind].
    destruct (parent c) as [p|] eqn:Hpar; [|eauto].
    destruct (wf_parent lv bound _ Hwf con c p Hc Hpar) as (pc & Hpc & Hin).
    pose proof (wf_parent_level lv bound _ Hwf con c p Hc Hpar) as Hlt.
    erewrite update_Some; [|exact Hpc]. cbn [bind].
    eapply IH.
    + simpl. apply wf_update_focus; [done|done|].
      intros q Hq. apply elem_of_cons in Hq as [->|Hq]; [done|].
      apply list_elem_of_filter in Hq as [_ Hq].
      by apply (wf_focus lv bound (heap t) Hwf p pc).
    + simpl. apply lookup_insert_eq.
    + lia.
Qed.

Lemma con_focus_total (lv : ptr → nat) (bound fuel : nat) (con : ptr)
    (t : Tree) (c : Con) :
  wf_tree lv bound (heap t) → heap t !! con = Some c → bound ≤ fuel →
  ∃ t', con_focus fuel con t = Ok t' ∧ wf_tree lv bound (heap t').
Proof.
  intros Hwf Hc Hfuel. unfold con_focus.
  destruct (con_focus_loop_total lv bound fuel con t c Hwf Hc) as (t1 & -> & Hwf1);
    [lia|].
  cbn [bind]. eauto.
Qed.

(** Freeing a container without children keeps the tree well formed. *)
Lemma wf_detach (lv : ptr → nat) (bound : nat) (h : gmap ptr Con)
    (old content : ptr) (o cc : Con) :
  wf_tree lv bound h →
  h !! old = Some o → nodes_head o = [] → floating_head o = [] →
  parent o = Some content → h !! content = Some cc →
  wf_tree lv bound
    (delete old
       (<[content := set_queues
                       (filter (fun q => q ≠ old) (nodes_head cc))
                       (filter (fun q => q ≠ old) (floating_head cc))
                       (filter (fun q => q ≠ old) (focus_head cc)) cc]> h)).
Proof.
  intros Hwf Ho Hn Hf Hpar Hcc.
  set (cc' := set_queues _ _ _ cc).
  assert (old ≠ content) as Hne.
  { intros <-. pose proof (wf_parent_level lv bound h Hwf old o old Ho Hpar).
    lia. }
  assert (∀ p c', delete old (<[content := cc']> h) !! p = Some c' →
            p ≠ old ∧ ∃ c, h !! p = Some c ∧ parent c' = parent c ∧
              (∀ q, q ∈ children c' ↔ q ∈ children c ∧ q ≠ old) ∧
              (∀ q, q ∈ focus_head c' ↔ q ∈ focus_head c ∧ q ≠ old))
    as Hlook.
  { intros p c' Hc'. apply lookup_delete_Some in Hc' as [Hpo Hc'].
    split; [done|]. destruct (decide (content = p)) as [<-|Hpc].
    - rewrite lookup_insert_eq in Hc'. injection Hc' as <-.
      exists cc. split; [done|]. split; [done|]. split.
      + intros q. unfold children, cc'. simpl.
        rewrite !elem_of_app, !list_elem_of_filter. tauto.
      + intros q. unfold cc'. simpl. rewrite list_elem_of_filter. tauto.
    - rewrite lookup_insert_ne in Hc' by done.
      exists c'. split; [done|]. split; [done|]. split.
      + intros q. split; [|tauto]. intros Hq. split; [done|]. intros ->.
        destruct (wf_child lv bound h Hwf p c' old Hc' Hq)
          as (o' & Ho' & Hpar' & _). congruence.
      + intros q. split; [|tauto]. intros Hq. split; [done|]. intros ->.
        apply (wf_focus lv bound h Hwf p c') in Hq; [|done].
        destruct (wf_child lv bound h Hwf p c' old Hc' Hq)
          as (o' & Ho' & Hpar' & _). congruence. }
  assert (∀ q cq, q ≠ old → h !! q = Some cq →
            ∃ cq', delete old (<[content := cc']> h) !! q = Some cq' ∧
                   parent cq' = parent cq ∧
                   (∀ p, p ≠ old → p ∈ children cq → p ∈ children cq'))
    as Hkeep.
  { intros q cq Hq Hcq. rewrite lookup_delete_ne by done.
    destruct (decide (content = q)) as [<-|Hqc].
    - rewrite lookup_insert_eq. exists cc'. split; [done|].
      assert (cq = cc) as -> by congruence. split; [done|].
      intros p Hp. unfold children, cc'. simpl.
      rewrite !elem_of_app, !list_elem_of_filter. tauto.
    - rewrite lookup_insert_ne by done. exists cq. done. }
  apply wf_tree_intro. intros p c' Hc'.
  destruct (Hlook p c' Hc') as (Hpo & c & Hc & Hcpar & Hch & Hfo).
  split; [by eapply wf_level|]. split; [|split].
  - intros q Hq. apply Hch in Hq as [Hq Hqo].
    destruct (wf_child lv bound h Hwf p c q Hc Hq) as (cq & Hcq & Hqpar & Hlt).
    destruct (Hkeep q cq Hqo Hcq) as (cq' & Hcq' & Hpar' & _).
    exists cq'. split; [done|]. split; [congruence|done].
  - intros q Hq. rewrite Hcpar in Hq.
    destruct (wf_parent lv bound h Hwf p c q Hc Hq) as (cq & Hcq & Hin).
    assert (q ≠ old) as Hqo.
    { intros ->. assert (cq = o) as -> by congruence.
      unfold children in Hin. rewrite Hn, Hf in Hin.
      by apply elem_of_nil in Hin. }
    destruct (Hkeep q cq Hqo Hcq) as (cq' & Hcq' & _ & Hin').
    exists cq'. split; [done|]. by apply Hin'.
  - intros q Hq. apply Hfo in Hq as [Hq Hqo]. apply Hch. split; [|done].
    by apply (wf_focus lv bound h Hwf p c).
Qed.

(** ** The end of _workspace_show returns *)

Lemma focus_next_total (lv : ptr → nat) (fuel : nat) (workspace next : ptr)
    (t : Tree) :
  wf_tree lv fuel (heap t) →
  is_Some (heap t !! focused t) → is_Some (heap t !! next) →
  is_Some (heap t !! workspace) →
  ∃ t' es,
    focus_next fuel workspace next t = Ok t' ∧
    wf_tree lv fuel (heap t') ∧
    preserves family (heap t) (heap t') ∧
    effects t' = effects t ++ es ∧
    (ipc_send_event_workspace change_empty ∉ es).
Proof.
  intros Hwf [fc Hfc] [nc Hnc] [wc Hwc].
  assert (∃ t', focus_next fuel workspace next t = Ok t') as [t' Ht'].
  { unfold focus_next, con_get_output.
    destruct (ancestor_of_kind_total lv fuel _ Hwf fuel CT_OUTPUT _ fc Hfc)
      as (old_output & -> & _); [lia|].
    cbn [bind].
    destruct (con_focus_total lv fuel fuel next t nc Hwf Hnc) as (t1 & Ht1 & Hwf1);
      [lia|].
    rewrite Ht1. cbn [bind].
    destruct (con_focus_Ok _ _ _ _ Ht1) as (Hp1 & _ & Hfocused1 & _).
    destruct (preserves_lookup _ _ _ _ _ Hp1 Hwc) as (wc1 & Hwc1 & _).
    destruct (preserves_lookup _ _ _ _ _ Hp1 Hnc) as (nc1 & Hnc1 & _).
    rewrite (update_Some workspace _ t1 wc1 Hwc1). cbn [bind].
    set (t2 := set_heap _ t1).
    assert (preserves links (heap t1) (heap t2)) as Hp2.
    { apply preserves_update with workspace (set_fullscreen_mode CF_OUTPUT);
        [by apply update_Some|done]. }
    destruct (preserves_lookup _ _ _ _ _ Hp2 Hnc1) as (nc2 & Hnc2 & _).
    assert (wf_tree lv fuel (heap t2)) as Hwf2
      by (by apply wf_tree_preserves with (heap t1)).
    assert (focused t2 = next) as -> by done.
    destruct (ancestor_of_kind_total lv fuel _ Hwf2 fuel CT_OUTPUT _ nc2 Hnc2)
      as (new_output & -> & _); [lia|].
    cbn [bind]. destruct (decide (old_output = new_output)); cbn [bind];
      [eauto|].
    rewrite (deref_Some _ _ _ Hnc2). cbn [bind]. eauto. }
  destruct (focus_next_Ok _ _ _ _ _ Ht')
    as (t1 & t2 & Ht1 & Ht2 & Hheap & _ & _ & es & Hes & Hno & _).
  destruct (con_focus_total lv fuel fuel next t nc Hwf Hnc) as (t1' & Ht1' & Hwf1);
    [lia|].
  rewrite Ht1 in Ht1'. apply Ok_inj in Ht1'. subst t1'.
  destruct (con_focus_Ok _ _ _ _ Ht1) as (Hp1 & _ & _ & He1).
  destruct (update_globals _ _ _ _ Ht2) as (_ & _ & He2).
  exists t', es. split; [done|]. rewrite Hheap. split; [|split; [|split]].
  - apply wf_tree_preserves with (heap t1); [|done].
    by apply preserves_update with workspace (set_fullscreen_mode CF_OUTPUT).
  - apply preserves_trans with (heap t1).
    + by apply preserves_weaken with unfocus family.
    + by apply preserves_update with workspace (set_fullscreen_mode CF_OUTPUT).
  - congruence.
  - done.
Qed.

(** ** Closing the old workspace *)

(** The tree after an empty workspace on a content container is closed. *)
Lemma close_if_empty_closes (lv : ptr → nat) (fuel : nat) (t : Tree)
    (old content : ptr) (o cc r : Con) :
  wf_tree lv fuel (heap t) →
  heap t !! croot t = Some r → parent r = None →
  is_Some (heap t !! focused t) →
  heap t !! old = Some o → nodes_head o = [] → floating_head o = [] →
  fullscreen_mode o ≠ CF_OUTPUT →
  parent o = Some content → heap t !! content = Some cc →
  ∃ t' es,
    close_if_empty fuel (Some old) t = Ok t' ∧
    wf_tree lv fuel (heap t') ∧
    is_Some (heap t' !! focused t') ∧
    heap t' !! old = None ∧
    (∀ p, p ≠ old → is_Some (heap t !! p) → is_Some (heap t' !! p)) ∧
    effects t' = effects t ++ es ∧
    (ipc_send_event_workspace change_empty ∈ es).
Proof.
  intros Hwf Hr Hrpar [fc Hfc] Ho Hn Hf Hfs Hpar Hcc.
  pose proof (wf_level lv fuel _ Hwf old o Ho) as Hlevel.
  destruct fuel as [|fuel']; [lia|]. set (fuel := S fuel') in *.
  unfold close_if_empty. rewrite (deref_Some _ _ _ Ho). cbn [bind].
  rewrite Hn, Hf.
  rewrite (workspace_is_visible_false lv fuel _ Hwf fuel old o Ho Hfs) by lia.
  cbn [bind].
  set (cc' := set_queues (filter (fun q => q ≠ old) (nodes_head cc))
                (filter (fun q => q ≠ old) (floating_head cc))
                (filter (fun q => q ≠ old) (focus_head cc)) cc).
  set (h' := delete old (<[content := cc']> (heap t))).
  assert (wf_tree lv fuel h') as Hwf'
    by (by apply wf_detach with o).
  assert (croot t ≠ old) as Hroot by (intros Heq; congruence).
  assert (∀ p, p ≠ old → is_Some (heap t !! p) → is_Some (h' !! p)) as Hkeep.
  { intros p Hp [c Hc]. unfold h'. rewrite lookup_delete_ne by done.
    destruct (decide (content = p)) as [->|Hne].
    - rewrite lookup_insert_eq. eauto.
    - rewrite lookup_insert_ne by done. eauto. }
  assert (∃ t1 es1,
            tree_close_rec fuel old t = Ok t1 ∧ heap t1 = h' ∧
            croot t1 = croot t ∧ focused t1 = focused t ∧
            effects t1 = effects t ++ es1) as (t1 & es1 & Ht1 & Hh1 & Hr1 & Hf1 & He1).
  { unfold fuel. cbn [tree_close_rec]. rewrite (deref_Some _ _ _ Ho).
    cbn [bind]. rewrite Hn, Hf. cbn [foldM bind].
    unfold detach_and_free. rewrite (deref_Some _ _ _ Ho). cbn [bind].
    rewrite Hpar. rewrite (update_Some content _ t cc Hcc). cbn [bind].
    destruct (window o) as [win|].
    - eexists _, [x_unmap_window (window_id win)]. split; [done|]. done.
    - eexists _, []. split; [done|]. simpl. by rewrite app_nil_r. }
  unfold tree_close. rewrite Ht1. cbn [bind]. rewrite Hh1, Hf1.
  destruct (h' !! focused t) as [fc'|] eqn:Hfocused.
  - cbn [bind]. exists (emit (ipc_send_event_workspace change_empty) t1).
    exists (es1 ++ [ipc_send_event_workspace change_empty]).
    split; [done|]. simpl. rewrite Hh1, Hf1, Hfocused, He1.
    split; [done|]. split; [eauto|]. split; [apply lookup_delete_eq|].
    split; [done|]. split; [by rewrite app_assoc|].
    apply elem_of_app. right. by left.
  - destruct (Hkeep (croot t) Hroot) as [r' Hr']; [eauto|].
    rewrite Hr1.
    destruct (con_descend_focused_total lv fuel h' Hwf' fuel (croot t) r' Hr')
      as (next & nc & -> & Hnc & _).
    { by apply (wf_level lv fuel h' Hwf' (croot t) r'). }
    cbn [bind].
    exists (emit (ipc_send_event_workspace change_empty) (set_focused next t1)).
    exists (es1 ++ [ipc_send_event_workspace change_empty]).
    split; [done|]. simpl. rewrite Hh1, He1.
    split; [done|]. split; [eauto|]. split; [apply lookup_delete_eq|].
    split; [done|]. split; [by rewrite app_assoc|].
    apply elem_of_app. right. by left.
Qed.

(** ** workspace_show closes the workspace that became empty *)

Lemma no_effects (es : list Effect) : Forall no_effect es → es = [].
Proof. destruct es as [|e es]; [done|]. by intros [[] _]%Forall_cons. Qed.

Lemma family_fields (c c' : Con) :
  family c' = family c →
  parent c' = parent c ∧ nodes_head c' = nodes_head c ∧
  floating_head c' = floating_head c.
Proof. intros [= -> -> ->]. done. Qed.

(** The run of [_workspace_show] up to the point where the old workspace
    may be closed. *)
Lemma show_until_close (lv : ptr → nat) (fuel : nat) (w : World)
    (workspace content old : ptr) (ws cc o r : Con) :
  wf_tree lv fuel (heap (tree w)) →
  heap (tree w) !! croot (tree w) = Some r →
  is_Some (heap (tree w) !! focused (tree w)) →
  heap (tree w) !! workspace = Some ws →
  is_internal_name (name ws) = false →
  parent ws = Some content → heap (tree w) !! content = Some cc →
  (∃ output,
     con_get_output fuel (heap (tree w)) workspace = Ok (Some output)) →
  old ∈ nodes_head cc → heap (tree w) !! old = Some o →
  fullscreen_mode o = CF_OUTPUT →
  (∀ q cq, q ∈ nodes_head cc → heap (tree w) !! q = Some cq →
           fullscreen_mode cq = CF_OUTPUT → q = old) →
  old ≠ workspace →
  con_get_workspace fuel (heap (tree w)) (focused (tree w))
  ≠ Ok (Some workspace) →
  ∃ t3 next previous es3 o3,
    _workspace_show fuel workspace w
    = (let* t4 := close_if_empty fuel (Some old) t3 in
       let* t5 := focus_next fuel workspace next t4 in
       Ok (mkWorld t5 previous)) ∧
    wf_tree lv fuel (heap t3) ∧
    preserves family (heap (tree w)) (heap t3) ∧
    croot t3 = croot (tree w) ∧ focused t3 = focused (tree w) ∧
    effects t3 = effects (tree w) ++ es3 ∧ Forall sticky_effect es3 ∧
    heap t3 !! old = Some o3 ∧ fullscreen_mode o3 = CF_NONE ∧
    is_Some (heap t3 !! next) ∧ next ≠ old.
Proof.
  intros Hwf Hr [fc Hfc] Hws Hint Hpar Hcc [output Houtput] Hold Ho Hfs Huniq
    Hne Hcur.
  set (t := tree w) in *.
  (* the first loop *)
  destruct (disable_fullscreen_loop_total (nodes_head cc) None t)
    as (old' & t1 & Hloop).
  { intros q Hq.
    destruct (wf_child lv fuel _ Hwf content cc q Hcc) as (cq & Hcq & _).
    { unfold children. apply elem_of_app. by left. }
    eauto. }
  destruct (disable_fullscreen_loop_Ok _ _ _ _ _ Hloop)
    as (Hstep1 & Hnone1 & _ & _ & Hsome).
  destruct Hsome as (q & cq & -> & Hq & Hcq & Hfsq); [by exists old, o|].
  assert (q = old) as -> by (by apply (Huniq q cq)).
  destruct Hstep1 as (Hp1 & _).
  destruct (preserves_lookup _ _ _ _ _ Hp1 Hws) as (ws1 & Hws1 & _).
  pose proof (update_Some workspace (set_fullscreen_mode CF_OUTPUT) t1 ws1 Hws1)
    as Hu.
  set (t2 := set_heap _ t1) in Hu.
  destruct (show_prefix_step _ _ _ _ _ _ Hloop Hu)
    as (Hp2 & Hr2 & Hf2 & es2 & He2 & Hes2).
  apply no_effects in Hes2. subst es2. rewrite app_nil_r in He2.
  assert (preserves links (heap t) (heap t2)) as Hl2
    by (by apply preserves_weaken with unfullscreen links).
  assert (wf_tree lv fuel (heap t2)) as Hwf2
    by (by apply wf_tree_preserves with (heap t)).
  (* the old workspace is no longer fullscreen *)
  destruct (preserves_lookup _ _ _ _ _ Hp1 Ho) as (o1 & Ho1 & _).
  assert (heap t2 !! old = Some o1 ∧ fullscreen_mode o1 = CF_NONE) as [Ho2 Hfs2].
  { split; [|by apply (Hnone1 old o1)].
    rewrite (update_lookup _ _ _ _ old Hu). by rewrite decide_False. }
  (* the workspace of the focused container *)
  destruct (ancestor_of_kind_total lv fuel _ Hwf fuel CT_WORKSPACE _ fc Hfc)
    as (current & Hcurrent & Hcurrent_alloc); [lia|].
  assert (con_get_workspace fuel (heap t2) (focused t2) = Ok current)
    as Hcurrent2.
  { unfold con_get_workspace. rewrite Hf2.
    by rewrite (ancestor_of_kind_preserves _ _ _ _ _ Hl2). }
  assert (Some workspace ≠ current) as Hswitch.
  { intros <-. by apply Hcur. }
  assert (∃ previous,
            (match current with
             | None => Ok None
             | Some current =>
                 let* cur := deref (heap t2) current in Ok (Some (name cur))
             end) = Ok previous) as [previous Hprevious].
  { destruct current as [cur|]; [|eauto].
    destruct (Hcurrent_alloc cur eq_refl) as [curc Hcurc].
    destruct (preserves_lookup _ _ _ _ _ Hl2 Hcurc) as (curc2 & Hcurc2 & _).
    rewrite (deref_Some _ _ _ Hcurc2). eauto. }
  (* sticky windows *)
  destruct (preserves_lookup _ _ _ _ _ Hl2 Hws) as (ws2 & Hws2 & _).
  destruct (workspace_reassign_sticky_total lv fuel fuel fuel workspace t2 ws2)
    as (t3 & Hsticky); try done.
  { by apply (wf_level lv fuel _ Hwf2 workspace ws2). }
  { exists output. unfold con_get_output.
    by rewrite (ancestor_of_kind_preserves _ _ _ _ _ Hl2). }
  destruct (workspace_reassign_sticky_Ok _ _ _ _ _ Hsticky)
    as (Hp3 & Hr3 & Hf3 & es3 & He3 & Hes3).
  assert (preserves links (heap t2) (heap t3)) as Hl3
    by (by apply preserves_weaken with frame links).
  assert (wf_tree lv fuel (heap t3)) as Hwf3
    by (by apply wf_tree_preserves with (heap t2)).
  destruct (preserves_lookup _ _ _ _ _ Hl3 Hws2) as (ws3 & Hws3 & Hlws3).
  destruct (con_descend_focused_total lv fuel _ Hwf3 fuel workspace ws3 Hws3)
    as (next & nc & Hnext & Hnc & Hbelow).
  { by apply (wf_level lv fuel _ Hwf3 workspace ws3). }
  destruct (preserves_lookup _ _ _ _ _ Hp3 Ho2) as (o3 & Ho3 & Hframe3).
  assert (preserves family (heap t) (heap t3)) as Hfam.
  { apply preserves_trans with (heap t2).
    - by apply preserves_weaken with unfullscreen family.
    - by apply preserves_weaken with frame family. }
  exists t3, next, previous, es3, o3.
  split; [|split; [done|]; split; [done|]; split; [congruence|];
           split; [congruence|]; split; [congruence|]; split; [done|];
           split; [done|]; split; [|split; [eauto|]]].
  - unfold _workspace_show. fold t. rewrite (deref_Some _ _ _ Hws). cbn [bind].
    rewrite Hint, Hpar. cbn [nonnull bind].
    rewrite (deref_Some _ _ _ Hcc). cbn [bind]. rewrite Hloop. cbn [bind].
    rewrite Hu. cbn [bind]. rewrite Hcurrent2. cbn [bind].
    rewrite decide_False by done. rewrite Hprevious. cbn [bind].
    unfold workspace_show_switch. rewrite Hsticky. cbn [bind].
    rewrite Hnext. cbn [bind].
    destruct (close_if_empty fuel (Some old) t3) as [t4|e]; [|done].
    cbn [bind]. by destruct (focus_next fuel workspace next t4).
  - apply (f_equal fullscreen_mode) in Hframe3. simpl in Hframe3. congruence.
  - intros ->. destruct Hbelow as [->|(q & Hqpar & Hle)]; [done|].
    assert (nc = o3) as -> by congruence.
    destruct (preserves_lookup _ _ _ _ _ Hfam Ho) as (o3' & Ho3' & Hfam3).
    assert (o3' = o3) as -> by congruence.
    apply family_fields in Hfam3 as (Hpar3 & _ & _).
    destruct (wf_child lv fuel _ Hwf content cc old Hcc) as (o' & Ho' & Hpo & _).
    { unfold children. apply elem_of_app. by left. }
    assert (o' = o) as -> by congruence.
    assert (q = content) as -> by congruence.
    pose proof (wf_parent_level lv fuel _ Hwf workspace ws content Hws Hpar).
    lia.
Qed.

(** C1.  On a well-formed tree, let [workspace_show] switch to a
    workspace other than the one of the focused container, and let [old]
    be the workspace of the same output that was visible.  When [old] has
    no tiling and no floating children, [workspace_show] returns, [old] is
    freed and is in no queue of the tree any more, and the workspace event
    with change empty is among the emitted effects.  When [old] still has a
    floating child, [workspace_show] returns, [old] stays a workspace of
    its output, and no event with change empty is emitted. *)
Theorem workspace_show_closes_empty (lv : ptr → nat) (fuel : nat) (w : World)
    (workspace content old : ptr) (ws cc o r : Con) :
  wf_tree lv fuel (heap (tree w)) →
  heap (tree w) !! croot (tree w) = Some r → parent r = None →
  is_Some (heap (tree w) !! focused (tree w)) →
  heap (tree w) !! workspace = Some ws →
  is_internal_name (name ws) = false →
  parent ws = Some content → heap (tree w) !! content = Some cc →
  (∃ output,
     con_get_output fuel (heap (tree w)) workspace = Ok (Some output)) →
  old ∈ nodes_head cc → heap (tree w) !! old = Some o →
  fullscreen_mode o = CF_OUTPUT →
  (∀ q cq, q ∈ nodes_head cc → heap (tree w) !! q = Some cq →
           fullscreen_mode cq = CF_OUTPUT → q = old) →
  old ≠ workspace →
  con_get_workspace fuel (heap (tree w)) (focused (tree w))
  ≠ Ok (Some workspace) →
  (nodes_head o = [] → floating_head o = [] →
   ∃ w' added,
     workspace_show fuel workspace w = Ok w' ∧
     heap (tree w') !! old = None ∧
     (∀ p c, heap (tree w') !! p = Some c →
             (old ∉ children c) ∧ (old ∉ focus_head c)) ∧
     effects (tree w') = effects (tree w) ++ added ∧
     (ipc_send_event_workspace change_empty ∈ added))
  ∧ (floating_head o ≠ [] →
     ∃ w' added cc',
       workspace_show fuel workspace w = Ok w' ∧
       is_Some (heap (tree w') !! old) ∧
       heap (tree w') !! content = Some cc' ∧ old ∈ nodes_head cc' ∧
       effects (tree w') = effects (tree w) ++ added ∧
       (ipc_send_event_workspace change_empty ∉ added)).
Proof.
  intros Hwf Hr Hrpar Hfocused Hws Hint Hpar Hcc Houtput Hold Ho Hfs Huniq
    Hne Hcur.
  destruct (show_until_close lv fuel w workspace content old ws cc o r)
    as (t3 & next & previous & es3 & o3 & Hrun & Hwf3 & Hfam & Hr3 & Hf3
        & He3 & Hes3 & Ho3 & Hfs3 & Hnext & Hnext_old); try done.
  unfold workspace_show. rewrite Hrun. clear Hrun.
  destruct (preserves_lookup _ _ _ _ _ Hfam Ho) as (o3' & Ho3' & Hfam_o).
  assert (o3' = o3) as -> by congruence.
  apply family_fields in Hfam_o as (Hpar3 & Hn3 & Hfl3).
  destruct (preserves_lookup _ _ _ _ _ Hfam Hcc) as (cc3 & Hcc3 & Hfam_cc).
  apply family_fields in Hfam_cc as (_ & Hn_cc & _).
  destruct (preserves_lookup _ _ _ _ _ Hfam Hws) as (ws3 & Hws3 & _).
  assert (is_Some (heap t3 !! focused t3)) as Hfocused3.
  { rewrite Hf3. destruct Hfocused as [fc Hfc].
    destruct (preserves_lookup _ _ _ _ _ Hfam Hfc) as (fc3 & Hfc3 & _). eauto. }
  split.
  - intros Hn Hfl.
    destruct (wf_child lv fuel _ Hwf content cc old Hcc) as (o' & Ho' & Hpo & _).
    { unfold children. apply elem_of_app. by left. }
    assert (o' = o) as -> by congruence.
    destruct (preserves_lookup _ _ _ _ _ Hfam Hr) as (r3 & Hr3' & Hfam_r).
    apply family_fields in Hfam_r as (Hrpar3 & _ & _).
    destruct (close_if_empty_closes lv fuel t3 old content o3 cc3 r3)
      as (t4 & es4 & -> & Hwf4 & Hfocused4 & Hgone & Hkeep & He4 & Hempty);
      try done; try congruence.
    cbn [bind].
    destruct (focus_next_total lv fuel workspace next t4 Hwf4 Hfocused4)
      as (t5 & es5 & -> & Hwf5 & Hfam5 & He5 & _).
    { by apply Hkeep. }
    { apply Hkeep; [done|eauto]. }
    cbn [bind]. exists (mkWorld t5 previous), (es3 ++ es4 ++ es5).
    split; [done|]. cbn [tree].
    assert (heap t5 !! old = None) as Hgone5
      by (by apply (preserves_None family (heap t4))).
    split; [done|]. split; [|split].
    + intros p c Hc. split.
      * intros Hin.
        destruct (wf_child lv fuel _ Hwf5 p c old Hc Hin) as (? & ? & _).
        congruence.
      * intros Hin. apply (wf_focus lv fuel _ Hwf5 p c) in Hin; [|done].
        destruct (wf_child lv fuel _ Hwf5 p c old Hc Hin) as (? & ? & _).
        congruence.
    + rewrite He5, He4, He3. by rewrite <- !app_assoc.
    + apply elem_of_app. right. apply elem_of_app. by left.
  - intros Hfl.
    assert (close_if_empty fuel (Some old) t3 = Ok t3) as ->.
    { unfold close_if_empty. rewrite (deref_Some _ _ _ Ho3). cbn [bind].
      destruct (nodes_head o3); [|done].
      destruct (floating_head o3) eqn:Hfl3'; [congruence|done]. }
    cbn [bind].
    destruct (focus_next_total lv fuel workspace next t3 Hwf3 Hfocused3)
      as (t5 & es5 & -> & Hwf5 & Hfam5 & He5 & Hno5); [done|eauto|].
    cbn [bind].
    destruct (preserves_lookup _ _ _ _ _ Hfam5 Ho3) as (o5 & Ho5 & _).
    destruct (preserves_lookup _ _ _ _ _ Hfam5 Hcc3) as (cc5 & Hcc5 & Hfam_cc5).
    apply family_fields in Hfam_cc5 as (_ & Hn_cc5 & _).
    exists (mkWorld t5 previous), (es3 ++ es5), cc5.
    split; [done|]. cbn [tree]. split; [eauto|]. split; [done|].
    split; [congruence|]. split.
    + rewrite He5, He3. by rewrite <- app_assoc.
    + intros Hin. apply elem_of_app in Hin as [Hin|Hin]; [|done].
      rewrite Forall_forall in Hes3. by apply Hes3 in Hin.
Qed.

Lemma tree2_wf : wf_tree Example.level1 6 Example.heap2.
Proof. apply (bool_decide_unpack _). vm_compute. exact I. Qed.

Lemma tree3_wf : wf_tree Example.level1 6 Example.heap3.
Proof. apply (bool_decide_unpack _). vm_compute. exact I. Qed.

(** The witness.  In the second example the focused workspace 1 is empty:
    showing workspace 2 closes it.  In the third example the focused
    workspace 2 has a floating window only: showing foo keeps it. *)
Lemma workspace_show_closes_empty_witness :
  (∃ w' added,
     workspace_show 6 10 (mkWorld Example.tree2 None) = Ok w' ∧
     heap (tree w') !! 9%positive = None ∧
     (∀ p c, heap (tree w') !! p = Some c →
             (9%positive ∉ children c) ∧ (9%positive ∉ focus_head c)) ∧
     effects (tree w') = [] ++ added ∧
     (ipc_send_event_workspace change_empty ∈ added))
  ∧ (∃ w' added cc',
       workspace_show 6 11 (mkWorld Example.tree3 None) = Ok w' ∧
       is_Some (heap (tree w') !! 10%positive) ∧
       heap (tree w') !! 7%positive = Some cc' ∧
       10%positive ∈ nodes_head cc' ∧
       effects (tree w') = [] ++ added ∧
       (ipc_send_event_workspace change_empty ∉ added)).
Proof.
  split.
  - refine (proj1 (workspace_show_closes_empty Example.level1 6
                     (mkWorld Example.tree2 None) 10 7 9
                     (Example.workspace 7 "2" 2 CF_NONE [] [13%positive]
                        [13%positive])
                     (Example.con CT_CON (Some 5%positive) "content"
                        [9%positive; 10%positive; 11%positive] []
                        [9%positive; 10%positive; 11%positive])
                     (Example.workspace 7 "1" 1 CF_OUTPUT [] [] [])
                     (Example.con CT_ROOT None "root"
                        [2%positive; 5%positive] []
                        [5%positive; 2%positive])
                     tree2_wf _ _ _ _ _ _ _ _ _ _ _ _ _ _) _ _);
      try (vm_compute; reflexivity); try reflexivity.
    + vm_compute. eauto.
    + exists 5%positive. vm_compute. reflexivity.
    + simpl. by left.
    + intros q cq Hq Hcq Hfs. simpl in Hq.
      apply elem_of_cons in Hq as [->|Hq]; [done|].
      apply elem_of_cons in Hq as [->|Hq].
      { vm_compute in Hcq. injection Hcq as <-. discriminate Hfs. }
      apply elem_of_cons in Hq as [->|Hq]; [|by apply elem_of_nil in Hq].
      vm_compute in Hcq. injection Hcq as <-. discriminate Hfs.
    + discriminate.
    + vm_compute. discriminate.
  - refine (proj2 (workspace_show_closes_empty Example.level1 6
                     (mkWorld Example.tree3 None) 11 7 10
                     (Example.workspace 7 "foo" (-1) CF_NONE [15%positive] []
                        [15%positive])
                     (Example.con CT_CON (Some 5%positive) "content"
                        [9%positive; 10%positive; 11%positive] []
                        [10%positive; 9%positive; 11%positive])
                     (Example.workspace 7 "2" 2 CF_OUTPUT [] [13%positive]
                        [13%positive])
                     (Example.con CT_ROOT None "root"
                        [2%positive; 5%positive] []
                        [5%positive; 2%positive])
                     tree3_wf _ _ _ _ _ _ _ _ _ _ _ _ _ _) _);
      try (vm_compute; reflexivity); try reflexivity.
    + vm_compute. eauto.
    + exists 5%positive. vm_compute. reflexivity.
    + simpl. right. by left.
    + intros q cq Hq Hcq Hfs. simpl in Hq.
      apply elem_of_cons in Hq as [->|Hq].
      { vm_compute in Hcq. injection Hcq as <-. discriminate Hfs. }
      apply elem_of_cons in Hq as [->|Hq]; [done|].
      apply elem_of_cons in Hq as [->|Hq]; [|by apply elem_of_nil in Hq].
      vm_compute in Hcq. injection Hcq as <-. discriminate Hfs.
    + discriminate.
    + vm_compute. discriminate.
    + discriminate.
Defined.

(** ** workspace_next from a numbered workspace *)

Lemma least_above_ext (h : gmap ptr Con) (current_num : Z)
    (seen seen' : ptr → Prop) (next : option ptr) :
  (∀ q, seen q → seen' q) →
  (∀ q, seen' q → numbered_above h current_num q → seen q) →
  least_above h current_num seen next → least_above h current_num seen' next.
Proof.
  intros Hsub Hsup. destruct next as [n|]; simpl.
  - intros (nc & Hnc & Hn & Hgood & Hleast). exists nc.
    repeat split; try done; [by apply Hsub|].
    intros q cq Hq Hgq. apply Hleast; [|done]. by apply Hsup.
  - intros Hnone q Hq Hgq. apply (Hnone q); [|done]. by apply Hsup.
Qed.

Lemma next_numbered_scan_spec (h : gmap ptr Con) (current_num : Z)
    (l : list ptr) (seen : ptr → Prop) (next : option ptr) :
  (∀ q, q ∈ l → is_Some (h !! q)) → named_last h l →
  least_above h current_num seen next →
  ∃ r, next_numbered_scan h current_num l next = Ok r ∧
       least_above h current_num (fun q => seen q ∨ q ∈ l) r.
Proof.
  revert seen next. induction l as [|a l IH]; intros seen next Hl Hlast Hinv.
  - exists next. split; [done|].
    apply least_above_ext with seen; [by left| |done].
    intros q [Hq|Hq] _; [done|by apply elem_of_nil in Hq].
  - destruct (Hl a) as [c Hc]; [by left|].
    assert (∀ q, q ∈ l → is_Some (h !! q)) as Hl'
      by (intros q Hq; apply Hl; by right).
    assert (named_last h l) as Hlast'.
    { intros pre q post cq -> Hcq Hty Hnum.
      by apply (Hlast (a :: pre) q post cq). }
    assert (∀ (seen1 : ptr → Prop) next1,
              (∀ q, seen1 q ↔ seen q ∨ q = a) →
              least_above h current_num seen1 next1 →
              ∃ r, next_numbered_scan h current_num l next1 = Ok r ∧
                   least_above h current_num (fun q => seen q ∨ q ∈ a :: l) r)
      as Hrest.
    { intros seen1 next1 Hseen1 Hinv1.
      destruct (IH seen1 next1 Hl' Hlast' Hinv1) as (r & Hr & Hleast).
      exists r. split; [done|].
      apply least_above_ext with (fun q => seen1 q ∨ q ∈ l); [| |done].
      - intros q [Hq|Hq]; [|right; by right].
        apply Hseen1 in Hq as [Hq| ->]; [by left|right; by left].
      - intros q [Hq|Hq] _; [left; apply Hseen1; by left|].
        apply elem_of_cons in Hq as [->|Hq]; [|by right].
        left. apply Hseen1. by right. }
    assert (¬ numbered_above h current_num a →
            least_above h current_num (fun q => seen q ∨ q = a) next)
      as Hskip.
    { intros Hna. apply least_above_ext with seen; [by left| |done].
      intros q [Hq| ->] Hgq; done. }
    cbn [next_numbered_scan]. rewrite (deref_Some _ _ _ Hc). cbn [bind].
    destruct (decide (type c ≠ CT_WORKSPACE)) as [Hty|Hty].
    { apply (Hrest (fun q => seen q ∨ q = a)); [done|]. apply Hskip.
      intros (c' & Hc' & Hty' & _). congruence. }
    apply dec_stable in Hty.
    destruct (decide (num c = (-1)%Z)) as [Hnum|Hnum].
    { exists next. split; [done|].
      apply least_above_ext with seen; [by left| |done].
      intros q [Hq|Hq] (cq & Hcq & Htyq & Hnq & Hgt); [done|].
      apply elem_of_cons in Hq as [->|Hq]; [congruence|].
      exfalso. apply Hnq. by apply (Hlast [] a l c eq_refl Hc Hty Hnum q cq). }
    destruct (current_num <? num c)%Z eqn:Hlt.
    + apply Z.ltb_lt in Hlt.
      assert (numbered_above h current_num a) as Hga by (by exists c).
      destruct next as [n|]; simpl in Hinv.
      * destruct Hinv as (nc & Hnc & Hn & Hgn & Hleast).
        rewrite (deref_Some _ _ _ Hnc). cbn [bind].
        destruct (num c <? num nc)%Z eqn:Hcloser.
        -- apply Z.ltb_lt in Hcloser.
           apply (Hrest (fun q => seen q ∨ q = a)); [done|]. simpl.
           exists c. repeat split; try done; [by right|].
           intros q cq [Hq| ->] Hgq Hcq.
           ++ specialize (Hleast q cq Hq Hgq Hcq). lia.
           ++ assert (cq = c) as -> by congruence. lia.
        -- apply Z.ltb_ge in Hcloser.
           apply (Hrest (fun q => seen q ∨ q = a)); [done|]. simpl.
           exists nc. repeat split; try done; [by left|].
           intros q cq [Hq| ->] Hgq Hcq.
           ++ by apply (Hleast q cq).
           ++ assert (cq = c) as -> by congruence. lia.
      * cbn [bind].
        apply (Hrest (fun q => seen q ∨ q = a)); [done|]. simpl.
        exists c. repeat split; try done; [by right|].
        intros q cq [Hq| ->] Hgq Hcq.
        -- by destruct (Hinv q Hq).
        -- assert (cq = c) as -> by congruence. lia.
    + apply Z.ltb_ge in Hlt.
      apply (Hrest (fun q => seen q ∨ q = a)); [done|]. apply Hskip.
      intros (c' & Hc' & _ & _ & Hgt). assert (c' = c) as -> by congruence.
      lia.
Qed.

Lemma next_numbered_outputs_spec (h : gmap ptr Con) (current_num : Z)
    (r : Con) (done_ outputs : list ptr) (next : option ptr) :
  nodes_head r = done_ ++ outputs →
  outputs_in_order h r →
  least_above h current_num
    (fun q => ∃ output oc content cc,
                output ∈ done_ ∧ h !! output = Some oc ∧
                is_internal_name (name oc) = false ∧
                output_get_content h output = Ok content ∧
                h !! content = Some cc ∧ q ∈ nodes_head cc) next →
  ∃ res_, foldM (next_numbered_output h current_num) outputs next = Ok res_ ∧
          least_above h current_num (on_user_output h r) res_.
Proof.
  revert done_ next.
  induction outputs as [|output outputs IH]; intros done_ next Hsplit Hok Hinv.
  - exists next. split; [done|]. rewrite app_nil_r in Hsplit.
    apply least_above_ext with
      (fun q => ∃ output oc content cc,
                  output ∈ done_ ∧ h !! output = Some oc ∧
                  is_internal_name (name oc) = false ∧
                  output_get_content h output = Ok content ∧
                  h !! content = Some cc ∧ q ∈ nodes_head cc); [| |done].
    + intros q (o & oc & content & cc & Ho & H). exists o, oc, content, cc.
      by rewrite Hsplit.
    + intros q (o & oc & content & cc & Ho & H) _. exists o, oc, content, cc.
      by rewrite <- Hsplit.
  - destruct (Hok output) as (oc & Hoc & Hcontent).
    { rewrite Hsplit. apply elem_of_app. right. by left. }
    cbn [foldM]. unfold next_numbered_output at 1.
    rewrite (deref_Some _ _ _ Hoc). cbn [bind].
    set (seen := fun q => ∃ output oc content cc,
                  output ∈ done_ ∧ h !! output = Some oc ∧
                  is_internal_name (name oc) = false ∧
                  output_get_content h output = Ok content ∧
                  h !! content = Some cc ∧ q ∈ nodes_head cc) in *.
    set (seen' := fun q => ∃ output' oc content cc,
                  output' ∈ done_ ++ [output] ∧ h !! output' = Some oc ∧
                  is_internal_name (name oc) = false ∧
                  output_get_content h output' = Ok content ∧
                  h !! content = Some cc ∧ q ∈ nodes_head cc).
    destruct (is_internal_name (name oc)) eqn:Hint.
    + apply (IH (done_ ++ [output])); [by rewrite <- app_assoc|done|].
      apply least_above_ext with seen; [| |done].
      * intros q (o & oc' & content & cc & Ho & H).
        exists o, oc', content, cc. split; [|done]. apply elem_of_app. by left.
      * intros q (o & oc' & content & cc & Ho & Hoc' & Hint' & H) _.
        apply elem_of_app in Ho as [Ho|Ho].
        -- by exists o, oc', content, cc.
        -- apply list_elem_of_singleton in Ho. subst o. congruence.
    + destruct (Hcontent eq_refl) as (content & cc & Hc & Hcc & Halloc & Hlast).
      rewrite Hc. cbn [bind]. rewrite (deref_Some _ _ _ Hcc). cbn [bind].
      destruct (next_numbered_scan_spec h current_num (nodes_head cc) seen
                  next Halloc Hlast Hinv) as (r1 & -> & Hr1).
      cbn [bind].
      apply (IH (done_ ++ [output])); [by rewrite <- app_assoc|done|].
      apply least_above_ext with (fun q => seen q ∨ q ∈ nodes_head cc);
        [| |done].
      * intros q [(o & oc' & content' & cc' & Ho & H)|Hq].
        -- exists o, oc', content', cc'. split; [|done].
           apply elem_of_app. by left.
        -- exists output, oc, content, cc. split; [|done].
           apply elem_of_app. right. by left.
      * intros q (o & oc' & content' & cc' & Ho & Hoc' & Hint' & Hc' & Hcc' & Hq) _.
        apply elem_of_app in Ho as [Ho|Ho].
        -- left. by exists o, oc', content', cc'.
        -- apply list_elem_of_singleton in Ho. subst o. right.
           assert (content' = content) as -> by congruence.
           assert (cc' = cc) as -> by congruence. done.
Qed.

(** From a numbered workspace, when the named workspaces come last in the
    queue of every content container, [workspace_next] goes to a workspace
    with the least number above the current one, if there is one on an
    output that is not internal. *)
Lemma workspace_next_numbered (fuel : nat) (t : Tree) (current : ptr)
    (cur r : Con) :
  con_get_workspace fuel (heap t) (focused t) = Ok (Some current) →
  heap t !! current = Some cur → num cur ≠ (-1)%Z →
  heap t !! croot t = Some r → outputs_in_order (heap t) r →
  (∃ q, on_user_output (heap t) r q ∧ numbered_above (heap t) (num cur) q) →
  ∃ next nc,
    workspace_next fuel t = Ok (Some next) ∧
    heap t !! next = Some nc ∧
    on_user_output (heap t) r next ∧
    numbered_above (heap t) (num cur) next ∧
    ∀ q cq, on_user_output (heap t) r q →
            numbered_above (heap t) (num cur) q →
            heap t !! q = Some cq → (num nc ≤ num cq)%Z.
Proof.
  intros Hcurrent Hcur Hnum Hr Hok (q0 & Hq0 & Hgq0).
  unfold workspace_next. rewrite Hcurrent. cbn [bind nonnull].
  rewrite (deref_Some _ _ _ Hcur). cbn [bind].
  rewrite decide_False by done. rewrite (deref_Some _ _ _ Hr). cbn [bind].
  destruct (next_numbered_outputs_spec (heap t) (num cur) r [] (nodes_head r)
              None eq_refl Hok) as (res_ & -> & Hres).
  { intros q (o & oc & content & cc & Ho & _). by apply elem_of_nil in Ho. }
  cbn [bind]. destruct res_ as [next|]; simpl in Hres.
  - destruct Hres as (nc & Hnc & Hon & Hgood & Hleast).
    exists next, nc. done.
  - by destruct (Hres q0 Hq0).
Qed.

Lemma tree1_outputs_in_order :
  outputs_in_order Example.heap1
    (Example.con CT_ROOT None "root" [2; 5] [] [5; 2])%positive.
Proof.
  intros output Ho. cbn [Example.con nodes_head] in Ho.
  apply elem_of_cons in Ho as [->|Ho];
    [|apply elem_of_cons in Ho as [->|Ho]; [|by apply elem_of_nil in Ho]].
  - eexists. split; [reflexivity|]. intros Hint. by vm_compute in Hint.
  - eexists. split; [reflexivity|]. intros _.
    exists 7%positive. eexists. split; [reflexivity|]. split; [reflexivity|].
    cbn [Example.con nodes_head]. split.
    + intros q Hq. repeat (apply elem_of_cons in Hq as [->|Hq]; [by eexists|]).
      by apply elem_of_nil in Hq.
    + intros pre q post cq Hl Hcq _ Hnum.
      destruct pre as [|a [|b [|c pre]]]; simplify_eq/=;
        try (by vm_compute in Hcq; simplify_eq/=).
      * intros q' cq' Hq'. by apply elem_of_nil in Hq'.
      * by destruct pre.
Qed.

(** On the first example tree, with workspace 1 focused, the next
    workspace is workspace 2. *)
Lemma workspace_next_numbered_tree1 :
  ∃ next nc,
    workspace_next 6 Example.tree1 = Ok (Some next) ∧
    heap Example.tree1 !! next = Some nc ∧ name nc = "2".
Proof.
  destruct (workspace_next_numbered 6 Example.tree1 9%positive
              (Example.workspace 7 "1" 1 CF_OUTPUT [12] [] [12])%positive
              (Example.con CT_ROOT None "root" [2; 5] [] [5; 2])%positive)
    as (next & nc & Hnext & Hnc & _); try reflexivity.
  - by vm_compute.
  - exact tree1_outputs_in_order.
  - exists 10%positive. split.
    + exists 5%positive. eexists. exists 7%positive. eexists.
      split; [by right; left|]. split; [reflexivity|].
      split; [reflexivity|]. split; [reflexivity|]. split; [reflexivity|].
      by right; left.
    + eexists. split; [reflexivity|]. by vm_compute.
  - exists next, nc. split; [done|]. split; [done|].
    assert (workspace_next 6 Example.tree1 = Ok (Some 10%positive)) as H
      by (by vm_compute).
    rewrite H in Hnext. simplify_eq. by vm_compute in Hnc; simplify_eq.
Qed.

(** * The traversals of workspace.c *)

(** ** Loops over the flattened queue *)

Lemma foldM_app {A S : Type} (f : A → S → res S) (l1 l2 : list A) (s : S) :
  foldM f (l1 ++ l2) s = let* s' := foldM f l1 s in foldM f l2 s'.
Proof.
  revert s. induction l1 as [|a l1 IH]; intros s; simpl; [done|].
  destruct (f a s); simpl; [apply IH|done].
Qed.

Lemma output_children_linked (h : gmap ptr Con) (output content : ptr)
    (oc cc : Con) :
  h !! output = Some oc → is_internal_name (name oc) = false →
  output_get_content h output = Ok content → h !! content = Some cc →
  output_children h output = nodes_head cc.
Proof. intros Ho Hint Hc Hcc. unfold output_children. by rewrite Ho, Hint, Hc, Hcc. Qed.

Lemma output_children_internal (h : gmap ptr Con) (output : ptr) (oc : Con) :
  h !! output = Some oc → is_internal_name (name oc) = true →
  output_children h output = [].
Proof. intros Ho Hint. unfold output_children. by rewrite Ho, Hint. Qed.

Lemma user_children_elem (h : gmap ptr Con) (r : Con) (output q : ptr) :
  output ∈ nodes_head r → q ∈ output_children h output →
  q ∈ user_children h r.
Proof. intros Ho Hq. apply list_elem_of_bind. by exists output. Qed.

Lemma user_children_linked (h : gmap ptr Con) (r : Con) (q : ptr) :
  outputs_linked h r → q ∈ user_children h r →
  ∃ content cc cq,
    h !! content = Some cc ∧ q ∈ nodes_head cc ∧
    h !! q = Some cq ∧ parent cq = Some content ∧
    ∀ q', q' ∈ nodes_head cc → q' ∈ user_children h r.
Proof.
  intros Hlinked (output & Hq & Ho)%list_elem_of_bind.
  destruct (Hlinked output Ho) as (oc & Hoc & Hcontent).
  destruct (is_internal_name (name oc)) eqn:Hint.
  { rewrite (output_children_internal h output oc Hoc Hint) in Hq.
    by apply elem_of_nil in Hq. }
  destruct (Hcontent eq_refl) as (content & cc & Hc & Hcc & Hnodes).
  rewrite (output_children_linked h output content oc cc) in Hq by done.
  destruct (Hnodes q Hq) as (cq & Hcq & Hpar).
  exists content, cc, cq. repeat split; try done.
  intros q' Hq'. apply (user_children_elem h r output); [done|].
  by rewrite (output_children_linked h output content oc cc).
Qed.

Lemma user_children_allocated (h : gmap ptr Con) (r : Con) (q : ptr) :
  outputs_linked h r → q ∈ user_children h r → is_Some (h !! q).
Proof.
  intros Hlinked Hq.
  destruct (user_children_linked h r q Hlinked Hq)
    as (content & cc & cq & _ & _ & Hcq & _).
  by exists cq.
Qed.

(** A loop over the outputs whose body is a loop over the nodes of the
    content container is one loop over the flattened queue. *)
Lemma fold_outputs_children {S : Type} (h : gmap ptr Con)
    (per_output body : ptr → S → res S) (order : list ptr → list ptr)
    (outputs : list ptr) (s : S) :
  (∀ output s, output ∈ outputs →
     per_output output s = foldM body (order (output_children h output)) s) →
  foldM per_output outputs s
  = foldM body (outputs ≫= (order ∘ output_children h)) s.
Proof.
  revert s. induction outputs as [|output outputs IH]; intros s Hbody; [done|].
  cbn [foldM]. rewrite bind_cons, foldM_app. simpl.
  rewrite Hbody by (by left).
  destruct (foldM body _ s) as [s'|]; simpl; [|done].
  apply IH. intros output' s'' Ho. apply Hbody. by right.
Qed.

Lemma reverse_bind (f : ptr → list ptr) (l : list ptr) :
  reverse l ≫= (reverse ∘ f) = reverse (l ≫= f).
Proof.
  induction l as [|x l IH]; [done|].
  rewrite reverse_cons, bind_app, bind_singleton, IH.
  rewrite (bind_cons f x l), reverse_app. done.
Qed.

(** The per-output bodies, when the output is linked. *)
Lemma per_output_children {S : Type} (h : gmap ptr Con) (output : ptr)
    (body : list ptr → S → res S) (s : S) :
  output_linked h output → body [] s = Ok s →
  (let* o := deref h output in
   if is_internal_name (name o) then Ok s
   else
     let* content := output_get_content h output in
     let* c := deref h content in
     body (nodes_head c) s)
  = body (output_children h output) s.
Proof.
  intros (oc & Hoc & Hcontent) Hnil. rewrite (deref_Some _ _ _ Hoc). cbn [bind].
  destruct (is_internal_name (name oc)) eqn:Hint.
  { by rewrite (output_children_internal h output oc Hoc Hint). }
  destruct (Hcontent eq_refl) as (content & cc & Hc & Hcc & _).
  rewrite Hc. cbn [bind]. rewrite (deref_Some _ _ _ Hcc). cbn [bind].
  by rewrite (output_children_linked h output content oc cc).
Qed.
(** ** The loops that keep the best workspace *)

Lemma foldM_ext {A S : Type} (f g : A → S → res S) (l : list A) (s : S) :
  (∀ a s, a ∈ l → f a s = g a s) → foldM f l s = foldM g l s.
Proof.
  revert s. induction l as [|a l IH]; intros s Hfg; [done|].
  simpl. rewrite Hfg by (by left). destruct (g a s); simpl; [|done].
  apply IH. intros a' s' Ha'. apply Hfg. by right.
Qed.

Lemma best_skip (h : gmap ptr Con) (good : Con → bool)
    (le : Con → Con → Prop) (seen : list ptr) (kept : option ptr)
    (a : ptr) (c : Con) :
  h !! a = Some c → good c = false →
  best h good le seen kept → best h good le (seen ++ [a]) kept.
Proof.
  intros Hc Hgood Hbest. destruct kept as [p|]; simpl in *.
  - destruct Hbest as (pc & Hpc & Hp & Hgp & Hle). exists pc.
    repeat split; try done; [apply elem_of_app; by left|].
    intros q cq [Hq|Hq%list_elem_of_singleton]%elem_of_app Hcq Hgq.
    + by apply (Hle q).
    + subst q. congruence.
  - intros q cq [Hq|Hq%list_elem_of_singleton]%elem_of_app Hcq.
    + by apply (Hbest q).
    + subst q. congruence.
Qed.

Lemma pick_fold_spec (good : Con → bool) (better : Con → Con → bool)
    (le : Con → Con → Prop) (h : gmap ptr Con) (l seen : list ptr)
    (kept : option ptr) :
  (∀ c, le c c) →
  (∀ c p q, better c p = true → le p q → le c q) →
  (∀ c p, better c p = false → le p c) →
  (∀ q, q ∈ l → is_Some (h !! q)) →
  best h good le seen kept →
  ∃ r, foldM (pick_child good better h) l kept = Ok r ∧
       best h good le (seen ++ l) r.
Proof.
  intros Hrefl Hbetter Hworse. revert seen kept.
  induction l as [|a l IH]; intros seen kept Hl Hbest.
  { exists kept. by rewrite app_nil_r. }
  destruct (Hl a) as [c Hc]; [by left|].
  assert (∀ kept1, best h good le (seen ++ [a]) kept1 →
            ∃ r, foldM (pick_child good better h) l kept1 = Ok r ∧
                 best h good le (seen ++ a :: l) r) as Hrest.
  { intros kept1 Hbest1.
    destruct (IH (seen ++ [a]) kept1) as (r & Hr & Hbr); [|done|].
    { intros q Hq. apply Hl. by right. }
    exists r. split; [done|]. by rewrite <- app_assoc in Hbr. }
  cbn [foldM]. unfold pick_child at 1. rewrite (deref_Some _ _ _ Hc).
  cbn [bind]. destruct (good c) eqn:Hgood.
  2:{ apply Hrest. by apply (best_skip h good le seen kept a c). }
  destruct kept as [p|]; simpl in Hbest.
  - destruct Hbest as (pc & Hpc & Hp & Hgp & Hle).
    rewrite (deref_Some _ _ _ Hpc). cbn [bind].
    destruct (better c pc) eqn:Hb; apply Hrest; simpl.
    + exists c. repeat split; try done.
      { apply elem_of_app. right. by left. }
      intros q cq [Hq|Hq%list_elem_of_singleton]%elem_of_app Hcq Hgq.
      * apply (Hbetter c pc cq Hb). by apply (Hle q).
      * subst q. assert (cq = c) as -> by congruence. apply Hrefl.
    + exists pc. repeat split; try done.
      { apply elem_of_app. by left. }
      intros q cq [Hq|Hq%list_elem_of_singleton]%elem_of_app Hcq Hgq.
      * by apply (Hle q).
      * subst q. assert (cq = c) as -> by congruence. by apply Hworse.
  - cbn [bind]. apply Hrest. simpl. exists c. repeat split; try done.
    { apply elem_of_app. right. by left. }
    intros q cq [Hq|Hq%list_elem_of_singleton]%elem_of_app Hcq Hgq.
    + rewrite (Hbest q cq Hq Hcq) in Hgq. done.
    + subst q. assert (cq = c) as -> by congruence. apply Hrefl.
Qed.

(** The loop keeps a container as soon as a good one is in the queue. *)
Lemma best_Some (h : gmap ptr Con) (good : Con → bool)
    (le : Con → Con → Prop) (seen : list ptr) (kept : option ptr)
    (q : ptr) (cq : Con) :
  best h good le seen kept → q ∈ seen → h !! q = Some cq → good cq = true →
  ∃ p pc, kept = Some p ∧ h !! p = Some pc ∧ p ∈ seen ∧ good pc = true ∧
          le pc cq.
Proof.
  intros Hbest Hq Hcq Hgood. destruct kept as [p|]; simpl in Hbest.
  - destruct Hbest as (pc & Hpc & Hp & Hgp & Hle). exists p, pc.
    repeat split; try done. by apply (Hle q).
  - rewrite (Hbest q cq Hq Hcq) in Hgood. done.
Qed.

Lemma best_reverse (h : gmap ptr Con) (good : Con → bool)
    (le : Con → Con → Prop) (seen : list ptr) (kept : option ptr) :
  best h good le (reverse seen) kept → best h good le seen kept.
Proof.
  destruct kept as [p|]; cbn [best].
  - intros (pc & Hpc & Hp & Hgp & Hle). rewrite elem_of_reverse in Hp.
    exists pc. repeat split; try done.
    intros q cq Hq. apply Hle. by rewrite elem_of_reverse.
  - intros Hnone q cq Hq. apply Hnone. by rewrite elem_of_reverse.
Qed.

(** The bodies of the loops of [workspace.c] in this shape. *)
Lemma first_workspace_child_pick (h : gmap ptr Con) (child : ptr)
    (next : option ptr) :
  first_workspace_child h child next
  = pick_child is_workspace lower_numbered h child next.
Proof.
  unfold first_workspace_child, pick_child, is_workspace, lower_numbered.
  destruct (deref h child) as [c|]; [|done]. cbn [bind].
  destruct (decide (type c = CT_WORKSPACE)) as [Hty|Hty].
  - rewrite decide_False by tauto.
    rewrite (bool_decide_eq_true_2 (type c = CT_WORKSPACE)) by done.
    reflexivity.
  - rewrite decide_True by done.
    rewrite (bool_decide_eq_false_2 (type c = CT_WORKSPACE)) by done.
    reflexivity.
Qed.

Lemma last_workspace_child_pick (h : gmap ptr Con) (child : ptr)
    (prev : option ptr) :
  last_workspace_child h child prev
  = pick_child is_workspace higher h child prev.
Proof.
  unfold last_workspace_child, pick_child, is_workspace, higher.
  destruct (deref h child) as [c|]; [|done]. cbn [bind].
  destruct (decide (type c = CT_WORKSPACE)) as [Hty|Hty].
  - rewrite decide_False by tauto.
    rewrite (bool_decide_eq_true_2 (type c = CT_WORKSPACE)) by done.
    reflexivity.
  - rewrite decide_True by done.
    rewrite (bool_decide_eq_false_2 (type c = CT_WORKSPACE)) by done.
    reflexivity.
Qed.

Lemma prev_numbered_child_pick (h : gmap ptr Con) (current_num : Z)
    (child : ptr) (prev : option ptr) :
  prev_numbered_child h current_num child prev
  = pick_child (below current_num) higher h child prev.
Proof.
  unfold prev_numbered_child, pick_child, below, higher, is_numbered,
    is_workspace.
  destruct (deref h child) as [c|]; [|done]. cbn [bind].
  destruct (decide (type c = CT_WORKSPACE)) as [Hty|Hty].
  - rewrite (bool_decide_eq_false_2 (type c ≠ CT_WORKSPACE)) by tauto.
    rewrite (bool_decide_eq_true_2 (type c = CT_WORKSPACE)) by done.
    destruct (decide (num c = (-1)%Z)) as [Hn|Hn].
    + rewrite (bool_decide_eq_true_2 (num c = (-1)%Z)) by done.
      rewrite (bool_decide_eq_false_2 (num c ≠ (-1)%Z)) by tauto. done.
    + rewrite (bool_decide_eq_false_2 (num c = (-1)%Z)) by done.
      rewrite (bool_decide_eq_true_2 (num c ≠ (-1)%Z)) by done. simpl.
      by destruct (num c <? current_num)%Z.
  - rewrite (bool_decide_eq_true_2 (type c ≠ CT_WORKSPACE)) by done.
    rewrite (bool_decide_eq_false_2 (type c = CT_WORKSPACE)) by done. done.
Qed.

(** The first loop of [workspace_next] ends at a named workspace; on a
    queue without one it is a loop of the same shape. *)
Lemma next_numbered_scan_pick (h : gmap ptr Con) (current_num : Z)
    (l : list ptr) (next : option ptr) :
  (∀ q cq, q ∈ l → h !! q = Some cq → type cq = CT_WORKSPACE →
           num cq ≠ (-1)%Z) →
  next_numbered_scan h current_num l next
  = foldM (pick_child (above current_num) lower h) l next.
Proof.
  revert next. induction l as [|a l IH]; intros next Hl; [done|].
  cbn [next_numbered_scan foldM]. unfold pick_child at 1.
  assert (∀ next1, next_numbered_scan h current_num l next1
            = foldM (pick_child (above current_num) lower h) l next1)
    as Hrest.
  { intros next1. apply IH. intros q cq Hq. apply Hl. by right. }
  destruct (h !! a) as [c|] eqn:Hc.
  2:{ unfold deref. by rewrite Hc. }
  rewrite (deref_Some _ _ _ Hc). cbn [bind].
  unfold above, lower, is_numbered, is_workspace.
  destruct (decide (type c = CT_WORKSPACE)) as [Hty|Hty].
  2:{ rewrite decide_True by done.
      rewrite (bool_decide_eq_false_2 (type c = CT_WORKSPACE)) by done.
      cbn [andb bind]. apply Hrest. }
  rewrite (decide_False (P := type c ≠ CT_WORKSPACE)) by tauto.
  rewrite (bool_decide_eq_true_2 (type c = CT_WORKSPACE)) by done.
  assert (num c ≠ (-1)%Z) as Hn by (apply (Hl a); [by left|done..]).
  rewrite decide_False by done.
  rewrite (bool_decide_eq_true_2 (num c ≠ (-1)%Z)) by done. cbn [andb].
  destruct (current_num <? num c)%Z; [|cbn [bind]; apply Hrest].
  destruct next as [n|]; cbn [bind].
  - destruct (deref h n) as [nc|]; [|done]. cbn [bind]. apply Hrest.
  - apply Hrest.
Qed.
(** ** The loops over the outputs *)

Lemma fold_outputs_inv {S : Type} (h : gmap ptr Con)
    (per_output : ptr → S → res S) (body : list ptr → S → res S)
    (order : list ptr → list ptr) (Inv : list ptr → S → Prop)
    (outputs seen : list ptr) (s : S) :
  (∀ output s, output ∈ outputs →
     per_output output s = body (order (output_children h output)) s) →
  (∀ output l seen s, output ∈ outputs → l = output_children h output →
     Inv seen s → ∃ s', body (order l) s = Ok s' ∧ Inv (seen ++ order l) s') →
  Inv seen s →
  ∃ s', foldM per_output outputs s = Ok s' ∧
        Inv (seen ++ (outputs ≫= (order ∘ output_children h))) s'.
Proof.
  revert seen s.
  induction outputs as [|output outputs IH]; intros seen s Hper Hbody Hinv.
  { exists s. by rewrite app_nil_r. }
  cbn [foldM]. rewrite Hper by (by left).
  destruct (Hbody output _ seen s (list_elem_of_here _ _) eq_refl Hinv)
    as (s1 & -> & Hinv1).
  cbn [bind].
  destruct (IH (seen ++ order (output_children h output)) s1)
    as (s' & Hs' & Hinv'); [| |done|].
  { intros output' s'' Ho. apply Hper. by right. }
  { intros output' l seen' s'' Ho. apply Hbody. by right. }
  exists s'. split; [done|]. by rewrite bind_cons, app_assoc.
Qed.

Lemma output_children_allocated (h : gmap ptr Con) (output q : ptr) :
  output_linked h output → q ∈ output_children h output → is_Some (h !! q).
Proof.
  intros (oc & Hoc & Hcontent) Hq.
  destruct (is_internal_name (name oc)) eqn:Hint.
  { rewrite (output_children_internal h output oc Hoc Hint) in Hq.
    by apply elem_of_nil in Hq. }
  destruct (Hcontent eq_refl) as (content & cc & Hc & Hcc & Hnodes).
  rewrite (output_children_linked h output content oc cc) in Hq by done.
  destruct (Hnodes q Hq) as (cq & Hcq & _). by exists cq.
Qed.

(** The loops of the best workspace over the outputs of the tree. *)
Lemma pick_outputs_spec (good : Con → bool) (better : Con → Con → bool)
    (le : Con → Con → Prop) (h : gmap ptr Con)
    (per_output : ptr → option ptr → res (option ptr))
    (order : list ptr → list ptr) (outputs : list ptr) :
  (∀ c, le c c) →
  (∀ c p q, better c p = true → le p q → le c q) →
  (∀ c p, better c p = false → le p c) →
  (∀ l q, q ∈ order l → q ∈ l) →
  (∀ output, output ∈ outputs → output_linked h output) →
  (∀ output kept, output ∈ outputs →
     per_output output kept
     = foldM (pick_child good better h) (order (output_children h output))
         kept) →
  ∃ r, foldM per_output outputs None = Ok r ∧
       best h good le (outputs ≫= (order ∘ output_children h)) r.
Proof.
  intros Hrefl Hbetter Hworse Horder Hlinked Hper.
  destruct (fold_outputs_inv h per_output
              (foldM (pick_child good better h)) order (best h good le)
              outputs [] None) as (r & Hr & Hbest); [exact Hper| | |by exists r].
  2:{ intros q cq Hq. by apply elem_of_nil in Hq. }
  intros output l seen s Ho -> Hinv.
  apply pick_fold_spec; try done.
  intros q Hq%Horder. by apply (output_children_allocated h output), Hq; auto.
Qed.
Lemma last_workspace_tree (h : gmap ptr Con) (r : Con) :
  outputs_linked h r →
  ∃ prev,
    foldM (last_workspace_output h) (reverse (nodes_head r)) None = Ok prev ∧
    best h is_workspace at_least (user_children h r) prev.
Proof.
  intros Hlinked.
  destruct (pick_outputs_spec is_workspace higher at_least h
              (last_workspace_output h) reverse (reverse (nodes_head r)))
    as (prev & Hprev & Hbest).
  - intros c. unfold at_least. lia.
  - unfold higher, at_least. intros c p q Hb%Z.ltb_lt Hle. lia.
  - unfold higher, at_least. intros c p Hb%Z.ltb_ge. lia.
  - intros l q Hq. by rewrite elem_of_reverse in Hq.
  - intros output Ho. rewrite elem_of_reverse in Ho. by apply Hlinked.
  - intros output kept Ho. rewrite elem_of_reverse in Ho.
    unfold last_workspace_output.
    rewrite (per_output_children h output
               (fun l => foldM (last_workspace_child h) (reverse l)))
      by (by auto).
    apply foldM_ext. intros a s _. apply last_workspace_child_pick.
  - exists prev. split; [done|]. apply best_reverse.
    unfold user_children. by rewrite <- reverse_bind.
Qed.

Lemma prev_numbered_tree (h : gmap ptr Con) (r : Con) (current_num : Z) :
  outputs_linked h r →
  ∃ prev,
    foldM (prev_numbered_output h current_num) (reverse (nodes_head r)) None
    = Ok prev ∧
    best h (below current_num) at_least (user_children h r) prev.
Proof.
  intros Hlinked.
  destruct (pick_outputs_spec (below current_num) higher at_least h
              (prev_numbered_output h current_num) reverse
              (reverse (nodes_head r)))
    as (prev & Hprev & Hbest).
  - intros c. unfold at_least. lia.
  - unfold higher, at_least. intros c p q Hb%Z.ltb_lt Hle. lia.
  - unfold higher, at_least. intros c p Hb%Z.ltb_ge. lia.
  - intros l q Hq. by rewrite elem_of_reverse in Hq.
  - intros output Ho. rewrite elem_of_reverse in Ho. by apply Hlinked.
  - intros output kept Ho. rewrite elem_of_reverse in Ho.
    unfold prev_numbered_output.
    rewrite (per_output_children h output
               (fun l => foldM (prev_numbered_child h current_num)
                           (reverse l)))
      by (by auto).
    apply foldM_ext. intros a s _. apply prev_numbered_child_pick.
  - exists prev. split; [done|]. apply best_reverse.
    unfold user_children. by rewrite <- reverse_bind.
Qed.

Lemma first_workspace_tree (h : gmap ptr Con) (r : Con) :
  outputs_linked h r →
  ∃ next,
    foldM (first_workspace_output h) (nodes_head r) None = Ok next ∧
    best h is_workspace at_most_numbered (user_children h r) next.
Proof.
  intros Hlinked.
  destruct (pick_outputs_spec is_workspace lower_numbered at_most_numbered h
              (first_workspace_output h) (fun l => l) (nodes_head r))
    as (next & Hnext & Hbest); try done.
  - intros c. unfold at_most_numbered. lia.
  - unfold lower_numbered, at_most_numbered.
    intros c p q [_ Hb%Z.ltb_lt]%andb_prop Hle Hq. specialize (Hle Hq). lia.
  - unfold lower_numbered, at_most_numbered.
    intros c p Hb Hc. rewrite bool_decide_eq_true_2 in Hb by done.
    apply Z.ltb_ge in Hb. lia.
  - intros output kept Ho. unfold first_workspace_output.
    rewrite (per_output_children h output
               (fun l => foldM (first_workspace_child h) l))
      by (by auto).
    apply foldM_ext. intros a s _. apply first_workspace_child_pick.
  - by exists next.
Qed.

Lemma next_numbered_tree (h : gmap ptr Con) (r : Con) (current_num : Z) :
  outputs_linked h r → all_numbered h r →
  ∃ next,
    foldM (next_numbered_output h current_num) (nodes_head r) None = Ok next ∧
    best h (above current_num) at_most (user_children h r) next.
Proof.
  intros Hlinked Hnumbered.
  destruct (pick_outputs_spec (above current_num) lower at_most h
              (next_numbered_output h current_num) (fun l => l)
              (nodes_head r))
    as (next & Hnext & Hbest); try done.
  - intros c. unfold at_most. lia.
  - unfold lower, at_most. intros c p q Hb%Z.ltb_lt Hle. lia.
  - unfold lower, at_most. intros c p Hb%Z.ltb_ge. lia.
  - intros output kept Ho. unfold next_numbered_output.
    rewrite (per_output_children h output (next_numbered_scan h current_num))
      by (by auto).
    apply next_numbered_scan_pick. intros q cq Hq. apply Hnumbered.
    by apply (user_children_elem h r output).
  - by exists next.
Qed.

(** ** The loop for the named workspaces *)

Lemma next_named_scan_app (h : gmap ptr Con) (current : ptr)
    (current_num : Z) (l1 l2 : list ptr) (found_current : bool) :
  next_named_scan h current current_num (l1 ++ l2) found_current
  = let* '(next, found_current) :=
      next_named_scan h current current_num l1 found_current in
    match next with
    | Some next => Ok (Some next, found_current)
    | None => next_named_scan h current current_num l2 found_current
    end.
Proof.
  revert found_current. induction l1 as [|a l1 IH]; intros fc; [done|].
  cbn [app next_named_scan]. destruct (deref h a) as [c|]; [|done].
  cbn [bind]. destruct (decide (type c ≠ CT_WORKSPACE)); [apply IH|].
  destruct (decide (a = current)); [apply IH|].
  destruct (_ && _); [done|apply IH].
Qed.

Lemma next_named_scan_total (h : gmap ptr Con) (current : ptr)
    (current_num : Z) (l : list ptr) (found_current : bool) :
  (∀ q, q ∈ l → is_Some (h !! q)) →
  ∃ next found_current',
    next_named_scan h current current_num l found_current
    = Ok (next, found_current') ∧
    ∀ n, next = Some n → n ∈ l.
Proof.
  revert found_current. induction l as [|a l IH]; intros fc Hl.
  { exists None, fc. done. }
  destruct (Hl a) as [c Hc]; [by left|].
  assert (∀ fc1, ∃ next fc',
            next_named_scan h current current_num l fc1 = Ok (next, fc') ∧
            ∀ n, next = Some n → n ∈ a :: l) as Hrest.
  { intros fc1. destruct (IH fc1) as (next & fc' & Hscan & Hin).
    { intros q Hq. apply Hl. by right. }
    exists next, fc'. split; [done|]. intros n Hn. right. by apply Hin. }
  cbn [next_named_scan]. rewrite (deref_Some _ _ _ Hc). cbn [bind].
  destruct (decide (type c ≠ CT_WORKSPACE)); [apply Hrest|].
  destruct (decide (a = current)); [apply Hrest|].
  destruct (_ && _); [|apply Hrest].
  exists (Some a), fc. split; [done|]. intros next [= <-]. by left.
Qed.

Lemma next_named_scan_none (h : gmap ptr Con) (current : ptr)
    (current_num : Z) (l : list ptr) (found_current : bool) :
  (∀ q, q ∈ l → is_Some (h !! q)) →
  (∀ q cq, q ∈ l → h !! q = Some cq → type cq = CT_WORKSPACE →
           num cq ≠ (-1)%Z) →
  ∃ found_current',
    next_named_scan h current current_num l found_current
    = Ok (None, found_current').
Proof.
  revert found_current. induction l as [|a l IH]; intros fc Hl Hnum.
  { by exists fc. }
  destruct (Hl a) as [c Hc]; [by left|].
  assert (∀ fc1, ∃ fc',
            next_named_scan h current current_num l fc1 = Ok (None, fc'))
    as Hrest.
  { intros fc1. apply IH.
    - intros q Hq. apply Hl. by right.
    - intros q cq Hq. apply Hnum. by right. }
  cbn [next_named_scan]. rewrite (deref_Some _ _ _ Hc). cbn [bind].
  destruct (decide (type c ≠ CT_WORKSPACE)) as [|Hty]; [apply Hrest|].
  destruct (decide (a = current)); [apply Hrest|].
  rewrite (bool_decide_eq_false_2 (num c = (-1)%Z)); [apply Hrest|].
  apply (Hnum a); [by left|done|]. by destruct (decide (type c = CT_WORKSPACE)).
Qed.

Lemma next_named_outputs_children (h : gmap ptr Con) (current : ptr)
    (current_num : Z) (outputs : list ptr) (found_current : bool) :
  (∀ output, output ∈ outputs → output_linked h output) →
  next_named_outputs h current current_num outputs found_current
  = let* '(next, _) :=
      next_named_scan h current current_num (outputs ≫= output_children h)
        found_current in
    Ok next.
Proof.
  revert found_current.
  induction outputs as [|output outputs IH]; intros fc Hlinked; [done|].
  assert (∀ fc1, next_named_outputs h current current_num outputs fc1
            = let* '(next, _) :=
                next_named_scan h current current_num
                  (outputs ≫= output_children h) fc1 in
              Ok next) as Hrest.
  { intros fc1. apply IH. intros output' Ho. apply Hlinked. by right. }
  destruct (Hlinked output) as (oc & Hoc & Hcontent); [by left|].
  cbn [next_named_outputs]. rewrite bind_cons, next_named_scan_app.
  rewrite (deref_Some _ _ _ Hoc). cbn [bind].
  destruct (is_internal_name (name oc)) eqn:Hint.
  { rewrite (output_children_internal h output oc Hoc Hint). apply Hrest. }
  destruct (Hcontent eq_refl) as (content & cc & Hc & Hcc & _).
  rewrite Hc. cbn [bind]. rewrite (deref_Some _ _ _ Hcc). cbn [bind].
  rewrite (output_children_linked h output content oc cc) by done.
  destruct (next_named_scan h current current_num (nodes_head cc) fc)
    as [[[next|] fc']|]; cbn [bind]; [done|apply Hrest|done].
Qed.

Lemma prev_named_outputs_children (h : gmap ptr Con) (current : ptr)
    (current_num : Z) (outputs : list ptr) (found_current : bool) :
  (∀ output, output ∈ outputs → output_linked h output) →
  prev_named_outputs h current current_num outputs found_current
  = let* '(prev, _) :=
      next_named_scan h current current_num
        (outputs ≫= (reverse ∘ output_children h)) found_current in
    Ok prev.
Proof.
  revert found_current.
  induction outputs as [|output outputs IH]; intros fc Hlinked; [done|].
  assert (∀ fc1, prev_named_outputs h current current_num outputs fc1
            = let* '(prev, _) :=
                next_named_scan h current current_num
                  (outputs ≫= (reverse ∘ output_children h)) fc1 in
              Ok prev) as Hrest.
  { intros fc1. apply IH. intros output' Ho. apply Hlinked. by right. }
  destruct (Hlinked output) as (oc & Hoc & Hcontent); [by left|].
  cbn [prev_named_outputs]. rewrite bind_cons, next_named_scan_app.
  rewrite (deref_Some _ _ _ Hoc). cbn [bind]. unfold compose at 1.
  destruct (is_internal_name (name oc)) eqn:Hint.
  { rewrite (output_children_internal h output oc Hoc Hint). apply Hrest. }
  destruct (Hcontent eq_refl) as (content & cc & Hc & Hcc & _).
  rewrite Hc. cbn [bind]. rewrite (deref_Some _ _ _ Hcc). cbn [bind].
  rewrite (output_children_linked h output content oc cc) by done.
  destruct (next_named_scan h current current_num (reverse (nodes_head cc)) fc)
    as [[[prev|] fc']|]; cbn [bind]; [done|apply Hrest|done].
Qed.
(** ** Neighbours in a queue *)

Lemma list_next_elem (elm n : ptr) (l : list ptr) :
  list_next elm l = Some n → n ∈ l.
Proof.
  induction l as [|x l IH]; [done|]. cbn [list_next].
  destruct (decide (x = elm)).
  - destruct l as [|y l]; [done|]. intros [= <-]. right. by left.
  - intros Hn. right. by apply IH.
Qed.

Lemma list_prev_elem (before : option ptr) (elm p : ptr) (l : list ptr) :
  list_prev before elm l = Some p → before = Some p ∨ p ∈ l.
Proof.
  revert before. induction l as [|x l IH]; intros before; [done|].
  cbn [list_prev]. destruct (decide (x = elm)); [by left|].
  intros [[= <-]|Hp]%IH; right; [by left|by right].
Qed.

Lemma above_spec (n : Z) (c : Con) :
  above n c = true ↔
  type c = CT_WORKSPACE ∧ num c ≠ (-1)%Z ∧ (n < num c)%Z.
Proof.
  unfold above, is_numbered, is_workspace.
  rewrite !andb_true_iff, !bool_decide_eq_true, Z.ltb_lt. tauto.
Qed.

Lemma below_spec (n : Z) (c : Con) :
  below n c = true ↔
  type c = CT_WORKSPACE ∧ num c ≠ (-1)%Z ∧ (num c < n)%Z.
Proof.
  unfold below, is_numbered, is_workspace.
  rewrite !andb_true_iff, !bool_decide_eq_true, Z.ltb_lt. tauto.
Qed.

Lemma is_workspace_spec (c : Con) :
  is_workspace c = true ↔ type c = CT_WORKSPACE.
Proof. unfold is_workspace. by rewrite bool_decide_eq_true. Qed.

(** The first loop of [workspace_next] on any queue: it returns, and with
    one of the containers it has seen. *)
Lemma next_numbered_scan_kept (h : gmap ptr Con) (current_num : Z)
    (l seen : list ptr) (next : option ptr) :
  (∀ q, q ∈ l → is_Some (h !! q)) → kept_in h seen next →
  ∃ r, next_numbered_scan h current_num l next = Ok r ∧
       kept_in h (seen ++ l) r.
Proof.
  revert seen next. induction l as [|a l IH]; intros seen next Hl Hkept.
  { exists next. by rewrite app_nil_r. }
  destruct (Hl a) as [c Hc]; [by left|].
  assert (∀ seen1 next1, kept_in h seen1 next1 → kept_in h (seen1 ++ [a]) next1)
    as Hmono.
  { intros seen1 [p|] Hk; [|done]. destruct Hk as [Hp Hal].
    split; [|done]. apply elem_of_app. by left. }
  assert (∀ next1, kept_in h (seen ++ [a]) next1 →
            ∃ r, next_numbered_scan h current_num l next1 = Ok r ∧
                 kept_in h (seen ++ a :: l) r) as Hrest.
  { intros next1 Hk. destruct (IH (seen ++ [a]) next1) as (r & Hr & Hkr);
      [|done|].
    { intros q Hq. apply Hl. by right. }
    exists r. split; [done|]. by rewrite <- app_assoc in Hkr. }
  assert (kept_in h (seen ++ [a]) (Some a)) as Ha.
  { split; [|by exists c]. apply elem_of_app. right. by left. }
  cbn [next_numbered_scan]. rewrite (deref_Some _ _ _ Hc). cbn [bind].
  destruct (decide (type c ≠ CT_WORKSPACE)); [by apply Hrest, Hmono|].
  destruct (decide (num c = (-1)%Z)).
  { exists next. split; [done|]. destruct next as [p|]; [|done].
    destruct Hkept as [Hp Hal]. split; [|done]. apply elem_of_app. by left. }
  destruct (current_num <? num c)%Z; [|by apply Hrest, Hmono].
  destruct next as [p|]; cbn [bind].
  - destruct Hkept as [Hp [pc Hpc]]. rewrite (deref_Some _ _ _ Hpc).
    cbn [bind]. destruct (num c <? num pc)%Z; apply Hrest; [done|].
    apply Hmono. split; [done|by exists pc].
  - by apply Hrest.
Qed.

Lemma best_kept_in (h : gmap ptr Con) (good : Con → bool)
    (le : Con → Con → Prop) (seen : list ptr) (kept : option ptr) :
  best h good le seen kept → kept_in h seen kept.
Proof.
  destruct kept as [p|]; [|done]. intros (pc & Hpc & Hp & _).
  split; [done|by exists pc].
Qed.

Lemma next_numbered_tree_kept (h : gmap ptr Con) (r : Con) (current_num : Z) :
  outputs_linked h r →
  ∃ next,
    foldM (next_numbered_output h current_num) (nodes_head r) None = Ok next ∧
    kept_in h (user_children h r) next.
Proof.
  intros Hlinked.
  destruct (fold_outputs_inv h (next_numbered_output h current_num)
              (next_numbered_scan h current_num) (fun l => l) (kept_in h)
              (nodes_head r) [] None) as (next & Hnext & Hkept); [| |done|].
  - intros output kept Ho. unfold next_numbered_output.
    by rewrite (per_output_children h output
                  (next_numbered_scan h current_num)) by (by auto).
  - intros output l seen s Ho -> Hk. apply next_numbered_scan_kept; [|done].
    intros q Hq. apply (output_children_allocated h output); auto.
  - by exists next.
Qed.

(** ** The wrap-around of the traversals *)

(** The second and the third loop of [workspace_next], from a workspace
    of an output that is not internal: a workspace is found. *)
Lemma workspace_next_wrap (h : gmap ptr Con) (r : Con) (current : ptr)
    (cur : Con) :
  outputs_linked h r → current ∈ user_children h r →
  h !! current = Some cur → type cur = CT_WORKSPACE →
  ∃ next,
    (let* next :=
       next_named_outputs h current (num cur) (nodes_head r) false in
     match next with
     | Some next => Ok (Some next)
     | None => foldM (first_workspace_output h) (nodes_head r) None
     end) = Ok (Some next) ∧
    next ∈ user_children h r.
Proof.
  intros Hlinked Hcurrent Hcur Hty.
  rewrite next_named_outputs_children by done.
  destruct (next_named_scan_total h current (num cur) (user_children h r)
              false) as (next & fc & Hscan & Hin).
  { intros q Hq. by apply (user_children_allocated h r). }
  unfold user_children in Hscan. rewrite Hscan. cbn [bind].
  destruct next as [next|].
  { exists next. split; [done|]. by apply Hin. }
  destruct (first_workspace_tree h r Hlinked) as (next & -> & Hbest).
  destruct (best_Some h _ _ _ _ current cur Hbest Hcurrent Hcur)
    as (p & pc & -> & _ & Hp & _); [by apply is_workspace_spec|].
  by exists p.
Qed.

Lemma workspace_prev_wrap (h : gmap ptr Con) (r : Con) (current : ptr)
    (cur : Con) :
  outputs_linked h r → current ∈ user_children h r →
  h !! current = Some cur → type cur = CT_WORKSPACE →
  ∃ prev,
    (let* prev :=
       prev_named_outputs h current (num cur) (reverse (nodes_head r))
         false in
     match prev with
     | Some prev => Ok (Some prev)
     | None => foldM (last_workspace_output h) (reverse (nodes_head r)) None
     end) = Ok (Some prev) ∧
    prev ∈ user_children h r.
Proof.
  intros Hlinked Hcurrent Hcur Hty.
  rewrite prev_named_outputs_children
    by (intros output Ho; rewrite elem_of_reverse in Ho; by apply Hlinked).
  rewrite reverse_bind.
  destruct (next_named_scan_total h current (num cur)
              (reverse (user_children h r)) false)
    as (prev & fc & Hscan & Hin).
  { intros q Hq. rewrite elem_of_reverse in Hq.
    by apply (user_children_allocated h r). }
  unfold user_children in Hscan. rewrite Hscan. cbn [bind].
  destruct prev as [prev|].
  { exists prev. split; [done|]. specialize (Hin prev eq_refl).
    by rewrite elem_of_reverse in Hin. }
  destruct (last_workspace_tree h r Hlinked) as (prev & -> & Hbest).
  destruct (best_Some h _ _ _ _ current cur Hbest Hcurrent Hcur)
    as (p & pc & -> & _ & Hp & _); [by apply is_workspace_spec|].
  by exists p.
Qed.

(** X1.  From a numbered workspace, [workspace_prev] returns the numbered
    workspace with the greatest number below the current one, wherever it
    is in the queues of the outputs, when there is one. *)
Theorem workspace_prev_numbered (fuel : nat) (t : Tree) (current : ptr)
    (cur r : Con) :
  con_get_workspace fuel (heap t) (focused t) = Ok (Some current) →
  heap t !! current = Some cur → num cur ≠ (-1)%Z →
  heap t !! croot t = Some r → outputs_linked (heap t) r →
  (∃ q cq, q ∈ user_children (heap t) r ∧ heap t !! q = Some cq ∧
           type cq = CT_WORKSPACE ∧ num cq ≠ (-1)%Z ∧
           (num cq < num cur)%Z) →
  ∃ prev pc,
    workspace_prev fuel t = Ok (Some prev) ∧
    heap t !! prev = Some pc ∧ prev ∈ user_children (heap t) r ∧
    type pc = CT_WORKSPACE ∧ num pc ≠ (-1)%Z ∧ (num pc < num cur)%Z ∧
    ∀ q cq, q ∈ user_children (heap t) r → heap t !! q = Some cq →
            type cq = CT_WORKSPACE → num cq ≠ (-1)%Z →
            (num cq < num cur)%Z → (num cq ≤ num pc)%Z.
Proof.
  intros Hcurrent Hcur Hnum Hr Hlinked (q0 & cq0 & Hq0 & Hcq0 & Hbelow0).
  unfold workspace_prev. rewrite Hcurrent. cbn [bind nonnull].
  rewrite (deref_Some _ _ _ Hcur). cbn [bind].
  rewrite decide_False by done. rewrite (deref_Some _ _ _ Hr). cbn [bind].
  destruct (prev_numbered_tree (heap t) r (num cur) Hlinked)
    as (prev & -> & Hbest).
  cbn [bind].
  destruct (best_Some _ _ _ _ _ q0 cq0 Hbest Hq0 Hcq0)
    as (p & pc & -> & Hpc & Hp & Hgood & _); [by apply below_spec|].
  apply below_spec in Hgood as (Hty & Hnp & Hlt).
  exists p, pc. repeat split; try done.
  intros q cq Hq Hcq Htq Hnq Hltq.
  destruct Hbest as (pc' & Hpc' & _ & _ & Hle).
  assert (pc' = pc) as -> by congruence.
  apply (Hle q cq Hq Hcq). by apply below_spec.
Qed.
(** X2.  From a workspace of an output that is not internal,
    [workspace_next] finds a workspace of such an output: the callers,
    which pass the result on without a test, never get NULL. *)
Theorem workspace_next_found (fuel : nat) (t : Tree) (current : ptr)
    (cur r : Con) :
  con_get_workspace fuel (heap t) (focused t) = Ok (Some current) →
  heap t !! croot t = Some r → outputs_linked (heap t) r →
  current ∈ user_children (heap t) r →
  heap t !! current = Some cur → type cur = CT_WORKSPACE →
  ∃ next, workspace_next fuel t = Ok (Some next) ∧
          next ∈ user_children (heap t) r.
Proof.
  intros Hcurrent Hr Hlinked Hin Hcur Hty.
  unfold workspace_next. rewrite Hcurrent. cbn [bind nonnull].
  rewrite (deref_Some _ _ _ Hcur). cbn [bind].
  destruct (decide (num cur = (-1)%Z)) as [Hnum|Hnum].
  - destruct (user_children_linked _ _ _ Hlinked Hin)
      as (content & cc & cq & Hcc & Hincc & Hcq & Hpar & Hall).
    assert (cq = cur) as -> by congruence.
    unfold TAILQ_NEXT. rewrite (deref_Some _ _ _ Hcur). cbn [bind].
    rewrite Hpar, (deref_Some _ _ _ Hcc). cbn [bind].
    destruct (list_next current (nodes_head cc)) as [next|] eqn:Hnext.
    + exists next. split; [done|]. by apply Hall, (list_next_elem current).
    + rewrite (deref_Some _ _ _ Hr). by apply workspace_next_wrap.
  - rewrite (deref_Some _ _ _ Hr). cbn [bind].
    destruct (next_numbered_tree_kept (heap t) r (num cur) Hlinked)
      as (next & -> & Hkept).
    cbn [bind]. destruct next as [next|].
    + exists next. split; [done|]. by destruct Hkept.
    + by apply workspace_next_wrap.
Qed.

(** X3.  From a workspace of an output that is not internal,
    [workspace_prev] finds a workspace of such an output. *)
Theorem workspace_prev_found (fuel : nat) (t : Tree) (current : ptr)
    (cur r : Con) :
  con_get_workspace fuel (heap t) (focused t) = Ok (Some current) →
  heap t !! croot t = Some r → outputs_linked (heap t) r →
  current ∈ user_children (heap t) r →
  heap t !! current = Some cur → type cur = CT_WORKSPACE →
  ∃ prev, workspace_prev fuel t = Ok (Some prev) ∧
          prev ∈ user_children (heap t) r.
Proof.
  intros Hcurrent Hr Hlinked Hin Hcur Hty.
  unfold workspace_prev. rewrite Hcurrent. cbn [bind nonnull].
  rewrite (deref_Some _ _ _ Hcur). cbn [bind].
  destruct (decide (num cur = (-1)%Z)) as [Hnum|Hnum].
  - destruct (user_children_linked _ _ _ Hlinked Hin)
      as (content & cc & cq & Hcc & Hincc & Hcq & Hpar & Hall).
    assert (cq = cur) as -> by congruence.
    unfold TAILQ_PREV. rewrite (deref_Some _ _ _ Hcur). cbn [bind].
    rewrite Hpar, (deref_Some _ _ _ Hcc). cbn [bind].
    destruct (list_prev None current (nodes_head cc)) as [p|] eqn:Hp;
      cbn [bind].
    + apply list_prev_elem in Hp as [|Hp]; [done|].
      destruct (user_children_allocated _ _ p Hlinked (Hall p Hp))
        as [pc Hpc].
      rewrite (deref_Some _ _ _ Hpc). cbn [bind].
      destruct (decide (num pc ≠ (-1)%Z)).
      * rewrite (deref_Some _ _ _ Hr). by apply workspace_prev_wrap.
      * exists p. split; [done|]. by apply Hall.
    + rewrite (deref_Some _ _ _ Hr). by apply workspace_prev_wrap.
  - rewrite (deref_Some _ _ _ Hr). cbn [bind].
    destruct (prev_numbered_tree (heap t) r (num cur) Hlinked)
      as (prev & -> & Hbest).
    cbn [bind]. destruct prev as [prev|].
    + exists prev. split; [done|]. by destruct Hbest as (_ & _ & ? & _).
    + by apply workspace_prev_wrap.
Qed.

(** ** workspace_next and workspace_prev undo each other *)

Lemma con_get_workspace_self (fuel : nat) (h : gmap ptr Con) (ws : ptr)
    (c : Con) :
  fuel ≠ 0 → h !! ws = Some c → type c = CT_WORKSPACE →
  con_get_workspace fuel h ws = Ok (Some ws).
Proof.
  intros Hfuel Hc Hty. destruct fuel as [|fuel]; [done|].
  unfold con_get_workspace. cbn [ancestor_of_kind].
  rewrite (deref_Some _ _ _ Hc). cbn [bind]. by rewrite decide_True.
Qed.

Lemma con_get_workspace_fuel (fuel : nat) (h : gmap ptr Con) (con : ptr)
    (r : option ptr) :
  con_get_workspace fuel h con = Ok r → fuel ≠ 0.
Proof. by destruct fuel. Qed.

Section Numbered.

Variables (h : gmap ptr Con) (r : Con).
Hypothesis Hlinked : outputs_linked h r.
Hypothesis Hnumbered : all_numbered h r.
Hypothesis Hdistinct : distinct_numbers h r.

Lemma named_none (current : ptr) (current_num : Z) :
  next_named_outputs h current current_num (nodes_head r) false = Ok None
  ∧ prev_named_outputs h current current_num (reverse (nodes_head r)) false
    = Ok None.
Proof.
  split.
  - rewrite next_named_outputs_children by done.
    destruct (next_named_scan_none h current current_num (user_children h r)
                false) as (fc & Hscan).
    { intros q Hq. by apply (user_children_allocated h r). }
    { intros q cq Hq. by apply Hnumbered. }
    unfold user_children in Hscan. by rewrite Hscan.
  - rewrite prev_named_outputs_children
      by (intros output Ho; rewrite elem_of_reverse in Ho; by apply Hlinked).
    rewrite reverse_bind.
    destruct (next_named_scan_none h current current_num
                (reverse (user_children h r)) false) as (fc & Hscan).
    { intros q Hq. rewrite elem_of_reverse in Hq.
      by apply (user_children_allocated h r). }
    { intros q cq Hq. rewrite elem_of_reverse in Hq. by apply Hnumbered. }
    unfold user_children in Hscan. by rewrite Hscan.
Qed.

(** The workspace after [current] in the cyclic order of the numbers. *)
Lemma next_in_cycle (fuel : nat) (t : Tree) (current : ptr) (cur : Con) :
  heap t = h → heap t !! croot t = Some r →
  con_get_workspace fuel h (focused t) = Ok (Some current) →
  current ∈ user_children h r → h !! current = Some cur →
  type cur = CT_WORKSPACE →
  ∃ next nc,
    workspace_next fuel t = Ok (Some next) ∧
    next ∈ user_children h r ∧ h !! next = Some nc ∧
    type nc = CT_WORKSPACE ∧
    (((num cur < num nc)%Z ∧
      ∀ q cq, q ∈ user_children h r → h !! q = Some cq →
              type cq = CT_WORKSPACE → (num cur < num cq)%Z →
              (num nc ≤ num cq)%Z)
     ∨ ((∀ q cq, q ∈ user_children h r → h !! q = Some cq →
                 type cq = CT_WORKSPACE → (num cq ≤ num cur)%Z) ∧
        ∀ q cq, q ∈ user_children h r → h !! q = Some cq →
                type cq = CT_WORKSPACE → (num nc ≤ num cq)%Z)).
Proof.
  intros Hh Hr Hcurrent Hin Hcur Hty. rewrite Hh in Hr.
  assert (num cur ≠ (-1)%Z) as Hnum by by apply (Hnumbered current).
  unfold workspace_next. rewrite Hh, Hcurrent. cbn [bind nonnull].
  rewrite (deref_Some _ _ _ Hcur). cbn [bind].
  rewrite decide_False by done. rewrite (deref_Some _ _ _ Hr). cbn [bind].
  destruct (next_numbered_tree h r (num cur) Hlinked Hnumbered)
    as (next & -> & Hbest).
  cbn [bind]. destruct next as [next|].
  - destruct Hbest as (nc & Hnc & Hn & (Htn & Hnn & Hlt)%above_spec & Hle).
    exists next, nc. repeat split; try done. left. split; [done|].
    intros q cq Hq Hcq Htq Hltq. apply (Hle q cq Hq Hcq).
    apply above_spec. repeat split; try done. by apply (Hnumbered q).
  - destruct (named_none current (num cur)) as [-> _]. cbn [bind].
    destruct (first_workspace_tree h r Hlinked) as (next & -> & Hfirst).
    destruct (best_Some _ _ _ _ _ current cur Hfirst Hin Hcur)
      as (p & pc & -> & Hpc & Hp & Hgp%is_workspace_spec & _);
      [by apply is_workspace_spec|].
    exists p, pc. repeat split; try done. right. split.
    + intros q cq Hq Hcq Htq.
      destruct (Z.le_gt_cases (num cq) (num cur)) as [|Hgt]; [done|].
      assert (above (num cur) cq = true) as Habove.
      { apply above_spec. repeat split; try done; try lia.
        by apply (Hnumbered q). }
      simpl in Hbest. rewrite (Hbest q cq Hq Hcq) in Habove. done.
    + intros q cq Hq Hcq Htq.
      destruct Hfirst as (pc' & Hpc' & _ & _ & Hle).
      assert (pc' = pc) as -> by congruence.
      apply (Hle q cq Hq Hcq); [by apply is_workspace_spec|].
      by apply (Hnumbered q).
Qed.

(** The workspace before [current] in the cyclic order of the numbers. *)
Lemma prev_in_cycle (fuel : nat) (t : Tree) (current : ptr) (cur : Con) :
  heap t = h → heap t !! croot t = Some r →
  con_get_workspace fuel h (focused t) = Ok (Some current) →
  current ∈ user_children h r → h !! current = Some cur →
  type cur = CT_WORKSPACE →
  ∃ prev pc,
    workspace_prev fuel t = Ok (Some prev) ∧
    prev ∈ user_children h r ∧ h !! prev = Some pc ∧
    type pc = CT_WORKSPACE ∧
    (((num pc < num cur)%Z ∧
      ∀ q cq, q ∈ user_children h r → h !! q = Some cq →
              type cq = CT_WORKSPACE → (num cq < num cur)%Z →
              (num cq ≤ num pc)%Z)
     ∨ ((∀ q cq, q ∈ user_children h r → h !! q = Some cq →
                 type cq = CT_WORKSPACE → (num cur ≤ num cq)%Z) ∧
        ∀ q cq, q ∈ user_children h r → h !! q = Some cq →
                type cq = CT_WORKSPACE → (num cq ≤ num pc)%Z)).
Proof.
  intros Hh Hr Hcurrent Hin Hcur Hty. rewrite Hh in Hr.
  assert (num cur ≠ (-1)%Z) as Hnum by by apply (Hnumbered current).
  unfold workspace_prev. rewrite Hh, Hcurrent. cbn [bind nonnull].
  rewrite (deref_Some _ _ _ Hcur). cbn [bind].
  rewrite decide_False by done. rewrite (deref_Some _ _ _ Hr). cbn [bind].
  destruct (prev_numbered_tree h r (num cur) Hlinked)
    as (prev & -> & Hbest).
  cbn [bind]. destruct prev as [prev|].
  - destruct Hbest as (pc & Hpc & Hp & (Htp & Hnp & Hlt)%below_spec & Hle).
    exists prev, pc. repeat split; try done. left. split; [done|].
    intros q cq Hq Hcq Htq Hltq. apply (Hle q cq Hq Hcq).
    apply below_spec. repeat split; try done. by apply (Hnumbered q).
  - destruct (named_none current (num cur)) as [_ ->]. cbn [bind].
    destruct (last_workspace_tree h r Hlinked) as (prev & -> & Hlast).
    destruct (best_Some _ _ _ _ _ current cur Hlast Hin Hcur)
      as (p & pc & -> & Hpc & Hp & Hgp%is_workspace_spec & _);
      [by apply is_workspace_spec|].
    exists p, pc. repeat split; try done. right. split.
    + intros q cq Hq Hcq Htq.
      destruct (Z.le_gt_cases (num cur) (num cq)) as [|Hgt]; [done|].
      assert (below (num cur) cq = true) as Hbelow.
      { apply below_spec. repeat split; try done; try lia.
        by apply (Hnumbered q). }
      simpl in Hbest. rewrite (Hbest q cq Hq Hcq) in Hbelow. done.
    + intros q cq Hq Hcq Htq.
      destruct Hlast as (pc' & Hpc' & _ & _ & Hle).
      assert (pc' = pc) as -> by congruence.
      apply (Hle q cq Hq Hcq). by apply is_workspace_spec.
Qed.

End Numbered.

(** X4.  When every workspace has a number and no two have the same one,
    [workspace_prev] from the workspace that [workspace_next] returns
    leads back, and the other way round. *)
Theorem workspace_prev_next (fuel : nat) (t : Tree) (current : ptr)
    (cur r : Con) :
  con_get_workspace fuel (heap t) (focused t) = Ok (Some current) →
  heap t !! croot t = Some r → outputs_linked (heap t) r →
  all_numbered (heap t) r → distinct_numbers (heap t) r →
  current ∈ user_children (heap t) r →
  heap t !! current = Some cur → type cur = CT_WORKSPACE →
  (∃ next, workspace_next fuel t = Ok (Some next) ∧
           workspace_prev fuel (set_focused next t) = Ok (Some current))
  ∧ (∃ prev, workspace_prev fuel t = Ok (Some prev) ∧
             workspace_next fuel (set_focused prev t) = Ok (Some current)).
Proof.
  intros Hcurrent Hr Hlinked Hnumbered Hdistinct Hin Hcur Hty.
  pose proof (con_get_workspace_fuel _ _ _ _ Hcurrent) as Hfuel.
  split.
  - destruct (next_in_cycle (heap t) r Hlinked Hnumbered fuel t current cur)
      as (next & nc & Hnext & Hn & Hnc & Htn & Hcase); try done.
    exists next. split; [done|].
    destruct (prev_in_cycle (heap t) r Hlinked Hnumbered fuel
                (set_focused next t) next nc)
      as (p & pc & -> & Hp & Hpc & Htp & Hcase'); try done.
    { by apply (con_get_workspace_self fuel (heap t) next nc). }
    do 2 f_equal. apply (Hdistinct p current pc cur); try done.
    destruct Hcase as [[Hlt Hleast]|[Hmax Hmin]],
             Hcase' as [[Hlt' Hgreatest]|[Hmin' Hmax']].
    + pose proof (Hgreatest current cur Hin Hcur Hty Hlt).
      destruct (Z.le_gt_cases (num pc) (num cur)) as [|Hgt]; [lia|].
      pose proof (Hleast p pc Hp Hpc Htp Hgt). lia.
    + pose proof (Hmin' current cur Hin Hcur Hty). lia.
    + pose proof (Hmin p pc Hp Hpc Htp). lia.
    + pose proof (Hmax p pc Hp Hpc Htp).
      pose proof (Hmax' current cur Hin Hcur Hty). lia.
  - destruct (prev_in_cycle (heap t) r Hlinked Hnumbered fuel t current cur)
      as (prev & pc & Hprev & Hp & Hpc & Htp & Hcase); try done.
    exists prev. split; [done|].
    destruct (next_in_cycle (heap t) r Hlinked Hnumbered fuel
                (set_focused prev t) prev pc)
      as (n & nc & -> & Hn & Hnc & Htn & Hcase'); try done.
    { by apply (con_get_workspace_self fuel (heap t) prev pc). }
    do 2 f_equal. apply (Hdistinct n current nc cur); try done.
    destruct Hcase as [[Hlt Hgreatest]|[Hmin Hmax]],
             Hcase' as [[Hlt' Hleast]|[Hmax' Hmin']].
    + pose proof (Hleast current cur Hin Hcur Hty Hlt).
      destruct (Z.le_gt_cases (num cur) (num nc)) as [|Hgt]; [lia|].
      pose proof (Hgreatest n nc Hn Hnc Htn Hgt). lia.
    + pose proof (Hmax' current cur Hin Hcur Hty). lia.
    + pose proof (Hmax n nc Hn Hnc Htn). lia.
    + pose proof (Hmin n nc Hn Hnc Htn).
      pose proof (Hmin' current cur Hin Hcur Hty). lia.
Qed.
(** ** The traversals that stay on one output *)

Lemma first_workspace_list (h : gmap ptr Con) (l : list ptr) :
  (∀ q, q ∈ l → is_Some (h !! q)) →
  ∃ next, foldM (first_workspace_child h) l None = Ok next ∧
          best h is_workspace at_most_numbered l next.
Proof.
  intros Hl.
  destruct (pick_fold_spec is_workspace lower_numbered at_most_numbered h l
              [] None) as (next & Hnext & Hbest); try done.
  - intros c. unfold at_most_numbered. lia.
  - unfold lower_numbered, at_most_numbered.
    intros c p q [_ Hb%Z.ltb_lt]%andb_prop Hle Hq. specialize (Hle Hq). lia.
  - unfold lower_numbered, at_most_numbered.
    intros c p Hb Hc. rewrite bool_decide_eq_true_2 in Hb by done.
    apply Z.ltb_ge in Hb. lia.
  - intros q cq Hq. by apply elem_of_nil in Hq.
  - exists next. split; [|done]. rewrite <- Hnext.
    apply foldM_ext. intros a s _. apply first_workspace_child_pick.
Qed.

Lemma last_workspace_list (h : gmap ptr Con) (l : list ptr) :
  (∀ q, q ∈ l → is_Some (h !! q)) →
  ∃ prev, foldM (last_workspace_child h) (reverse l) None = Ok prev ∧
          best h is_workspace at_least l prev.
Proof.
  intros Hl.
  destruct (pick_fold_spec is_workspace higher at_least h (reverse l)
              [] None) as (prev & Hprev & Hbest).
  - intros c. unfold at_least. lia.
  - unfold higher, at_least. intros c p q Hb%Z.ltb_lt Hle. lia.
  - unfold higher, at_least. intros c p Hb%Z.ltb_ge. lia.
  - intros q Hq. rewrite elem_of_reverse in Hq. by apply Hl.
  - intros q cq Hq. by apply elem_of_nil in Hq.
  - exists prev. split; [|by apply best_reverse]. rewrite <- Hprev.
    apply foldM_ext. intros a s _. apply last_workspace_child_pick.
Qed.

Lemma prev_numbered_list (h : gmap ptr Con) (current_num : Z)
    (l : list ptr) :
  (∀ q, q ∈ l → is_Some (h !! q)) →
  ∃ prev,
    foldM (prev_numbered_child h current_num) (reverse l) None = Ok prev ∧
    best h (below current_num) at_least l prev.
Proof.
  intros Hl.
  destruct (pick_fold_spec (below current_num) higher at_least h (reverse l)
              [] None) as (prev & Hprev & Hbest).
  - intros c. unfold at_least. lia.
  - unfold higher, at_least. intros c p q Hb%Z.ltb_lt Hle. lia.
  - unfold higher, at_least. intros c p Hb%Z.ltb_ge. lia.
  - intros q Hq. rewrite elem_of_reverse in Hq. by apply Hl.
  - intros q cq Hq. by apply elem_of_nil in Hq.
  - exists prev. split; [|by apply best_reverse]. rewrite <- Hprev.
    apply foldM_ext. intros a s _. apply prev_numbered_child_pick.
Qed.

Section OnOutput.

Variables (h : gmap ptr Con) (output content current : ptr) (cc cur : Con).
Hypothesis Hcontent : output_get_content h output = Ok content.
Hypothesis Hcc : h !! content = Some cc.
Hypothesis Hnodes :
  ∀ q, q ∈ nodes_head cc → ∃ cq, h !! q = Some cq ∧ parent cq = Some content.
Hypothesis Hin : current ∈ nodes_head cc.
Hypothesis Hcur : h !! current = Some cur.
Hypothesis Hty : type cur = CT_WORKSPACE.

Lemma focused_content_Some : focused_content h (Some output) = Ok cc.
Proof.
  unfold focused_content. cbn [nonnull bind]. rewrite Hcontent. cbn [bind].
  by apply deref_Some.
Qed.

Lemma nodes_allocated (q : ptr) : q ∈ nodes_head cc → is_Some (h !! q).
Proof. intros Hq. destruct (Hnodes q Hq) as (cq & Hcq & _). by exists cq. Qed.

Lemma current_parent : parent cur = Some content.
Proof.
  destruct (Hnodes current Hin) as (cq & Hcq & Hpar).
  by assert (cq = cur) as -> by congruence.
Qed.

Lemma next_on_output_wrap :
  ∃ next,
    (let* c := Ok cc in
     let* '(next, _) :=
       next_named_scan h current (num cur) (nodes_head c) false in
     match next with
     | Some next => Ok (Some next)
     | None =>
         let* c := Ok cc in
         foldM (first_workspace_child h) (nodes_head c) None
     end) = Ok (Some next) ∧
    next ∈ nodes_head cc.
Proof.
  cbn [bind].
  destruct (next_named_scan_total h current (num cur) (nodes_head cc) false)
    as (next & fc & -> & Hnext); [exact nodes_allocated|].
  cbn [bind]. destruct next as [next|].
  { exists next. split; [done|]. by apply Hnext. }
  destruct (first_workspace_list h (nodes_head cc) nodes_allocated)
    as (next & -> & Hbest).
  destruct (best_Some _ _ _ _ _ current cur Hbest Hin Hcur)
    as (p & pc & -> & _ & Hp & _); [by apply is_workspace_spec|].
  by exists p.
Qed.

Lemma prev_on_output_wrap :
  ∃ prev,
    (let* c := Ok cc in
     let* '(prev, _) :=
       next_named_scan h current (num cur) (reverse (nodes_head c)) false in
     match prev with
     | Some prev => Ok (Some prev)
     | None =>
         let* c := Ok cc in
         foldM (last_workspace_child h) (reverse (nodes_head c)) None
     end) = Ok (Some prev) ∧
    prev ∈ nodes_head cc.
Proof.
  cbn [bind].
  destruct (next_named_scan_total h current (num cur)
              (reverse (nodes_head cc)) false)
    as (prev & fc & -> & Hprev).
  { intros q Hq. rewrite elem_of_reverse in Hq. by apply nodes_allocated. }
  cbn [bind]. destruct prev as [prev|].
  { exists prev. split; [done|]. specialize (Hprev prev eq_refl).
    by rewrite elem_of_reverse in Hprev. }
  destruct (last_workspace_list h (nodes_head cc) nodes_allocated)
    as (prev & -> & Hbest).
  destruct (best_Some _ _ _ _ _ current cur Hbest Hin Hcur)
    as (p & pc & -> & _ & Hp & _); [by apply is_workspace_spec|].
  by exists p.
Qed.

End OnOutput.

(** X5.  [workspace_next_on_output] finds a workspace, and one of the
    output of the focused container: it never leaves the output and never
    returns NULL. *)
Theorem workspace_next_on_output_found (fuel : nat) (t : Tree)
    (current output content : ptr) (cur cc : Con) :
  con_get_workspace fuel (heap t) (focused t) = Ok (Some current) →
  con_get_output fuel (heap t) (focused t) = Ok (Some output) →
  output_get_content (heap t) output = Ok content →
  heap t !! content = Some cc →
  (∀ q, q ∈ nodes_head cc →
        ∃ cq, heap t !! q = Some cq ∧ parent cq = Some content) →
  current ∈ nodes_head cc →
  heap t !! current = Some cur → type cur = CT_WORKSPACE →
  ∃ next, workspace_next_on_output fuel t = Ok (Some next) ∧
          next ∈ nodes_head cc.
Proof.
  intros Hcurrent Houtput Hcontent Hcc Hnodes Hin Hcur Hty.
  unfold workspace_next_on_output. rewrite Hcurrent, Houtput.
  cbn [bind nonnull]. rewrite (deref_Some _ _ _ Hcur). cbn [bind].
  rewrite (focused_content_Some (heap t) output content cc) by done.
  destruct (decide (num cur = (-1)%Z)) as [Hnum|Hnum].
  - unfold TAILQ_NEXT. rewrite (deref_Some _ _ _ Hcur). cbn [bind].
    rewrite (current_parent (heap t) content current cc cur) by done.
    rewrite (deref_Some _ _ _ Hcc). cbn [bind].
    destruct (list_next current (nodes_head cc)) as [next|] eqn:Hnext.
    + exists next. split; [done|]. by apply (list_next_elem current).
    + by apply (next_on_output_wrap (heap t) content current cc cur).
  - cbn [bind].
    destruct (next_numbered_scan_kept (heap t) (num cur) (nodes_head cc) []
                None) as (next & -> & Hkept); [|done|].
    { by apply (nodes_allocated (heap t) content cc). }
    cbn [bind]. destruct next as [next|].
    + exists next. split; [done|]. by destruct Hkept.
    + by apply (next_on_output_wrap (heap t) content current cc cur).
Qed.

(** X6.  [workspace_prev_on_output] finds a workspace, and one of the
    output of the focused container. *)
Theorem workspace_prev_on_output_found (fuel : nat) (t : Tree)
    (current output content : ptr) (cur cc : Con) :
  con_get_workspace fuel (heap t) (focused t) = Ok (Some current) →
  con_get_output fuel (heap t) (focused t) = Ok (Some output) →
  output_get_content (heap t) output = Ok content →
  heap t !! content = Some cc →
  (∀ q, q ∈ nodes_head cc →
        ∃ cq, heap t !! q = Some cq ∧ parent cq = Some content) →
  current ∈ nodes_head cc →
  heap t !! current = Some cur → type cur = CT_WORKSPACE →
  ∃ prev, workspace_prev_on_output fuel t = Ok (Some prev) ∧
          prev ∈ nodes_head cc.
Proof.
  intros Hcurrent Houtput Hcontent Hcc Hnodes Hin Hcur Hty.
  destruct (output_get_content_Ok _ _ _ Hcontent) as (oc & _ & Hoc & _).
  unfold workspace_prev_on_output. rewrite Hcurrent, Houtput.
  cbn [bind nonnull]. rewrite (deref_Some _ _ _ Hoc). cbn [bind].
  rewrite (deref_Some _ _ _ Hcur). cbn [bind].
  rewrite (focused_content_Some (heap t) output content cc) by done.
  destruct (decide (num cur = (-1)%Z)) as [Hnum|Hnum].
  - unfold TAILQ_PREV. rewrite (deref_Some _ _ _ Hcur). cbn [bind].
    rewrite (current_parent (heap t) content current cc cur) by done.
    rewrite (deref_Some _ _ _ Hcc). cbn [bind].
    destruct (list_prev None current (nodes_head cc)) as [p|] eqn:Hp;
      cbn [bind].
    + apply list_prev_elem in Hp as [|Hp]; [done|].
      destruct (nodes_allocated (heap t) content cc Hnodes p Hp) as [pc Hpc].
      rewrite (deref_Some _ _ _ Hpc). cbn [bind].
      destruct (decide (num pc ≠ (-1)%Z)).
      * by apply (prev_on_output_wrap (heap t) content current cc cur).
      * by exists p.
    + by apply (prev_on_output_wrap (heap t) content current cc cur).
  - cbn [bind].
    destruct (prev_numbered_list (heap t) (num cur) (nodes_head cc))
      as (prev & -> & Hbest).
    { by apply (nodes_allocated (heap t) content cc). }
    cbn [bind]. destruct prev as [prev|].
    + exists prev. split; [done|]. by destruct Hbest as (_ & _ & ? & _).
    + by apply (prev_on_output_wrap (heap t) content current cc cur).
Qed.
(** ** The conditions on concrete trees *)

Lemma outputs_linkedb_sound (h : gmap ptr Con) (r : Con) :
  outputs_linkedb h r = true → outputs_linked h r.
Proof.
  unfold outputs_linkedb. rewrite forallb_forall.
  intros Hall output Ho%list_elem_of_In. specialize (Hall output Ho).
  unfold output_linkedb in Hall. unfold output_linked.
  destruct (h !! output) as [oc|]; [|done]. exists oc. split; [done|].
  intros Hint. rewrite Hint in Hall.
  destruct (output_get_content h output) as [content|]; [|done].
  destruct (h !! content) as [cc|] eqn:Hcc; [|done].
  exists content, cc. repeat split; try done.
  rewrite forallb_forall in Hall. intros q Hq%list_elem_of_In.
  specialize (Hall q Hq). unfold node_linkedb in Hall.
  destruct (h !! q) as [cq|]; [|done]. exists cq. split; [done|].
  by apply bool_decide_eq_true in Hall.
Qed.

Lemma number_of_workspace (h : gmap ptr Con) (q : ptr) (cq : Con) :
  h !! q = Some cq → type cq = CT_WORKSPACE →
  number_of h q = Some (num cq).
Proof.
  intros Hcq Hty. unfold number_of. rewrite Hcq.
  by rewrite (proj2 (is_workspace_spec cq)).
Qed.

Lemma all_numberedb_sound (h : gmap ptr Con) (r : Con) :
  all_numberedb h r = true → all_numbered h r.
Proof.
  unfold all_numberedb. rewrite forallb_forall.
  intros Hall q cq Hq%list_elem_of_In Hcq Hty Hnum.
  specialize (Hall q Hq). apply negb_true_iff, bool_decide_eq_false in Hall.
  apply Hall. rewrite (number_of_workspace h q cq) by done. by rewrite Hnum.
Qed.

Lemma distinct_numbersb_sound (h : gmap ptr Con) (r : Con) :
  distinct_numbersb h r = true → distinct_numbers h r.
Proof.
  unfold distinct_numbersb. rewrite forallb_forall.
  intros Hall q q' cq cq' Hq%list_elem_of_In Hq'%list_elem_of_In Hcq Hcq'
    Hty Hty' Hnum.
  specialize (Hall q Hq). rewrite forallb_forall in Hall.
  specialize (Hall q' Hq').
  rewrite (number_of_workspace h q cq), (number_of_workspace h q' cq') in Hall
    by done.
  rewrite Hnum in Hall.
  rewrite (bool_decide_eq_false_2 (Some (num cq') = None)) in Hall by done.
  rewrite (bool_decide_eq_false_2 (Some (num cq') ≠ Some (num cq'))) in Hall
    by (by intros ?).
  by apply bool_decide_eq_true in Hall.
Qed.

Lemma workspace_prev_numbered_witness :
  ∃ prev pc,
    workspace_prev 6 Monitors.tree_ = Ok (Some prev) ∧
    Monitors.heap_ !! prev = Some pc ∧
    prev ∈ user_children Monitors.heap_ Monitors.root ∧
    type pc = CT_WORKSPACE ∧ num pc ≠ (-1)%Z ∧
    (num pc < num Monitors.ws3)%Z ∧
    ∀ q cq, q ∈ user_children Monitors.heap_ Monitors.root →
            Monitors.heap_ !! q = Some cq →
            type cq = CT_WORKSPACE → num cq ≠ (-1)%Z →
            (num cq < num Monitors.ws3)%Z → (num cq ≤ num pc)%Z.
Proof.
  apply (workspace_prev_numbered 6 Monitors.tree_ 23 Monitors.ws3
           Monitors.root).
  - reflexivity.
  - reflexivity.
  - simpl. lia.
  - reflexivity.
  - apply outputs_linkedb_sound. reflexivity.
  - exists 32%positive, Monitors.ws2.
    split; [vm_compute; by do 2 right; left|]. split; [reflexivity|].
    split; [reflexivity|]. simpl. lia.
Defined.

Lemma workspace_next_found_witness :
  ∃ next, workspace_next 6 Example.tree1 = Ok (Some next) ∧
          next ∈ user_children Example.heap1
                   (Example.con CT_ROOT None "root" [2; 5] [] [5; 2])%positive.
Proof.
  apply (workspace_next_found 6 Example.tree1 9%positive
           (Example.workspace 7 "1" 1 CF_OUTPUT [12] [] [12])%positive).
  - reflexivity.
  - reflexivity.
  - apply outputs_linkedb_sound. reflexivity.
  - vm_compute. by left.
  - reflexivity.
  - reflexivity.
Defined.

Lemma workspace_prev_found_witness :
  ∃ prev, workspace_prev 6 Example.tree1 = Ok (Some prev) ∧
          prev ∈ user_children Example.heap1
                   (Example.con CT_ROOT None "root" [2; 5] [] [5; 2])%positive.
Proof.
  apply (workspace_prev_found 6 Example.tree1 9%positive
           (Example.workspace 7 "1" 1 CF_OUTPUT [12] [] [12])%positive).
  - reflexivity.
  - reflexivity.
  - apply outputs_linkedb_sound. reflexivity.
  - vm_compute. by left.
  - reflexivity.
  - reflexivity.
Defined.

Lemma workspace_prev_next_witness :
  (∃ next, workspace_next 6 Monitors.tree_ = Ok (Some next) ∧
           workspace_prev 6 (set_focused next Monitors.tree_)
           = Ok (Some 23%positive))
  ∧ (∃ prev, workspace_prev 6 Monitors.tree_ = Ok (Some prev) ∧
             workspace_next 6 (set_focused prev Monitors.tree_)
             = Ok (Some 23%positive)).
Proof.
  apply (workspace_prev_next 6 Monitors.tree_ 23 Monitors.ws3 Monitors.root).
  - reflexivity.
  - reflexivity.
  - apply outputs_linkedb_sound. reflexivity.
  - apply all_numberedb_sound. reflexivity.
  - apply distinct_numbersb_sound. reflexivity.
  - vm_compute. by right; left.
  - reflexivity.
  - reflexivity.
Defined.

Lemma workspace_next_on_output_found_witness :
  ∃ next, workspace_next_on_output 6 Monitors.tree_ = Ok (Some next) ∧
          next ∈ nodes_head Monitors.content0.
Proof.
  apply (workspace_next_on_output_found 6 Monitors.tree_ 23 20 21
           Monitors.ws3 Monitors.content0).
  - reflexivity.
  - reflexivity.
  - reflexivity.
  - reflexivity.
  - intros q Hq. simpl in Hq.
    apply elem_of_cons in Hq as [->|Hq];
      [|apply elem_of_cons in Hq as [->|Hq]; [|by apply elem_of_nil in Hq]].
    + by exists Monitors.ws1.
    + by exists Monitors.ws3.
  - simpl. by right; left.
  - reflexivity.
  - reflexivity.
Defined.

Lemma workspace_prev_on_output_found_witness :
  ∃ prev, workspace_prev_on_output 6 Monitors.tree_ = Ok (Some prev) ∧
          prev ∈ nodes_head Monitors.content0.
Proof.
  apply (workspace_prev_on_output_found 6 Monitors.tree_ 23 20 21
           Monitors.ws3 Monitors.content0).
  - reflexivity.
  - reflexivity.
  - reflexivity.
  - reflexivity.
  - intros q Hq. simpl in Hq.
    apply elem_of_cons in Hq as [->|Hq];
      [|apply elem_of_cons in Hq as [->|Hq]; [|by apply elem_of_nil in Hq]].
    + by exists Monitors.ws1.
    + by exists Monitors.ws3.
  - simpl. by right; left.
  - reflexivity.
  - reflexivity.
Defined.

(** * More on the urgency flag *)

Lemma descendant_level (lv : ptr → nat) (bound : nat) (h : gmap ptr Con)
    (p d : ptr) :
  wf_tree lv bound h → descendant h p d → lv d < lv p.
Proof.
  intros Hwf Hd. induction Hd as [p c q Hp Hq|p c q d Hp Hq _ IH].
  - destruct (wf_child lv bound h Hwf p c q Hp Hq) as (_ & _ & _ & Hlt). done.
  - destruct (wf_child lv bound h Hwf p c q Hp Hq) as (_ & _ & _ & Hlt). lia.
Qed.

Lemma descendant_preserves (h h' : gmap ptr Con) (p d : ptr) :
  preserves links h h' → descendant h p d → descendant h' p d.
Proof.
  intros Hpre Hd. induction Hd as [p c q Hp Hq|p c q d Hp Hq _ IH].
  - destruct (preserves_lookup links h h' p c Hpre Hp) as (c' & Hc' & Hl).
    apply (descendant_child h' p c'); [done|].
    unfold children. injection Hl as _ _ -> -> _. done.
  - destruct (preserves_lookup links h h' p c Hpre Hp) as (c' & Hc' & Hl).
    apply (descendant_step h' p c' q); [done| |done].
    unfold children. injection Hl as _ _ -> -> _. done.
Qed.

Lemma set_urgent_links (ws : ptr) (w : Con) (b : bool) (h : gmap ptr Con) :
  h !! ws = Some w → preserves links h (<[ws := set_urgent b w]> h).
Proof.
  intros Hw p. destruct (decide (p = ws)) as [->|Hne].
  - by rewrite lookup_insert_eq, Hw.
  - by rewrite lookup_insert_ne.
Qed.

Lemma urgent_below_set_urgent (lv : ptr → nat) (bound : nat)
    (h : gmap ptr Con) (ws : ptr) (w : Con) (b : bool) :
  wf_tree lv bound h → h !! ws = Some w →
  urgent_below (<[ws := set_urgent b w]> h) ws ↔ urgent_below h ws.
Proof.
  intros Hwf Hw. pose proof (set_urgent_links ws w b h Hw) as Hpre.
  split; intros (d & cd & Hd & Hcd & Hu).
  - apply (descendant_preserves _ h) in Hd; [|by apply preserves_sym].
    pose proof (descendant_level lv bound h ws d Hwf Hd) as Hlt.
    rewrite lookup_insert_ne in Hcd by (intros ->; lia).
    by exists d, cd.
  - pose proof (descendant_level lv bound h ws d Hwf Hd) as Hlt.
    exists d, cd. split; [by apply (descendant_preserves h)|].
    by rewrite lookup_insert_ne by (intros ->; lia).
Qed.

(** X7.  A second call of [workspace_update_urgent_flag] in a row changes
    nothing and sends no event: the flag is computed from the containers
    below the workspace, never from the flag itself. *)
Theorem workspace_update_urgent_flag_twice (lv : ptr → nat) (fuel : nat)
    (t : Tree) (ws : ptr) (w : Con) :
  wf_tree lv fuel (heap t) → heap t !! ws = Some w →
  ∃ t', workspace_update_urgent_flag fuel ws t = Ok t' ∧
        workspace_update_urgent_flag fuel ws t' = Ok t'.
Proof.
  intros Hwf Hw.
  destruct (get_urgency_flag_spec lv fuel (heap t) fuel ws w Hwf Hw)
    as (b & Hb & Hiff); [by apply (wf_level lv fuel (heap t) Hwf ws w)|].
  set (h' := <[ws := set_urgent b w]> (heap t)).
  assert (wf_tree lv fuel h') as Hwf'.
  { apply (wf_tree_preserves lv fuel (heap t)); [|done].
    by apply set_urgent_links. }
  assert (h' !! ws = Some (set_urgent b w)) as Hw' by apply lookup_insert_eq.
  destruct (get_urgency_flag_spec lv fuel h' fuel ws _ Hwf' Hw')
    as (b' & Hb' & Hiff');
    [by apply (wf_level lv fuel h' Hwf' ws (set_urgent b w))|].
  assert (b' = b) as ->.
  { unfold h' in Hiff'.
    rewrite (urgent_below_set_urgent lv fuel) in Hiff' by done.
    destruct b, b'; try done.
    - by apply Hiff', Hiff.
    - symmetry. by apply Hiff, Hiff'. }
  assert (∀ t1, heap t1 = h' →
            workspace_update_urgent_flag fuel ws t1 = Ok t1) as Hagain.
  { intros [h1 r1 f1 e1] Hh1. simpl in Hh1. subst h1.
    unfold workspace_update_urgent_flag. cbn [heap].
    rewrite (deref_Some _ _ _ Hw'). cbn [bind]. rewrite Hb'. cbn [bind].
    rewrite (update_Some ws _ (mkTree h' r1 f1 e1) _ Hw').
    cbn [bind set_heap heap croot focused effects urgent set_urgent].
    rewrite (bool_decide_eq_false_2 (b ≠ b)) by (by intros ?).
    unfold h'. by rewrite insert_insert_eq. }
  unfold workspace_update_urgent_flag at 1.
  rewrite (deref_Some _ _ _ Hw). cbn [bind]. rewrite Hb. cbn [bind].
  rewrite (update_Some _ _ _ _ Hw). cbn [bind].
  destruct (bool_decide (urgent w ≠ b)); eexists; (split; [reflexivity|]);
    by apply Hagain.
Qed.

Lemma workspace_update_urgent_flag_twice_witness :
  ∃ t', workspace_update_urgent_flag 6 10 Example.tree1 = Ok t' ∧
        workspace_update_urgent_flag 6 10 t' = Ok t'.
Proof.
  apply (workspace_update_urgent_flag_twice Example.level1 6 Example.tree1
           10%positive
           (Example.workspace 7 "2" 2 CF_NONE [] [13] [13])%positive).
  - apply (bool_decide_unpack _). vm_compute. exact I.
  - reflexivity.
Defined.
(** * The number of a workspace *)

Lemma parse_workspace_num_digits (ds rest : string) :
  is_decimal ds = true → starts_with_digit rest = false →
  parse_workspace_num (ds +:+ rest)
  = (if (decimal_value ds <? Libc.LONG_MAX)%Z
     then Libc.int_of_long (decimal_value ds) else (-1)%Z).
Proof.
  intros Hds Hrest. destruct ds as [|c ds]; [done|].
  simpl in Hds. pose proof Hds as Hall.
  apply andb_true_iff in Hds as [Hc Hds].
  unfold parse_workspace_num, Libc.strtol.
  change (String c ds +:+ rest) with (String c (ds +:+ rest)).
  cbn [Libc.skip_space]. rewrite (isdigit_not_space c Hc).
  rewrite (isdigit_not_char c "-" Hc) by (vm_compute; lia).
  rewrite (isdigit_not_char c "+" Hc) by (vm_compute; lia).
  change (String c (ds +:+ rest)) with (String c ds +:+ rest).
  rewrite digits_app by done.
  cbn [String.length Nat.add].
  fold (decimal_value (String c ds)).
  assert (0 ≤ decimal_value (String c ds))%Z as Hnn
    by (by apply (decimal_value_from_nonneg (String c ds) 0)).
  set (v := decimal_value (String c ds)) in *.
  destruct (v <? Libc.LONG_MAX)%Z eqn:Hlt.
  - apply Z.ltb_lt in Hlt.
    assert (Z.max Libc.LONG_MIN (Z.min Libc.LONG_MAX v) = v) as ->.
    { unfold Libc.LONG_MIN, Libc.LONG_MAX in *. lia. }
    assert ((v =? Libc.LONG_MIN)%Z = false) as ->.
    { apply Z.eqb_neq. unfold Libc.LONG_MIN. lia. }
    assert ((v =? Libc.LONG_MAX)%Z = false) as -> by (apply Z.eqb_neq; lia).
    assert ((v <? 0)%Z = false) as -> by (apply Z.ltb_ge; lia).
    done.
  - apply Z.ltb_ge in Hlt.
    assert (Z.max Libc.LONG_MIN (Z.min Libc.LONG_MAX v) = Libc.LONG_MAX) as ->.
    { unfold Libc.LONG_MIN, Libc.LONG_MAX in *. lia. }
    rewrite Z.eqb_refl. by rewrite orb_true_r.
Qed.

(** X8.  The number of a name that starts with decimal digits is their
    value converted from [long] to [int]: a value of 2^31 or more is
    reduced modulo 2^32 and may come out negative or equal to the number
    of another name, and a value of [LONG_MAX] or more gives -1. *)
Theorem parse_workspace_num_wraps (ds rest : string) :
  is_decimal ds = true → starts_with_digit rest = false →
  ((decimal_value ds < Libc.LONG_MAX)%Z →
   parse_workspace_num (ds +:+ rest)
   = ((decimal_value ds + 2 ^ 31) mod 2 ^ 32 - 2 ^ 31)%Z)
  ∧ ((Libc.LONG_MAX ≤ decimal_value ds)%Z →
     parse_workspace_num (ds +:+ rest) = (-1)%Z).
Proof.
  intros Hds Hrest. rewrite (parse_workspace_num_digits ds rest Hds Hrest).
  split; intros Hv.
  - apply Z.ltb_lt in Hv. by rewrite Hv.
  - apply Z.ltb_ge in Hv. by rewrite Hv.
Qed.

Lemma parse_workspace_num_wraps_witness :
  ((decimal_value "4294967301" < Libc.LONG_MAX)%Z →
   parse_workspace_num ("4294967301" +:+ "abc")
   = ((decimal_value "4294967301" + 2 ^ 31) mod 2 ^ 32 - 2 ^ 31)%Z)
  ∧ ((Libc.LONG_MAX ≤ decimal_value "4294967301")%Z →
     parse_workspace_num ("4294967301" +:+ "abc") = (-1)%Z).
Proof.
  apply (parse_workspace_num_wraps "4294967301" "abc"); reflexivity.
Defined.

Lemma digit_value_pretty_N_char (d : N) :
  (d < 10)%N → Libc.digit_value (pretty_N_char d) = Z.of_N d.
Proof.
  intros Hd.
  assert (d = 0 ∨ d = 1 ∨ d = 2 ∨ d = 3 ∨ d = 4 ∨ d = 5 ∨ d = 6 ∨ d = 7
          ∨ d = 8 ∨ d = 9)%N as Hcases by lia.
  repeat (destruct Hcases as [->|Hcases]; [reflexivity|]).
  by subst d.
Qed.

Lemma decimal_value_pretty_N_go (x : N) (s : string) :
  decimal_value_from 0 (pretty_N_go x s) = decimal_value_from (Z.of_N x) s.
Proof.
  revert s. induction (N.lt_wf_0 x) as [x _ IH]; intros s.
  destruct (decide (x = 0)%N) as [->|Hx]; [by rewrite pretty_N_go_0|].
  rewrite pretty_N_go_step by lia. rewrite IH by (apply N.div_lt; lia).
  cbn [decimal_value_from].
  rewrite digit_value_pretty_N_char by (apply N.mod_lt; lia).
  f_equal. rewrite N2Z.inj_div, N2Z.inj_mod. change (Z.of_N 10) with 10%Z.
  pose proof (Z.div_mod (Z.of_N x) 10). lia.
Qed.

Lemma decimal_value_pretty (c : Z) : (0 ≤ c)%Z → decimal_value (pretty c) = c.
Proof.
  destruct c as [|x|x]; [done| |lia]. intros _.
  unfold pretty, pretty_Z, pretty, pretty_positive, pretty, pretty_N.
  rewrite decide_False by done.
  unfold decimal_value. by rewrite decimal_value_pretty_N_go.
Qed.

Lemma append_empty (s : string) : s +:+ "" = s.
Proof.
  induction s as [|c s IH]; [done|].
  change (String c (s +:+ "") = String c s). by rewrite IH.
Qed.

(** X9.  Printing a number and reading the name back gives the number:
    the workspace that [create_workspace_on_output] names after the
    number [c] has the [num] that [workspace_get] computes from that
    name. *)
Theorem parse_workspace_num_pretty (c : Z) :
  (0 ≤ c ≤ Libc.INT_MAX)%Z → parse_workspace_num (pretty c) = c.
Proof.
  intros Hc. pose proof (decimal_value_pretty c (proj1 Hc)) as Hv.
  rewrite <- (append_empty (pretty c)).
  rewrite parse_workspace_num_leading_digits; [done| |done|lia].
  destruct (decide (c = 0%Z)) as [->|Hne]; [done|].
  destruct (pretty c) as [|a s] eqn:Hp.
  { unfold decimal_value in Hv. simpl in Hv. lia. }
  unfold is_decimal. rewrite <- Hp. apply pretty_Z_digits. lia.
Qed.

Lemma parse_workspace_num_pretty_witness :
  parse_workspace_num (pretty 42%Z) = 42%Z.
Proof. apply (parse_workspace_num_pretty 42). vm_compute. by split. Defined.
(** * Sticky groups *)

Lemma first_result_spec {A B : Type} (f : A → res (option B))
    (P : A → B → Prop) (Q : A → Prop) (l : list A) :
  (∀ a, a ∈ l →
     ∃ r, f a = Ok r ∧
          match r with Some b => P a b | None => Q a end) →
  ∃ r, first_result f l = Ok r ∧
       match r with
       | Some b => ∃ a, a ∈ l ∧ P a b
       | None => ∀ a, a ∈ l → Q a
       end.
Proof.
  induction l as [|a l IH]; intros Hl.
  { exists None. split; [done|]. intros a Ha. by apply elem_of_nil in Ha. }
  cbn [first_result]. destruct (Hl a) as (r & -> & Hr); [by left|].
  cbn [bind]. destruct r as [b|].
  { exists (Some b). split; [done|]. exists a. split; [by left|done]. }
  destruct IH as (r & -> & Hr').
  { intros a' Ha'. apply Hl. by right. }
  exists r. split; [done|]. destruct r as [b|].
  - destruct Hr' as (a' & Ha' & HP). exists a'. split; [by right|done].
  - intros a' [->|Ha']%elem_of_cons; [done|by apply Hr'].
Qed.

Lemma is_sticky_source_spec (h : gmap ptr Con) (sticky_group_ : string)
    (exclude current : ptr) (c : Con) :
  h !! current = Some c →
  ∃ hit, is_sticky_source h sticky_group_ exclude current = Ok hit ∧
         (hit = true ↔ sticky_source h sticky_group_ exclude current).
Proof.
  intros Hc. unfold is_sticky_source. rewrite (deref_Some _ _ _ Hc).
  cbn [bind]. eexists. split; [reflexivity|]. unfold sticky_source.
  rewrite andb_true_iff, bool_decide_eq_true. split.
  - intros [Hne Hg]. exists c. destruct (sticky_group c) as [g|]; [|done].
    apply andb_true_iff in Hg as [Hw%bool_decide_eq_true Hg%streq_eq].
    by subst g.
  - intros (c' & Hc' & Hne & Hg & Hw). assert (c' = c) as -> by congruence.
    split; [done|]. rewrite Hg. apply andb_true_iff.
    split; [by apply bool_decide_eq_true|by apply streq_eq].
Qed.

(** X10.  [_get_sticky] finds a container of the sticky group below
    [con] exactly when there is one: the result is a descendant of [con]
    other than [exclude] that is in the group and has a window, and NULL
    is returned only if no descendant is such a container. *)
Theorem _get_sticky_spec (lv : ptr → nat) (bound : nat) (h : gmap ptr Con)
    (fuel : nat) (con : ptr) (c : Con) (sticky_group_ : string)
    (exclude : ptr) :
  wf_tree lv bound h → h !! con = Some c → lv con < fuel →
  ∃ r, _get_sticky fuel h con sticky_group_ exclude = Ok r ∧
       match r with
       | Some src =>
           descendant h con src ∧ sticky_source h sticky_group_ exclude src
       | None =>
           ∀ d, descendant h con d →
                ¬ sticky_source h sticky_group_ exclude d
       end.
Proof.
  intros Hwf. revert con c.
  induction fuel as [|fuel IH]; intros con c Hc Hlv; [lia|].
  cbn [_get_sticky]. rewrite (deref_Some _ _ _ Hc). cbn [bind].
  set (body := fun current => bind (is_sticky_source h _ _ current) _).
  set (P := fun (a src : ptr) =>
              (src = a ∨ descendant h a src)
              ∧ sticky_source h sticky_group_ exclude src).
  set (Q := fun (a : ptr) =>
              ¬ sticky_source h sticky_group_ exclude a
              ∧ ∀ d, descendant h a d →
                     ¬ sticky_source h sticky_group_ exclude d).
  assert (∀ a, a ∈ children c →
            ∃ r, body a = Ok r ∧
                 match r with Some src => P a src | None => Q a end)
    as Hbody.
  { intros a Ha.
    destruct (wf_child lv bound h Hwf con c a Hc Ha) as (ca & Hca & _ & Hlt).
    unfold body.
    destruct (is_sticky_source_spec h sticky_group_ exclude a ca Hca)
      as (hit & -> & Hhit).
    cbn [bind]. destruct hit.
    - exists (Some a). split; [done|]. split; [by left|]. by apply Hhit.
    - destruct (IH a ca Hca) as (r & -> & Hr); [lia|].
      exists r. split; [done|]. destruct r as [src|].
      + destruct Hr as [Hd Hs]. split; [by right|done].
      + split; [|done]. intros Hs. by apply Hhit in Hs. }
  assert (∀ a src, a ∈ children c → P a src → descendant h con src) as Hdesc.
  { intros a src Ha [[->|Hd] _].
    - by apply (descendant_child h con c).
    - by apply (descendant_step h con c a). }
  destruct (first_result_spec body P Q (nodes_head c)) as (r & -> & Hr).
  { intros a Ha. apply Hbody. apply elem_of_app. by left. }
  cbn [bind]. destruct r as [src|].
  { destruct Hr as (a & Ha & HP). exists (Some src). split; [done|].
    split; [|by destruct HP].
    apply (Hdesc a); [|done]. apply elem_of_app. by left. }
  destruct (first_result_spec body P Q (floating_head c)) as (r & -> & Hr').
  { intros a Ha. apply Hbody. apply elem_of_app. by right. }
  exists r. split; [done|]. destruct r as [src|].
  { destruct Hr' as (a & Ha & HP). split; [|by destruct HP].
    apply (Hdesc a); [|done]. apply elem_of_app. by right. }
  assert (∀ a, a ∈ children c → Q a) as HQ.
  { intros a [Ha|Ha]%elem_of_app; [by apply Hr|by apply Hr']. }
  intros d Hd.
  inversion Hd as [c' q Hc' Hq|c' q d' Hc' Hq Hqd]; subst;
    assert (c' = c) as -> by congruence.
  - by destruct (HQ d Hq).
  - destruct (HQ q Hq) as [_ Hbelow]. by apply Hbelow.
Qed.
Lemma _get_sticky_spec_witness :
  ∃ r, _get_sticky 6 Sticky.heap_ 5 "vid" 15 = Ok r ∧
       match r with
       | Some src =>
           descendant Sticky.heap_ 5 src ∧ sticky_source Sticky.heap_ "vid" 15 src
       | None =>
           ∀ d, descendant Sticky.heap_ 5 d →
                ¬ sticky_source Sticky.heap_ "vid" 15 d
       end.
Proof.
  apply (_get_sticky_spec Example.level1 6 Sticky.heap_ 6 5%positive
           (Example.con CT_OUTPUT (Some 1) "fake-0" [6; 7; 8] [] [7; 6; 8])%positive
           "vid" 15%positive).
  - apply (bool_decide_unpack _). vm_compute. exact I.
  - reflexivity.
  - simpl. lia.
Defined.

(** X11.  [workspace_reassign_sticky] returns on a well-formed tree, and
    it only moves windows: of every container everything but [window] and
    [mapped] stays as it is, no container is allocated or freed, the root
    and the focus stay, and the only requests are [x_move_win] and
    [x_reparent_child]. *)
Theorem workspace_reassign_sticky_frame (lv : ptr → nat) (bound budget : nat)
    (fuel : nat) (con : ptr) (t : Tree) (c : Con) :
  wf_tree lv bound (heap t) → bound ≤ budget →
  heap t !! con = Some c → lv con < fuel →
  (∃ o, con_get_output budget (heap t) con = Ok (Some o)) →
  ∃ t' es,
    workspace_reassign_sticky budget fuel con t = Ok t' ∧
    (∀ p, frame <$> heap t' !! p = frame <$> heap t !! p) ∧
    croot t' = croot t ∧ focused t' = focused t ∧
    effects t' = effects t ++ es ∧
    ∀ e, e ∈ es → ∃ a b, e = x_move_win a b ∨ e = x_reparent_child a b.
Proof.
  intros Hwf Hbound Hc Hlv Hout.
  destruct (workspace_reassign_sticky_total lv bound budget fuel con t c)
    as (t' & Ht'); try done.
  destruct (workspace_reassign_sticky_Ok _ _ _ _ _ Ht')
    as (Hpre & Hroot & Hfoc & es & Hes & Hall).
  exists t', es. repeat split; try done.
  intros e He. rewrite Forall_forall in Hall. specialize (Hall e He).
  destruct e; try done; eauto.
Qed.

Lemma workspace_reassign_sticky_frame_witness :
  ∃ t' es,
    workspace_reassign_sticky 6 6 11 Sticky.tree_ = Ok t' ∧
    (∀ p, frame <$> heap t' !! p = frame <$> heap Sticky.tree_ !! p) ∧
    croot t' = croot Sticky.tree_ ∧ focused t' = focused Sticky.tree_ ∧
    effects t' = effects Sticky.tree_ ++ es ∧
    ∀ e, e ∈ es → ∃ a b, e = x_move_win a b ∨ e = x_reparent_child a b.
Proof.
  apply (workspace_reassign_sticky_frame Example.level1 6 6 6 11%positive
           Sticky.tree_
           (Example.workspace 7 "foo" (-1) CF_NONE [15] [] [15])%positive).
  - apply (bool_decide_unpack _). vm_compute. exact I.
  - lia.
  - reflexivity.
  - simpl. lia.
  - exists 5%positive. reflexivity.
Defined.

(** In the example the window goes from workspace 1 to the placeholder
    of workspace foo. *)
Lemma workspace_reassign_sticky_example :
  ∃ t', workspace_reassign_sticky 6 6 11 Sticky.tree_ = Ok t' ∧
        (window <$> heap t' !! 15%positive) = Some (Some (mkWindow 100 false)) ∧
        (window <$> heap t' !! 12%positive) = Some None ∧
        effects t' = [x_move_win 12 15; x_reparent_child 15 12]%positive.
Proof. eexists. split; [vm_compute; reflexivity|]. by vm_compute. Qed.
(** * workspace_show and the visible workspace *)

Lemma fs_kept_refl (h : gmap ptr Con) : fs_kept h h.
Proof. intros p c Hc. by exists c. Qed.

Lemma fs_kept_trans (h1 h2 h3 : gmap ptr Con) :
  fs_kept h1 h2 → fs_kept h2 h3 → fs_kept h1 h3.
Proof.
  intros H12 H23 p c3 Hc3. destruct (H23 p c3 Hc3) as (c2 & Hc2 & Hfs).
  destruct (H12 p c2 Hc2) as (c1 & Hc1 & Hfs'). exists c1.
  split; [done|congruence].
Qed.

Lemma preserves_fs_kept {A : Type} (proj : Con → A) (h h' : gmap ptr Con) :
  (∀ c c', proj c' = proj c → fullscreen_mode c' = fullscreen_mode c) →
  preserves proj h h' → fs_kept h h'.
Proof.
  intros Hproj Hpre p c' Hc'.
  destruct (preserves_lookup proj h' h p c' (preserves_sym _ _ _ Hpre) Hc')
    as (c & Hc & Heq).
  exists c. split; [done|]. by apply Hproj.
Qed.

Lemma detach_and_free_fs_kept (con : ptr) (t t' : Tree) :
  detach_and_free con t = Ok t' → fs_kept (heap t) (heap t').
Proof.
  unfold detach_and_free. intros H.
  apply bind_Ok in H as (c & Hc%deref_Ok & H).
  apply bind_Ok in H as (t1 & Ht1 & H). apply Ok_inj in H. subst t'.
  assert (fs_kept (heap t) (heap t1)) as H1.
  { destruct (parent c) as [p|].
    - apply (preserves_fs_kept fullscreen_mode); [done|].
      by apply (preserves_update fullscreen_mode p _ t t1 Ht1).
    - apply Ok_inj in Ht1. subst t1. apply fs_kept_refl. }
  intros p c' Hc'. apply H1.
  destruct (window c); simpl in Hc'; by apply lookup_delete_Some in Hc' as [_ ?].
Qed.

Lemma workspace_show_switch_fs_kept (fuel : nat) (workspace : ptr)
    (old : option ptr) (t t' : Tree) :
  workspace_show_switch fuel workspace old t = Ok t' →
  ∃ t1 c,
    fs_kept (heap t) (heap t1) ∧ heap t1 !! workspace = Some c ∧
    heap t' = <[workspace := set_fullscreen_mode CF_OUTPUT c]> (heap t1).
Proof.
  unfold workspace_show_switch. intros H.
  apply bind_Ok in H as (ta & Hta & H).
  apply bind_Ok in H as (next & _ & H).
  apply bind_Ok in H as (tb & Htb & H).
  apply focus_next_Ok in H as (tc & td & Htc & Htd & Hheap & _).
  apply update_Ok in Htd as (c & Hc & ->).
  exists tc, c. split; [|by rewrite Hheap].
  apply (fs_kept_trans _ (heap ta)).
  { apply workspace_reassign_sticky_Ok in Hta as (Hpre & _).
    apply (preserves_fs_kept frame); [|done]. by intros c1 c2 [= _ _ _ _ _ _ _ _ _ _ ->]. }
  apply (fs_kept_trans _ (heap tb)).
  { apply close_if_empty_Ok in Htb
      as [->|(q & o & tx & -> & Ho & Hn & Hf & _ & Htx & ->)];
      [apply fs_kept_refl|].
    cbn [emit heap]. unfold tree_close in Htx.
    apply bind_Ok in Htx as (ty & Hty & Htx).
    assert (heap tx = heap ty) as ->.
    { destruct (heap ty !! focused ty).
      - apply Ok_inj in Htx. by subst tx.
      - apply bind_Ok in Htx as (n & _ & Htx). apply Ok_inj in Htx.
        by subst tx. }
    destruct fuel as [|fuel]; [done|]. cbn [tree_close_rec] in Hty.
    rewrite (deref_Some _ _ _ Ho) in Hty. cbn [bind] in Hty.
    rewrite Hn, Hf in Hty. cbn [foldM bind] in Hty.
    by apply detach_and_free_fs_kept in Hty. }
  apply con_focus_Ok in Htc as (Hpre & _).
  apply (preserves_fs_kept unfocus); [|done].
  by intros c1 c2 [= _ _ _ _ _ _ _ _ _ _ _ ->].
Qed.

(** X12.  After [workspace_show] of a workspace that is not internal, the
    workspace is the visible one of its output: it has the mode
    [CF_OUTPUT], and every other workspace in the queue of its content
    container that is still there has the mode [CF_NONE]. *)
Theorem workspace_show_visible (fuel : nat) (workspace content : ptr)
    (w w' : World) (ws cc : Con) :
  workspace_show fuel workspace w = Ok w' →
  heap (tree w) !! workspace = Some ws →
  is_internal_name (name ws) = false →
  parent ws = Some content → heap (tree w) !! content = Some cc →
  (∃ ws', heap (tree w') !! workspace = Some ws' ∧
          fullscreen_mode ws' = CF_OUTPUT)
  ∧ ∀ q cq, q ∈ nodes_head cc → q ≠ workspace →
            heap (tree w') !! q = Some cq → fullscreen_mode cq = CF_NONE.
Proof.
  unfold workspace_show. intros Hshow Hws Hint Hpar Hcc.
  apply _workspace_show_Ok in Hshow as (ws1 & Hws1 & Hcase).
  assert (ws1 = ws) as -> by congruence.
  destruct Hcase as [[Hint' _]|(_ & content1 & cc1 & old & t1 & t2 & current
                                 & Hpar1 & Hcc1 & Hloop & Ht2 & _ & Hcase)];
    [congruence|].
  assert (content1 = content) as -> by congruence.
  assert (cc1 = cc) as -> by congruence.
  apply disable_fullscreen_loop_Ok in Hloop as (_ & Hnone & _).
  apply update_Ok in Ht2 as (c2 & Hc2 & ->).
  assert (∀ q cq, q ∈ nodes_head cc → q ≠ workspace →
            heap (set_heap (<[workspace := set_fullscreen_mode CF_OUTPUT c2]>
                              (heap t1)) t1) !! q = Some cq →
            fullscreen_mode cq = CF_NONE) as Hsiblings.
  { intros q cq Hq Hne Hcq. simpl in Hcq.
    rewrite lookup_insert_ne in Hcq by done. by apply (Hnone q). }
  destruct Hcase as [[_ ->]|(_ & t3 & Ht3 & ->)]; cbn [tree].
  - split; [|done]. eexists. split; [apply lookup_insert_eq|done].
  - apply workspace_show_switch_fs_kept in Ht3 as (tc & c & Hkept & Hc & ->).
    split; [eexists; split; [apply lookup_insert_eq|done]|].
    intros q cq Hq Hne Hcq. rewrite lookup_insert_ne in Hcq by done.
    destruct (Hkept q cq Hcq) as (cq2 & Hcq2 & ->).
    by apply (Hsiblings q).
Qed.

Lemma workspace_show_visible_witness :
  ∃ w',
    workspace_show 6 10 (mkWorld Example.tree1 None) = Ok w' ∧
    (∃ ws', heap (tree w') !! 10%positive = Some ws' ∧
            fullscreen_mode ws' = CF_OUTPUT)
    ∧ ∀ q cq, q ∈ [9; 10; 11]%positive → q ≠ 10%positive →
              heap (tree w') !! q = Some cq → fullscreen_mode cq = CF_NONE.
Proof.
  assert (∃ w', workspace_show 6 10 (mkWorld Example.tree1 None) = Ok w')
    as [w' Hw'] by (by vm_compute; eexists).
  exists w'. split; [done|].
  apply (workspace_show_visible 6 10%positive 7%positive
           (mkWorld Example.tree1 None) w'
           (Example.workspace 7 "2" 2 CF_NONE [] [13] [13])%positive
           (Example.con CT_CON (Some 5) "content" [9; 10; 11] []
              [9; 10; 11])%positive); done.
Defined.

(** X13.  [workspace_show] of the workspace that has the focus already
    returns after the fullscreen modes are set: the focus, the recorded
    name of the previous workspace and every field of every container but
    the fullscreen mode stay as they are, and no request or event is
    sent. *)
Theorem workspace_show_current (fuel : nat) (workspace content : ptr)
    (w : World) (ws cc : Con) :
  heap (tree w) !! workspace = Some ws →
  is_internal_name (name ws) = false →
  parent ws = Some content → heap (tree w) !! content = Some cc →
  (∀ q, q ∈ nodes_head cc → is_Some (heap (tree w) !! q)) →
  con_get_workspace fuel (heap (tree w)) (focused (tree w))
  = Ok (Some workspace) →
  ∃ w',
    workspace_show fuel workspace w = Ok w' ∧
    previous_workspace_name w' = previous_workspace_name w ∧
    focused (tree w') = focused (tree w) ∧
    croot (tree w') = croot (tree w) ∧
    effects (tree w') = effects (tree w) ∧
    ∀ p, unfullscreen <$> heap (tree w') !! p
         = unfullscreen <$> heap (tree w) !! p.
Proof.
  intros Hws Hint Hpar Hcc Hnodes Hcurrent.
  unfold workspace_show, _workspace_show.
  rewrite (deref_Some _ _ _ Hws). cbn [bind]. rewrite Hint, Hpar.
  cbn [nonnull bind]. rewrite (deref_Some _ _ _ Hcc). cbn [bind].
  destruct (disable_fullscreen_loop_total (nodes_head cc) None (tree w) Hnodes)
    as (old & t1 & Hloop).
  rewrite Hloop. cbn [bind].
  pose proof (disable_fullscreen_loop_Ok _ _ _ _ _ Hloop) as ((Hpre1 & _) & _).
  destruct (preserves_lookup _ _ _ _ _ Hpre1 Hws) as (ws1 & Hws1 & _).
  rewrite (update_Some _ _ _ _ Hws1). cbn [bind].
  set (t2 := set_heap _ t1).
  assert (update workspace (set_fullscreen_mode CF_OUTPUT) t1 = Ok t2) as Ht2
    by (by apply update_Some).
  destruct (show_prefix_step workspace _ _ _ _ _ Hloop Ht2)
    as (Hpre & Hroot & Hfoc & es & Hes & Hall).
  apply no_effects in Hall. subst es. rewrite app_nil_r in Hes.
  assert (preserves links (heap (tree w)) (heap t2)) as Hlinks.
  { by apply (preserves_weaken unfullscreen links). }
  unfold con_get_workspace in *.
  rewrite (ancestor_of_kind_preserves _ _ _ _ _ Hlinks), Hfoc, Hcurrent.
  cbn [bind]. rewrite decide_True by done.
  eexists. split; [reflexivity|]. done.
Qed.

Lemma workspace_show_current_witness :
  ∃ w',
    workspace_show 6 9 (mkWorld Example.tree1 None) = Ok w' ∧
    previous_workspace_name w' = None ∧
    focused (tree w') = 12%positive ∧
    croot (tree w') = 1%positive ∧
    effects (tree w') = [] ∧
    ∀ p, unfullscreen <$> heap (tree w') !! p
         = unfullscreen <$> Example.heap1 !! p.
Proof.
  apply (workspace_show_current 6 9%positive 7%positive
           (mkWorld Example.tree1 None)
           (Example.workspace 7 "1" 1 CF_OUTPUT [12] [] [12])%positive
           (Example.con CT_CON (Some 5) "content" [9; 10; 11] []
              [9; 10; 11])%positive); try done.
  intros q Hq. simpl in Hq.
  repeat (apply elem_of_cons in Hq as [->|Hq]; [by eexists|]).
  by apply elem_of_nil in Hq.
Defined.

(** * Looking a workspace up after it was created *)

Lemma first_CT_CON_agree (h h' : gmap ptr Con) (l : list ptr) (r : ptr) :
  (∀ q c, h !! q = Some c → ∃ c', h' !! q = Some c' ∧ type c' = type c) →
  first_CT_CON h l = Ok r → first_CT_CON h' l = Ok r.
Proof.
  intros Hagree. induction l as [|q l IH]; [done|]. cbn [first_CT_CON].
  intros H. apply bind_Ok in H as (c & Hc%deref_Ok & H).
  destruct (Hagree q c Hc) as (c' & Hc' & Hty).
  rewrite (deref_Some _ _ _ Hc'). cbn [bind]. rewrite Hty.
  destruct (decide (type c = CT_CON)); [done|by apply IH].
Qed.

Lemma GREP_FIRST_elem (h : gmap ptr Con) (dest : option ptr) (head q : ptr)
    (condition : Con → bool) :
  GREP_FIRST h dest head condition = Ok (Some q) →
  dest = Some q ∨ ∃ hd, h !! head = Some hd ∧ q ∈ nodes_head hd.
Proof.
  unfold GREP_FIRST. intros H.
  apply bind_Ok in H as (hd & Hhd%deref_Ok & H).
  apply bind_Ok in H as (r & Hr & H). apply Ok_inj in H.
  destruct r as [child|]; [|by left]. injection H as ->.
  apply first_result_Some in Hr as (a & Ha & Hbody).
  apply bind_Ok in Hbody as (c & _ & Hbody). apply Ok_inj in Hbody.
  destruct (condition c); [|done]. injection Hbody as ->.
  right. by exists hd.
Qed.

Lemma assigned_output_elem (t : Tree) (num_ : string)
    (assignments : list Workspace_Assignment) (dest : option ptr)
    (output : ptr) :
  assigned_output t num_ assignments dest = Ok (Some output) →
  dest = Some output
  ∨ ∃ r, heap t !! croot t = Some r ∧ output ∈ nodes_head r.
Proof.
  induction assignments as [|a l IH]; cbn [assigned_output].
  - intros H. apply Ok_inj in H. by left.
  - destruct (negb _); [done|]. apply GREP_FIRST_elem.
Qed.

Section Attached.

(** The store [h'] is [h] after a workspace [ws] of the name [num_] was
    allocated and put at the end of the queue of [content]. *)
Variables (h h' : gmap ptr Con) (ws content : ptr) (wc cc cc' : Con).
Variable num_ : string.
Hypothesis Hother : ∀ p, p ≠ ws → p ≠ content → h' !! p = h !! p.
Hypothesis Hfresh : h !! ws = None.
Hypothesis Hwc : h' !! ws = Some wc.
Hypothesis Hname : name wc = num_.
Hypothesis Hcc : h !! content = Some cc.
Hypothesis Hcc' : h' !! content = Some cc'.
Hypothesis Hcc_type : type cc' = type cc.
Hypothesis Hcc_name : name cc' = name cc.
Hypothesis Hcc_nodes : nodes_head cc' = nodes_head cc ++ [ws].

Lemma attached_lookup (q : ptr) (c : Con) :
  h !! q = Some c →
  ∃ c', h' !! q = Some c' ∧ type c' = type c ∧ name c' = name c.
Proof.
  intros Hc. destruct (decide (q = content)) as [->|Hne].
  - exists cc'. assert (c = cc) as -> by congruence. done.
  - exists c. rewrite Hother; [done| |done]. intros ->. congruence.
Qed.

Lemma workspace_by_name_loop_attached (outputs : list ptr)
    (acc : option ptr) :
  (∀ output, output ∈ outputs → output_ok h output) →
  (∀ output, output ∈ outputs → output ≠ content) →
  (∀ output q c, output ∈ outputs → on_output h q output →
     h !! q = Some c → Libc.strcaseeq (name c) num_ = false) →
  ∃ r, workspace_by_name_loop h' num_ outputs acc = Ok r ∧
       (r = acc ∨ r = Some ws) ∧
       ((∃ output, output ∈ outputs ∧
                   output_get_content h output = Ok content) →
        r = Some ws).
Proof.
  revert acc. induction outputs as [|output outputs IH];
    intros acc Hok Hne Hnomatch.
  { exists acc. split; [done|]. split; [by left|].
    intros (output & Ho & _). by apply elem_of_nil in Ho. }
  destruct (Hok output) as (content_o & cc_o & Hcontent & Hcc_o & Hall);
    [by left|].
  assert (output_get_content h' output = Ok content_o) as Hcontent'.
  { unfold output_get_content in *.
    apply bind_Ok in Hcontent as (oc & Hoc%deref_Ok & Hfirst).
    rewrite (deref_Some h' output oc).
    2:{ rewrite Hother; [done| |by apply Hne; left]. intros ->. congruence. }
    cbn [bind]. apply (first_CT_CON_agree h); [|done].
    intros q c Hc. destruct (attached_lookup q c Hc) as (c' & Hc' & Hty & _).
    by exists c'. }
  assert (∀ q, q ∈ nodes_head cc_o →
            ∃ c', h' !! q = Some c' ∧ Libc.strcaseeq (name c') num_ = false)
    as Hchildren.
  { intros q Hq. destruct (Hall q Hq) as [c Hc].
    destruct (attached_lookup q c Hc) as (c' & Hc' & _ & Hn).
    exists c'. split; [done|]. rewrite Hn.
    apply (Hnomatch output q c); [by left| |done].
    by exists content_o, cc_o. }
  assert (∀ acc1,
            ∃ r, workspace_by_name_loop h' num_ outputs acc1 = Ok r ∧
                 (r = acc1 ∨ r = Some ws) ∧
                 ((∃ output, output ∈ outputs ∧
                             output_get_content h output = Ok content) →
                  r = Some ws)) as Hrest.
  { intros acc1. apply IH.
    - intros o Ho. apply Hok. by right.
    - intros o Ho. apply Hne. by right.
    - intros o q c Ho. apply Hnomatch. by right. }
  cbn [workspace_by_name_loop]. rewrite Hcontent'. cbn [bind].
  destruct (decide (content_o = content)) as [->|Hne_c].
  - assert (cc_o = cc) as -> by congruence.
    rewrite (GREP_FIRST_found h' acc content _ cc' (nodes_head cc) [] ws wc);
      try done; [|by rewrite Hname; apply strcaseeq_refl].
    cbn [bind]. destruct (Hrest (Some ws)) as (r & Hr & Hcase & _).
    exists r. split; [done|].
    assert (r = Some ws) as -> by (by destruct Hcase). by split; [right|].
  - rewrite (GREP_FIRST_none h' acc content_o _ cc_o); [|rewrite Hother| ];
      try done.
    2:{ intros ->. congruence. }
    cbn [bind]. destruct (Hrest acc) as (r & Hr & Hcase & Hfound).
    exists r. split; [done|]. split; [done|].
    intros (o & [->|Ho]%elem_of_cons & Hco); [congruence|].
    apply Hfound. by exists o.
Qed.

End Attached.
(** What a run of [workspace_get] that creates a workspace has done. *)
Lemma workspace_get_created (fuel : nat) (cfg : Config) (num_ : string)
    (t t' : Tree) (ws : ptr) :
  workspace_get fuel cfg num_ t = Ok (ws, true, t') →
  workspace_by_name t num_ = Ok None ∧
  ∃ focused_output output content cc wc,
    con_get_output fuel (heap t) (focused t) = Ok focused_output ∧
    assigned_output t num_ (ws_assignments cfg) focused_output
    = Ok (Some output) ∧
    output_get_content (heap t) output = Ok content ∧
    heap t !! ws = None ∧ heap t !! content = Some cc ∧
    name wc = num_ ∧
    heap t' = <[content := set_queues (nodes_head cc ++ [ws])
                             (floating_head cc) (focus_head cc ++ [ws]) cc]>
                (<[ws := wc]> (heap t)) ∧
    croot t' = croot t.
Proof.
  unfold workspace_get. intros H.
  apply bind_Ok in H as (workspace & Hby & H).
  destruct workspace as [workspace|]; [by apply Ok_inj in H|].
  split; [done|].
  apply bind_Ok in H as (fo & Hfo & H).
  apply bind_Ok in H as (o & Ho & H).
  apply bind_Ok in H as (output & Hnn & H).
  destruct o as [o|]; [|done]. apply Ok_inj in Hnn. subst o.
  apply bind_Ok in H as (content & Hcontent & H).
  unfold con_new in H. cbn beta iota zeta in H.
  set (p := fresh (dom (heap t))) in *.
  assert (heap t !! p = None) as Hfresh
    by (apply not_elem_of_dom, is_fresh).
  apply bind_Ok in H as (t3 & Ht3 & H).
  apply bind_Ok in H as (t4 & Ht4 & H).
  apply bind_Ok in H as (t5 & Ht5 & H).
  apply Ok_inj in H. injection H as <- <-.
  apply update_Ok in Ht3 as (c3 & Hc3 & ->).
  apply orientation_Ok in Ht4 as (l & Ht4).
  apply update_Ok in Ht4 as (c4 & Hc4 & ->).
  apply con_attach_Ok in Ht5 as (t6 & Ht6 & Ht5).
  apply update_Ok in Ht6 as (c6 & Hc6 & ->).
  apply update_Ok in Ht5 as (c7 & Hc7 & ->).
  cbn [heap set_heap emit croot focused effects] in *.
  rewrite lookup_insert_eq in Hc3, Hc4, Hc6.
  injection Hc3 as <-. injection Hc4 as <-. injection Hc6 as <-.
  rewrite !insert_insert_eq in *.
  destruct (output_get_content_Ok _ _ _ Hcontent) as (oc & cc & _ & _ & Hcc & _).
  assert (content ≠ p) as Hne by (intros ->; congruence).
  rewrite lookup_insert_ne in Hc7 by done.
  assert (c7 = cc) as -> by congruence.
  exists fo, output, content, cc. eexists.
  repeat split; try done.
Qed.

(** X14.  A workspace that [workspace_get] has created is the one that
    the next call with the same name returns: that call finds it, reports
    [created = false] and leaves the tree as it is. *)
Theorem workspace_get_again (fuel : nat) (cfg : Config) (num_ : string)
    (t t' : Tree) (ws : ptr) (r : Con) :
  outputs_ok t → heap t !! croot t = Some r → type r = CT_ROOT →
  (∀ o oc, o ∈ nodes_head r → heap t !! o = Some oc → type oc = CT_OUTPUT) →
  (∀ o, con_get_output fuel (heap t) (focused t) = Ok (Some o) →
        o ∈ nodes_head r) →
  workspace_get fuel cfg num_ t = Ok (ws, true, t') →
  workspace_get fuel cfg num_ t' = Ok (ws, false, t').
Proof.
  intros Hok Hr Hroot Houtputs Hfocused Hget.
  destruct (workspace_get_created _ _ _ _ _ _ Hget)
    as (Hby & fo & output & content & cc & wc & Hfo & Hassigned & Hcontent
        & Hfresh & Hcc & Hname & Hheap & Hcroot).
  destruct (output_get_content_Ok _ _ _ Hcontent)
    as (oc & cc0 & Hoc & _ & Hcc0 & Hcc_type).
  assert (cc0 = cc) as -> by congruence.
  assert (output ∈ nodes_head r) as Hin.
  { apply assigned_output_elem in Hassigned as [->|(r' & Hr' & Ho)].
    - by apply Hfocused.
    - by assert (r' = r) as -> by congruence. }
  assert (content ≠ ws) as Hne by (intros ->; congruence).
  assert (croot t ≠ ws) as Hroot_ws by (intros Heq; congruence).
  assert (croot t ≠ content) as Hroot_content.
  { intros Heq. rewrite Heq in Hr. congruence. }
  assert (∀ ws0 c, is_workspace_of t ws0 → heap t !! ws0 = Some c →
            Libc.strcaseeq (name c) num_ = false) as Hnomatch.
  { destruct (workspace_by_name_spec t num_ Hok)
      as (r0 & Hr0 & [[_ Hnone]|(ws0 & c0 & -> & _)]); [done|congruence]. }
  destruct Hok as (r' & Hr' & Hok). assert (r' = r) as -> by congruence.
  destruct (workspace_by_name_loop_attached (heap t) (heap t') ws content wc
              cc (set_queues (nodes_head cc ++ [ws]) (floating_head cc)
                    (focus_head cc ++ [ws]) cc)
              num_) with (outputs := nodes_head r) (acc := @None ptr)
    as (res_ & Hloop & _ & Hfound); try done.
  - intros p Hp1 Hp2. rewrite Hheap.
    by rewrite lookup_insert_ne, lookup_insert_ne by done.
  - rewrite Hheap. rewrite lookup_insert_ne by done. apply lookup_insert_eq.
  - rewrite Hheap. apply lookup_insert_eq.
  - intros o Ho ->. specialize (Houtputs content cc Ho Hcc). congruence.
  - intros o q c Ho Hq. apply Hnomatch. by exists r, o.
  - unfold workspace_get, workspace_by_name. rewrite Hcroot.
    rewrite (deref_Some (heap t') (croot t) r).
    2:{ rewrite Hheap. by rewrite lookup_insert_ne, lookup_insert_ne by done. }
    cbn [bind]. rewrite Hloop. cbn [bind].
    rewrite Hfound; [done|]. by exists output.
Qed.

Lemma workspace_get_again_witness :
  ∃ ws t',
    workspace_get 6 Example.config1 "mail" Example.tree1 = Ok (ws, true, t') ∧
    workspace_get 6 Example.config1 "mail" t' = Ok (ws, false, t').
Proof.
  assert (∃ ws t',
            workspace_get 6 Example.config1 "mail" Example.tree1
            = Ok (ws, true, t')) as (ws & t' & Hget)
    by (by vm_compute; eexists _, _).
  exists ws, t'. split; [done|].
  apply (workspace_get_again 6 Example.config1 "mail" Example.tree1 t' ws
           (Example.con CT_ROOT None "root" [2; 5] [] [5; 2])%positive);
    try done.
  - exact tree1_outputs_ok.
  - intros o oc Ho Hoc. simpl in Ho.
    apply elem_of_cons in Ho as [->|Ho];
      [|apply elem_of_cons in Ho as [->|Ho]; [|by apply elem_of_nil in Ho]];
      vm_compute in Hoc; by injection Hoc as <-.
  - intros o Ho. vm_compute in Ho. injection Ho as <-. by right; left.
Defined.
(** * The name of a workspace created for an output *)

Lemma binding_loop_unused (cfg : Config) (t : Tree) (output_name : string)
    (binds : list Binding) (st0 st : binding_state) :
  binding_loop cfg t output_name binds st0 = Ok st →
  bs_exists st0 = true → bs_exists st = false →
  workspace_by_name t (bs_name st) = Ok None.
Proof.
  revert st0. induction binds as [|b binds IH]; intros st0; cbn [binding_loop].
  { intros H Htrue Hfalse. apply Ok_inj in H. congruence. }
  destruct (_ || _); [apply IH|].
  destruct (is_workspace_command_word _); [apply IH|].
  destruct (last_char _) as [c|]; [|done].
  destruct (assigned_elsewhere _ _ _).
  { intros H Htrue. by apply (IH _ H). }
  intros H Htrue Hfalse. apply bind_Ok in H as (current & Hcurrent & H).
  destruct current as [current|].
  - by apply (IH _ H).
  - apply Ok_inj in H. by subst st.
Qed.

Lemma next_unused_number_unused (fuel : nat) (t : Tree) (c0 c : Z)
    (ws_name : string) :
  next_unused_number fuel t c0 = Ok (c, ws_name) →
  workspace_by_name t ws_name = Ok None.
Proof.
  revert c0. induction fuel as [|fuel IH]; intros c0; [done|].
  cbn [next_unused_number]. intros H.
  apply bind_Ok in H as (current & Hcurrent & H).
  destruct current as [current|]; [by apply (IH _ H)|].
  apply Ok_inj in H. by injection H as _ <-.
Qed.

(** X15.  The workspace that [create_workspace_on_output] returns is
    new, attached to the content container and visible ([CF_OUTPUT]), and
    its name, whether it comes from a binding or from the numbers, is the
    name of no workspace that exists, compared as [strcasecmp] does. *)
Theorem create_workspace_on_output_unused_name (fuel : nat) (cfg : Config)
    (output_name : string) (content ws : ptr) (t t' : Tree) :
  outputs_ok t → is_Some (heap t !! content) →
  create_workspace_on_output fuel cfg output_name content t = Ok (ws, t') →
  ∃ wc,
    heap t !! ws = None ∧ heap t' !! ws = Some wc ∧
    type wc = CT_WORKSPACE ∧ fullscreen_mode wc = CF_OUTPUT ∧
    workspace_layout wc = default_layout cfg ∧ parent wc = Some content ∧
    ∀ q c, is_workspace_of t q → heap t !! q = Some c →
           Libc.strcaseeq (name c) (name wc) = false.
Proof.
  intros Hok Hcontent. unfold create_workspace_on_output, con_new.
  set (p := fresh (dom (heap t))).
  assert (heap t !! p = None) as Hfresh by (apply not_elem_of_dom, is_fresh).
  rewrite (update_Some p _ _ default_con) by (simpl; apply lookup_insert_eq).
  cbn [bind]. cbn [heap set_heap croot focused effects].
  rewrite insert_insert_eq.
  match goal with
  | |- context [binding_loop cfg ?t0 _ _ _] => set (t1 := t0)
  end.
  assert (∀ name_, workspace_by_name t1 name_ = workspace_by_name t name_)
    as Hext.
  { intros name_.
    destruct (workspace_by_name_spec t name_ Hok) as (r & Hr & _).
    rewrite Hr. apply workspace_by_name_subseteq with t; [|done|done].
    simpl. by apply insert_subseteq. }
  intros H. apply bind_Ok in H as (st & Hst & H).
  apply bind_Ok in H as (st' & Hst' & H).
  assert (workspace_by_name t (bs_name st') = Ok None) as Hunused.
  { rewrite <- Hext. destruct (bs_exists st) eqn:Hexists.
    - apply bind_Ok in Hst' as ([c ws_name] & Hnext & Hst').
      apply Ok_inj in Hst'. subst st'. cbn [bs_name].
      by apply (next_unused_number_unused fuel t1 0 c).
    - apply Ok_inj in Hst'. subst st'.
      by apply (binding_loop_unused cfg t1 output_name (bindings cfg)
                  (mkBindingState "" 0 true)). }
  apply bind_Ok in H as (t2 & Ht2 & H).
  apply bind_Ok in H as (t3 & Ht3 & H).
  apply bind_Ok in H as (t4 & Ht4 & H).
  apply bind_Ok in H as (t5 & Ht5 & H).
  apply bind_Ok in H as (t6 & Ht6 & H).
  apply Ok_inj in H. injection H as <- <-.
  apply update_Ok in Ht2 as (c2 & Hc2 & ->).
  apply con_attach_Ok in Ht3 as (ta & Hta & Ht3).
  apply update_Ok in Hta as (ca & Hca & ->).
  apply update_Ok in Ht3 as (c3 & Hc3 & ->).
  apply update_Ok in Ht4 as (c4 & Hc4 & ->).
  apply update_Ok in Ht5 as (c5 & Hc5 & ->).
  apply orientation_Ok in Ht6 as (l & Ht6).
  apply update_Ok in Ht6 as (c6 & Hc6 & ->).
  cbn [heap set_heap emit croot focused effects t1] in *.
  rewrite lookup_insert_eq in Hc2, Hca. injection Hc2 as <-.
  injection Hca as <-. rewrite !insert_insert_eq in *.
  assert (content ≠ p) as Hne by (intros ->; destruct Hcontent; congruence).
  rewrite lookup_insert_ne in Hc3 by done.
  rewrite lookup_insert_ne, lookup_insert_eq in Hc4 by done.
  injection Hc4 as <-.
  rewrite lookup_insert_eq in Hc5. injection Hc5 as <-.
  rewrite lookup_insert_eq in Hc6. injection Hc6 as <-.
  eexists. split; [done|]. split; [apply lookup_insert_eq|].
  repeat split. cbn [name set_layout set_fullscreen_mode set_parent].
  destruct (workspace_by_name_spec t (bs_name st') Hok)
    as (r0 & Hr0 & [[_ Hnone]|(ws0 & c0 & -> & _)]); [done|congruence].
Qed.
Lemma create_workspace_on_output_unused_name_witness :
  ∃ ws t' wc,
    create_workspace_on_output 16 config_bindings "fake-0" 7 Example.tree1
    = Ok (ws, t') ∧
    heap Example.tree1 !! ws = None ∧ heap t' !! ws = Some wc ∧
    type wc = CT_WORKSPACE ∧ fullscreen_mode wc = CF_OUTPUT ∧
    workspace_layout wc = default_layout config_bindings ∧
    parent wc = Some 7%positive ∧
    ∀ q c, is_workspace_of Example.tree1 q → heap Example.tree1 !! q = Some c →
           Libc.strcaseeq (name c) (name wc) = false.
Proof.
  assert (∃ ws t',
            create_workspace_on_output 16 config_bindings "fake-0" 7
              Example.tree1 = Ok (ws, t')) as (ws & t' & Hcreate)
    by (by vm_compute; eexists _, _).
  exists ws, t'.
  destruct (create_workspace_on_output_unused_name 16 config_bindings "fake-0"
              7%positive ws Example.tree1 t' tree1_outputs_ok)
    as (wc & H); [by eexists|done|].
  exists wc. by split.
Defined.

(** In the example the name comes from the third binding, without its
    quotes. *)
Lemma create_workspace_on_output_example :
  ∃ ws t',
    create_workspace_on_output 16 config_bindings "fake-0" 7 Example.tree1
    = Ok (ws, t') ∧
    (name <$> heap t' !! ws) = Some "mail" ∧
    (num <$> heap t' !! ws) = Some (-1)%Z.
Proof. eexists _, _. split; [vm_compute; reflexivity|]. by vm_compute. Qed.

(** * i3bar: the workspace buttons *)

Lemma int32_small (v : Z) : (- 2 ^ 31 ≤ v < 2 ^ 31)%Z → I3bar.int32 v = v.
Proof.
  intros Hv. unfold I3bar.int32.
  rewrite Z.mod_small by lia. lia.
Qed.

Lemma int16_small (v : Z) : (- 2 ^ 15 ≤ v < 2 ^ 15)%Z → I3bar.int16 v = v.
Proof.
  intros Hv. unfold I3bar.int16.
  rewrite Z.mod_small by lia. lia.
Qed.

Lemma uint16_small (v : Z) : (0 ≤ v < 2 ^ 16)%Z → I3bar.uint16 v = v.
Proof. intros Hv. unfold I3bar.uint16. by rewrite Z.mod_small by lia. Qed.

Lemma button_offset_nonneg (wss : list I3bar.i3_ws) (k : nat) :
  (∀ ws, ws ∈ wss → (0 ≤ I3bar.name_width ws)%Z) →
  (0 ≤ button_offset wss k)%Z.
Proof.
  revert k. induction wss as [|ws wss IH]; intros k Hwss.
  { by destruct k. }
  destruct k as [|k]; [done|]. cbn [button_offset].
  pose proof (Hwss ws (list_elem_of_here _ _)).
  pose proof (IH k (fun ws' H' => Hwss ws' (list_elem_of_further _ _ _ H'))).
  lia.
Qed.

Lemma button_offset_mono (wss : list I3bar.i3_ws) (k : nat) :
  (∀ ws, ws ∈ wss → (0 ≤ I3bar.name_width ws)%Z) →
  (button_offset wss k ≤ button_offset wss (length wss))%Z.
Proof.
  revert k. induction wss as [|ws wss IH]; intros k Hwss.
  { by destruct k. }
  pose proof (Hwss ws (list_elem_of_here _ _)).
  assert (∀ ws', ws' ∈ wss → (0 ≤ I3bar.name_width ws')%Z) as Hwss'
    by (intros ws' H'; apply Hwss; by right).
  destruct k as [|k]; cbn [button_offset length].
  - pose proof (button_offset_nonneg wss (length wss) Hwss'). lia.
  - pose proof (IH k Hwss'). lia.
Qed.

Lemma button_offset_S (wss : list I3bar.i3_ws) (k : nat) (ws : I3bar.i3_ws) :
  wss !! k = Some ws →
  button_offset wss (S k)
  = (button_offset wss k + (I3bar.name_width ws + 10))%Z.
Proof.
  revert k. induction wss as [|ws0 wss IH]; intros k Hws; [done|].
  destruct k as [|k].
  - injection Hws as ->. cbn [button_offset].
    assert (button_offset wss 0 = 0%Z) as -> by (by destruct wss). lia.
  - cbn [lookup list_lookup] in Hws. specialize (IH k Hws).
    cbn [button_offset] in *. lia.
Qed.

Lemma buttons_fit_tail (ws : I3bar.i3_ws) (wss : list I3bar.i3_ws) :
  buttons_fit (ws :: wss) →
  (0 ≤ I3bar.name_width ws)%Z ∧ buttons_fit wss ∧
  (I3bar.name_width ws + 10 + button_offset wss (length wss) < 2 ^ 15)%Z.
Proof.
  intros [Hwidths Hfit]. cbn [button_offset length] in Hfit.
  pose proof (Hwidths ws (list_elem_of_here _ _)) as Hws.
  assert (∀ ws', ws' ∈ wss → (0 ≤ I3bar.name_width ws')%Z) as Hwss'
    by (intros ws' H'; apply Hwidths; by right).
  pose proof (button_offset_nonneg wss (length wss) Hwss').
  repeat split; try done. lia.
Qed.

(** The button under the pointer: the workspace at position [k] is
    clicked when the pointer is between its offset and the next one; a
    pointer to the left of the bar clicks the first button. *)
Lemma clicked_ws_between (wss : list I3bar.i3_ws) (k : nat) (x_ : Z) :
  buttons_fit wss → k < length wss →
  (- 2 ^ 15 ≤ x_)%Z →
  (k = 0%nat ∨ (button_offset wss k ≤ x_)%Z) →
  (x_ < button_offset wss (S k))%Z →
  I3bar.clicked_ws wss x_ = Some k.
Proof.
  revert k x_. induction wss as [|ws wss IH]; intros k x_ Hfit Hk Hmin Hlo Hhi.
  { simpl in Hk. lia. }
  destruct (buttons_fit_tail ws wss Hfit) as (Hws & Hfit' & Hsum).
  destruct Hfit' as [Hwidths' Hfit'']. 
  pose proof (button_offset_nonneg wss (length wss) Hwidths') as Hnn.
  cbn [I3bar.clicked_ws]. rewrite int32_small by lia.
  destruct k as [|k].
  - cbn [button_offset] in Hhi.
    assert (button_offset wss 0 = 0%Z) as H0 by (by destruct wss).
    rewrite H0 in Hhi.
    by rewrite (proj2 (Z.ltb_lt _ _)) by lia.
  - destruct Hlo as [|Hlo]; [done|]. cbn [button_offset] in Hlo, Hhi.
    pose proof (button_offset_nonneg wss k Hwidths').
    pose proof (button_offset_mono wss (S k) Hwidths').
    rewrite (proj2 (Z.ltb_ge _ _)) by lia.
    rewrite int32_small by lia.
    rewrite (IH k (x_ - (I3bar.name_width ws + 10))%Z); try done.
    + simpl in Hk. lia.
    + lia.
    + right. lia.
    + lia.
Qed.

Lemma clicked_ws_beyond (wss : list I3bar.i3_ws) (x_ : Z) :
  buttons_fit wss → (x_ < 2 ^ 15)%Z →
  (button_offset wss (length wss) ≤ x_)%Z →
  I3bar.clicked_ws wss x_ = None.
Proof.
  revert x_. induction wss as [|ws wss IH]; intros x_ Hfit Hmax Hx; [done|].
  destruct (buttons_fit_tail ws wss Hfit) as (Hws & Hfit' & Hsum).
  pose proof (button_offset_nonneg wss (length wss) (proj1 Hfit')) as Hnn.
  cbn [I3bar.clicked_ws button_offset length] in *.
  rewrite int32_small by lia.
  rewrite (proj2 (Z.ltb_ge _ _)) by lia.
  rewrite int32_small by lia. rewrite IH; [done|done|lia|lia].
Qed.

Lemma button_rectangles_lookup (font_height i : Z) (wss : list I3bar.i3_ws)
    (k : nat) (r : I3bar.xcb_rectangle_t) :
  buttons_fit wss → (0 ≤ i)%Z →
  (i + button_offset wss (length wss) < 2 ^ 15)%Z →
  I3bar.button_rectangles font_height i wss !! k = Some r →
  ∃ ws, wss !! k = Some ws ∧
        I3bar.x r = (i + button_offset wss k + 1)%Z ∧
        I3bar.width r = (I3bar.name_width ws + 8)%Z.
Proof.
  revert i k. induction wss as [|ws wss IH]; intros i k Hfit Hi Hsum Hr;
    [done|].
  destruct (buttons_fit_tail ws wss Hfit) as (Hws & Hfit' & _).
  pose proof (button_offset_nonneg wss (length wss) (proj1 Hfit')) as Hnn.
  cbn [I3bar.button_rectangles button_offset length] in *.
  destruct k as [|k].
  - injection Hr as <-. exists ws. split; [done|]. cbn [I3bar.x I3bar.width].
    rewrite int32_small, int16_small by lia.
    rewrite int32_small, uint16_small by lia.
    split; [|done]. destruct wss; simpl; lia.
  - cbn [lookup list_lookup] in Hr.
    rewrite (int32_small (10 + _)) in Hr by lia.
    rewrite int32_small in Hr by lia.
    destruct (IH (i + (10 + I3bar.name_width ws))%Z k Hfit') as
      (ws' & Hws' & Hx & Hw); [lia|lia|done|].
    exists ws'. split; [done|]. split; [|done]. rewrite Hx. lia.
Qed.

(** X16.  The buttons are where the clicks are looked for: a click
    with the first mouse button on a pixel of the rectangle that
    [draw_bars] fills for a workspace selects that workspace. *)
Theorem clicked_ws_button (font_height : Z) (wss : list I3bar.i3_ws)
    (cur_ws k : nat) (r : I3bar.xcb_rectangle_t) (x_ : Z) :
  buttons_fit wss →
  I3bar.button_rectangles font_height 0 wss !! k = Some r →
  (I3bar.x r ≤ x_ < I3bar.x r + I3bar.width r)%Z →
  I3bar.select_ws wss cur_ws 1 x_ = Some k.
Proof.
  intros Hfit Hr Hx.
  destruct (button_rectangles_lookup font_height 0 wss k r Hfit) as
    (ws & Hws & Hrx & Hrw); [done|by destruct Hfit|done|].
  pose proof (button_offset_nonneg wss k (proj1 Hfit)) as Hnn.
  unfold I3bar.select_ws. cbn [Z.eqb Pos.eqb].
  apply clicked_ws_between; try done.
  - by apply lookup_lt_Some in Hws.
  - lia.
  - right. lia.
  - rewrite (button_offset_S wss k ws Hws). lia.
Qed.
Lemma bar_workspaces_fit : buttons_fit bar_workspaces.
Proof.
  split; [|by vm_compute]. intros ws Hws. unfold bar_workspaces in Hws.
  repeat (apply elem_of_cons in Hws as [->|Hws]; [by vm_compute|]).
  by apply elem_of_nil in Hws.
Qed.

Lemma clicked_ws_button_witness :
  I3bar.select_ws bar_workspaces 1 1 40 = Some 2.
Proof.
  apply (clicked_ws_button 14 bar_workspaces 1 2
           (I3bar.mk_rectangle 33 1 32 18) 40).
  - exact bar_workspaces_fit.
  - reflexivity.
  - simpl. lia.
Defined.



Lemma visible_ws_lt (wss : list I3bar.i3_ws) (cur_ws : nat) :
  I3bar.visible_ws wss = Some cur_ws → cur_ws < length wss.
Proof.
  revert cur_ws. induction wss as [|ws wss IH]; intros cur_ws; [done|].
  cbn [I3bar.visible_ws length]. destruct (I3bar.visible ws).
  - intros [= <-]. lia.
  - destruct (I3bar.visible_ws wss) as [k|]; [|done]. intros [= <-].
    specialize (IH k eq_refl). lia.
Qed.

Lemma clicked_ws_lt (wss : list I3bar.i3_ws) (x_ : Z) (k : nat) :
  I3bar.clicked_ws wss x_ = Some k → k < length wss.
Proof.
  revert x_ k. induction wss as [|ws wss IH]; intros x_ k; [done|].
  cbn [I3bar.clicked_ws length]. destruct (_ <? _)%Z.
  - intros [= <-]. lia.
  - destruct (I3bar.clicked_ws wss _) as [k'|] eqn:Hk'; [|done].
    intros [= <-]. specialize (IH _ k' Hk'). lia.
Qed.

Lemma button_position (wss : list I3bar.i3_ws) (x_ : Z) (n : nat) :
  0 < n → (x_ < button_offset wss n)%Z →
  ∃ k, k < n ∧ (k = 0%nat ∨ (button_offset wss k ≤ x_)%Z) ∧
       (x_ < button_offset wss (S k))%Z.
Proof.
  induction n as [|n IH]; [lia|]. intros _ Hx.
  destruct n as [|n].
  { exists 0%nat. split; [lia|]. split; [by left|done]. }
  destruct (Z.lt_ge_cases x_ (button_offset wss (S n))) as [Hn|Hn].
  - destruct IH as (k & Hk & H); [lia|done|]. exists k. split; [lia|done].
  - exists (S n). split; [lia|]. split; [by right|done].
Qed.

(** X18.  When the bar of an output with a visible workspace is
    clicked, [handle_button] sends a [workspace] command, for every
    button and every position, with one exception: the first mouse button
    on a pixel to the right of the last workspace button sends nothing. *)
Theorem handle_button_sends (outputs : list I3bar.i3_output)
    (walk : I3bar.i3_output) (cur_ws : nat) (event detail event_x : Z) :
  I3bar.clicked_bar outputs event = Some walk →
  I3bar.visible_ws (I3bar.workspaces walk) = Some cur_ws →
  buttons_fit (I3bar.workspaces walk) →
  (- 2 ^ 15 ≤ event_x < 2 ^ 15)%Z →
  I3bar.handle_button outputs event detail event_x = None ↔
  detail = 1%Z ∧
  (button_offset (I3bar.workspaces walk) (length (I3bar.workspaces walk))
   ≤ event_x)%Z.
Proof.
  intros Hwalk Hcur Hfit Hx. unfold I3bar.handle_button.
  rewrite Hwalk. cbn [mbind option_bind]. rewrite Hcur.
  cbn [mbind option_bind]. rewrite int32_small by lia.
  set (wss := I3bar.workspaces walk) in *.
  pose proof (visible_ws_lt wss cur_ws Hcur) as Hlt.
  assert (∀ k, k < length wss →
            (wss !! k ≫= fun ws => Some (I3bar.workspace_command (I3bar.name ws)))
            ≠ None) as Hsent.
  { intros k Hk. destruct (lookup_lt_is_Some_2 wss k Hk) as [ws ->]. done. }
  unfold I3bar.select_ws.
  destruct (detail =? 1)%Z eqn:H1.
  - apply Z.eqb_eq in H1. subst detail.
    destruct (Z.lt_ge_cases event_x (button_offset wss (length wss)))
      as [Hin|Hout].
    + split; [|lia]. intros Hnone. exfalso.
      destruct (I3bar.clicked_ws wss event_x) as [k|] eqn:Hk.
      * apply (Hsent k); [by apply (clicked_ws_lt wss event_x)|done].
      * clear Hnone. revert Hk.
        destruct (button_position wss event_x (length wss))
          as (k & Hk & Hlo & Hhi); [lia|done|].
        by rewrite (clicked_ws_between wss k event_x) by (done || lia).
    + split; [done|]. intros _.
      by rewrite (clicked_ws_beyond wss event_x) by (done || lia).
  - apply Z.eqb_neq in H1. split; [|by intros [? _]].
    intros Hnone. exfalso. revert Hnone.
    destruct (detail =? 4)%Z; [|destruct (detail =? 5)%Z];
      cbn [mbind option_bind]; apply Hsent; [| |done].
    + destruct (cur_ws =? 0); lia.
    + destruct (cur_ws =? length wss - 1) eqn:Hl; [lia|].
      apply Nat.eqb_neq in Hl. lia.
Qed.

Lemma handle_button_sends_witness :
  I3bar.handle_button bar_outputs 77 1 200 = None ↔
  1%Z = 1%Z ∧
  (button_offset bar_workspaces (length bar_workspaces) ≤ 200)%Z.
Proof.
  apply (handle_button_sends bar_outputs (I3bar.mk_output 77 true bar_workspaces)
           1 77 1 200).
  - reflexivity.
  - reflexivity.
  - exact bar_workspaces_fit.
  - lia.
Defined.

(** In the example a click on the third button changes to the workspace
    mail, and the wheel goes from workspace 2 to 1 and to mail. *)
Lemma handle_button_example :
  I3bar.handle_button bar_outputs 77 1 40
  = Some (I3bar.workspace_command "mail")
  ∧ I3bar.handle_button bar_outputs 77 4 0
    = Some (I3bar.workspace_command "1")
  ∧ I3bar.handle_button bar_outputs 77 5 0
    = Some (I3bar.workspace_command "mail")
  ∧ I3bar.handle_button bar_outputs 78 1 40 = None.
Proof. by vm_compute. Qed.
(** * i3bar: the width of a text *)

Lemma uint32_range (v : Z) : (0 ≤ I3bar.uint32 v < 2 ^ 32)%Z.
Proof. unfold I3bar.uint32. apply Z.mod_pos_bound. lia. Qed.

Lemma uint32_small (v : Z) : (0 ≤ v < 2 ^ 32)%Z → I3bar.uint32 v = v.
Proof. intros Hv. unfold I3bar.uint32. by rewrite Z.mod_small by lia. Qed.

Lemma uint32_add_l (a b : Z) :
  I3bar.uint32 (I3bar.uint32 a + b) = I3bar.uint32 (a + b).
Proof. unfold I3bar.uint32. by rewrite Zplus_mod_idemp_l. Qed.

Lemma uint32_add_r (a b : Z) :
  I3bar.uint32 (a + I3bar.uint32 b) = I3bar.uint32 (a + b).
Proof. unfold I3bar.uint32. by rewrite Zplus_mod_idemp_r. Qed.

Lemma add_glyph_width_spec (font_info : I3bar.xcb_query_font_reply_t)
    (font_table : list I3bar.xcb_charinfo_t) (glyph : I3bar.xcb_char2b_t)
    (width_ : Z) :
  (0 ≤ width_ < 2 ^ 32)%Z →
  I3bar.add_glyph_width font_info font_table glyph width_
  = (fun c => I3bar.uint32 (width_ + c)) <$>
      glyph_width font_info font_table glyph.
Proof.
  intros Hw. unfold I3bar.add_glyph_width, glyph_width.
  destruct (_ || _).
  { cbn [fmap option_fmap option_map]. by rewrite Z.add_0_r, uint32_small. }
  destruct (font_table !! _) as [info|]; [|done].
  cbn [mbind option_bind fmap option_fmap option_map].
  destruct (I3bar.character_width info =? 0)%Z eqn:Hcw; cbn [negb orb].
  - apply Z.eqb_eq in Hcw. rewrite Hcw, Z.add_0_r, uint32_small by done.
    by destruct (negb _).
  - done.
Qed.

Lemma sum_glyph_widths_spec (font_info : I3bar.xcb_query_font_reply_t)
    (font_table : list I3bar.xcb_charinfo_t)
    (text : list I3bar.xcb_char2b_t) (width_ : Z) :
  (0 ≤ width_ < 2 ^ 32)%Z →
  I3bar.sum_glyph_widths font_info font_table text width_
  = (fun s => I3bar.uint32 (width_ + s)) <$>
      text_width font_info font_table text.
Proof.
  revert width_. induction text as [|glyph text IH]; intros width_ Hw.
  { cbn. by rewrite Z.add_0_r, uint32_small. }
  cbn [I3bar.sum_glyph_widths text_width].
  rewrite add_glyph_width_spec by done.
  destruct (glyph_width font_info font_table glyph) as [c|]; [|done].
  cbn [fmap option_fmap option_map mbind option_bind].
  rewrite IH by apply uint32_range.
  destruct (text_width font_info font_table text) as [s|]; [|done].
  cbn [fmap option_fmap option_map mbind option_bind].
  by rewrite uint32_add_l, Z.add_assoc.
Qed.

(** X19.  With a font table, [predict_text_extents] is the sum of the
    character widths of the glyphs that are in the ranges of the font,
    reduced to 32 bits: the test of the bearings, the ascent and the
    descent has no effect on the result. *)
Theorem predict_text_extents_sum (font_info : I3bar.xcb_query_font_reply_t)
    (font_table : list I3bar.xcb_charinfo_t)
    (text : list I3bar.xcb_char2b_t) :
  I3bar.predict_text_extents font_info (Some font_table) text
  = I3bar.uint32 <$> text_width font_info font_table text.
Proof.
  unfold I3bar.predict_text_extents.
  rewrite sum_glyph_widths_spec by lia.
  by destruct (text_width font_info font_table text).
Qed.

Lemma text_width_app (font_info : I3bar.xcb_query_font_reply_t)
    (font_table : list I3bar.xcb_charinfo_t)
    (a b : list I3bar.xcb_char2b_t) :
  text_width font_info font_table (a ++ b)
  = (wa ← text_width font_info font_table a;
     wb ← text_width font_info font_table b;
     Some (wa + wb)%Z).
Proof.
  induction a as [|glyph a IH].
  { cbn. by destruct (text_width font_info font_table b). }
  cbn [app text_width]. rewrite IH.
  destruct (glyph_width font_info font_table glyph) as [c|]; [|done].
  destruct (text_width font_info font_table a) as [wa|]; [|done].
  destruct (text_width font_info font_table b) as [wb|]; [|done].
  cbn. by rewrite Z.add_assoc.
Qed.

(** X20.  The width of a text is the sum of the widths of its parts,
    reduced to 32 bits; this is what lets [draw_text] place the chunks of
    a long text one after the other. *)
Theorem predict_text_extents_app (font_info : I3bar.xcb_query_font_reply_t)
    (font_table : option (list I3bar.xcb_charinfo_t))
    (a b : list I3bar.xcb_char2b_t) :
  I3bar.predict_text_extents font_info font_table (a ++ b)
  = (wa ← I3bar.predict_text_extents font_info font_table a;
     wb ← I3bar.predict_text_extents font_info font_table b;
     Some (I3bar.uint32 (wa + wb))).
Proof.
  destruct font_table as [font_table|].
  - rewrite !predict_text_extents_sum, text_width_app.
    destruct (text_width font_info font_table a) as [wa|]; [|done].
    destruct (text_width font_info font_table b) as [wb|]; [|done].
    cbn. by rewrite uint32_add_l, uint32_add_r.
  - unfold I3bar.predict_text_extents. cbn [mbind option_bind].
    rewrite uint32_add_l, uint32_add_r. do 2 f_equal.
    rewrite length_app, Nat2Z.inj_add. lia.
Qed.
(** * i3bar: drawing a text in chunks *)

Lemma int16_congr (a b : Z) :
  ((a - b) mod 2 ^ 16 = 0)%Z → I3bar.int16 a = I3bar.int16 b.
Proof.
  intros Hab. unfold I3bar.int16.
  replace ((a + 2 ^ 15) mod 2 ^ 16)%Z with ((b + 2 ^ 15) mod 2 ^ 16)%Z;
    [done|].
  apply Z.mod_divide in Hab; [|lia]. destruct Hab as [k Hk].
  replace (a + 2 ^ 15)%Z with (b + 2 ^ 15 + k * 2 ^ 16)%Z by lia.
  by rewrite Z_mod_plus_full.
Qed.

Lemma int16_chunks (x_ wa wb : Z) :
  I3bar.int16 (I3bar.int16 (x_ + wa) + wb)
  = I3bar.int16 (x_ + I3bar.uint32 (wa + wb)).
Proof.
  apply int16_congr. unfold I3bar.int16, I3bar.uint32.
  rewrite (Z.mod_eq (x_ + wa + 2 ^ 15) (2 ^ 16)) by lia.
  rewrite (Z.mod_eq (wa + wb) (2 ^ 32)) by lia.
  apply Z.mod_divide; [lia|].
  exists (2 ^ 16 * ((wa + wb) / 2 ^ 32) - (x_ + wa + 2 ^ 15) / 2 ^ 16)%Z.
  lia.
Qed.

Lemma predict_text_extents_defined
    (font_info : I3bar.xcb_query_font_reply_t)
    (font_table : option (list I3bar.xcb_charinfo_t))
    (text : list I3bar.xcb_char2b_t) :
  glyphs_in_table font_info font_table text →
  is_Some (I3bar.predict_text_extents font_info font_table text).
Proof.
  destruct font_table as [font_table|]; [|by eexists].
  intros Hin. rewrite predict_text_extents_sum.
  apply fmap_is_Some. cbn in Hin.
  induction text as [|glyph text IH]; [by eexists|].
  cbn [text_width].
  destruct (Hin glyph) as [c ->]; [by left|].
  destruct IH as [s ->]; [intros g Hg; apply Hin; by right|].
  by eexists.
Qed.

Lemma glyphs_in_table_sub (font_info : I3bar.xcb_query_font_reply_t)
    (font_table : option (list I3bar.xcb_charinfo_t))
    (text text' : list I3bar.xcb_char2b_t) :
  glyphs_in_table font_info font_table text →
  text' ⊆ text →
  glyphs_in_table font_info font_table text'.
Proof.
  destruct font_table as [font_table|]; [|done].
  intros Hin Hsub g Hg. apply Hin, Hsub, Hg.
Qed.

(** X21.  For a text of at most [255 * fuel] glyphs that the font table
    covers, and a start [x_] that is an [int16_t], [draw_text] sends
    requests of 1 to 255 glyphs each which together are the text, in
    order, all on the line [y_ + font_ascent]; each request starts at
    [x_] plus the predicted width of the glyphs before it, as an
    [int16_t]. *)
Theorem draw_text_chunks (fuel : nat)
    (font_info : I3bar.xcb_query_font_reply_t)
    (font_table : option (list I3bar.xcb_charinfo_t)) (x_ y_ : Z)
    (text : list I3bar.xcb_char2b_t) :
  length text ≤ 255 * fuel →
  glyphs_in_table font_info font_table text →
  (- 2 ^ 15 ≤ x_ < 2 ^ 15)%Z →
  ∃ requests,
    I3bar.draw_text fuel font_info font_table x_ y_ text = Some requests
    ∧ concat (I3bar.glyphs <$> requests) = text
    ∧ Forall (fun r =>
        1 ≤ length (I3bar.glyphs r) ≤ 255
        ∧ I3bar.string_len r = Z.of_nat (length (I3bar.glyphs r))
        ∧ I3bar.text_y r = I3bar.int16 (y_ + I3bar.font_ascent font_info))
        requests
    ∧ ∀ before r after w,
        requests = before ++ r :: after →
        I3bar.predict_text_extents font_info font_table
          (concat (I3bar.glyphs <$> before)) = Some w →
        I3bar.text_x r = I3bar.int16 (x_ + w).
Proof.
  revert x_ text. induction fuel as [|fuel IH]; intros x_ text Hlen Hin Hx.
  { destruct text; [|cbn in Hlen; lia].
    exists []. repeat split; [constructor|].
    intros before r after w Heq. by destruct before. }
  destruct text as [|g text].
  { exists []. repeat split; [constructor|].
    intros before r after w Heq. by destruct before. }
  cbn [I3bar.draw_text].
  set (full := g :: text) in *.
  set (n := Z.to_nat (I3bar.uint8 (Z.min 255 (Z.of_nat (length full))))).
  assert (Hn : n = Nat.min 255 (length full)).
  { unfold n, I3bar.uint8. rewrite Z.mod_small by lia. lia. }
  assert (Hpos : 1 ≤ n) by (rewrite Hn; cbn [full length]; lia).
  assert (Hsize : I3bar.uint8 (Z.min 255 (Z.of_nat (length full)))
                  = Z.of_nat n).
  { unfold n. rewrite Z2Nat.id; [done|]. unfold I3bar.uint8.
    apply Z.mod_pos_bound. lia. }
  destruct (predict_text_extents_defined font_info font_table (take n full))
    as [cw Hcw].
  { eapply glyphs_in_table_sub; [exact Hin|]. apply subseteq_take. }
  rewrite Hcw. cbn [mbind option_bind].
  destruct (IH (I3bar.int16 (x_ + cw)) (drop n full))
    as (rest & Hrest & Hcat & Hall & Hpos_x).
  { rewrite length_drop. lia. }
  { eapply glyphs_in_table_sub; [exact Hin|]. apply subseteq_drop. }
  { unfold I3bar.int16.
    pose proof (Z.mod_pos_bound (x_ + cw + 2 ^ 15) (2 ^ 16)). lia. }
  rewrite Hrest. cbn [mbind option_bind].
  eexists. split; [reflexivity|].
  split; [|split].
  - cbn [fmap list_fmap concat I3bar.glyphs].
    change (list_fmap _ _ I3bar.glyphs rest) with (I3bar.glyphs <$> rest).
    rewrite Hcat. apply take_drop.
  - constructor; [|exact Hall].
    cbn [I3bar.glyphs I3bar.string_len I3bar.text_y].
    rewrite length_take. repeat split; lia.
  - intros before r after w Heq Hw.
    destruct before as [|r0 before].
    + injection Heq as <- _. cbn [I3bar.text_x].
      assert (w = 0%Z) as ->.
      { destruct font_table; cbn in Hw; [congruence|].
        rewrite Z.mul_0_r in Hw. by injection Hw as <-. }
      by rewrite Z.add_0_r, int16_small.
    + injection Heq as <- Heq.
      cbn [fmap list_fmap concat I3bar.glyphs] in Hw.
      change (list_fmap _ _ I3bar.glyphs before)
        with (I3bar.glyphs <$> before) in Hw.
      rewrite predict_text_extents_app, Hcw in Hw.
      cbn [mbind option_bind] in Hw.
      destruct (I3bar.predict_text_extents font_info font_table
                  (concat (I3bar.glyphs <$> before))) as [wb|] eqn:Hwb;
        [|done].
      injection Hw as <-.
      rewrite (Hpos_x before r after wb Heq Hwb).
      apply int16_chunks.
Qed.
Lemma draw_text_chunks_witness :
  ∃ requests,
    I3bar.draw_text 2 letters_font (Some letters_table) 10 3 long_text
    = Some requests
    ∧ concat (I3bar.glyphs <$> requests) = long_text
    ∧ Forall (fun r =>
        1 ≤ length (I3bar.glyphs r) ≤ 255
        ∧ I3bar.string_len r = Z.of_nat (length (I3bar.glyphs r))
        ∧ I3bar.text_y r = I3bar.int16 (3 + I3bar.font_ascent letters_font))
        requests
    ∧ ∀ before r after w,
        requests = before ++ r :: after →
        I3bar.predict_text_extents letters_font (Some letters_table)
          (concat (I3bar.glyphs <$> before)) = Some w →
        I3bar.text_x r = I3bar.int16 (10 + w).
Proof.
  apply (draw_text_chunks 2 letters_font (Some letters_table) 10 3 long_text).
  - vm_compute. lia.
  - intros glyph Hglyph. apply elem_of_replicate in Hglyph as [-> _].
    by eexists.
  - lia.
Defined.

(** * i3bar: the blocks of the status line *)

Lemma yajl_parse_app (a b : list I3bar.yajl_event) (s : I3bar.parser_state) :
  I3bar.yajl_parse (a ++ b) s
  = (s' ← I3bar.yajl_parse a s; I3bar.yajl_parse b s').
Proof.
  revert s. induction a as [|e a IH]; intros s; [done|].
  cbn [app I3bar.yajl_parse].
  destruct (I3bar.callback e s) as [s1|]; [|done].
  cbn [mbind option_bind]. apply IH.
Qed.

Lemma yajl_parse_pairs (kvs : json_map) (key : option string)
    (b : I3bar.status_block) (sl : list I3bar.status_block) :
  ∃ key',
    I3bar.yajl_parse
      (kvs ≫= fun '(key, val) =>
         [I3bar.yajl_map_key key; I3bar.yajl_string val])
      (I3bar.mk_state (I3bar.mk_ctx key b) sl)
    = Some (I3bar.mk_state (I3bar.mk_ctx key' (read_into b kvs)) sl).
Proof.
  revert key b. induction kvs as [|[k v] kvs IH]; intros key b.
  { exists key. by destruct b. }
  rewrite bind_cons. cbn [app I3bar.yajl_parse I3bar.callback].
  cbn [mbind option_bind I3bar.stdin_map_key I3bar.stdin_string
       I3bar.parser_context I3bar.last_map_key I3bar.block
       I3bar.statusline_head].
  match goal with
  | |- context [I3bar.mk_ctx (Some k) ?b1] =>
      destruct (IH (Some k) b1) as [key' Hkey']
  end.
  exists key'. rewrite Hkey'. do 3 f_equal.
  unfold read_into. cbn [last_value].
  destruct (last_value "full_text" kvs), (last_value "color" kvs),
    (Libc.strcaseeq k "full_text"), (Libc.strcaseeq k "color"); done.
Qed.

Lemma yajl_parse_map (kvs : json_map) (s : I3bar.parser_state) :
  ∃ ctx,
    I3bar.yajl_parse (events_of_map kvs) s
    = Some (I3bar.mk_state ctx (I3bar.statusline_head s ++ [block_of kvs])).
Proof.
  unfold events_of_map. cbn [I3bar.yajl_parse I3bar.callback].
  cbn [mbind option_bind]. unfold I3bar.stdin_start_map.
  rewrite yajl_parse_app.
  destruct (yajl_parse_pairs kvs
              (I3bar.last_map_key (I3bar.parser_context s))
              (I3bar.mk_block None None) (I3bar.statusline_head s))
    as [key' ->].
  cbn [mbind option_bind I3bar.yajl_parse I3bar.callback].
  exists (I3bar.mk_ctx key' (read_into (I3bar.mk_block None None) kvs)).
  unfold I3bar.stdin_end_map, read_into, block_of.
  cbn [I3bar.parser_context I3bar.block I3bar.statusline_head
       I3bar.full_text I3bar.color].
  destruct (last_value "full_text" kvs), (last_value "color" kvs);
    reflexivity.
Qed.

Lemma yajl_parse_maps (maps : list json_map) (s : I3bar.parser_state) :
  ∃ ctx,
    I3bar.yajl_parse (maps ≫= events_of_map) s
    = Some (I3bar.mk_state ctx
              (I3bar.statusline_head s ++ (block_of <$> maps))).
Proof.
  revert s. induction maps as [|kvs maps IH]; intros s.
  { exists (I3bar.parser_context s). cbn. rewrite app_nil_r. by destruct s. }
  rewrite bind_cons, yajl_parse_app.
  destruct (yajl_parse_map kvs s) as [ctx1 ->]. cbn [mbind option_bind].
  destruct (IH (I3bar.mk_state ctx1
                  (I3bar.statusline_head s ++ [block_of kvs])))
    as [ctx ->].
  exists ctx. cbn [I3bar.statusline_head fmap list_fmap].
  by rewrite <- app_assoc.
Qed.

(** X22.  A status line that is an array of maps from keys to strings
    always parses, whatever the blocks before were, and leaves one block
    for each map, in order: its text is the value of the last key that
    [strcasecmp] finds equal to full_text, or SPEC VIOLATION (null)
    without such a key; its colour is the value of the last such key
    color, if any. *)
Theorem status_line_blocks (maps : list json_map) (s : I3bar.parser_state) :
  ∃ s',
    I3bar.yajl_parse (events_of_array maps) s = Some s'
    ∧ I3bar.statusline_head s' = block_of <$> maps.
Proof.
  unfold events_of_array. cbn [I3bar.yajl_parse I3bar.callback].
  cbn [mbind option_bind]. rewrite yajl_parse_app.
  destruct (yajl_parse_maps maps (I3bar.stdin_start_array s)) as [ctx ->].
  cbn [mbind option_bind I3bar.yajl_parse I3bar.callback
       I3bar.stdin_end_array I3bar.stdin_start_array I3bar.statusline_head].
  eexists. split; [reflexivity|]. done.
Qed.



Lemma yajl_parse_with_key (events : list I3bar.yajl_event)
    (s : I3bar.parser_state) :
  is_Some (I3bar.last_map_key (I3bar.parser_context s)) →
  is_Some (I3bar.yajl_parse events s).
Proof.
  revert s. induction events as [|e events IH]; intros s Hkey; [by eexists|].
  cbn [I3bar.yajl_parse].
  destruct e as [| | | |key|val]; cbn [I3bar.callback mbind option_bind];
    try (apply IH; first [exact Hkey|by eexists]).
  unfold I3bar.stdin_string. destruct Hkey as [key ->].
  cbn [mbind option_bind]. apply IH. by eexists.
Qed.

(** X24.  Before the parser has seen a key, it reads a string through
    the NULL pointer [last_map_key]; it does so for exactly the inputs in
    which a string comes before every key. *)
Theorem status_line_null_key (events : list I3bar.yajl_event)
    (s : I3bar.parser_state) :
  I3bar.last_map_key (I3bar.parser_context s) = None →
  I3bar.yajl_parse events s = None
  ↔ ∃ before val after,
      events = before ++ I3bar.yajl_string val :: after
      ∧ ∀ key, I3bar.yajl_map_key key ∉ before.
Proof.
  revert s. induction events as [|e events IH]; intros s Hkey.
  { split; [done|]. intros (before & val & after & Heq & _).
    by destruct before. }
  assert (Hother : ∀ s1,
    I3bar.last_map_key (I3bar.parser_context s1) = None →
    (∀ key, e ≠ I3bar.yajl_map_key key) → (∀ val, e ≠ I3bar.yajl_string val) →
    I3bar.yajl_parse events s1 = None
    ↔ ∃ before val after,
        e :: events = before ++ I3bar.yajl_string val :: after
        ∧ ∀ key, I3bar.yajl_map_key key ∉ before).
  { intros s1 Hkey1 Hk Hv. rewrite (IH s1 Hkey1). split.
    - intros (before & val & after & -> & Hno).
      exists (e :: before), val, after. split; [done|].
      intros key [Heq|Hin]%elem_of_cons; [by eapply Hk|by eapply Hno].
    - intros (before & val & after & Heq & Hno).
      destruct before as [|e' before].
      + injection Heq as -> _. by edestruct Hv.
      + injection Heq as <- ->. exists before, val, after.
        split; [done|]. intros key Hin. apply (Hno key). by right. }
  cbn [I3bar.yajl_parse].
  destruct e as [| | | |key|val]; cbn [I3bar.callback mbind option_bind];
    try (by apply Hother).
  - split.
    + intros Hnone.
      destruct (yajl_parse_with_key events (I3bar.stdin_map_key key s))
        as [s' Hs']; [by eexists|]. congruence.
    + intros (before & val & after & Heq & Hno).
      destruct before as [|e' before]; [done|].
      injection Heq as <- ->. destruct (Hno key). by left.
  - unfold I3bar.stdin_string. rewrite Hkey. cbn [mbind option_bind].
    split; [|done]. intros _. exists [], val, events. split; [done|].
    intros key Hin. by apply elem_of_nil in Hin.
Qed.

Lemma status_line_null_key_witness :
  I3bar.yajl_parse [I3bar.yajl_start_array; I3bar.yajl_string "date"]
    parser_start = None
  ↔ ∃ before val after,
      [I3bar.yajl_start_array; I3bar.yajl_string "date"]
      = before ++ I3bar.yajl_string val :: after
      ∧ ∀ key, I3bar.yajl_map_key key ∉ before.
Proof.
  apply (status_line_null_key
           [I3bar.yajl_start_array; I3bar.yajl_string "date"] parser_start).
  reflexivity.
Defined.

